(** * Orion: agent selection, dispatch and workflow scheduling

    A shallow embedding of the orchestration core of the Orion repository:

    - the socket server (the source file that starts with
      [const express = require('express')]): [OrchestrationAgent],
      [findBestAgent], [assignTask], the [POST /tasks] route, the
      [agent:register], [agent:task-complete] and [disconnect] handlers,
      [executeWorkflow] and [executeWorkflowTask];
    - [collaboration-demo.js]: [OrionAgent] and
      [CollaborativeWorkflowOrchestrator];
    - the server as a whole ([Sockets]): the handlers above with [ping],
      [agent:message] and the [GET] routes, and any number of calls of
      [executeWorkflow] in progress at once;
    - the React hook [useSocket] of the same source file ([Hook]): the
      history of messages and the listeners of [subscribe];
    - [claude-subagent-swarm.js] ([Swarm]): the constructor of
      [ClaudeSubAgent] and [getPreferredTools].

    Conventions of the embedding.

    - A JavaScript number that counts something is a [Z]; a number that is a
      rate or a time in milliseconds is a [Q].  Every finite double is a
      rational, and the comparisons the code makes ([<], the sign of a
      difference) are the comparisons of those rationals.  [+], [*] and [/]
      on [Q] stand for the operations on doubles: their rounding, and the
      overflow beyond the largest double, are not modelled.  The statements about rates and times are therefore
      equalities with the expression that the code evaluates, or bounds
      that rounding to nearest keeps; no statement is an identity of exact
      arithmetic, such as a quotient multiplied back.
    - Where an operand of the code need not be a number, the result is a
      [JS.num]: a rational or [NaN].  The times of the demo are, since the
      [complexity] of a task may name a property that an object literal
      inherits.
    - A [Map] is an association list in insertion order: [Map.prototype.set]
      on a present key replaces the value in place, on an absent key appends.
    - [Array.prototype.sort] is stable (ECMAScript 2019); it is embedded as
      a stable insertion sort, and [stable_sort_unique] below shows that any
      stable sort returns the same array.
    - [Math.random] is a stream read through a cursor, [uuidv4] a counter,
      [Date.now] a clock set by the environment.  Date stamps that are only
      stored ([timestamp], [createdAt], [lastSeen], ...) are left out.
    - An [async] function is a state machine: one step per event of the
      JavaScript event loop (a timer firing, a socket message arriving), each
      step running the awakened continuation until it suspends again. *)

From Stdlib Require Import List String ZArith QArith Qminmax Bool Arith Lia.
From Stdlib Require Import Permutation Sorting.Sorted Qround Lqa Ascii.
Import ListNotations.
Local Open Scope string_scope.
Local Open Scope list_scope.
Local Open Scope Z_scope.

Set Implicit Arguments.

(* ================================================================== *)
(** * JavaScript containers *)

Module JS.

Section MapModel.
Variables (K V : Type) (keq : K -> K -> bool).

(** [Map]: keys in insertion order. *)
Definition JsMap := list (K * V).

Fixpoint map_set (k : K) (v : V) (m : JsMap) : JsMap :=
  match m with
  | [] => [(k, v)]
  | (k', v') :: m' =>
      if keq k k' then (k, v) :: m' else (k', v') :: map_set k v m'
  end.

Fixpoint map_get (k : K) (m : JsMap) : option V :=
  match m with
  | [] => None
  | (k', v') :: m' => if keq k k' then Some v' else map_get k m'
  end.

Definition map_delete (k : K) (m : JsMap) : JsMap :=
  filter (fun kv => negb (keq k (fst kv))) m.

Definition map_values (m : JsMap) : list V := List.map snd m.

Definition map_keys (m : JsMap) : list K := List.map fst m.
End MapModel.

Section SortModel.
Variable A : Type.
(** The comparator: negative when its first argument goes first. *)
Variable compareFn : A -> A -> Q.

Fixpoint sort_insert (x : A) (l : list A) : list A :=
  match l with
  | [] => [x]
  | y :: l' =>
      if Qle_bool (compareFn x y) 0%Q then x :: y :: l'
      else y :: sort_insert x l'
  end.

(** [Array.prototype.sort(compareFn)]. *)
Definition array_sort (l : list A) : list A :=
  fold_right sort_insert [] l.
End SortModel.

(** [Array.prototype.includes] on an array of strings. *)
Definition includes (l : list string) (x : string) : bool :=
  existsb (String.eqb x) l.

(** A number that may be [NaN]: what an arithmetic expression gives when
    an operand need not be a number. *)
Inductive num :=
| Num (q : Q)
| NaN.

(** [a + b] *)
Definition add (a b : num) : num :=
  match a, b with
  | Num x, Num y => Num (x + y)
  | _, _ => NaN
  end.

(** [a * b] *)
Definition mul (a b : num) : num :=
  match a, b with
  | Num x, Num y => Num (x * y)
  | _, _ => NaN
  end.

(** [a / b], for a divisor that is not 0. *)
Definition div (a b : num) : num :=
  match a, b with
  | Num x, Num y => Num (x / y)
  | _, _ => NaN
  end.

(** [Math.max(a, b)]: [NaN] when an argument is. *)
Definition max (a b : num) : num :=
  match a, b with
  | Num x, Num y => Num (Qmax x y)
  | _, _ => NaN
  end.

(** [a || b] on numbers: 0 and [NaN] are falsy. *)
Definition or_else (a b : num) : num :=
  match a with
  | Num x => if Qeq_bool x 0 then b else a
  | NaN => b
  end.

(** The names of the properties that an object literal inherits from
    [Object.prototype]: functions, and the prototype itself under
    [__proto__]. *)
Definition inherited : list string :=
  ["constructor"; "__defineGetter__"; "__defineSetter__"; "hasOwnProperty";
   "__lookupGetter__"; "__lookupSetter__"; "isPrototypeOf";
   "propertyIsEnumerable"; "toString"; "valueOf"; "__proto__";
   "toLocaleString"].

End JS.

(* ================================================================== *)
(** * Workflow tasks (the objects of [workflow.tasks], both programs) *)

Record WfTask := mkWfTask {
  wt_name : string;
  wt_type : string;
  wt_capability : string;
  wt_complexity : option string;
  wt_parallel : bool;
  (** [None]: the task has no [dependencies] property.  An array, even the
      empty one, is truthy in JavaScript. *)
  wt_dependencies : option (list string)
}.

(** [task.parallel && !task.dependencies] *)
Definition isParallelTask (t : WfTask) : bool :=
  wt_parallel t && match wt_dependencies t with None => true | Some _ => false end.

(** [!task.parallel || task.dependencies] *)
Definition isSequentialTask (t : WfTask) : bool :=
  negb (wt_parallel t) || match wt_dependencies t with None => false | Some _ => true end.

(** The tasks of a workflow with their positions in [workflow.tasks], which
    stand for the identity of the task objects. *)
Definition indexed (A : Type) (l : list A) : list (nat * A) :=
  combine (seq 0 (List.length l)) l.

Definition parallelTasks (tasks : list WfTask) : list (nat * WfTask) :=
  filter (fun it => isParallelTask (snd it)) (indexed tasks).

Definition sequentialTasks (tasks : list WfTask) : list (nat * WfTask) :=
  filter (fun it => isSequentialTask (snd it)) (indexed tasks).

(** What is recorded of a run: the call of the dispatcher for the task at
    a position, and the settlement of the promise that call returned. *)
Inductive TraceEvent :=
| Dispatched (i : nat)
| Settled (i : nat).

Definition event_index (e : TraceEvent) : nat :=
  match e with Dispatched i => i | Settled i => i end.

(* ================================================================== *)
(** * The socket server *)

Module Server.

Record Performance := mkPerformance {
  successRate : Q;
  totalTasks : Z;
  totalResponseTime : Q
}.

Record OrchestrationAgent := mkAgent {
  id : string;
  capabilities : list string;
  socketId : string;
  status : string;
  tasksCompleted : Z;
  avgResponseTime : Q;
  performance : Performance
}.

(** [new OrchestrationAgent(id, capabilities, socketId)] *)
Definition newAgent (i : string) (caps : list string) (sock : string)
  : OrchestrationAgent :=
  {| id := i; capabilities := caps; socketId := sock; status := "active";
     tasksCompleted := 0; avgResponseTime := 0%Q;
     performance := {| successRate := (95 # 100)%Q; totalTasks := 0;
                       totalResponseTime := 0%Q |} |}.

(** [updatePerformance(responseTime, success = true)].  The sum and the
    two quotients are the [+] and [/] of the code, on doubles there. *)
Definition updatePerformance (a : OrchestrationAgent) (responseTime : Q)
    (success : bool) : OrchestrationAgent :=
  let total := totalTasks (performance a) + 1 in
  let completed := if success then tasksCompleted a + 1 else tasksCompleted a in
  let totalRT := if success
                 then (totalResponseTime (performance a) + responseTime)%Q
                 else totalResponseTime (performance a) in
  let avg := if success then (totalRT / inject_Z completed)%Q
             else avgResponseTime a in
  {| id := id a; capabilities := capabilities a; socketId := socketId a;
     status := status a;
     tasksCompleted := completed;
     avgResponseTime := avg;
     performance := {| successRate := (inject_Z completed / inject_Z total)%Q;
                       totalTasks := total;
                       totalResponseTime := totalRT |} |}.

(** [canHandle(capability)] *)
Definition canHandle (a : OrchestrationAgent) (capability : string) : bool :=
  JS.includes (capabilities a) capability.

Definition Agents := JS.JsMap string OrchestrationAgent.

(** [(a, b) => b.performance.successRate - a.performance.successRate] *)
Definition bySuccessRate (a b : OrchestrationAgent) : Q :=
  (successRate (performance b) - successRate (performance a))%Q.

(** The array [suitableAgents] of [findBestAgent]. *)
Definition suitableAgents (agents : Agents) (capability : string)
  : list OrchestrationAgent :=
  JS.array_sort bySuccessRate
    (filter (fun agent => canHandle agent capability
                          && String.eqb (status agent) "active")
            (JS.map_values agents)).

(** [findBestAgent(capability)]; [None] is [null]. *)
Definition findBestAgent (agents : Agents) (capability : string)
  : option OrchestrationAgent :=
  match suitableAgents agents capability with
  | [] => None
  | best :: _ => Some best
  end.


(** ** Module-level state and what the server sends *)

Record Metrics := mkMetrics {
  connections : Z;
  messagesProcessed : Z;
  activeAgents : Z;
  completedTasks : Z
}.

(** An ad-hoc task, as [POST /tasks] creates it.  [task_id] is the uuid. *)
Record Task := mkTask {
  task_id : nat;
  task_type : string;
  task_capability : string;
  task_data : string;
  task_priority : string;
  task_status : string;
  task_assignedAgent : option string;
  task_result : option string
}.

(** The result object of one workflow task. *)
Record TaskResult := mkTaskResult {
  r_task : string;
  r_agent : option string;
  r_success : option bool;
  r_error : option string;
  r_duration : option Q;
  r_data : option string
}.

(** The object a client sends as [task:<taskId>:complete]; each property may
    be absent. *)
Record Payload := mkPayload {
  pl_task : option string;
  pl_agent : option string;
  pl_success : option bool;
  pl_error : option string;
  pl_duration : option Q;
  pl_data : option string
}.

Record Workflow := mkWorkflow {
  wf_id : nat;
  wf_name : string;
  wf_tasks : list WfTask;
  wf_status : string;
  wf_startTime : Z;
  wf_results : list TaskResult;
  wf_duration : option Z
}.

Inductive Emit :=
| EmitTaskAssigned (toSocket : string) (taskId : nat)
    (type capability data priority : string)
| EmitWorkflowTask (toSocket : string) (taskId : nat) (task : WfTask)
    (requester : string)
| EmitAgentRegistered (toSocket agentId : string)
| EmitAgentJoined (fromSocket agentId : string)
| EmitAgentLeft (fromSocket agentId : string)
| EmitTaskCompleted (taskId : nat) (agentId : string) (success : bool)
| EmitWorkflowCompleted (toSocket : string) (w : Workflow).

Record ServerState := mkServer {
  agents : Agents;
  tasks : JS.JsMap nat Task;
  metrics : Metrics;
  uuids : nat;            (** how many times [uuidv4()] was called *)
  now : Z;                (** [Date.now()] *)
  outbox : list Emit
}.

Definition set_agents (sv : ServerState) (a : Agents) : ServerState :=
  {| agents := a; tasks := tasks sv; metrics := metrics sv; uuids := uuids sv;
     now := now sv; outbox := outbox sv |}.

Definition set_tasks (sv : ServerState) (t : JS.JsMap nat Task) : ServerState :=
  {| agents := agents sv; tasks := t; metrics := metrics sv; uuids := uuids sv;
     now := now sv; outbox := outbox sv |}.

Definition set_metrics (sv : ServerState) (m : Metrics) : ServerState :=
  {| agents := agents sv; tasks := tasks sv; metrics := m; uuids := uuids sv;
     now := now sv; outbox := outbox sv |}.

Definition set_now (sv : ServerState) (t : Z) : ServerState :=
  {| agents := agents sv; tasks := tasks sv; metrics := metrics sv;
     uuids := uuids sv; now := t; outbox := outbox sv |}.

Definition emit (sv : ServerState) (e : Emit) : ServerState :=
  {| agents := agents sv; tasks := tasks sv; metrics := metrics sv;
     uuids := uuids sv; now := now sv; outbox := outbox sv ++ [e] |}.

(** [uuidv4()] *)
Definition uuidv4 (sv : ServerState) : ServerState * nat :=
  ({| agents := agents sv; tasks := tasks sv; metrics := metrics sv;
      uuids := S (uuids sv); now := now sv; outbox := outbox sv |}, uuids sv).

(** ** [assignTask] and [POST /tasks] *)

Definition assignTask (sv : ServerState) (task : Task) (agent : OrchestrationAgent)
  : ServerState * Task :=
  let task' := {| task_id := task_id task; task_type := task_type task;
                  task_capability := task_capability task;
                  task_data := task_data task;
                  task_priority := task_priority task;
                  task_status := "assigned";
                  task_assignedAgent := Some (id agent);
                  task_result := task_result task |} in
  (emit (set_tasks sv (JS.map_set Nat.eqb (task_id task) task' (tasks sv)))
        (EmitTaskAssigned (socketId agent) (task_id task') (task_type task')
           (task_capability task') (task_data task') (task_priority task')),
   task').

(** The body of a [POST /tasks] request. *)
Record TaskRequest := mkTaskRequest {
  req_type : string;
  req_capability : string;
  req_data : string;
  req_priority : option string
}.

(** [app.post('/tasks', ...)]: the new state, the HTTP status and the JSON
    body of the response. *)
Definition post_tasks (sv : ServerState) (body : TaskRequest)
  : ServerState * (Z * Task) :=
  let '(sv1, newId) := uuidv4 sv in
  let task := {| task_id := newId; task_type := req_type body;
                 task_capability := req_capability body;
                 task_data := req_data body;
                 task_priority := match req_priority body with
                                  | Some p => p | None => "medium" end;
                 task_status := "pending";
                 task_assignedAgent := None;
                 task_result := None |} in
  let sv2 := set_tasks sv1 (JS.map_set Nat.eqb newId task (tasks sv1)) in
  match findBestAgent (agents sv2) (req_capability body) with
  | Some availableAgent =>
      let '(sv3, task') := assignTask sv2 task availableAgent in
      (sv3, (201, task'))
  | None => (sv2, (201, task))
  end.

(** ** Socket handlers that change the registry *)

(** [socket.on('agent:register', ...)] on socket [sock]. *)
Definition on_agent_register (sv : ServerState) (sock agentId : string)
    (caps : list string) : ServerState :=
  let agent := newAgent agentId caps sock in
  let ags := JS.map_set String.eqb agentId agent (agents sv) in
  let m := metrics sv in
  let sv1 := set_metrics (set_agents sv ags)
               {| connections := connections m;
                  messagesProcessed := messagesProcessed m;
                  activeAgents := Z.of_nat (List.length ags);
                  completedTasks := completedTasks m |} in
  emit (emit sv1 (EmitAgentRegistered sock agentId)) (EmitAgentJoined sock agentId).

(** The data of an [agent:task-complete] message. *)
Record CompletionData := mkCompletionData {
  cd_taskId : nat;
  cd_result : option string;
  cd_responseTime : Q;
  cd_success : option bool
}.

Definition set_task_outcome (task : Task) (success : bool) (res : option string)
  : Task :=
  {| task_id := task_id task; task_type := task_type task;
     task_capability := task_capability task; task_data := task_data task;
     task_priority := task_priority task;
     task_status := if success then "completed" else "failed";
     task_assignedAgent := task_assignedAgent task;
     task_result := res |}.

(** [socket.on('agent:task-complete', ...)] *)
Definition on_agent_task_complete (sv : ServerState) (data : CompletionData)
  : ServerState :=
  let success := match cd_success data with Some b => b | None => true end in
  match JS.map_get Nat.eqb (cd_taskId data) (tasks sv) with
  | None => sv
  | Some task =>
      match task_assignedAgent task with
      | None => sv
      | Some assigned =>
          if String.eqb assigned "" then sv else
          match JS.map_get String.eqb assigned (agents sv) with
          | None => sv
          | Some agent =>
              let agent' := updatePerformance agent (cd_responseTime data) success in
              let sv1 := set_agents sv (JS.map_set String.eqb assigned agent' (agents sv)) in
              let sv2 := set_tasks sv1
                           (JS.map_set Nat.eqb (cd_taskId data)
                              (set_task_outcome task success (cd_result data))
                              (tasks sv1)) in
              let m := metrics sv2 in
              let sv3 := if success
                         then set_metrics sv2
                                {| connections := connections m;
                                   messagesProcessed := messagesProcessed m;
                                   activeAgents := activeAgents m;
                                   completedTasks := completedTasks m + 1 |}
                         else sv2 in
              emit sv3 (EmitTaskCompleted (cd_taskId data) (id agent') success)
          end
      end
  end.

(** [socket.on('disconnect', ...)] on socket [sock]. *)
Definition on_disconnect (sv : ServerState) (sock : string) : ServerState :=
  let gone := filter (fun kv => String.eqb (socketId (snd kv)) sock) (agents sv) in
  let kept := filter (fun kv => negb (String.eqb (socketId (snd kv)) sock)) (agents sv) in
  let m := metrics sv in
  let sv1 := set_metrics (set_agents sv kept)
               {| connections := connections m - 1;
                  messagesProcessed := messagesProcessed m;
                  activeAgents := match gone with
                                  | [] => activeAgents m
                                  | _ => Z.of_nat (List.length kept) end;
                  completedTasks := completedTasks m |} in
  fold_left (fun s kv => emit s (EmitAgentLeft sock (fst kv))) gone sv1.


(** ** One run of [executeWorkflow]

    [executeWorkflowTask] returns a promise and leaves behind a timer and a
    [socket.once] listener, both holding the [resolve] of that promise. *)

Record Attempt := mkAttempt {
  at_taskId : nat;             (** the uuid of the attempt *)
  at_agent : string;           (** [agent.id] *)
  at_startTime : Z;
  at_timer : bool;             (** the [setTimeout] is still pending *)
  at_listener : bool           (** the [socket.once] listener is registered *)
}.

Record Promise := mkPromise {
  p_index : nat;               (** position of the task in [workflow.tasks] *)
  p_name : string;             (** [task.name] *)
  p_attempt : option Attempt;  (** the attempt, when an agent was found *)
  p_value : option TaskResult  (** what the promise resolved with *)
}.

Definition p_timer (p : Promise) : bool :=
  match p_attempt p with Some a => at_timer a | None => false end.

Definition p_listener (p : Promise) : bool :=
  match p_attempt p with Some a => at_listener a | None => false end.

(** Where the [async] function [executeWorkflow] is suspended. *)
Inductive Cont :=
| AwaitAllSettled (pids : list nat) (sequential : list (nat * WfTask))
| AwaitTask (pid : nat) (rest : list (nat * WfTask))
| Returned.

Record Run := mkRun {
  requester : string;          (** [socket.id] of the client that asked *)
  workflow : Workflow;
  promises : list Promise;     (** in creation order *)
  cont : Cont;
  trace : list TraceEvent      (** what happened, for the statements below;
                                   nothing reads it *)
}.

Definition set_workflow (r : Run) (w : Workflow) : Run :=
  {| requester := requester r; workflow := w; promises := promises r;
     cont := cont r; trace := trace r |}.

Definition set_cont (r : Run) (c : Cont) : Run :=
  {| requester := requester r; workflow := workflow r; promises := promises r;
     cont := c; trace := trace r |}.

Definition set_promises (r : Run) (ps : list Promise) (evs : list TraceEvent)
  : Run :=
  {| requester := requester r; workflow := workflow r; promises := ps;
     cont := cont r; trace := trace r ++ evs |}.

(** [workflow.results.push(...rs)] *)
Definition push_results (r : Run) (rs : list TaskResult) : Run :=
  let w := workflow r in
  set_workflow r {| wf_id := wf_id w; wf_name := wf_name w; wf_tasks := wf_tasks w;
                    wf_status := wf_status w; wf_startTime := wf_startTime w;
                    wf_results := wf_results w ++ rs;
                    wf_duration := wf_duration w |}.

(** [resolve(v)]: only the first call has an effect. *)
Definition resolve (p : Promise) (v : TaskResult) : Promise * list TraceEvent :=
  match p_value p with
  | Some _ => (p, [])
  | None =>
      ({| p_index := p_index p; p_name := p_name p; p_attempt := p_attempt p;
          p_value := Some v |}, [Settled (p_index p)])
  end.

Definition noAgentResult (name : string) : TaskResult :=
  {| r_task := name; r_agent := None; r_success := Some false;
     r_error := Some "No suitable agent available"; r_duration := None;
     r_data := None |}.

Definition timeoutResult (name agent : string) (duration : Z) : TaskResult :=
  {| r_task := name; r_agent := Some agent; r_success := Some false;
     r_error := Some "Task timeout"; r_duration := Some (inject_Z duration);
     r_data := None |}.

Definition orElse (A : Type) (x : option A) (y : option A) : option A :=
  match x with Some _ => x | None => y end.

(** [{ task: task.name, agent: agent.id, duration: ..., ...result }]: the
    properties of the payload come last and win. *)
Definition completionResult (name agent : string) (duration : Z) (pl : Payload)
  : TaskResult :=
  {| r_task := match pl_task pl with Some t => t | None => name end;
     r_agent := orElse (pl_agent pl) (Some agent);
     r_success := pl_success pl;
     r_error := pl_error pl;
     r_duration := orElse (pl_duration pl) (Some (inject_Z duration));
     r_data := pl_data pl |}.

(** [executeWorkflowTask(task, socket)], up to the return of the promise. *)
Definition executeWorkflowTask (sv : ServerState) (r : Run) (it : nat * WfTask)
  : ServerState * Run * Promise :=
  let '(i, task) := it in
  match findBestAgent (agents sv) (wt_capability task) with
  | None =>
      let p := {| p_index := i; p_name := wt_name task; p_attempt := None;
                  p_value := Some (noAgentResult (wt_name task)) |} in
      (sv, set_promises r (promises r ++ [p]) [Dispatched i; Settled i], p)
  | Some agent =>
      let '(sv1, taskId) := uuidv4 sv in
      let p := {| p_index := i; p_name := wt_name task;
                  p_attempt := Some {| at_taskId := taskId; at_agent := id agent;
                                       at_startTime := now sv1;
                                       at_timer := true; at_listener := true |};
                  p_value := None |} in
      (emit sv1 (EmitWorkflowTask (socketId agent) taskId task (requester r)),
       set_promises r (promises r ++ [p]) [Dispatched i], p)
  end.

Definition set_attempt (p : Promise) (a : Attempt) : Promise :=
  {| p_index := p_index p; p_name := p_name p; p_attempt := Some a;
     p_value := p_value p |}.

(** The callback of [setTimeout], for the attempt [taskId]. *)
Definition timer_callback (clock : Z) (taskId : nat) (p : Promise)
  : Promise * list TraceEvent :=
  match p_attempt p with
  | Some a =>
      if Nat.eqb (at_taskId a) taskId && at_timer a then
        resolve (set_attempt p {| at_taskId := at_taskId a; at_agent := at_agent a;
                                  at_startTime := at_startTime a;
                                  at_timer := false;
                                  at_listener := at_listener a |})
                (timeoutResult (p_name p) (at_agent a) (clock - at_startTime a))
      else (p, [])
  | None => (p, [])
  end.

(** The listener of [socket.once(`task:${taskId}:complete`, ...)]: removed
    as it is called, it clears the timer and resolves. *)
Definition listener_callback (clock : Z) (taskId : nat) (pl : Payload)
    (p : Promise) : Promise * list TraceEvent :=
  match p_attempt p with
  | Some a =>
      if Nat.eqb (at_taskId a) taskId && at_listener a then
        resolve (set_attempt p {| at_taskId := at_taskId a; at_agent := at_agent a;
                                  at_startTime := at_startTime a;
                                  at_timer := false; at_listener := false |})
                (completionResult (p_name p) (at_agent a)
                   (clock - at_startTime a) pl)
      else (p, [])
  | None => (p, [])
  end.

Definition deliver (f : Promise -> Promise * list TraceEvent) (r : Run) : Run :=
  set_promises r (List.map (fun p => fst (f p)) (promises r))
                 (flat_map (fun p => snd (f p)) (promises r)).

Definition promise_value (r : Run) (pid : nat) : option TaskResult :=
  match nth_error (promises r) pid with
  | Some p => p_value p
  | None => None
  end.

Definition settled (r : Run) (pid : nat) : bool :=
  match promise_value r pid with Some _ => true | None => false end.

(** [r.value || { success: false, error: r.reason }] over the settled
    promises; none of them is ever rejected. *)
Definition values (r : Run) (pids : list nat) : list TaskResult :=
  flat_map (fun pid => match promise_value r pid with
                       | Some v => [v] | None => [] end) pids.

(** The end of [executeWorkflow] and of the [workflow:execute] handler. *)
Definition complete (sv : ServerState) (r : Run) : ServerState * Run :=
  let w := workflow r in
  let w' := {| wf_id := wf_id w; wf_name := wf_name w; wf_tasks := wf_tasks w;
               wf_status := "completed"; wf_startTime := wf_startTime w;
               wf_results := wf_results w;
               wf_duration := Some (now sv - wf_startTime w) |} in
  (emit sv (EmitWorkflowCompleted (requester r) w'),
   set_cont (set_workflow r w') Returned).

(** The [for (const task of sequentialTasks)] loop, from the task it is
    about to start to its next suspension. *)
Fixpoint sequential_loop (sv : ServerState) (r : Run) (todo : list (nat * WfTask))
  : ServerState * Run :=
  match todo with
  | [] => complete sv r
  | it :: rest =>
      let '(sv1, r1, p) := executeWorkflowTask sv r it in
      match p_value p with
      | Some v => sequential_loop sv1 (push_results r1 [v]) rest
      | None => (sv1, set_cont r1 (AwaitTask (List.length (promises r)) rest))
      end
  end.

(** [parallelTasks.map(task => executeWorkflowTask(task, socket))] *)
Fixpoint dispatch_all (sv : ServerState) (r : Run) (todo : list (nat * WfTask))
  : ServerState * Run * list nat :=
  match todo with
  | [] => (sv, r, [])
  | it :: rest =>
      let pid := List.length (promises r) in
      let '(sv1, r1, _) := executeWorkflowTask sv r it in
      let '(sv2, r2, pids) := dispatch_all sv1 r1 rest in
      (sv2, r2, pid :: pids)
  end.

(** Runs the continuation of [executeWorkflow] if what it awaits is settled. *)
Definition resume (sv : ServerState) (r : Run) : ServerState * Run :=
  match cont r with
  | AwaitAllSettled pids sequential =>
      if forallb (settled r) pids
      then sequential_loop sv (push_results r (values r pids)) sequential
      else (sv, r)
  | AwaitTask pid rest =>
      match promise_value r pid with
      | Some v => sequential_loop sv (push_results r [v]) rest
      | None => (sv, r)
      end
  | Returned => (sv, r)
  end.

(** The message of a [workflow:execute] request. *)
Record WorkflowData := mkWorkflowData {
  wd_name : string;
  wd_tasks : list WfTask
}.

(** [socket.on('workflow:execute', ...)] on socket [sock], up to the first
    suspension of [executeWorkflow].  The [workflows] map, which nothing
    reads, is left out. *)
Definition on_workflow_execute (sv : ServerState) (sock : string)
    (wd : WorkflowData) : ServerState * Run :=
  let '(sv1, wid) := uuidv4 sv in
  let r := {| requester := sock;
              workflow := {| wf_id := wid; wf_name := wd_name wd;
                             wf_tasks := wd_tasks wd; wf_status := "executing";
                             wf_startTime := now sv1; wf_results := [];
                             wf_duration := None |};
              promises := []; cont := Returned; trace := [] |} in
  match parallelTasks (wd_tasks wd) with
  | [] => sequential_loop sv1 r (sequentialTasks (wd_tasks wd))
  | par =>
      let '(sv2, r2, pids) := dispatch_all sv1 r par in
      resume sv2 (set_cont r2 (AwaitAllSettled pids (sequentialTasks (wd_tasks wd))))
  end.

(** What the event loop can run while [executeWorkflow] is suspended: the
    clock moves on; a message [agent:register], [agent:task-complete] or
    [disconnect] arrives on some socket; a [POST /tasks] request comes in;
    the 30 s timer of the attempt [taskId] fires; the message
    [task:<taskId>:complete] arrives on the socket of the requester.  Events
    come in any order: a timer may fire at any time after it was set. *)
Inductive Event :=
| Tick (t : Z)
| AgentRegister (sock agentId : string) (caps : list string)
| AgentTaskComplete (data : CompletionData)
| Disconnect (sock : string)
| PostTask (body : TaskRequest)
| TimerFires (taskId : nat)
| TaskCompleteSignal (taskId : nat) (pl : Payload).

Definition step (st : ServerState * Run) (e : Event) : ServerState * Run :=
  let '(sv, r) := st in
  match e with
  | Tick t => (set_now sv t, r)
  | AgentRegister sock agentId caps => (on_agent_register sv sock agentId caps, r)
  | AgentTaskComplete data => (on_agent_task_complete sv data, r)
  | Disconnect sock => (on_disconnect sv sock, r)
  | PostTask body => (fst (post_tasks sv body), r)
  | TimerFires taskId => resume sv (deliver (timer_callback (now sv) taskId) r)
  | TaskCompleteSignal taskId pl =>
      resume sv (deliver (listener_callback (now sv) taskId pl) r)
  end.

Definition run_events (st : ServerState * Run) (evs : list Event)
  : ServerState * Run :=
  fold_left step evs st.

End Server.

(* ================================================================== *)
(** * collaboration-demo.js *)

Module Demo.

Record OrionAgent := mkAgent {
  id : string;
  capabilities : list string;
  avgResponseTime : Q;
  successRate : Q;
  tasksCompleted : Z;
  totalResponseTime : JS.num;
  isActive : bool
}.

(** [new OrionAgent(id, capabilities, avgResponseTime = 1000,
    successRate = 0.95)]; [None] is an argument left out. *)
Definition newAgent (i : string) (caps : list string) (avg rate : option Q)
  : OrionAgent :=
  {| id := i; capabilities := caps;
     avgResponseTime := match avg with Some t => t | None => 1000%Q end;
     successRate := match rate with Some s => s | None => (95 # 100)%Q end;
     tasksCompleted := 0; totalResponseTime := JS.Num 0; isActive := true |}.

Record PerformanceMetrics := mkPerformanceMetrics {
  m_avgResponseTime : JS.num;
  m_tasksCompleted : Z;
  m_successRate : Q;
  m_isActive : bool
}.

(** [getPerformanceMetrics()].  The quotient is the [/] of the code, on
    doubles there. *)
Definition getPerformanceMetrics (a : OrionAgent) : PerformanceMetrics :=
  {| m_avgResponseTime := if 0 <? tasksCompleted a
                          then JS.div (totalResponseTime a)
                                      (JS.Num (inject_Z (tasksCompleted a)))
                          else JS.Num (avgResponseTime a);
     m_tasksCompleted := tasksCompleted a;
     m_successRate := successRate a;
     m_isActive := isActive a |}.

Inductive LogLine :=
| LogRegistered (agentId : string) (nCapabilities : nat)
| LogExecutingWorkflow (name : string)
| LogParallelPhase
| LogSequentialPhase
| LogDependencies (deps : list string)
| LogProcessing (agentId taskType : string)
| LogFailedTryingBackup (agentId : string).

(** The result of [OrionAgent.executeTask].  The insights are the task type
    and the position in the random stream of the twelve draws the
    templates of [generateInsights] make. *)
Record AgentResult := mkAgentResult {
  ar_success : bool;
  ar_duration : JS.num;
  ar_error : option string;
  ar_insights : option (string * nat);
  ar_metrics : option PerformanceMetrics
}.

(** The result of [CollaborativeWorkflowOrchestrator.executeTask]. *)
Record TaskResult := mkTaskResult {
  r_task : string;
  r_agent : option string;
  r_success : bool;
  r_error : option string;
  r_duration : JS.num;
  r_insights : option (string * nat);
  r_metrics : option PerformanceMetrics
}.

Record WorkflowResult := mkWorkflowResult {
  wr_workflow : string;
  wr_totalDuration : Z;
  wr_results : list TaskResult;
  wr_success : bool
}.

(** The orchestrator object and its environment. *)
Record State := mkState {
  agents : JS.JsMap string OrionAgent;
  executionHistory : list WorkflowResult;
  random : nat -> Q;      (** the values [Math.random()] returns, in order *)
  cursor : nat;           (** how many of them were drawn *)
  now : Z;                (** [Date.now()] *)
  console : list LogLine
}.

Definition set_agents (st : State) (a : JS.JsMap string OrionAgent) : State :=
  {| agents := a; executionHistory := executionHistory st; random := random st;
     cursor := cursor st; now := now st; console := console st |}.

Definition set_now (st : State) (t : Z) : State :=
  {| agents := agents st; executionHistory := executionHistory st;
     random := random st; cursor := cursor st; now := t; console := console st |}.

Definition log (st : State) (l : LogLine) : State :=
  {| agents := agents st; executionHistory := executionHistory st;
     random := random st; cursor := cursor st; now := now st;
     console := console st ++ [l] |}.

(** [Math.random()] *)
Definition math_random (st : State) : State * Q :=
  ({| agents := agents st; executionHistory := executionHistory st;
      random := random st; cursor := S (cursor st); now := now st;
      console := console st |}, random st (cursor st)).

Definition skip_random (st : State) (n : nat) : State :=
  {| agents := agents st; executionHistory := executionHistory st;
     random := random st; cursor := (n + cursor st)%nat; now := now st;
     console := console st |}.

(** [registerAgent(agent)] *)
Definition registerAgent (st : State) (agent : OrionAgent) : State :=
  log (set_agents st (JS.map_set String.eqb (id agent) agent (agents st)))
      (LogRegistered (id agent) (List.length (capabilities agent))).

(** The object a reference denotes.  The arrays of [executeTask] hold
    references to the agent objects of the map, and no agent is registered
    while a task runs: the object is the one the map holds under the [id],
    read in its current state.  ([a] itself stands for an object that is
    not in the map.) *)
Definition deref (st : State) (a : OrionAgent) : OrionAgent :=
  match JS.map_get String.eqb (id a) (agents st) with
  | Some a' => a'
  | None => a
  end.

(** Applies [f] to the agent object registered under [k]. *)
Definition mutate (st : State) (k : string) (f : OrionAgent -> OrionAgent)
  : State :=
  set_agents st
    (List.map (fun kv => if String.eqb k (fst kv) then (fst kv, f (snd kv)) else kv)
       (agents st)).

(** [{ simple: 0.7, medium: 1.0, complex: 1.5 }[complexity] || 1.0] as a
    factor of a product, with the default ['medium'] of the parameter.
    The lookup finds the three keys of the literal and, for a name that
    the literal inherits, a function or an object: that value is truthy,
    so it is the multiplier, and the product with it is [NaN].  For any
    other string the lookup is [undefined] and the multiplier 1. *)
Definition complexityMultiplier (complexity : option string) : JS.num :=
  match complexity with
  | None => JS.Num 1
  | Some c => if String.eqb c "simple" then JS.Num (7 # 10)
              else if String.eqb c "medium" then JS.Num 1
              else if String.eqb c "complex" then JS.Num (15 # 10)
              else if JS.includes JS.inherited c then JS.NaN
              else JS.Num 1
  end.

(** [OrionAgent.executeTask] up to its [await]: the processing time. *)
Definition begin_attempt (st : State) (agent : OrionAgent) (taskType : string)
    (complexity : option string) : State * JS.num :=
  let this := deref st agent in
  let st1 := log st (LogProcessing (id agent) taskType) in
  let baseTime := JS.mul (JS.Num (avgResponseTime this))
                         (complexityMultiplier complexity) in
  let '(st2, r) := math_random st1 in
  let variance := JS.mul (JS.mul baseTime (JS.Num (2 # 10)))
                         (JS.Num (r - (1 # 2))) in
  (st2, JS.max (JS.Num 100) (JS.add baseTime variance)).

(** [this.tasksCompleted++; this.totalResponseTime += processingTime] *)
Definition record_success (processingTime : JS.num) (a : OrionAgent)
  : OrionAgent :=
  {| id := id a; capabilities := capabilities a;
     avgResponseTime := avgResponseTime a; successRate := successRate a;
     tasksCompleted := tasksCompleted a + 1;
     totalResponseTime := JS.add (totalResponseTime a) processingTime;
     isActive := isActive a |}.

(** [OrionAgent.executeTask] after its [await]. *)
Definition finish_attempt (st : State) (agent : OrionAgent) (taskType : string)
    (processingTime : JS.num) : State * AgentResult :=
  let '(st1, r) := math_random st in
  let success := negb (Qle_bool (successRate (deref st1 agent)) r) in
  if success then
    let st2 := mutate st1 (id agent) (record_success processingTime) in
    let insights := (taskType, cursor st2) in
    let st3 := skip_random st2 12 in
    (st3, {| ar_success := true; ar_duration := processingTime;
             ar_error := None; ar_insights := Some insights;
             ar_metrics := Some (getPerformanceMetrics (deref st3 agent)) |})
  else
    (st1, {| ar_success := false; ar_duration := processingTime;
             ar_error := Some ("Task " ++ taskType
                              ++ " failed - retrying with backup agent")%string;
             ar_insights := None; ar_metrics := None |}).

(** [(a, b) => b.successRate - a.successRate] *)
Definition bySuccessRate (a b : OrionAgent) : Q :=
  (successRate b - successRate a)%Q.

(** The array [suitableAgents] of [executeTask]. *)
Definition suitableAgents (st : State) (capability : string) : list OrionAgent :=
  JS.array_sort bySuccessRate
    (filter (fun agent => JS.includes (capabilities agent) capability)
            (JS.map_values (agents st))).

Definition noAgentResult (task : WfTask) : TaskResult :=
  {| r_task := wt_name task; r_agent := None; r_success := false;
     r_error := Some "No suitable agent found"; r_duration := JS.Num 0;
     r_insights := None; r_metrics := None |}.

(** [{ task: task.name, agent: agent.id, ...result }] *)
Definition attributed (task : WfTask) (agent : OrionAgent) (res : AgentResult)
  : TaskResult :=
  {| r_task := wt_name task; r_agent := Some (id agent);
     r_success := ar_success res; r_error := ar_error res;
     r_duration := ar_duration res; r_insights := ar_insights res;
     r_metrics := ar_metrics res |}.

(** The result after the loop; [last] is the [result] variable, and the
    duration is [result?.duration || 0]. *)
Definition allFailedResult (task : WfTask) (last : option AgentResult)
  : TaskResult :=
  {| r_task := wt_name task; r_agent := None; r_success := false;
     r_error := Some "All suitable agents failed";
     r_duration := match last with
                   | Some res => JS.or_else (ar_duration res) (JS.Num 0)
                   | None => JS.Num 0
                   end;
     r_insights := None; r_metrics := None |}.

(** The [for (const agent of suitableAgents)] loop of [executeTask], when
    nothing else runs between its attempts. *)
Fixpoint tryAgents (st : State) (task : WfTask) (candidates : list OrionAgent)
    (last : option AgentResult) : State * TaskResult :=
  match candidates with
  | [] => (st, allFailedResult task last)
  | agent :: rest =>
      let '(st1, processingTime) :=
        begin_attempt st agent (wt_type task) (wt_complexity task) in
      let '(st2, result) := finish_attempt st1 agent (wt_type task) processingTime in
      if ar_success result then (st2, attributed task agent result)
      else tryAgents (log st2 (LogFailedTryingBackup (id agent))) task rest
                     (Some result)
  end.

(** [CollaborativeWorkflowOrchestrator.executeTask(task)], awaited alone. *)
Definition executeTask (st : State) (task : WfTask) : State * TaskResult :=
  match suitableAgents st (wt_capability task) with
  | [] => (st, noAgentResult task)
  | candidates => tryAgents st task candidates None
  end.


(** ** One run of [executeWorkflow]

    A call of [executeTask] that has not returned is suspended in the
    [await] of [agent.executeTask], on the timer of the current attempt. *)

Inductive Progress :=
| Attempting (agent : OrionAgent) (processingTime : JS.num)
             (rest : list OrionAgent)
| Finished (result : TaskResult).

Record Thread := mkThread {
  th_index : nat;              (** position of the task in [workflow.tasks] *)
  th_task : WfTask;
  th_progress : Progress
}.

(** [executeTask(task)] up to its first suspension. *)
Definition start_task (st : State) (it : nat * WfTask)
  : State * Thread * list TraceEvent :=
  let '(i, task) := it in
  match suitableAgents st (wt_capability task) with
  | [] => (st, {| th_index := i; th_task := task;
                  th_progress := Finished (noAgentResult task) |},
           [Dispatched i; Settled i])
  | agent :: rest =>
      let '(st1, processingTime) :=
        begin_attempt st agent (wt_type task) (wt_complexity task) in
      (st1, {| th_index := i; th_task := task;
               th_progress := Attempting agent processingTime rest |},
       [Dispatched i])
  end.

(** The timer of the current attempt fires: [executeTask] goes on to its
    return or to the [await] of the next attempt. *)
Definition timer_fires (st : State) (th : Thread)
  : State * Thread * list TraceEvent :=
  match th_progress th with
  | Finished _ => (st, th, [])
  | Attempting agent processingTime rest =>
      let task := th_task th in
      let '(st1, result) := finish_attempt st agent (wt_type task) processingTime in
      if ar_success result then
        (st1, {| th_index := th_index th; th_task := task;
                 th_progress := Finished (attributed task agent result) |},
         [Settled (th_index th)])
      else
        let st2 := log st1 (LogFailedTryingBackup (id agent)) in
        match rest with
        | [] => (st2, {| th_index := th_index th; th_task := task;
                         th_progress := Finished (allFailedResult task (Some result)) |},
                 [Settled (th_index th)])
        | next :: rest' =>
            let '(st3, processingTime') :=
              begin_attempt st2 next (wt_type task) (wt_complexity task) in
            (st3, {| th_index := th_index th; th_task := task;
                     th_progress := Attempting next processingTime' rest' |}, [])
        end
  end.

(** A call of [executeTask] taken to its return by the timers of its
    attempts, when nothing else runs in between: at most [fuel] of them. *)
Fixpoint run_thread (fuel : nat) (st : State) (th : Thread) : State * Thread :=
  match fuel with
  | O => (st, th)
  | S fuel' =>
      match th_progress th with
      | Finished _ => (st, th)
      | Attempting _ _ _ =>
          let '(st1, th1, _) := timer_fires st th in run_thread fuel' st1 th1
      end
  end.

(** Where the [async] function [executeWorkflow] is suspended. *)
Inductive Cont :=
| AwaitAll (pids : list nat)
| AwaitTask (pid : nat) (rest : list (nat * WfTask))
| Returned (result : WorkflowResult).

Record Run := mkRun {
  wf_name : string;
  wf_tasks : list WfTask;
  startTime : Z;
  results : list TaskResult;
  threads : list Thread;       (** the calls of [executeTask], in order *)
  cont : Cont;
  trace : list TraceEvent      (** what happened, for the statements below;
                                   nothing reads it *)
}.

Definition set_cont (r : Run) (c : Cont) : Run :=
  {| wf_name := wf_name r; wf_tasks := wf_tasks r; startTime := startTime r;
     results := results r; threads := threads r; cont := c; trace := trace r |}.

Definition set_threads (r : Run) (ths : list Thread) (evs : list TraceEvent)
  : Run :=
  {| wf_name := wf_name r; wf_tasks := wf_tasks r; startTime := startTime r;
     results := results r; threads := ths; cont := cont r;
     trace := trace r ++ evs |}.

(** [results.push(...rs)] *)
Definition push_results (r : Run) (rs : list TaskResult) : Run :=
  {| wf_name := wf_name r; wf_tasks := wf_tasks r; startTime := startTime r;
     results := results r ++ rs; threads := threads r; cont := cont r;
     trace := trace r |}.

Definition thread_result (r : Run) (pid : nat) : option TaskResult :=
  match nth_error (threads r) pid with
  | Some {| th_progress := Finished res |} => Some res
  | _ => None
  end.

Definition finished (r : Run) (pid : nat) : bool :=
  match thread_result r pid with Some _ => true | None => false end.

Definition thread_results (r : Run) (pids : list nat) : list TaskResult :=
  flat_map (fun pid => match thread_result r pid with
                       | Some v => [v] | None => [] end) pids.

(** The end of [executeWorkflow]. *)
Definition complete (st : State) (r : Run) : State * Run :=
  let workflowResult :=
    {| wr_workflow := wf_name r;
       wr_totalDuration := now st - startTime r;
       wr_results := results r;
       wr_success := forallb r_success (results r) |} in
  ({| agents := agents st;
      executionHistory := executionHistory st ++ [workflowResult];
      random := random st; cursor := cursor st; now := now st;
      console := console st |},
   set_cont r (Returned workflowResult)).

(** The [for (const task of sequentialTasks)] loop, from the task it is
    about to start to its next suspension. *)
Fixpoint sequential_loop (st : State) (r : Run) (todo : list (nat * WfTask))
  : State * Run :=
  match todo with
  | [] => complete st r
  | it :: rest =>
      let st0 := match wt_dependencies (snd it) with
                 | Some deps => log st (LogDependencies deps)
                 | None => st
                 end in
      let '(st1, th, evs) := start_task st0 it in
      let r1 := set_threads r (threads r ++ [th]) evs in
      match th_progress th with
      | Finished res => sequential_loop st1 (push_results r1 [res]) rest
      | Attempting _ _ _ =>
          (st1, set_cont r1 (AwaitTask (List.length (threads r)) rest))
      end
  end.

(** The sequential phase, from the second [filter]. *)
Definition sequential_phase (st : State) (r : Run) : State * Run :=
  match sequentialTasks (wf_tasks r) with
  | [] => complete st r
  | todo => sequential_loop (log st LogSequentialPhase) r todo
  end.

(** [parallelTasks.map(task => this.executeTask(task))] *)
Fixpoint dispatch_all (st : State) (r : Run) (todo : list (nat * WfTask))
  : State * Run * list nat :=
  match todo with
  | [] => (st, r, [])
  | it :: rest =>
      let pid := List.length (threads r) in
      let '(st1, th, evs) := start_task st it in
      let '(st2, r2, pids) :=
        dispatch_all st1 (set_threads r (threads r ++ [th]) evs) rest in
      (st2, r2, pid :: pids)
  end.

(** Runs the continuation of [executeWorkflow] if what it awaits is settled. *)
Definition resume (st : State) (r : Run) : State * Run :=
  match cont r with
  | AwaitAll pids =>
      if forallb (finished r) pids
      then sequential_phase st (push_results r (thread_results r pids))
      else (st, r)
  | AwaitTask pid rest =>
      match thread_result r pid with
      | Some res => sequential_loop st (push_results r [res]) rest
      | None => (st, r)
      end
  | Returned _ => (st, r)
  end.

(** The workflow object passed to [executeWorkflow]. *)
Record WorkflowData := mkWorkflowData {
  wd_name : string;
  wd_tasks : list WfTask
}.

(** [executeWorkflow(workflow)] up to its first suspension. *)
Definition executeWorkflow (st : State) (wd : WorkflowData) : State * Run :=
  let st1 := log st (LogExecutingWorkflow (wd_name wd)) in
  let r := {| wf_name := wd_name wd; wf_tasks := wd_tasks wd;
              startTime := now st1; results := []; threads := [];
              cont := AwaitAll []; trace := [] |} in
  match parallelTasks (wd_tasks wd) with
  | [] => sequential_phase st1 r
  | par =>
      let '(st2, r2, pids) := dispatch_all (log st1 LogParallelPhase) r par in
      resume st2 (set_cont r2 (AwaitAll pids))
  end.

(** What the event loop runs while [executeWorkflow] is suspended: the
    clock moves on, or the timer fires that the call [pid] of
    [executeTask] waits for.  The delays are not modelled: timers fire in
    any order. *)
Inductive Event :=
| Tick (t : Z)
| TimerFires (pid : nat).

Fixpoint fire_at (st : State) (ths : list Thread) (pid : nat)
  : State * list Thread * list TraceEvent :=
  match ths, pid with
  | [], _ => (st, [], [])
  | th :: ths', O =>
      let '(st1, th1, evs) := timer_fires st th in (st1, th1 :: ths', evs)
  | th :: ths', S pid' =>
      let '(st1, ths1, evs) := fire_at st ths' pid' in (st1, th :: ths1, evs)
  end.

Definition step (sr : State * Run) (e : Event) : State * Run :=
  let '(st, r) := sr in
  match e with
  | Tick t => (set_now st t, r)
  | TimerFires pid =>
      let '(st1, ths, evs) := fire_at st (threads r) pid in
      resume st1 (set_threads r ths evs)
  end.

Definition run_events (sr : State * Run) (evs : list Event) : State * Run :=
  fold_left step evs sr.

End Demo.

(* ================================================================== *)
(** * The orderings and conventions the specification words *)

Module Spec.

(** "ordered by descending successRate, ties broken by ascending
    avgResponseTime, remaining ties broken by registration order": a
    comparator for a stable sort. *)
Definition byRateThenLatency (a b : Server.OrchestrationAgent) : Q :=
  if Qeq_bool (Server.successRate (Server.performance a))
              (Server.successRate (Server.performance b))
  then (Server.avgResponseTime a - Server.avgResponseTime b)%Q
  else Server.bySuccessRate a b.

(** [findCandidates(capability)] as the specification words it. *)
Definition findCandidates (agents : Server.Agents) (capability : string)
  : list Server.OrchestrationAgent :=
  JS.array_sort byRateThenLatency
    (filter (fun agent => Server.canHandle agent capability
                          && String.eqb (Server.status agent) "active")
            (JS.map_values agents)).

(** "successRate = successes/attempts (0 when attempts = 0)" *)
Definition successRate (a : Server.OrchestrationAgent) : Q :=
  if Server.totalTasks (Server.performance a) =? 0 then 0%Q
  else (inject_Z (Server.tasksCompleted a)
        / inject_Z (Server.totalTasks (Server.performance a)))%Q.

End Spec.

(** The agent states the server can hold: a registered agent, after any
    number of performance updates. *)
Inductive reachable_agent : Server.OrchestrationAgent -> Prop :=
| reachable_new : forall i caps sock,
    reachable_agent (Server.newAgent i caps sock)
| reachable_update : forall a responseTime success,
    reachable_agent a ->
    reachable_agent (Server.updatePerformance a responseTime success).

(** [x] is ranked above [y] in [l]: both are in [l], and [x] comes before
    [y] wherever [y] is, and never after it. *)
Definition ranked_above (A : Type) (x y : A) (l : list A) : Prop :=
  In x l /\ In y l /\
  forall l1 l2, l = l1 ++ y :: l2 -> In x l1 /\ ~ In x l2.

(** A list in descending order of [key]. *)
Definition descending (A : Type) (key : A -> Q) (l : list A) : Prop :=
  StronglySorted (fun a b => (key b <= key a)%Q) l.

(** The elements of [l] whose key is [k], in the order of [l]. *)
Definition with_key (A : Type) (key : A -> Q) (k : Q) (l : list A) : list A :=
  filter (fun a => Qeq_bool (key a) k) l.

(** [l'] is [l] sorted by descending [key], elements of equal key in the
    order they have in [l]. *)
Definition stable_sort_of (A : Type) (key : A -> Q) (l l' : list A) : Prop :=
  descending key l' /\ forall k, with_key key k l' = with_key key k l.

(** The part of a registry that executing tasks is claimed to leave
    alone: for each key, everything but the two counters. *)
Definition fixed_part (m : JS.JsMap string Demo.OrionAgent)
  : list (string * (string * list string * Q * Q * bool)) :=
  List.map (fun kv => (fst kv,
                       (Demo.id (snd kv), Demo.capabilities (snd kv),
                        Demo.avgResponseTime (snd kv), Demo.successRate (snd kv),
                        Demo.isActive (snd kv))))
           m.

(** The console lines of the attempts on [failed], each of which failed. *)
Definition failed_attempts (taskType : string) (failed : list Demo.OrionAgent)
  : list Demo.LogLine :=
  flat_map (fun a => [Demo.LogProcessing (Demo.id a) taskType;
                      Demo.LogFailedTryingBackup (Demo.id a)]) failed.

(* ================================================================== *)
(** * The shape of a run in two phases *)

(** The trace of tasks run one at a time. *)
Definition seq_trace (done : list nat) : list TraceEvent :=
  flat_map (fun i => [Dispatched i; Settled i]) done.

Definition is_dispatch (e : TraceEvent) : bool :=
  match e with Dispatched _ => true | Settled _ => false end.

(** A trace whose events are those of the tasks [P], each dispatched once,
    in the order of [P]. *)
Definition parallel_part (P : list nat) (tp : list TraceEvent) : Prop :=
  Forall (fun e => In (event_index e) P) tp /\
  filter is_dispatch tp = List.map Dispatched P.

(** A trace [ts] of the tasks [S] run in order and one at a time: each
    task is dispatched when the one before it has settled. *)
Definition sequential_part (S : list nat) (ts : list TraceEvent) : Prop :=
  exists done rest,
    S = done ++ rest /\
    (ts = seq_trace done \/
     exists cur rest', rest = cur :: rest' /\ ts = seq_trace done ++ [Dispatched cur]).

(** A trace in two phases: the events of [P], then those of [S], which
    start only when every task of [P] has settled. *)
Definition phased_trace (P S : list nat) (tr : list TraceEvent) : Prop :=
  exists tp ts,
    tr = tp ++ ts /\
    parallel_part P tp /\
    sequential_part S ts /\
    (ts <> [] -> forall i, In i P -> In (Settled i) tp).

Module ServerInv.

Import Server.

Definition valued (p : Promise) : Prop := p_value p <> None.

Definition values_of (ps : list Promise) : list TaskResult :=
  flat_map (fun p => match p_value p with Some v => [v] | None => [] end) ps.

(** The parallel phase is over: its trace is [tp]. *)
Definition parallel_done (P : list nat) (tp : list TraceEvent) : Prop :=
  parallel_part P tp /\ forall i, In i P -> In (Settled i) tp.

(** What holds of a run of [executeWorkflow] on the tasks [T] whenever
    the event loop has control. *)
Definition run_inv (T : list WfTask) (r : Run) : Prop :=
  let P := List.map fst (parallelTasks T) in
  match cont r with
  | AwaitAllSettled pids sequential =>
      sequential = sequentialTasks T /\
      pids = seq 0 (List.length (promises r)) /\
      List.map p_index (promises r) = P /\
      wf_results (workflow r) = [] /\
      parallel_part P (trace r) /\
      (forall p, In p (promises r) -> valued p -> In (Settled (p_index p)) (trace r))
  | AwaitTask pid rest =>
      exists done cur others pc tp,
        sequentialTasks T = done ++ cur :: rest /\
        promises r = others ++ [pc] /\
        pid = List.length others /\
        Forall valued others /\
        List.map p_index others = P ++ List.map fst done /\
        p_index pc = fst cur /\
        wf_results (workflow r) = values_of others /\
        parallel_done P tp /\
        ((p_value pc = None /\
          trace r = tp ++ seq_trace (List.map fst done) ++ [Dispatched (fst cur)]) \/
         (valued pc /\
          trace r = tp ++ seq_trace (List.map fst done)
                    ++ [Dispatched (fst cur); Settled (fst cur)]))
  | Returned =>
      exists tp,
        Forall valued (promises r) /\
        List.map p_index (promises r) = P ++ List.map fst (sequentialTasks T) /\
        wf_results (workflow r) = values_of (promises r) /\
        wf_status (workflow r) = "completed" /\
        parallel_done P tp /\
        trace r = tp ++ seq_trace (List.map fst (sequentialTasks T))
  end.

(** What the two callbacks have in common. *)
Definition callback_ok (f : Promise -> Promise * list TraceEvent) : Prop :=
  forall p,
    p_index (fst (f p)) = p_index p /\
    (valued p -> p_value (fst (f p)) = p_value p /\ snd (f p) = []) /\
    (p_value p = None ->
     (p_value (fst (f p)) = None /\ snd (f p) = []) \/
     (valued (fst (f p)) /\ snd (f p) = [Settled (p_index p)])).

End ServerInv.

Module DemoInv.

Import Demo.

Definition fin (th : Thread) : Prop :=
  match th_progress th with Finished _ => True | Attempting _ _ _ => False end.

(** The result of a call of [executeTask] names the task of the call. *)
Definition named (th : Thread) : Prop :=
  match th_progress th with
  | Finished res => r_task res = wt_name (th_task th)
  | Attempting _ _ _ => True
  end.

Definition key (th : Thread) : nat * WfTask := (th_index th, th_task th).

Definition results_of (ths : list Thread) : list TaskResult :=
  flat_map (fun th => match th_progress th with
                      | Finished res => [res]
                      | Attempting _ _ _ => []
                      end) ths.

Definition parallel_done (P : list nat) (tp : list TraceEvent) : Prop :=
  parallel_part P tp /\ forall i, In i P -> In (Settled i) tp.

(** What holds of a run of [executeWorkflow] on the tasks [T] whenever
    the event loop has control. *)
Definition run_inv (T : list WfTask) (r : Run) : Prop :=
  let P := List.map fst (parallelTasks T) in
  wf_tasks r = T /\
  Forall named (threads r) /\
  match cont r with
  | AwaitAll pids =>
      pids = seq 0 (List.length (threads r)) /\
      List.map key (threads r) = parallelTasks T /\
      results r = [] /\
      parallel_part P (trace r) /\
      (forall th, In th (threads r) -> fin th -> In (Settled (th_index th)) (trace r))
  | AwaitTask pid rest =>
      exists done cur others tc tp,
        sequentialTasks T = done ++ cur :: rest /\
        threads r = others ++ [tc] /\
        pid = List.length others /\
        Forall fin others /\
        List.map key others = parallelTasks T ++ done /\
        key tc = cur /\
        results r = results_of others /\
        parallel_done P tp /\
        ((~ fin tc /\
          trace r = tp ++ seq_trace (List.map fst done) ++ [Dispatched (fst cur)]) \/
         (fin tc /\
          trace r = tp ++ seq_trace (List.map fst done)
                    ++ [Dispatched (fst cur); Settled (fst cur)]))
  | Returned wr =>
      exists tp,
        Forall fin (threads r) /\
        List.map key (threads r) = parallelTasks T ++ sequentialTasks T /\
        results r = results_of (threads r) /\
        wr_results wr = results r /\
        wr_success wr = forallb r_success (results r) /\
        wr_workflow wr = wf_name r /\
        parallel_done P tp /\
        trace r = tp ++ seq_trace (List.map fst (sequentialTasks T))
  end.

End DemoInv.

Module Liveness.

(** A promise that is not settled has its timer pending. *)
Definition timed (p : Server.Promise) : Prop :=
  Server.p_value p = None ->
  exists a, Server.p_attempt p = Some a /\ Server.at_timer a = true.

(** The number of promises that are not settled. *)
Definition unsettled (ps : list Server.Promise) : nat :=
  List.length (filter (fun p => match Server.p_value p with
                                | Some _ => false | None => true end) ps).

(** The attempts a call of [executeTask] of the demo may still make. *)
Definition attempts_left (th : Demo.Thread) : nat :=
  match Demo.th_progress th with
  | Demo.Attempting _ _ rest => S (List.length rest)
  | Demo.Finished _ => 0
  end.

Definition total_attempts_left (ths : list Demo.Thread) : nat :=
  list_sum (List.map attempts_left ths).

(** The position of the first call that has not returned. *)
Fixpoint first_unfinished (ths : list Demo.Thread) : nat :=
  match ths with
  | [] => 0
  | th :: ths' =>
      match attempts_left th with
      | O => S (first_unfinished ths')
      | S _ => 0
      end
  end.

End Liveness.

(* ================================================================== *)
(** * The socket server as a whole

    The handlers of [io.on('connection', ...)] that the run of one workflow
    does not need, the [GET] routes, and the server with any number of
    workflows in progress. *)

Module Sockets.

Import Server.

(** [io.on('connection', ...)]: the counter.  The handlers that the
    callback registers on the socket are the functions [on_...]. *)
Definition on_connection (sv : ServerState) : ServerState :=
  let m := metrics sv in
  set_metrics sv {| connections := connections m + 1;
                    messagesProcessed := messagesProcessed m;
                    activeAgents := activeAgents m;
                    completedTasks := completedTasks m |}.

(** The data of an [agent:message]: the properties that the programs read,
    each of which may be absent, and the rest. *)
Record MessageData := mkMessageData {
  am_targetAgent : option string;
  am_from : option string;
  am_type : option string;
  am_topic : option string;
  am_requestCollaboration : bool;
  am_rest : string
}.

(** What the handlers below send. *)
Inductive Sent :=
| SendPong (toSocket : string) (data : string) (serverTime : Z)
| SendAgentMessage (toSocket : string) (data : MessageData)
| SendAgentBroadcast (fromSocket : string) (data : MessageData).

(** [socket.on('ping', ...)] on socket [sock]. *)
Definition on_ping (sv : ServerState) (sock data : string) : list Sent :=
  [SendPong sock data (now sv)].

(** [socket.on('agent:message', ...)] on socket [sock].  An empty string
    is falsy, as is an absent [targetAgent]. *)
Definition on_agent_message (sv : ServerState) (sock : string)
    (data : MessageData) : ServerState * list Sent :=
  let m := metrics sv in
  let sv1 := set_metrics sv {| connections := connections m;
                               messagesProcessed := messagesProcessed m + 1;
                               activeAgents := activeAgents m;
                               completedTasks := completedTasks m |} in
  match am_targetAgent data with
  | Some target =>
      if String.eqb target "" then (sv1, [SendAgentBroadcast sock data]) else
      match JS.map_get String.eqb target (agents sv1) with
      | Some targetAgent => (sv1, [SendAgentMessage (socketId targetAgent) data])
      | None => (sv1, [])
      end
  | None => (sv1, [SendAgentBroadcast sock data])
  end.

(** ** The [GET] routes *)

(** [getStatus()] *)
Record AgentStatus := mkAgentStatus {
  s_id : string;
  s_capabilities : list string;
  s_status : string;
  s_tasksCompleted : Z;
  s_avgResponseTime : Q;
  s_successRate : Q
}.

Definition getStatus (a : OrchestrationAgent) : AgentStatus :=
  {| s_id := id a; s_capabilities := capabilities a; s_status := status a;
     s_tasksCompleted := tasksCompleted a;
     s_avgResponseTime := avgResponseTime a;
     s_successRate := successRate (performance a) |}.

(** [app.get('/agents', ...)]: [agents] and [total]. *)
Definition get_agents (sv : ServerState) : list AgentStatus * Z :=
  (List.map getStatus (JS.map_values (agents sv)),
   Z.of_nat (List.length (agents sv))).

(** [app.get('/tasks', ...)]: [tasks] and [total]. *)
Definition get_tasks (sv : ServerState) : list Task * Z :=
  (JS.map_values (tasks sv), Z.of_nat (List.length (tasks sv))).

(** [app.get('/metrics', ...)]: the counters, and for each agent its [id],
    [tasksCompleted], [avgResponseTime] and [successRate]. *)
Definition get_metrics (sv : ServerState)
  : Metrics * list (string * Z * Q * Q) :=
  (metrics sv,
   List.map (fun agent => (id agent, tasksCompleted agent, avgResponseTime agent,
                           successRate (performance agent)))
            (JS.map_values (agents sv))).

(** ** The server and its workflows *)

Record World := mkWorld {
  server : ServerState;
  runs : list Run;     (** the calls of [executeWorkflow], oldest first *)
  sent : list Sent
}.

(** The server as [server.listen] starts it. *)
Definition initial : World :=
  {| server := {| agents := []; tasks := [];
                  metrics := {| connections := 0; messagesProcessed := 0;
                                activeAgents := 0; completedTasks := 0 |};
                  uuids := 0; now := 0; outbox := [] |};
     runs := [];
     sent := [] |}.

(** What the event loop of the server can run: a client connects; a
    message arrives on the socket [sock]; a request [POST /tasks] comes in;
    the timer of an attempt fires; the clock moves on. *)
Inductive Event :=
| Connection (sock : string)
| Ping (sock data : string)
| AgentRegister (sock agentId : string) (caps : list string)
| AgentTaskComplete (sock : string) (data : CompletionData)
| AgentMessage (sock : string) (data : MessageData)
| WorkflowExecute (sock : string) (wd : WorkflowData)
| TaskComplete (sock : string) (taskId : nat) (pl : Payload)
| Disconnect (sock : string)
| PostTasks (body : TaskRequest)
| TimerFires (taskId : nat)
| Tick (t : Z).

(** Offers an event to every call of [executeWorkflow], oldest first. *)
Fixpoint each_run (f : ServerState * Run -> ServerState * Run)
    (sv : ServerState) (rs : list Run) : ServerState * list Run :=
  match rs with
  | [] => (sv, [])
  | r :: rs' =>
      let '(sv1, r1) := f (sv, r) in
      let '(sv2, rs2) := each_run f sv1 rs' in
      (sv2, r1 :: rs2)
  end.

(** The message [task:<taskId>:complete] on socket [sock]: the listener of
    an attempt was registered with [socket.once] on the socket of the
    client that requested the workflow, so only the workflows requested on
    [sock] can hear it. *)
Definition hear (sock : string) (taskId : nat) (pl : Payload)
    (st : ServerState * Run) : ServerState * Run :=
  if String.eqb sock (requester (snd st))
  then Server.step st (Server.TaskCompleteSignal taskId pl)
  else st.

Definition step (w : World) (e : Event) : World :=
  let sv := server w in
  match e with
  | Connection _ =>
      {| server := on_connection sv; runs := runs w; sent := sent w |}
  | Ping sock data =>
      {| server := sv; runs := runs w; sent := sent w ++ on_ping sv sock data |}
  | AgentRegister sock agentId caps =>
      {| server := on_agent_register sv sock agentId caps;
         runs := runs w; sent := sent w |}
  | AgentTaskComplete _ data =>
      {| server := on_agent_task_complete sv data; runs := runs w; sent := sent w |}
  | AgentMessage sock data =>
      let '(sv1, out) := on_agent_message sv sock data in
      {| server := sv1; runs := runs w; sent := sent w ++ out |}
  | WorkflowExecute sock wd =>
      let '(sv1, r) := on_workflow_execute sv sock wd in
      {| server := sv1; runs := runs w ++ [r]; sent := sent w |}
  | TaskComplete sock taskId pl =>
      let '(sv1, rs) := each_run (hear sock taskId pl) sv (runs w) in
      {| server := sv1; runs := rs; sent := sent w |}
  | Disconnect sock =>
      {| server := on_disconnect sv sock; runs := runs w; sent := sent w |}
  | PostTasks body =>
      {| server := fst (post_tasks sv body); runs := runs w; sent := sent w |}
  | TimerFires taskId =>
      let '(sv1, rs) :=
        each_run (fun st => Server.step st (Server.TimerFires taskId)) sv (runs w) in
      {| server := sv1; runs := rs; sent := sent w |}
  | Tick t =>
      {| server := set_now sv t; runs := runs w; sent := sent w |}
  end.

Definition run_events (w : World) (evs : list Event) : World :=
  fold_left step evs w.

End Sockets.

(** A registry as the handlers build it: every agent under its own [id],
    every key once. *)
Definition keyed_by_id (ags : Server.Agents) : Prop :=
  NoDup (JS.map_keys ags) /\
  Forall (fun kv => Server.id (snd kv) = fst kv) ags.

(** What a step of a workflow leaves of the server as it was: everything
    but the count of uuids and the messages sent. *)
Definition same_store (sv sv' : Server.ServerState) : Prop :=
  Server.agents sv' = Server.agents sv /\
  Server.tasks sv' = Server.tasks sv /\
  Server.metrics sv' = Server.metrics sv /\
  Server.now sv' = Server.now sv /\
  (Server.uuids sv <= Server.uuids sv')%nat.

(** The registry and its counter agree. *)
Definition registry_ok (sv : Server.ServerState) : Prop :=
  keyed_by_id (Server.agents sv) /\
  Server.activeAgents (Server.metrics sv)
  = Z.of_nat (List.length (Server.agents sv)).

(** The ad-hoc tasks as [POST /tasks] stores them: every task under its
    own [id], every key once and drawn from [uuidv4] before. *)
Definition tasks_ok (sv : Server.ServerState) : Prop :=
  NoDup (JS.map_keys (Server.tasks sv)) /\
  Forall (fun kt => Server.task_id (snd kt) = fst kt /\
                    (fst kt < Server.uuids sv)%nat)
         (Server.tasks sv).

(** The successful ones among some completion reports; [success] defaults
    to [true]. *)
Definition reported_success (d : Server.CompletionData) : bool :=
  match Server.cd_success d with Some b => b | None => true end.

Definition is_task_completed (e : Server.Emit) : bool :=
  match e with Server.EmitTaskCompleted _ _ _ => true | _ => false end.


(** The life of an attempt, as the fields of its promise show it: no
    agent was found and the promise was resolved at once; or the attempt
    waits, timer and listener in place; or the timer has fired, which
    leaves the listener, whether a late completion has since consumed it
    or not; or the completion has arrived, which cleared the timer. *)
Definition lifecycle (p : Server.Promise) : Prop :=
  match Server.p_attempt p, Server.p_value p with
  | None, v => v = Some (Server.noAgentResult (Server.p_name p))
  | Some a, None => Server.at_timer a = true /\ Server.at_listener a = true
  | Some a, Some v =>
      Server.at_timer a = false /\
      ((exists duration,
          v = Server.timeoutResult (Server.p_name p) (Server.at_agent a) duration) \/
       (Server.at_listener a = false /\
        exists duration pl,
          v = Server.completionResult (Server.p_name p) (Server.at_agent a)
                duration pl))
  end.


(** What no step of a workflow changes: who asked for it and what for. *)
Definition same_request (r r' : Server.Run) : Prop :=
  Server.requester r' = Server.requester r /\
  Server.wf_id (Server.workflow r') = Server.wf_id (Server.workflow r) /\
  Server.wf_name (Server.workflow r') = Server.wf_name (Server.workflow r) /\
  Server.wf_tasks (Server.workflow r') = Server.wf_tasks (Server.workflow r) /\
  Server.wf_startTime (Server.workflow r') = Server.wf_startTime (Server.workflow r).

(** A promise that no completion has settled. *)
Definition not_completed (p : Server.Promise) : Prop :=
  match Server.p_attempt p, Server.p_value p with
  | Some a, Some v =>
      exists duration,
        v = Server.timeoutResult (Server.p_name p) (Server.at_agent a) duration
  | Some a, None => True
  | None, v => v = Some (Server.noAgentResult (Server.p_name p))
  end.


(** ** The message [workflow:completed] *)

Definition is_workflow_completed (e : Server.Emit) : bool :=
  match e with Server.EmitWorkflowCompleted _ _ => true | _ => false end.

(** The messages [workflow:completed] for the workflow of id [k]. *)
Definition completed_for (k : nat) (e : Server.Emit) : bool :=
  match e with
  | Server.EmitWorkflowCompleted _ w => Nat.eqb (Server.wf_id w) k
  | _ => false
  end.

Definition returned (r : Server.Run) : bool :=
  match Server.cont r with Server.Returned => true | _ => false end.

(** What the handler of [workflow:execute] sends when [executeWorkflow]
    has returned: the workflow as it then is, to the client that asked. *)
Definition announcement (r : Server.Run) : list Server.Emit :=
  if returned r
  then [Server.EmitWorkflowCompleted (Server.requester r) (Server.workflow r)]
  else [].

(** A step that sends no [workflow:completed]. *)
Definition quiet (sv sv' : Server.ServerState) : Prop :=
  exists new,
    Server.outbox sv' = Server.outbox sv ++ new /\
    Forall (fun e => is_workflow_completed e = false) new.

(** A step of a workflow: it sends [workflow:completed] if the workflow
    returns in it, and no other. *)
Definition announces (st st' : Server.ServerState * Server.Run) : Prop :=
  exists new,
    Server.outbox (fst st') = Server.outbox (fst st) ++ new /\
    (forall k, filter (completed_for k) new
               = if returned (snd st) then []
                 else filter (completed_for k) (announcement (snd st'))) /\
    (returned (snd st) = true -> announcement (snd st') = announcement (snd st)).

(** The workflows and the messages [workflow:completed] sent agree. *)
Definition announced (sv : Server.ServerState) (rs : list Server.Run) : Prop :=
  NoDup (List.map (fun r => Server.wf_id (Server.workflow r)) rs) /\
  Forall (fun r => (Server.wf_id (Server.workflow r) < Server.uuids sv)%nat) rs /\
  (forall k, (Server.uuids sv <= k)%nat ->
             filter (completed_for k) (Server.outbox sv) = []) /\
  Forall (fun r => filter (completed_for (Server.wf_id (Server.workflow r)))
                          (Server.outbox sv)
                   = announcement r) rs.


(** A workflow that has not returned waits for a promise that is not
    settled: its continuation has nothing to do. *)
Definition quiescent (r : Server.Run) : Prop :=
  match Server.cont r with
  | Server.AwaitAllSettled pids _ => forallb (Server.settled r) pids = false
  | Server.AwaitTask pid _ => Server.promise_value r pid = None
  | Server.Returned => True
  end.

(** The same of a run of the demo: it waits for a call of [executeTask]
    that has not returned. *)
Definition demo_quiescent (r : Demo.Run) : Prop :=
  match Demo.cont r with
  | Demo.AwaitAll pids => forallb (Demo.finished r) pids = false
  | Demo.AwaitTask pid _ => Demo.thread_result r pid = None
  | Demo.Returned _ => True
  end.

(* ================================================================== *)
(** * How far a schedule in two phases has come *)

(** What [executeWorkflow] waits for when the event loop has control. *)
Inductive Waiting :=
| ForPhaseP               (** for the tasks of Phase P, not all settled *)
| ForTask (cur : nat)     (** for the task [cur] of Phase S *)
| ForNothing.             (** it has returned *)

(** The trace of a run that waits for [w].  While it waits for Phase P,
    every task of P is dispatched and no other.  While it waits for the
    task [cur] of Phase S, every task of P has settled, the tasks of S
    before [cur] have run one after the other, in list order, and [cur] is
    the last task dispatched.  When it has returned, every task of P and of
    S has been dispatched and has settled. *)
Definition scheduled (P S : list nat) (w : Waiting) (tr : list TraceEvent)
  : Prop :=
  match w with
  | ForPhaseP => parallel_part P tr
  | ForTask cur =>
      exists tp done rest,
        S = done ++ cur :: rest /\
        parallel_part P tp /\ (forall i, In i P -> In (Settled i) tp) /\
        tr = tp ++ seq_trace done ++ [Dispatched cur]
  | ForNothing =>
      exists tp,
        parallel_part P tp /\ (forall i, In i P -> In (Settled i) tp) /\
        tr = tp ++ seq_trace S
  end.

(** The attempts for which the server has sent [workflow:task], in the
    order of the messages. *)
Definition tasks_sent (out : list Server.Emit) : list nat :=
  flat_map (fun e => match e with
                     | Server.EmitWorkflowTask _ taskId _ _ => [taskId]
                     | _ => []
                     end) out.

(** The attempts of the calls of [executeWorkflowTask], in the order of
    the calls. *)
Definition attempts_made (ps : list Server.Promise) : list nat :=
  flat_map (fun p => match Server.p_attempt p with
                     | Some a => [Server.at_taskId a]
                     | None => []
                     end) ps.

(** With [base] the attempts of [workflow:task] messages sent before the
    run, the messages sent since are those of the attempts of the run. *)
Definition sent_for (base : list nat) (st : Server.ServerState * Server.Run)
  : Prop :=
  tasks_sent (Server.outbox (fst st)) = base ++ attempts_made (Server.promises (snd st)).

(** What a run of the server waits for: an attempt that is not settled. *)
Definition Server_waits (r : Server.Run) (w : Waiting) : Prop :=
  match Server.cont r with
  | Server.AwaitAllSettled pids _ =>
      w = ForPhaseP /\
      exists pid p, In pid pids /\ nth_error (Server.promises r) pid = Some p /\
                    Server.p_value p = None
  | Server.AwaitTask pid _ =>
      exists p, nth_error (Server.promises r) pid = Some p /\
                Server.p_value p = None /\ w = ForTask (Server.p_index p)
  | Server.Returned => w = ForNothing
  end.

(** What a run of the demo waits for: a call of [executeTask] that has not
    returned. *)
Definition Demo_waits (r : Demo.Run) (w : Waiting) : Prop :=
  match Demo.cont r with
  | Demo.AwaitAll pids =>
      w = ForPhaseP /\
      exists pid th, In pid pids /\ nth_error (Demo.threads r) pid = Some th /\
                     Liveness.attempts_left th <> 0%nat
  | Demo.AwaitTask pid _ =>
      exists th, nth_error (Demo.threads r) pid = Some th /\
                 Liveness.attempts_left th <> 0%nat /\ w = ForTask (Demo.th_index th)
  | Demo.Returned _ => w = ForNothing
  end.


(* ================================================================== *)
(** * collaboration-demo.js: the system report *)

Module Report.

Import Demo.

(** [Number.prototype.toFixed(0)], the integer that the string denotes:
    the nearest integer, the one farther from zero when two are as near. *)
Definition toFixed0 (x : Q) : Z :=
  if Qle_bool 0 x then Qfloor (x + (1 # 2))%Q else - Qfloor (- x + (1 # 2))%Q.

Record SystemReport := mkSystemReport {
  totalAgents : Z;
  totalWorkflows : Z;
  totalTasks : Z;
  successRate : Q;
  avgWorkflowTime : Z;
  agentPerformance : list (string * PerformanceMetrics)
}.

(** [executionHistory.reduce((sum, w) => sum + w.results.length, 0)] *)
Definition countTasks (history : list WorkflowResult) : Z :=
  fold_left (fun sum w => sum + Z.of_nat (List.length (wr_results w))) history 0.

(** [executionHistory.reduce((sum, w) => sum + w.results.filter(r =>
    r.success).length, 0)] *)
Definition countSuccessful (history : list WorkflowResult) : Z :=
  fold_left (fun sum w => sum + Z.of_nat (List.length (filter r_success (wr_results w))))
            history 0.

(** [executionHistory.reduce((sum, w) => sum + w.totalDuration, 0)] *)
Definition sumDurations (history : list WorkflowResult) : Z :=
  fold_left (fun sum w => sum + wr_totalDuration w) history 0.

(** [generateSystemReport()] *)
Definition generateSystemReport (st : State) : SystemReport :=
  let history := executionHistory st in
  let totalTasks := countTasks history in
  let successfulTasks := countSuccessful history in
  let avgWorkflowTime :=
    if (0 <? List.length history)%nat
    then (inject_Z (sumDurations history)
          / inject_Z (Z.of_nat (List.length history)))%Q
    else 0%Q in
  {| totalAgents := Z.of_nat (List.length (agents st));
     totalWorkflows := Z.of_nat (List.length history);
     totalTasks := totalTasks;
     successRate := if 0 <? totalTasks
                    then (inject_Z successfulTasks / inject_Z totalTasks * 100)%Q
                    else 0%Q;
     avgWorkflowTime := toFixed0 avgWorkflowTime;
     agentPerformance :=
       List.map (fun agent => (id agent, getPerformanceMetrics agent))
                (JS.map_values (agents st)) |}.

End Report.

(** The completed tasks of the agent registered under [k]. *)
Definition completed_by (k : string) (m : JS.JsMap string Demo.OrionAgent) : Z :=
  match JS.map_get String.eqb k m with
  | Some a => Demo.tasksCompleted a
  | None => 0
  end.

(** A result that is a success of the agent [k]. *)
Definition success_of (k : string) (res : Demo.TaskResult) : bool :=
  Demo.r_success res
  && match Demo.r_agent res with Some a => String.eqb a k | None => false end.

(** The calls of [executeTask] that have returned a success of [k]. *)
Definition wins (k : string) (ths : list Demo.Thread) : Z :=
  Z.of_nat (List.length (filter (success_of k) (DemoInv.results_of ths))).

(** The agents a call of [executeTask] may still call. *)
Definition candidates_left (th : Demo.Thread) : list Demo.OrionAgent :=
  match Demo.th_progress th with
  | Demo.Attempting agent _ rest => agent :: rest
  | Demo.Finished _ => []
  end.

(** The registry of the demo as [registerAgent] builds it. *)
Definition demo_keyed (m : JS.JsMap string Demo.OrionAgent) : Prop :=
  Forall (fun kv => Demo.id (snd kv) = fst kv) m.

(** The counters of the agents account for the successes of the calls
    made since the registry was [m0]. *)
Definition ledger (m0 : JS.JsMap string Demo.OrionAgent)
    (st : Demo.State) (ths : list Demo.Thread) : Prop :=
  JS.map_keys (Demo.agents st) = JS.map_keys m0 /\
  demo_keyed (Demo.agents st) /\
  Forall (fun th => Forall (fun a => In (Demo.id a) (JS.map_keys m0))
                           (candidates_left th)) ths /\
  forall k, completed_by k (Demo.agents st) = completed_by k m0 + wins k ths.

(** The [complexity] of a task names a property that the object literal
    of [OrionAgent.executeTask] inherits. *)
Definition names_inherited (complexity : option string) : bool :=
  match complexity with
  | Some c => JS.includes JS.inherited c
  | None => false
  end.

(** A time that is a number, of at least [t] ms. *)
Definition at_least (t : Q) (x : JS.num) : Prop :=
  match x with
  | JS.Num q => (t <= q)%Q
  | JS.NaN => False
  end.

(** The duration of a result: at least 100 ms, or 0 when there was no
    agent to try. *)
Definition timed_result (res : Demo.TaskResult) : Prop :=
  at_least 100 (Demo.r_duration res) \/
  (Demo.r_duration res = JS.Num 0 /\
   Demo.r_error res = Some "No suitable agent found").

(** The durations a call of [executeTask] holds. *)
Definition timed_call (th : Demo.Thread) : Prop :=
  match Demo.th_progress th with
  | Demo.Attempting _ processingTime _ => at_least 100 processingTime
  | Demo.Finished res => timed_result res
  end.

(** The counters of an agent of the demo: every completed task took at
    least 100 ms. *)
Definition counters_ok (a : Demo.OrionAgent) : Prop :=
  0 <= Demo.tasksCompleted a /\
  at_least (100 * inject_Z (Demo.tasksCompleted a)) (Demo.totalResponseTime a).

(** The calls and the agents of a run, as to their times, as long as no
    call is for a task whose complexity names an inherited property. *)
Definition timed_calls (st : Demo.State) (ths : list Demo.Thread) : Prop :=
  Forall (fun th => names_inherited (wt_complexity (Demo.th_task th)) = false) ths ->
  Forall timed_call ths /\ Forall (fun kv => counters_ok (snd kv)) (Demo.agents st).

(** The result that [executeWorkflow] has returned, if it has. *)
Definition demo_returned (r : Demo.Run) : list Demo.WorkflowResult :=
  match Demo.cont r with Demo.Returned wr => [wr] | _ => [] end.


(* ================================================================== *)
(** * The React hook of the dashboard ([useSocket])

    The state of [SocketProvider] and the functions that update it.  A
    state setter called with a function ([setMetrics(prev => ...)]) is an
    update of the field.  Callbacks are compared by identity: a callback
    is a number here.  The ids and time stamps of the messages, and the
    heartbeat, are left out. *)

Module Hook.

Inductive ConnectionStatus :=
| Disconnected | Connecting | Connected | Reconnecting | ConnectionError.

(** What a message of the history holds as its [payload]: the data of an
    event received, or the message object that [sendMessage] has sent. *)
Inductive Data :=
| Text (s : string)
| AgentRequest (action data : string).

Inductive Payload :=
| Received (data : string)
| Sent (type : string) (payload : Data) (targetAgent : option string).

Record SocketMessage := mkSocketMessage {
  sm_type : string;
  sm_payload : Payload;
  sm_from : option string;
  sm_to : option string
}.

Record SocketMetrics := mkSocketMetrics {
  messagesReceived : Z;
  messagesSent : Z;
  reconnectionAttempts : Z
}.

Record State := mkState {
  socket : bool;                  (** [socket] is not [null] *)
  connectionStatus : ConnectionStatus;
  metrics : SocketMetrics;
  messageHistory : list SocketMessage;
  (** [eventListenersRef.current]: a [Map] from event types to [Set]s of
      callbacks, both in insertion order. *)
  eventListeners : JS.JsMap string (list nat);
  emitted : list (string * Payload)   (** what [socket.emit] was called with *)
}.

(** The state before the effect has run. *)
Definition initial : State :=
  {| socket := false; connectionStatus := Disconnected;
     metrics := {| messagesReceived := 0; messagesSent := 0;
                   reconnectionAttempts := 0 |};
     messageHistory := []; eventListeners := []; emitted := [] |}.

Definition isConnected (st : State) : bool :=
  match connectionStatus st with Connected => true | _ => false end.

Definition set_status (st : State) (s : ConnectionStatus) : State :=
  {| socket := socket st; connectionStatus := s; metrics := metrics st;
     messageHistory := messageHistory st; eventListeners := eventListeners st;
     emitted := emitted st |}.

Definition set_metrics (st : State) (m : SocketMetrics) : State :=
  {| socket := socket st; connectionStatus := connectionStatus st; metrics := m;
     messageHistory := messageHistory st; eventListeners := eventListeners st;
     emitted := emitted st |}.

Definition set_history (st : State) (h : list SocketMessage) : State :=
  {| socket := socket st; connectionStatus := connectionStatus st;
     metrics := metrics st; messageHistory := h;
     eventListeners := eventListeners st; emitted := emitted st |}.

Definition set_listeners (st : State) (l : JS.JsMap string (list nat)) : State :=
  {| socket := socket st; connectionStatus := connectionStatus st;
     metrics := metrics st; messageHistory := messageHistory st;
     eventListeners := l; emitted := emitted st |}.

(** [prev.slice(-n)]: the last [n] elements, all of them if there are
    fewer. *)
Definition slice_last (A : Type) (n : nat) (l : list A) : list A :=
  skipn (List.length l - n) l.

(** [setMessageHistory(prev => [...prev.slice(-99), message])] *)
Definition push_history (st : State) (message : SocketMessage) : State :=
  set_history st (slice_last 99 (messageHistory st) ++ [message]).

(** The effect: [io(url, ...)], [setSocket], [setConnectionStatus]. *)
Definition mount (st : State) : State :=
  {| socket := true; connectionStatus := Connecting; metrics := metrics st;
     messageHistory := messageHistory st; eventListeners := eventListeners st;
     emitted := emitted st |}.

(** [newSocket.on('connect', ...)] *)
Definition on_connect (st : State) : State :=
  let m := metrics st in
  set_metrics (set_status st Connected)
    {| messagesReceived := messagesReceived m; messagesSent := messagesSent m;
       reconnectionAttempts := 0 |}.

(** [newSocket.on('disconnect', ...)] *)
Definition on_disconnect (st : State) : State := set_status st Disconnected.

(** [newSocket.on('reconnect', ...)] *)
Definition on_reconnect (st : State) (attemptNumber : Z) : State :=
  let m := metrics st in
  set_metrics (set_status st Connected)
    {| messagesReceived := messagesReceived m; messagesSent := messagesSent m;
       reconnectionAttempts := attemptNumber |}.

(** [newSocket.on('reconnect_attempt', ...)] *)
Definition on_reconnect_attempt (st : State) : State := set_status st Reconnecting.

(** [newSocket.on('connect_error', ...)] *)
Definition on_connect_error (st : State) : State := set_status st ConnectionError.

(** The listeners of an event type, in the order they are called. *)
Definition listeners (st : State) (eventType : string) : list nat :=
  match JS.map_get String.eqb eventType (eventListeners st) with
  | Some l => l
  | None => []
  end.

(** [newSocket.onAny((eventType, data) => ...)]: the new state and the
    callbacks called with [data], in order. *)
Definition onAny (st : State) (eventType data : string) : State * list nat :=
  let message := {| sm_type := eventType; sm_payload := Received data;
                    sm_from := None; sm_to := None |} in
  let st1 := push_history st message in
  let m := metrics st1 in
  (set_metrics st1 {| messagesReceived := messagesReceived m + 1;
                      messagesSent := messagesSent m;
                      reconnectionAttempts := reconnectionAttempts m |},
   listeners st eventType).

(** [sendMessage(type, payload, targetAgent)] *)
Definition sendMessage (st : State) (type : string) (payload : Data)
    (targetAgent : option string) : State :=
  if negb (socket st) || negb (isConnected st) then st else
  let message := Sent type payload targetAgent in
  let m := metrics st in
  let st1 := {| socket := socket st; connectionStatus := connectionStatus st;
                metrics := {| messagesReceived := messagesReceived m;
                              messagesSent := messagesSent m + 1;
                              reconnectionAttempts := reconnectionAttempts m |};
                messageHistory := messageHistory st;
                eventListeners := eventListeners st;
                emitted := emitted st ++ [(type, message)] |} in
  push_history st1 {| sm_type := type; sm_payload := message;
                      sm_from := Some "frontend"; sm_to := targetAgent |}.

(** [Set.prototype.add] and [Set.prototype.delete] *)
Definition set_add (cb : nat) (s : list nat) : list nat :=
  if existsb (Nat.eqb cb) s then s else s ++ [cb].

Definition set_delete (cb : nat) (s : list nat) : list nat :=
  filter (fun c => negb (Nat.eqb cb c)) s.

(** [subscribe(eventType, callback)]; what it returns is
    [unsubscribe eventType callback]. *)
Definition subscribe (st : State) (eventType : string) (callback : nat) : State :=
  let m := eventListeners st in
  let m1 := match JS.map_get String.eqb eventType m with
            | Some _ => m
            | None => JS.map_set String.eqb eventType [] m
            end in
  let s := match JS.map_get String.eqb eventType m1 with
           | Some l => l
           | None => []
           end in
  set_listeners st (JS.map_set String.eqb eventType (set_add callback s) m1).

Definition unsubscribe (st : State) (eventType : string) (callback : nat) : State :=
  match JS.map_get String.eqb eventType (eventListeners st) with
  | Some l =>
      let l' := set_delete callback l in
      match l' with
      | [] => set_listeners st (JS.map_delete String.eqb eventType (eventListeners st))
      | _ => set_listeners st (JS.map_set String.eqb eventType l' (eventListeners st))
      end
  | None => st
  end.

(** [clearHistory()] *)
Definition clearHistory (st : State) : State := set_history st [].

(** ** [useAgentCommunication] *)

(** [sendToAgent(agentId, action, data)]; the request id is left out. *)
Definition sendToAgent (st : State) (agentId action data : string) : State :=
  sendMessage st "agent:message" (AgentRequest action data) (Some agentId).

(** [subscribeToAgent(agentId, callback)] *)
Definition subscribeToAgent (st : State) (agentId : string) (callback : nat) : State :=
  subscribe st ("agent:response:" ++ agentId)%string callback.

(** [subscribeToAllAgents(callback)] *)
Definition subscribeToAllAgents (st : State) (callback : nat) : State :=
  subscribe st "agent:broadcast" callback.

(** What happens to the hook. *)
Inductive Event :=
| Mount
| Connect
| Disconnect
| Reconnect (attemptNumber : Z)
| ReconnectAttempt
| ConnectError
| Incoming (eventType data : string)
| SendMessage (type : string) (payload : Data) (targetAgent : option string)
| Subscribe (eventType : string) (callback : nat)
| Unsubscribe (eventType : string) (callback : nat)
| ClearHistory.

Definition step (st : State) (e : Event) : State :=
  match e with
  | Mount => mount st
  | Connect => on_connect st
  | Disconnect => on_disconnect st
  | Reconnect n => on_reconnect st n
  | ReconnectAttempt => on_reconnect_attempt st
  | ConnectError => on_connect_error st
  | Incoming eventType data => fst (onAny st eventType data)
  | SendMessage type payload targetAgent => sendMessage st type payload targetAgent
  | Subscribe eventType callback => subscribe st eventType callback
  | Unsubscribe eventType callback => unsubscribe st eventType callback
  | ClearHistory => clearHistory st
  end.

Definition run_events (st : State) (evs : list Event) : State :=
  fold_left step evs st.

End Hook.



(* ================================================================== *)
(** * claude-subagent-swarm.js: the agents of the swarm *)

(** Strings of bytes.  [toLowerCase] is the one of ASCII: the other bytes
    are left as they are. *)
Module JSString.

(** [String.prototype.startsWith] *)
Fixpoint startsWith (s key : string) : bool :=
  match key, s with
  | EmptyString, _ => true
  | String _ _, EmptyString => false
  | String a key', String b s' => Ascii.eqb a b && startsWith s' key'
  end.

(** [String.prototype.includes] *)
Fixpoint includes (s key : string) : bool :=
  startsWith s key
  || match s with
     | EmptyString => false
     | String _ s' => includes s' key
     end.

Definition lower (c : ascii) : ascii :=
  let n := nat_of_ascii c in
  if (65 <=? n)%nat && (n <=? 90)%nat then ascii_of_nat (n + 32) else c.

(** [String.prototype.toLowerCase] *)
Fixpoint toLowerCase (s : string) : string :=
  match s with
  | EmptyString => EmptyString
  | String c s' => String (lower c) (toLowerCase s')
  end.

End JSString.

Module Swarm.

(** [toolMap], its keys in the order of the object literal. *)
Definition toolMap : list (string * list string) :=
  [("architecture", ["PlantUML"; "Miro"; "Lucidchart"; "C4 Model"]);
   ("security", ["OWASP ZAP"; "Burp Suite"; "Nessus"; "Wireshark"]);
   ("performance", ["JMeter"; "LoadRunner"; "New Relic"; "Grafana"]);
   ("frontend", ["React DevTools"; "Chrome DevTools"; "Storybook"; "Figma"]);
   ("backend", ["Postman"; "Docker"; "Kubernetes"; "Prometheus"]);
   ("data", ["Jupyter"; "Tableau"; "Apache Spark"; "TensorFlow"]);
   ("devops", ["Jenkins"; "GitLab CI"; "Terraform"; "Ansible"]);
   ("mobile", ["Xcode"; "Android Studio"; "React Native"; "Flutter"]);
   ("ai", ["Hugging Face"; "OpenAI API"; "TensorFlow"; "PyTorch"]);
   ("blockchain", ["Hardhat"; "Truffle"; "MetaMask"; "Ethers.js"])].

(** [toolMap[key]]; [None] is [undefined]. *)
Definition tools_of (key : string) : option (list string) :=
  JS.map_get String.eqb key toolMap.

(** [getPreferredTools()] of an agent with this [specialization]; [None]
    is [undefined]. *)
Definition getPreferredTools (specialization : string) : option (list string) :=
  let domain :=
    match find (fun key => JSString.includes (JSString.toLowerCase specialization) key)
               (JS.map_keys toolMap) with
    | Some key => key
    | None => "architecture"
    end in
  match tools_of domain with
  | Some tools => Some tools
  | None => tools_of "architecture"
  end.

(** [array[Math.floor(r * array.length)]]; [None] is [undefined]. *)
Definition pick (A : Type) (array : list A) (r : Q) : option A :=
  let i := Qfloor (r * inject_Z (Z.of_nat (List.length array)))%Q in
  if i <? 0 then None else nth_error array (Z.to_nat i).

Record Personality := mkPersonality {
  communication : option string;
  approach : option string;
  focus : option string
}.

(** [generatePersonality()], with the three values of [Math.random()] in
    the order they are drawn. *)
Definition generatePersonality (r1 r2 r3 : Q) : Personality :=
  {| communication :=
       pick ["direct"; "analytical"; "creative"; "methodical"; "collaborative"] r1;
     approach :=
       pick ["systematic"; "innovative"; "thorough"; "efficient"; "adaptive"] r2;
     focus :=
       pick ["detail-oriented"; "big-picture"; "problem-solving"; "optimization";
             "integration"] r3 |}.

Record Knowledge := mkKnowledge {
  primaryDomain : string;
  secondarySkills : list string;
  experienceLevel : Z;
  preferredTools : option (list string);
  workingMemory : JS.JsMap string string;
  insights : list string
}.

(** [generateKnowledgeBase()], with the value of [Math.random()]. *)
Definition generateKnowledgeBase (specialization : string)
    (capabilities : list string) (r : Q) : Knowledge :=
  {| primaryDomain := specialization;
     secondarySkills := tl capabilities;           (* capabilities.slice(1) *)
     experienceLevel := Qfloor (r * 5)%Q + 5;
     preferredTools := getPreferredTools specialization;
     workingMemory := [];
     insights := [] |}.

Record ClaudeSubAgent := mkClaudeSubAgent {
  id : string;
  specialization : string;
  systemPrompt : string;
  capabilities : list string;
  status : string;
  tasksCompleted : Z;
  personality : Personality;
  knowledge : Knowledge
}.

(** [new ClaudeSubAgent(id, specialization, systemPrompt, capabilities)],
    with the four values of [Math.random()] the constructor draws. *)
Definition newAgent (i spec prompt : string) (caps : list string)
    (r1 r2 r3 r4 : Q) : ClaudeSubAgent :=
  {| id := i; specialization := spec; systemPrompt := prompt; capabilities := caps;
     status := "initializing"; tasksCompleted := 0;
     personality := generatePersonality r1 r2 r3;
     knowledge := generateKnowledgeBase spec caps r4 |}.

(** The specializations of [agentDefinitions], in order. *)
Definition specializations : list string :=
  ["System Architecture"; "Security Engineering"; "Performance Engineering";
   "Frontend Development"; "Backend Development"; "Data Science";
   "DevOps Engineering"; "Mobile Development"; "AI/ML Engineering";
   "Blockchain Development"; "Quality Assurance"; "Product Strategy";
   "Systems Integration"; "Cloud Architecture"; "UX Research";
   "Database Engineering"; "Network Engineering"; "Compliance Engineering";
   "Process Automation"; "Technology Innovation"].

End Swarm.


(** Every agent of the registry is in a state the constructor and
    [updatePerformance] lead to. *)
Definition agents_reachable (sv : Server.ServerState) : Prop :=
  Forall (fun ka => reachable_agent (snd ka)) (Server.agents sv).

(** [array[i]] of [pick] is defined and an element of the array. *)
Definition picked (A : Type) (array : list A) (r : Q) : Prop :=
  exists x, Swarm.pick array r = Some x /\ In x array.

(* ================================================================== *)
(** * Concrete registries used as examples *)

Module Examples.

(** One success in 2000 ms. *)
Definition slow : Server.OrchestrationAgent :=
  Server.updatePerformance (Server.newAgent "A" ["x"] "socket-a") 2000 true.

(** One success in 1000 ms. *)
Definition fast : Server.OrchestrationAgent :=
  Server.updatePerformance (Server.newAgent "B" ["x"] "socket-b") 1000 true.

(** [A] registered before [B]. *)
Definition slow_then_fast : Server.Agents := [("A", slow); ("B", fast)].

(** Just registered: no attempt recorded. *)
Definition fresh : Server.OrchestrationAgent :=
  Server.newAgent "fresh" ["x"] "socket-f".

(** One success, then one failure: a lifetime ratio of 1/2. *)
Definition veteran : Server.OrchestrationAgent :=
  Server.updatePerformance
    (Server.updatePerformance (Server.newAgent "veteran" ["x"] "socket-v") 100 true)
    100 false.

Definition veteran_then_fresh : Server.Agents :=
  [("veteran", veteran); ("fresh", fresh)].

Definition emptyServer : Server.ServerState :=
  {| Server.agents := []; Server.tasks := [];
     Server.metrics := {| Server.connections := 0; Server.messagesProcessed := 0;
                          Server.activeAgents := 0; Server.completedTasks := 0 |};
     Server.uuids := 0; Server.now := 0; Server.outbox := [] |}.

(** The demo, with the agents of the example of the specification: [B]
    is ranked before [A]. *)
Definition agentA : Demo.OrionAgent :=
  Demo.newAgent "A" ["x"] (Some 1000%Q) (Some (9 # 10)%Q).

Definition agentB : Demo.OrionAgent :=
  Demo.newAgent "B" ["x"] (Some 1000%Q) (Some (95 # 100)%Q).

(** [Math.random()] returns 0.5, 0.99, 0.5, 0.5, 0.5, ...: the attempt of
    [B] fails (0.99 is not below 0.95), the attempt of [A] succeeds. *)
Definition draws (n : nat) : Q :=
  match n with 1%nat => (99 # 100)%Q | _ => (1 # 2)%Q end.

Definition demoState : Demo.State :=
  {| Demo.agents := [("A", agentA); ("B", agentB)];
     Demo.executionHistory := []; Demo.random := draws; Demo.cursor := 0;
     Demo.now := 0; Demo.console := [] |}.

Definition taskX : WfTask :=
  {| wt_name := "T"; wt_type := "code-review"; wt_capability := "x";
     wt_complexity := Some "medium"; wt_parallel := false;
     wt_dependencies := None |}.

Definition taskY : WfTask :=
  {| wt_name := "U"; wt_type := "translation"; wt_capability := "y";
     wt_complexity := None; wt_parallel := false; wt_dependencies := None |}.

(** The server with a veteran (ratio 1/2) and a fresh agent (0.95). *)
Definition serverState : Server.ServerState :=
  Server.set_agents emptyServer veteran_then_fresh.

Definition emptyRun : Server.Run :=
  {| Server.requester := "client";
     Server.workflow := {| Server.wf_id := 0; Server.wf_name := "w";
                           Server.wf_tasks := [taskX];
                           Server.wf_status := "executing";
                           Server.wf_startTime := 0; Server.wf_results := [];
                           Server.wf_duration := None |};
     Server.promises := []; Server.cont := Server.Returned;
     Server.trace := [] |}.

(** A completion that reports a failure. *)
Definition failure : Server.Payload :=
  {| Server.pl_task := None; Server.pl_agent := None;
     Server.pl_success := Some false; Server.pl_error := Some "boom";
     Server.pl_duration := None; Server.pl_data := None |}.

Definition oneTask : Server.WorkflowData :=
  {| Server.wd_name := "w"; Server.wd_tasks := [taskX] |}.


(** Three parallel tasks and a dependent one, as in the example of the
    specification; nobody advertises the capability of the third. *)
Definition taskA : WfTask :=
  {| wt_name := "A"; wt_type := "code-review"; wt_capability := "x";
     wt_complexity := Some "simple"; wt_parallel := true;
     wt_dependencies := None |}.

Definition taskB : WfTask :=
  {| wt_name := "B"; wt_type := "security-scan"; wt_capability := "x";
     wt_complexity := None; wt_parallel := true; wt_dependencies := None |}.

Definition taskC : WfTask :=
  {| wt_name := "C"; wt_type := "translation"; wt_capability := "y";
     wt_complexity := None; wt_parallel := true; wt_dependencies := None |}.

Definition taskD : WfTask :=
  {| wt_name := "D"; wt_type := "code-review"; wt_capability := "x";
     wt_complexity := Some "complex"; wt_parallel := false;
     wt_dependencies := Some ["A"] |}.

Definition fourTasks : list WfTask := [taskA; taskD; taskB; taskC].

(** A task with [parallel: true] and [dependencies: []], before [taskA]. *)
Definition taskE : WfTask :=
  {| wt_name := "E"; wt_type := "code-review"; wt_capability := "x";
     wt_complexity := None; wt_parallel := true; wt_dependencies := Some [] |}.

Definition twoTasks : list WfTask := [taskE; taskA].

Definition demoWorkflow : Demo.WorkflowData :=
  {| Demo.wd_name := "w"; Demo.wd_tasks := fourTasks |}.

Definition serverWorkflow : Server.WorkflowData :=
  {| Server.wd_name := "w"; Server.wd_tasks := fourTasks |}.

(** A completion that reports a success. *)
Definition success : Server.Payload :=
  {| Server.pl_task := None; Server.pl_agent := None;
     Server.pl_success := Some true; Server.pl_error := None;
     Server.pl_duration := Some 120%Q; Server.pl_data := Some "done" |}.

(** ** Scenarios of the server as a whole *)

(** A request for a capability that nobody advertises. *)
Definition bodyY : Server.TaskRequest :=
  {| Server.req_type := "analysis"; Server.req_capability := "y";
     Server.req_data := "payload"; Server.req_priority := None |}.

(** The report of a success for the ad-hoc task 0. *)
Definition report : Server.CompletionData :=
  {| Server.cd_taskId := 0; Server.cd_result := Some "done";
     Server.cd_responseTime := 120%Q; Server.cd_success := None |}.

(** The task is posted before anybody can take it. *)
Definition posted_too_early : list Sockets.Event :=
  [Sockets.Connection "client"; Sockets.PostTasks bodyY].

Definition then_an_agent_comes : list Sockets.Event :=
  [Sockets.Connection "socket-a"; Sockets.AgentRegister "socket-a" "a" ["y"];
   Sockets.AgentTaskComplete "socket-a" report].

(** The task is assigned to [a], whose socket then disconnects. *)
Definition assigned_then_gone : list Sockets.Event :=
  [Sockets.Connection "socket-a"; Sockets.AgentRegister "socket-a" "a" ["y"];
   Sockets.PostTasks bodyY; Sockets.Disconnect "socket-a"].

Definition then_a_late_report : list Sockets.Event :=
  [Sockets.AgentTaskComplete "socket-a" report;
   Sockets.AgentRegister "socket-b" "b" ["y"];
   Sockets.AgentTaskComplete "socket-b" report].

(** The task is assigned to [a], which is there. *)
Definition assigned : Server.ServerState :=
  Sockets.server
    (Sockets.run_events Sockets.initial
       [Sockets.AgentRegister "socket-a" "a" ["y"]; Sockets.PostTasks bodyY]).

(** A message for the agent [a]. *)
Definition toA : Sockets.MessageData :=
  {| Sockets.am_targetAgent := Some "a"; Sockets.am_from := Some "b";
     Sockets.am_type := Some "question"; Sockets.am_topic := None;
     Sockets.am_requestCollaboration := false; Sockets.am_rest := "" |}.

(** A client asks for the workflow of one task; the agent answers on its
    own socket, and the timer of the attempt fires. *)
Definition answered_on_the_wrong_socket : list Sockets.Event :=
  [Sockets.AgentRegister "socket-a" "a" ["x"];
   Sockets.WorkflowExecute "client" oneTask;
   Sockets.TaskComplete "socket-a" 1 success;
   Sockets.TimerFires 1].

(** Two workflows in progress: the second waits for its first task. *)
Definition two_workflows : list Sockets.Event :=
  [Sockets.AgentRegister "socket-a" "a" ["x"];
   Sockets.WorkflowExecute "client" oneTask;
   Sockets.WorkflowExecute "other" serverWorkflow;
   Sockets.TimerFires 1].

Definition noRun : Server.Run :=
  {| Server.requester := "";
     Server.workflow := {| Server.wf_id := 0; Server.wf_name := "";
                           Server.wf_tasks := []; Server.wf_status := "";
                           Server.wf_startTime := 0; Server.wf_results := [];
                           Server.wf_duration := None |};
     Server.promises := []; Server.cont := Server.Returned; Server.trace := [] |}.

Definition noPromise : Server.Promise :=
  {| Server.p_index := 0; Server.p_name := ""; Server.p_attempt := None;
     Server.p_value := None |}.

(** The workflow of one task, timed out, and its promise. *)
Definition timed_out_run : Server.Run :=
  nth 0 (Sockets.runs (Sockets.run_events Sockets.initial answered_on_the_wrong_socket))
      noRun.

Definition timed_out_promise : Server.Promise :=
  nth 0 (Server.promises timed_out_run) noPromise.

(** The second of the two workflows. *)
Definition waiting_run : Server.Run :=
  nth 1 (Sockets.runs (Sockets.run_events Sockets.initial two_workflows)) noRun.


(** ** The demo as [runEnhancedDemo] sets it up *)

Definition newOrchestrator : Demo.State :=
  {| Demo.agents := []; Demo.executionHistory := []; Demo.random := draws;
     Demo.cursor := 0; Demo.now := 0; Demo.console := [] |}.

(** The five agents, registered in this order. *)
Definition orchestrator : Demo.State :=
  fold_left Demo.registerAgent
    [Demo.newAgent "performance-analyzer"
       ["performance-analysis"; "throughput-optimization"]
       (Some 1200%Q) (Some (96 # 100)%Q);
     Demo.newAgent "security-specialist"
       ["security-scan"; "vulnerability-assessment"]
       (Some 2500%Q) (Some (98 # 100)%Q);
     Demo.newAgent "code-reviewer" ["code-review"; "quality-analysis"]
       (Some 1800%Q) (Some (94 # 100)%Q);
     Demo.newAgent "knowledge-synthesizer"
       ["knowledge-synthesis"; "pattern-recognition"]
       (Some 3000%Q) (Some (92 # 100)%Q);
     Demo.newAgent "system-monitor" ["health-monitoring"; "anomaly-detection"]
       (Some 800%Q) (Some (99 # 100)%Q)]
    newOrchestrator.

Definition complexWorkflow : Demo.WorkflowData :=
  {| Demo.wd_name := "Comprehensive System Analysis";
     Demo.wd_tasks :=
       [{| wt_name := "Performance Analysis"; wt_type := "performance-analysis";
           wt_capability := "performance-analysis"; wt_complexity := Some "complex";
           wt_parallel := true; wt_dependencies := None |};
        {| wt_name := "Security Assessment"; wt_type := "security-scan";
           wt_capability := "security-scan"; wt_complexity := Some "medium";
           wt_parallel := true; wt_dependencies := None |};
        {| wt_name := "System Health Check"; wt_type := "health-monitoring";
           wt_capability := "health-monitoring"; wt_complexity := Some "simple";
           wt_parallel := true; wt_dependencies := None |};
        {| wt_name := "Code Quality Review"; wt_type := "code-review";
           wt_capability := "code-review"; wt_complexity := Some "medium";
           wt_parallel := false;
           wt_dependencies := Some ["Performance Analysis"] |};
        {| wt_name := "Knowledge Synthesis"; wt_type := "knowledge-synthesis";
           wt_capability := "knowledge-synthesis"; wt_complexity := Some "complex";
           wt_parallel := false;
           wt_dependencies := Some ["Security Assessment"; "Code Quality Review";
                                    "System Health Check"] |}] |}.

(** The timers of the five attempts, in one of the orders they can fire. *)
Definition fiveTimers : list Demo.Event :=
  [Demo.TimerFires 2; Demo.TimerFires 0; Demo.Tick 30; Demo.TimerFires 1;
   Demo.TimerFires 3; Demo.Tick 60; Demo.TimerFires 4].

Definition noResult : Demo.WorkflowResult :=
  {| Demo.wr_workflow := ""; Demo.wr_totalDuration := 0; Demo.wr_results := [];
     Demo.wr_success := false |}.

(** What [executeWorkflow(complexWorkflow)] returns then. *)
Definition complexResult : Demo.WorkflowResult :=
  match Demo.cont (snd (Demo.run_events
                          (Demo.executeWorkflow orchestrator complexWorkflow)
                          fiveTimers)) with
  | Demo.Returned wr => wr
  | _ => noResult
  end.


(** The agent [a] takes two tasks; it reports the first as a success after
    120 ms and the second as a failure. *)
Definition failed_report : Server.CompletionData :=
  {| Server.cd_taskId := 1; Server.cd_result := None;
     Server.cd_responseTime := 80%Q; Server.cd_success := Some false |}.

Definition a_success_and_a_failure : list Sockets.Event :=
  [Sockets.AgentRegister "socket-a" "a" ["y"];
   Sockets.PostTasks bodyY; Sockets.AgentTaskComplete "socket-a" report;
   Sockets.PostTasks bodyY; Sockets.AgentTaskComplete "socket-a" failed_report].

Definition after_a_success_and_a_failure : Server.OrchestrationAgent :=
  Server.updatePerformance
    (Server.updatePerformance (Server.newAgent "a" ["y"] "socket-a") 120 true)
    80 false.

End Examples.

(* ================================================================== *)
(** * Facts about the containers *)

Section SortFacts.
Variable A : Type.
Variable key : A -> Q.

Let cmp (a b : A) : Q := (key b - key a)%Q.

Lemma cmp_le_iff a b : Qle_bool (cmp a b) 0 = true <-> (key b <= key a)%Q.
Proof.
  unfold cmp. rewrite Qle_bool_iff. split; intro H.
  - apply Qle_minus_iff in H. apply Qle_minus_iff.
    setoid_replace (key a + - key b)%Q with (0 + - (key b - key a))%Q by ring.
    exact H.
  - apply Qle_minus_iff. apply Qle_minus_iff in H.
    setoid_replace (0 + - (key b - key a))%Q with (key a + - key b)%Q by ring.
    exact H.
Qed.

Lemma sort_insert_perm x l : Permutation (JS.sort_insert cmp x l) (x :: l).
Proof.
  induction l as [|y l IH]; simpl; [reflexivity|].
  destruct (Qle_bool (cmp x y) 0); [reflexivity|].
  rewrite IH. apply perm_swap.
Qed.

Lemma array_sort_perm l : Permutation (JS.array_sort cmp l) l.
Proof.
  induction l as [|x l IH]; simpl; [constructor|].
  rewrite sort_insert_perm. now constructor.
Qed.

Lemma sort_insert_descending x l :
  descending key l -> descending key (JS.sort_insert cmp x l).
Proof.
  unfold descending. induction l as [|y l IH]; simpl; intro Hs.
  - repeat constructor.
  - inversion Hs as [|? ? Hl Hy]; subst.
    destruct (Qle_bool (cmp x y) 0) eqn:E.
    + apply cmp_le_iff in E. constructor; [exact Hs|].
      constructor; [exact E|].
      rewrite Forall_forall in *. intros z Hz.
      eapply Qle_trans; [apply Hy, Hz | exact E].
    + constructor; [apply IH, Hl|].
      rewrite Forall_forall in *. intros z Hz.
      apply (Permutation_in _ (sort_insert_perm x l)) in Hz.
      destruct Hz as [Hzx|Hz]; [subst z|apply Hy, Hz].
      destruct (Qlt_le_dec (key y) (key x)) as [Hlt|Hle]; [|exact Hle].
      exfalso. apply Qlt_le_weak, cmp_le_iff in Hlt. congruence.
Qed.

Lemma array_sort_descending l : descending key (JS.array_sort cmp l).
Proof.
  induction l as [|x l IH]; simpl.
  - constructor.
  - now apply sort_insert_descending.
Qed.

Lemma sort_insert_with_key k x l :
  with_key key k (JS.sort_insert cmp x l) = with_key key k (x :: l).
Proof.
  unfold with_key. induction l as [|y l IH]; [reflexivity|].
  cbn [JS.sort_insert]. destruct (Qle_bool (cmp x y) 0) eqn:E; [reflexivity|].
  cbn [filter] in *. rewrite IH.
  destruct (Qeq_bool (key x) k) eqn:Ex; [|reflexivity].
  destruct (Qeq_bool (key y) k) eqn:Ey; [|reflexivity].
  exfalso. apply Qeq_bool_iff in Ex, Ey.
  assert (Hle : (key y <= key x)%Q) by (rewrite Ex, Ey; apply Qle_refl).
  apply cmp_le_iff in Hle. congruence.
Qed.

Lemma array_sort_with_key k l :
  with_key key k (JS.array_sort cmp l) = with_key key k l.
Proof.
  induction l as [|x l IH]; [reflexivity|].
  cbn [JS.array_sort fold_right]. rewrite sort_insert_with_key.
  unfold with_key in *. cbn [filter]. fold (JS.array_sort cmp l).
  now rewrite IH.
Qed.

Lemma array_sort_stable l : stable_sort_of key l (JS.array_sort cmp l).
Proof.
  split; [apply array_sort_descending | intro k; apply array_sort_with_key].
Qed.

Lemma array_sort_nil_iff l : JS.array_sort cmp l = [] <-> l = [].
Proof.
  split; intro H; [|now subst].
  apply Permutation_nil. rewrite <- H. apply array_sort_perm.
Qed.

Lemma with_key_head x l : with_key key (key x) (x :: l) = x :: with_key key (key x) l.
Proof.
  unfold with_key. cbn [filter].
  now rewrite (proj2 (Qeq_bool_iff _ _) (Qeq_refl (key x))).
Qed.

Lemma descending_head_max x l y :
  descending key (x :: l) -> In y (x :: l) -> (key y <= key x)%Q.
Proof.
  intros Hs [<-|Hy]; [apply Qle_refl|].
  inversion Hs as [|? ? _ Hall]; subst.
  rewrite Forall_forall in Hall. now apply Hall.
Qed.

Lemma with_key_in k x l : In x (with_key key k l) -> In x l.
Proof. unfold with_key. rewrite filter_In. tauto. Qed.

(** A stable sort is determined by its input: whatever algorithm the
    engine runs, it returns what [JS.array_sort] returns. *)
Lemma stable_sort_unique l1 : forall l2,
  descending key l1 -> descending key l2 ->
  (forall k, with_key key k l1 = with_key key k l2) -> l1 = l2.
Proof.
  induction l1 as [|x t1 IH]; intros [|y t2] H1 H2 Hk.
  - reflexivity.
  - specialize (Hk (key y)). rewrite with_key_head in Hk. discriminate.
  - specialize (Hk (key x)). rewrite with_key_head in Hk. discriminate.
  - assert (Hyx : (key y <= key x)%Q).
    { apply (@descending_head_max x t1 y H1).
      apply (@with_key_in (key y)). rewrite Hk, with_key_head. now left. }
    assert (Hxy : (key x <= key y)%Q).
    { apply (@descending_head_max y t2 x H2).
      apply (@with_key_in (key x)). rewrite <- Hk, with_key_head. now left. }
    assert (E : (key y == key x)%Q) by now apply Qle_antisym.
    assert (Hxy' : x = y).
    { specialize (Hk (key x)). rewrite with_key_head in Hk.
      unfold with_key in Hk. cbn [filter] in Hk.
      rewrite (proj2 (Qeq_bool_iff _ _) E) in Hk. now injection Hk. }
    subst y. f_equal.
    inversion H1; inversion H2; subst.
    apply IH; trivial.
    intro k. specialize (Hk k). unfold with_key in *. cbn [filter] in Hk.
    destruct (Qeq_bool (key x) k); [now injection Hk | exact Hk].
Qed.

Lemma stable_sort_is_array_sort l l' :
  stable_sort_of key l l' -> l' = JS.array_sort cmp l.
Proof.
  intros [Hs Hk]. apply stable_sort_unique; trivial.
  - apply array_sort_descending.
  - intro k. now rewrite Hk, array_sort_with_key.
Qed.
End SortFacts.

Section MapFacts.
Variables (K V : Type) (keq : K -> K -> bool).
Hypothesis keq_refl : forall k, keq k k = true.

Lemma map_get_set_same k (v : V) m :
  JS.map_get keq k (JS.map_set keq k v m) = Some v.
Proof.
  induction m as [|[k' v'] m IH]; simpl.
  - now rewrite keq_refl.
  - destruct (keq k k') eqn:E; simpl.
    + now rewrite keq_refl.
    + now rewrite E.
Qed.
End MapFacts.

Lemma filter_none (A : Type) (f : A -> bool) (l : list A) :
  (forall x, In x l -> f x = false) -> filter f l = [].
Proof.
  induction l as [|x l IH]; intro H; [reflexivity|]. simpl.
  rewrite (H x (or_introl eq_refl)). apply IH. intros y Hy. apply H. now right.
Qed.


(* ================================================================== *)
(** * The registry: ranking and statistics *)

Lemma Server_bySuccessRate_sorts agents capability :
  stable_sort_of (fun a => Server.successRate (Server.performance a))
    (filter (fun agent => Server.canHandle agent capability
                          && String.eqb (Server.status agent) "active")
            (JS.map_values agents))
    (Server.suitableAgents agents capability).
Proof. apply array_sort_stable. Qed.

Lemma Demo_bySuccessRate_sorts st capability :
  stable_sort_of Demo.successRate
    (filter (fun agent => JS.includes (Demo.capabilities agent) capability)
            (JS.map_values (Demo.agents st)))
    (Demo.suitableAgents st capability).
Proof. apply array_sort_stable. Qed.

(** C1, as the code has it: the candidates of both programs are the
    capable agents (on the server: capable and active) in descending order
    of [successRate]; agents with the same rate keep their registration
    order, whatever their average response times; [findBestAgent] returns
    the first candidate, or [null] when there is none. *)
Theorem C1_candidates_by_rate_then_registration :
  (forall (agents : Server.Agents) (capability : string),
     let capable :=
       filter (fun agent => Server.canHandle agent capability
                            && String.eqb (Server.status agent) "active")
              (JS.map_values agents) in
     let candidates := Server.suitableAgents agents capability in
     Permutation candidates capable /\
     descending (fun a => Server.successRate (Server.performance a)) candidates /\
     (forall rate,
        with_key (fun a => Server.successRate (Server.performance a)) rate candidates
        = with_key (fun a => Server.successRate (Server.performance a)) rate capable) /\
     Server.findBestAgent agents capability = hd_error candidates) /\
  (forall (st : Demo.State) (capability : string),
     let capable :=
       filter (fun agent => JS.includes (Demo.capabilities agent) capability)
              (JS.map_values (Demo.agents st)) in
     let candidates := Demo.suitableAgents st capability in
     Permutation candidates capable /\
     descending Demo.successRate candidates /\
     (forall rate,
        with_key Demo.successRate rate candidates
        = with_key Demo.successRate rate capable)).
Proof.
  split; intros; subst capable candidates.
  - split; [apply array_sort_perm|].
    destruct (Server_bySuccessRate_sorts agents capability) as [Hd Hk].
    repeat split; trivial.
  - split; [apply array_sort_perm|].
    destruct (Demo_bySuccessRate_sorts st capability) as [Hd Hk].
    now split.
Qed.

(** C1, against the wording: [A] and [B] both have a success rate of 1 and
    [A], registered first, is the slower one.  The code ranks [A] first;
    ties broken by ascending average response time would rank [B] first. *)
Lemma C1_counterexample_latency_does_not_break_ties :
  List.map Server.id (Server.suitableAgents Examples.slow_then_fast "x") = ["A"; "B"]
  /\ Server.findBestAgent Examples.slow_then_fast "x" = Some Examples.slow
  /\ List.map Server.id (Spec.findCandidates Examples.slow_then_fast "x") = ["B"; "A"]
  /\ (Server.successRate (Server.performance Examples.slow)
      == Server.successRate (Server.performance Examples.fast))%Q
  /\ (Server.avgResponseTime Examples.fast < Server.avgResponseTime Examples.slow)%Q.
Proof. repeat split; vm_compute; congruence. Qed.

Lemma reachable_agent_rate (a : Server.OrchestrationAgent) :
  reachable_agent a ->
  0 <= Server.tasksCompleted a <= Server.totalTasks (Server.performance a) /\
  ((Server.totalTasks (Server.performance a) = 0 /\
    Server.successRate (Server.performance a) = (95 # 100)%Q) \/
   (0 < Server.totalTasks (Server.performance a) /\
    Server.successRate (Server.performance a)
    = (inject_Z (Server.tasksCompleted a)
       / inject_Z (Server.totalTasks (Server.performance a)))%Q)).
Proof.
  induction 1 as [i caps sock | a rt success Hr [Hb _]].
  - simpl. split; [lia | left; split; reflexivity].
  - split.
    + destruct success; simpl; lia.
    + right. destruct success; simpl; (split; [lia | reflexivity]).
Qed.

Lemma descending_after (A : Type) (key : A -> Q) (l1 l2 : list A) (y x : A) :
  descending key (l1 ++ y :: l2) -> In x l2 -> (key x <= key y)%Q.
Proof.
  unfold descending. induction l1 as [|z l1 IH]; cbn; intros Hs Hin.
  - inversion Hs as [|? ? _ Hall]; subst. rewrite Forall_forall in Hall.
    now apply Hall.
  - inversion Hs; subst. now apply IH.
Qed.

(** C7, as the code has it: in every reachable state of an agent,
    [tasksCompleted] is between 0 and [totalTasks]; with no recorded
    attempt the [successRate] is the 0.95 of the constructor, and after at
    least one it is [tasksCompleted / totalTasks].  So among the candidates
    for a capability an agent without recorded attempt is ranked above
    every agent whose ratio is below 0.95, and [findBestAgent] does not
    return such an agent. *)
Theorem C7_successRate_of_reachable_agent (a : Server.OrchestrationAgent) :
  reachable_agent a ->
  0 <= Server.tasksCompleted a <= Server.totalTasks (Server.performance a) /\
  ((Server.totalTasks (Server.performance a) = 0 /\
    Server.successRate (Server.performance a) = (95 # 100)%Q) \/
   (0 < Server.totalTasks (Server.performance a) /\
    Server.successRate (Server.performance a)
    = (inject_Z (Server.tasksCompleted a)
       / inject_Z (Server.totalTasks (Server.performance a)))%Q)) /\
  (forall agents capability fresh,
     reachable_agent fresh ->
     Server.totalTasks (Server.performance fresh) = 0 ->
     In fresh (Server.suitableAgents agents capability) ->
     In a (Server.suitableAgents agents capability) ->
     0 < Server.totalTasks (Server.performance a) ->
     (inject_Z (Server.tasksCompleted a)
      / inject_Z (Server.totalTasks (Server.performance a)) < 95 # 100)%Q ->
     ranked_above fresh a (Server.suitableAgents agents capability) /\
     Server.findBestAgent agents capability <> Some a).
Proof.
  intro Ha. destruct (reachable_agent_rate Ha) as [Hb Hrate].
  split; [exact Hb|]. split; [exact Hrate|].
  intros agents capability fresh Hf Hf0 Hinf Hina Hpos Hlow.
  assert (Rf : Server.successRate (Server.performance fresh) = (95 # 100)%Q).
  { destruct (reachable_agent_rate Hf) as [_ [[_ E]|[Hp _]]]; [exact E | lia]. }
  assert (Ra : (Server.successRate (Server.performance a) < 95 # 100)%Q).
  { destruct Hrate as [[Hz _]|[_ E]]; [lia | now rewrite E]. }
  assert (Hne : fresh <> a).
  { intros ->. rewrite Rf in Ra. now apply Qlt_irrefl in Ra. }
  destruct (Server_bySuccessRate_sorts agents capability) as [Hdesc _].
  assert (Habove : forall l1 l2,
            Server.suitableAgents agents capability = l1 ++ a :: l2 ->
            In fresh l1 /\ ~ In fresh l2).
  { intros l1 l2 E. rewrite E in Hdesc, Hinf.
    assert (Hnot : ~ In fresh l2).
    { intro Hin.
      pose proof (@descending_after _ _ l1 l2 a fresh Hdesc Hin) as Hle.
      cbn beta in Hle. rewrite Rf in Hle.
      apply (Qlt_not_le _ _ Ra). exact Hle. }
    split; [|exact Hnot].
    apply in_app_or in Hinf. destruct Hinf as [H1|[H1|H1]]; trivial.
    - now elim Hne.
    - contradiction. }
  split.
  - split; [exact Hinf|]. split; [exact Hina | exact Habove].
  - unfold Server.findBestAgent.
    destruct (Server.suitableAgents agents capability) as [|best l] eqn:E;
      [discriminate|].
    intros [= ->]. destruct (Habove [] l eq_refl) as [[] _].
Qed.

Lemma C7_successRate_of_reachable_agent_witness :
  reachable_agent Examples.veteran /\
  0 <= Server.tasksCompleted Examples.veteran
    <= Server.totalTasks (Server.performance Examples.veteran) /\
  ((Server.totalTasks (Server.performance Examples.veteran) = 0 /\
    Server.successRate (Server.performance Examples.veteran) = (95 # 100)%Q) \/
   (0 < Server.totalTasks (Server.performance Examples.veteran) /\
    Server.successRate (Server.performance Examples.veteran)
    = (inject_Z (Server.tasksCompleted Examples.veteran)
       / inject_Z (Server.totalTasks (Server.performance Examples.veteran)))%Q)) /\
  ranked_above Examples.fresh Examples.veteran
    (Server.suitableAgents Examples.veteran_then_fresh "x") /\
  Server.findBestAgent Examples.veteran_then_fresh "x" <> Some Examples.veteran.
Proof.
  assert (H : reachable_agent Examples.veteran) by (repeat constructor).
  destruct (C7_successRate_of_reachable_agent H) as (Hb & Hrate & Hrank).
  split; [exact H|]. split; [exact Hb|]. split; [exact Hrate|].
  apply (Hrank Examples.veteran_then_fresh "x" Examples.fresh).
  - constructor.
  - reflexivity.
  - vm_compute. tauto.
  - vm_compute. tauto.
  - reflexivity.
  - reflexivity.
Defined.

(** C7, against the wording: a freshly registered agent has no recorded
    attempt and a [successRate] of 0.95, not 0; it is ranked before an
    agent whose lifetime ratio is 1/2. *)
Lemma C7_counterexample_fresh_agent_is_not_ranked_last :
  reachable_agent Examples.fresh /\
  Server.totalTasks (Server.performance Examples.fresh) = 0 /\
  (Spec.successRate Examples.fresh == 0)%Q /\
  ~ (Server.successRate (Server.performance Examples.fresh)
     == Spec.successRate Examples.fresh)%Q /\
  reachable_agent Examples.veteran /\
  (0 < Spec.successRate Examples.veteran)%Q /\
  Server.findBestAgent Examples.veteran_then_fresh "x" = Some Examples.fresh.
Proof.
  split; [constructor|]. split; [reflexivity|]. split; [reflexivity|].
  split; [vm_compute; congruence|]. split; [repeat constructor|].
  split; reflexivity.
Qed.

(* ================================================================== *)
(** * Ad-hoc tasks *)

Lemma Server_findBestAgent_none agents capability :
  (forall a, In a (JS.map_values agents) ->
             Server.canHandle a capability
             && String.eqb (Server.status a) "active" = false) ->
  Server.findBestAgent agents capability = None.
Proof.
  intro H. unfold Server.findBestAgent, Server.suitableAgents.
  now rewrite (filter_none _ _ H).
Qed.

(** C10: when no registered active agent can handle the capability of the
    request, [POST /tasks] still stores the new task under a fresh id and
    answers 201 with it; the task is pending with no assigned agent, and
    the server sends nothing and changes no agent. *)
Theorem C10_post_tasks_without_capable_agent
    (sv : Server.ServerState) (body : Server.TaskRequest) :
  (forall a, In a (JS.map_values (Server.agents sv)) ->
             Server.canHandle a (Server.req_capability body)
             && String.eqb (Server.status a) "active" = false) ->
  let sv' := fst (Server.post_tasks sv body) in
  let code := fst (snd (Server.post_tasks sv body)) in
  let task := snd (snd (Server.post_tasks sv body)) in
  code = 201 /\
  Server.task_status task = "pending" /\
  Server.task_assignedAgent task = None /\
  Server.task_result task = None /\
  (Server.task_type task, Server.task_capability task, Server.task_data task)
    = (Server.req_type body, Server.req_capability body, Server.req_data body) /\
  JS.map_get Nat.eqb (Server.task_id task) (Server.tasks sv') = Some task /\
  Server.outbox sv' = Server.outbox sv /\
  Server.agents sv' = Server.agents sv.
Proof.
  intro H. unfold Server.post_tasks. cbn [Server.uuidv4].
  cbn [Server.set_tasks Server.agents].
  rewrite (Server_findBestAgent_none _ _ H). cbn.
  repeat split. apply map_get_set_same, Nat.eqb_refl.
Qed.

Lemma C10_post_tasks_without_capable_agent_witness :
  let sv := Server.set_agents Examples.emptyServer Examples.slow_then_fast in
  let body := {| Server.req_type := "analysis"; Server.req_capability := "y";
                 Server.req_data := "payload"; Server.req_priority := None |} in
  fst (snd (Server.post_tasks sv body)) = 201 /\
  Server.task_status (snd (snd (Server.post_tasks sv body))) = "pending" /\
  Server.task_assignedAgent (snd (snd (Server.post_tasks sv body))) = None /\
  Server.outbox (fst (Server.post_tasks sv body)) = [].
Proof.
  cbv zeta.
  pose proof (@C10_post_tasks_without_capable_agent
                (Server.set_agents Examples.emptyServer Examples.slow_then_fast)
                {| Server.req_type := "analysis"; Server.req_capability := "y";
                   Server.req_data := "payload"; Server.req_priority := None |}) as H.
  cbv zeta in H.
  assert (Hno : forall a,
             In a (JS.map_values
                     (Server.agents
                        (Server.set_agents Examples.emptyServer Examples.slow_then_fast))) ->
             Server.canHandle a "y" && String.eqb (Server.status a) "active" = false).
  { intros a [<-|[<-|[]]]; reflexivity. }
  destruct (H Hno) as (H1 & H2 & H3 & _ & _ & _ & H7 & _).
  repeat split; assumption.
Defined.

(* ================================================================== *)
(** * The demo agent: what an attempt changes *)


Lemma fixed_part_mutate st k processingTime :
  fixed_part (Demo.agents (Demo.mutate st k (Demo.record_success processingTime)))
  = fixed_part (Demo.agents st).
Proof.
  unfold Demo.mutate, fixed_part. cbn [Demo.agents Demo.set_agents].
  rewrite List.map_map. apply map_ext. intros [k' a]. cbn [fst snd].
  now destruct (String.eqb k k').
Qed.

Lemma begin_attempt_agents st agent taskType complexity :
  Demo.agents (fst (Demo.begin_attempt st agent taskType complexity))
  = Demo.agents st.
Proof. reflexivity. Qed.

Lemma begin_attempt_console st agent taskType complexity :
  Demo.console (fst (Demo.begin_attempt st agent taskType complexity))
  = Demo.console st ++ [Demo.LogProcessing (Demo.id agent) taskType].
Proof. reflexivity. Qed.

Lemma finish_attempt_console st agent taskType processingTime :
  Demo.console (fst (Demo.finish_attempt st agent taskType processingTime))
  = Demo.console st.
Proof.
  unfold Demo.finish_attempt. cbn [Demo.math_random].
  match goal with |- context [if ?b then _ else _] => destruct b end; reflexivity.
Qed.

Lemma finish_attempt_agents st agent taskType processingTime :
  let st' := fst (Demo.finish_attempt st agent taskType processingTime) in
  let res := snd (Demo.finish_attempt st agent taskType processingTime) in
  (Demo.ar_success res = false /\ Demo.agents st' = Demo.agents st) \/
  (Demo.ar_success res = true /\
   Demo.agents st'
   = Demo.agents (Demo.mutate st (Demo.id agent) (Demo.record_success processingTime))).
Proof.
  cbv zeta. unfold Demo.finish_attempt. cbn [Demo.math_random].
  match goal with |- context [if ?b then _ else _] => destruct b end;
    [right | left]; split; reflexivity.
Qed.

Lemma finish_attempt_fixed st agent taskType processingTime :
  fixed_part (Demo.agents (fst (Demo.finish_attempt st agent taskType processingTime)))
  = fixed_part (Demo.agents st).
Proof.
  destruct (finish_attempt_agents st agent taskType processingTime)
    as [[_ ->]|[_ ->]]; [reflexivity | apply fixed_part_mutate].
Qed.

Lemma finish_attempt_duration st agent taskType processingTime :
  Demo.ar_duration (snd (Demo.finish_attempt st agent taskType processingTime))
  = processingTime.
Proof.
  unfold Demo.finish_attempt. cbn [Demo.math_random].
  match goal with |- context [if ?b then _ else _] => destruct b end; reflexivity.
Qed.


(** The loop of [executeTask]: the candidates are tried from the first on,
    each once, up to the first whose attempt succeeds. *)
Lemma tryAgents_fallback candidates : forall st task last,
  let st' := fst (Demo.tryAgents st task candidates last) in
  let res := snd (Demo.tryAgents st task candidates last) in
  fixed_part (Demo.agents st') = fixed_part (Demo.agents st) /\
  ((exists failed winner later,
       candidates = failed ++ winner :: later /\
       Demo.console st'
       = Demo.console st ++ failed_attempts (wt_type task) failed
         ++ [Demo.LogProcessing (Demo.id winner) (wt_type task)] /\
       Demo.r_success res = true /\
       Demo.r_agent res = Some (Demo.id winner) /\
       Demo.r_task res = wt_name task) \/
   (Demo.console st'
    = Demo.console st ++ failed_attempts (wt_type task) candidates /\
    Demo.r_success res = false /\
    Demo.r_agent res = None /\
    Demo.r_error res = Some "All suitable agents failed" /\
    Demo.r_task res = wt_name task)).
Proof.
  induction candidates as [|agent rest IH]; intros st task last; cbv zeta.
  - split; [reflexivity|]. right. cbn. rewrite app_nil_r. repeat split.
  - cbn [Demo.tryAgents].
    destruct (Demo.begin_attempt st agent (wt_type task) (wt_complexity task))
      as [st1 pt] eqn:Eb.
    destruct (Demo.finish_attempt st1 agent (wt_type task) pt) as [st2 result] eqn:Ef.
    pose proof (begin_attempt_console st agent (wt_type task) (wt_complexity task)) as Hc1.
    pose proof (begin_attempt_agents st agent (wt_type task) (wt_complexity task)) as Ha1.
    pose proof (finish_attempt_console st1 agent (wt_type task) pt) as Hc2.
    pose proof (finish_attempt_fixed st1 agent (wt_type task) pt) as Ha2.
    rewrite Eb in Hc1, Ha1. rewrite Ef in Hc2, Ha2. cbn [fst snd] in *.
    destruct (Demo.ar_success result) eqn:Es.
    + cbn [fst snd]. split; [now rewrite Ha2, Ha1|].
      left. exists [], agent, rest. cbn.
      rewrite Hc2, Hc1. repeat split. exact Es.
    + specialize (IH (Demo.log st2 (Demo.LogFailedTryingBackup (Demo.id agent)))
                     task (Some result)).
      cbv zeta in IH. destruct IH as [Hfix IH].
      split; [rewrite Hfix; cbn [Demo.log Demo.agents]; now rewrite Ha2, Ha1|].
      destruct IH as [(failed & winner & later & Hc & Hlog & Hs & Hag & Hn)
                     |(Hlog & Hs & Hag & He & Hn)].
      * left. exists (agent :: failed), winner, later. subst rest.
        repeat split; trivial.
        rewrite Hlog. cbn [Demo.log Demo.console]. rewrite Hc2, Hc1.
        cbn. now rewrite <- !app_assoc.
      * right. repeat split; trivial.
        rewrite Hlog. cbn [Demo.log Demo.console]. rewrite Hc2, Hc1.
        cbn. now rewrite <- !app_assoc.
Qed.

Lemma Demo_suitableAgents_none st capability :
  (forall a, In a (JS.map_values (Demo.agents st)) ->
             JS.includes (Demo.capabilities a) capability = false) ->
  Demo.suitableAgents st capability = [].
Proof.
  intro H. unfold Demo.suitableAgents. now rewrite (filter_none _ _ H).
Qed.

Lemma Server_advertised_by_none agents capability :
  (forall a, In a (JS.map_values agents) ->
             JS.includes (Server.capabilities a) capability = false) ->
  Server.findBestAgent agents capability = None.
Proof.
  intro H. apply Server_findBestAgent_none. intros a Ha.
  unfold Server.canHandle. now rewrite (H a Ha).
Qed.

(** ** The registry of the demo through a run *)

Lemma start_task_fixed st it :
  fixed_part (Demo.agents (fst (fst (Demo.start_task st it))))
  = fixed_part (Demo.agents st).
Proof.
  destruct it as [i task]. unfold Demo.start_task.
  now destruct (Demo.suitableAgents st (wt_capability task)).
Qed.

Lemma timer_fires_fixed st th :
  fixed_part (Demo.agents (fst (fst (Demo.timer_fires st th))))
  = fixed_part (Demo.agents st).
Proof.
  unfold Demo.timer_fires.
  destruct (Demo.th_progress th) as [agent pt rest|res]; [|reflexivity].
  pose proof (finish_attempt_fixed st agent (wt_type (Demo.th_task th)) pt) as H.
  destruct (Demo.finish_attempt st agent (wt_type (Demo.th_task th)) pt)
    as [st1 result].
  cbn [fst] in H.
  destruct (Demo.ar_success result); [exact H|].
  destruct rest; exact H.
Qed.

Lemma complete_fixed st r :
  fixed_part (Demo.agents (fst (Demo.complete st r))) = fixed_part (Demo.agents st).
Proof. reflexivity. Qed.

Lemma sequential_loop_fixed todo : forall st r,
  fixed_part (Demo.agents (fst (Demo.sequential_loop st r todo)))
  = fixed_part (Demo.agents st).
Proof.
  induction todo as [|it rest IH]; intros st r; [reflexivity|].
  cbn [Demo.sequential_loop].
  set (st0 := match wt_dependencies (snd it) with
              | Some deps => Demo.log st (Demo.LogDependencies deps)
              | None => st end).
  assert (H0 : Demo.agents st0 = Demo.agents st)
    by (subst st0; now destruct (wt_dependencies (snd it))).
  pose proof (start_task_fixed st0 it) as Hs.
  destruct (Demo.start_task st0 it) as [[st1 th] evs]. cbn [fst] in Hs.
  destruct (Demo.th_progress th).
  - cbn [fst]. now rewrite Hs, H0.
  - now rewrite IH, Hs, H0.
Qed.

Lemma sequential_phase_fixed st r :
  fixed_part (Demo.agents (fst (Demo.sequential_phase st r)))
  = fixed_part (Demo.agents st).
Proof.
  unfold Demo.sequential_phase.
  destruct (sequentialTasks (Demo.wf_tasks r)); [reflexivity|].
  now rewrite sequential_loop_fixed.
Qed.

Lemma dispatch_all_fixed todo : forall st r,
  fixed_part (Demo.agents (fst (fst (Demo.dispatch_all st r todo))))
  = fixed_part (Demo.agents st).
Proof.
  induction todo as [|it rest IH]; intros st r; [reflexivity|].
  cbn [Demo.dispatch_all].
  pose proof (start_task_fixed st it) as Hs.
  destruct (Demo.start_task st it) as [[st1 th] evs]. cbn [fst] in Hs.
  specialize (IH st1 (Demo.set_threads r (Demo.threads r ++ [th]) evs)).
  destruct (Demo.dispatch_all st1 _ rest) as [[st2 r2] pids].
  cbn [fst] in *. now rewrite IH.
Qed.

Lemma resume_fixed st r :
  fixed_part (Demo.agents (fst (Demo.resume st r))) = fixed_part (Demo.agents st).
Proof.
  unfold Demo.resume. destruct (Demo.cont r) as [pids|pid rest|wr].
  - destruct (forallb (Demo.finished r) pids); [|reflexivity].
    apply sequential_phase_fixed.
  - destruct (Demo.thread_result r pid); [|reflexivity].
    apply sequential_loop_fixed.
  - reflexivity.
Qed.

Lemma fire_at_fixed ths : forall st pid,
  fixed_part (Demo.agents (fst (fst (Demo.fire_at st ths pid))))
  = fixed_part (Demo.agents st).
Proof.
  induction ths as [|th ths IH]; intros st [|pid]; try reflexivity.
  - cbn [Demo.fire_at]. pose proof (timer_fires_fixed st th) as H.
    now destruct (Demo.timer_fires st th) as [[st1 th1] evs].
  - cbn [Demo.fire_at]. specialize (IH st pid).
    now destruct (Demo.fire_at st ths pid) as [[st1 ths1] evs].
Qed.

Lemma step_fixed sr e :
  fixed_part (Demo.agents (fst (Demo.step sr e)))
  = fixed_part (Demo.agents (fst sr)).
Proof.
  destruct sr as [st r]. destruct e as [t|pid]; [reflexivity|].
  cbn [Demo.step fst].
  pose proof (fire_at_fixed (Demo.threads r) st pid) as H.
  destruct (Demo.fire_at st (Demo.threads r) pid) as [[st1 ths] evs].
  cbn [fst] in H. now rewrite resume_fixed.
Qed.

Lemma run_events_fixed evs : forall sr,
  fixed_part (Demo.agents (fst (Demo.run_events sr evs)))
  = fixed_part (Demo.agents (fst sr)).
Proof.
  induction evs as [|e evs IH]; intro sr; [reflexivity|].
  cbn [Demo.run_events fold_left]. fold (Demo.run_events (Demo.step sr e) evs).
  now rewrite IH, step_fixed.
Qed.

Lemma executeWorkflow_fixed st wd :
  fixed_part (Demo.agents (fst (Demo.executeWorkflow st wd)))
  = fixed_part (Demo.agents st).
Proof.
  unfold Demo.executeWorkflow.
  destruct (parallelTasks (Demo.wd_tasks wd)) as [|it par] eqn:E.
  - now rewrite sequential_phase_fixed.
  - match goal with |- context [Demo.dispatch_all ?s ?r ?l] =>
      pose proof (dispatch_all_fixed l s r) as H;
      destruct (Demo.dispatch_all s r l) as [[st2 r2] pids] end.
    cbn [fst] in H. now rewrite resume_fixed, H.
Qed.

Lemma executeTask_fixed st task :
  fixed_part (Demo.agents (fst (Demo.executeTask st task)))
  = fixed_part (Demo.agents st).
Proof.
  unfold Demo.executeTask.
  destruct (Demo.suitableAgents st (wt_capability task)); [reflexivity|].
  apply tryAgents_fallback.
Qed.

(** Sorting by a key that two arrays share position by position. *)
Lemma sort_insert_related (A B : Type) (proj : A -> B) (key : A -> Q)
    (keyB : B -> Q) (Hkey : forall a, key a = keyB (proj a)) x x' l :
  forall l', proj x = proj x' -> List.map proj l = List.map proj l' ->
  List.map proj (JS.sort_insert (fun a b => (key b - key a)%Q) x l)
  = List.map proj (JS.sort_insert (fun a b => (key b - key a)%Q) x' l').
Proof.
  induction l as [|y l IH]; intros [|y' l'] Hx Hl; try discriminate.
  - cbn. now rewrite Hx.
  - cbn in Hl. injection Hl as Hy Hl. cbn [JS.sort_insert].
    rewrite !Hkey, Hx, Hy.
    destruct (Qle_bool _ 0); cbn [List.map].
    + now rewrite Hx, Hy, Hl.
    + rewrite Hy. f_equal. now apply IH.
Qed.

Lemma array_sort_related (A B : Type) (proj : A -> B) (key : A -> Q)
    (keyB : B -> Q) (Hkey : forall a, key a = keyB (proj a)) l :
  forall l', List.map proj l = List.map proj l' ->
  List.map proj (JS.array_sort (fun a b => (key b - key a)%Q) l)
  = List.map proj (JS.array_sort (fun a b => (key b - key a)%Q) l').
Proof.
  induction l as [|x l IH]; intros [|x' l'] Hl; try discriminate; [reflexivity|].
  cbn in Hl. injection Hl as Hx Hl. cbn [JS.array_sort fold_right].
  apply (sort_insert_related proj key keyB Hkey); [exact Hx|].
  now apply IH.
Qed.

Lemma filter_related (A B : Type) (proj : A -> B) (f : A -> bool)
    (fB : B -> bool) (Hf : forall a, f a = fB (proj a)) l :
  forall l', List.map proj l = List.map proj l' ->
  List.map proj (filter f l) = List.map proj (filter f l').
Proof.
  induction l as [|x l IH]; intros [|x' l'] Hl; try discriminate; [reflexivity|].
  cbn in Hl. injection Hl as Hx Hl. cbn [filter].
  rewrite !Hf, Hx. destruct (fB (proj x')); cbn [List.map].
  - rewrite Hx. f_equal. now apply IH.
  - now apply IH.
Qed.

(** Two registries with the same fixed part rank their agents alike. *)
Lemma same_ranking st st' capability :
  fixed_part (Demo.agents st') = fixed_part (Demo.agents st) ->
  List.map Demo.id (Demo.suitableAgents st' capability)
  = List.map Demo.id (Demo.suitableAgents st capability).
Proof.
  intro H.
  set (proj := fun a : Demo.OrionAgent =>
                 (Demo.id a, Demo.capabilities a, Demo.avgResponseTime a,
                  Demo.successRate a, Demo.isActive a)).
  assert (Hv : List.map proj (JS.map_values (Demo.agents st'))
               = List.map proj (JS.map_values (Demo.agents st))).
  { unfold fixed_part in H. apply (f_equal (List.map snd)) in H.
    rewrite !List.map_map in H. cbn [snd] in H.
    unfold JS.map_values. rewrite !List.map_map. exact H. }
  assert (Hs : List.map proj (Demo.suitableAgents st' capability)
               = List.map proj (Demo.suitableAgents st capability)).
  { unfold Demo.suitableAgents, Demo.bySuccessRate.
    apply (array_sort_related proj Demo.successRate
             (fun b => snd (fst b))); [reflexivity|].
    apply (filter_related proj _
             (fun b => JS.includes (snd (fst (fst (fst b)))) capability));
      [reflexivity | exact Hv]. }
  apply (f_equal (List.map (fun b : string * list string * Q * Q * bool =>
                              fst (fst (fst (fst b)))))) in Hs.
  rewrite !List.map_map in Hs. exact Hs.
Qed.



(** C9: in the demo no attempt writes [successRate]. The start of an
    attempt leaves the registry as it is; its end leaves it as it is when
    the attempt fails and, when it succeeds, applies [record_success] to
    the agent, which adds to [tasksCompleted] and [totalResponseTime]
    only.  So after a dispatch, and at any point of a workflow run, every
    agent has the [id], [capabilities], [avgResponseTime], [successRate]
    and [isActive] it had before, and the candidates of any capability are
    ranked as before. *)
Theorem C9_demo_successRate_is_never_written :
  (forall st agent taskType complexity,
     Demo.agents (fst (Demo.begin_attempt st agent taskType complexity))
     = Demo.agents st) /\
  (forall st agent taskType processingTime,
     let st' := fst (Demo.finish_attempt st agent taskType processingTime) in
     let res := snd (Demo.finish_attempt st agent taskType processingTime) in
     (Demo.ar_success res = false /\ Demo.agents st' = Demo.agents st) \/
     (Demo.ar_success res = true /\
      Demo.agents st'
      = Demo.agents (Demo.mutate st (Demo.id agent)
                       (Demo.record_success processingTime)))) /\
  (forall processingTime a,
     let a' := Demo.record_success processingTime a in
     Demo.successRate a' = Demo.successRate a /\
     (Demo.id a', Demo.capabilities a', Demo.avgResponseTime a', Demo.isActive a')
     = (Demo.id a, Demo.capabilities a, Demo.avgResponseTime a, Demo.isActive a) /\
     Demo.tasksCompleted a' = Demo.tasksCompleted a + 1 /\
     Demo.totalResponseTime a' = JS.add (Demo.totalResponseTime a) processingTime) /\
  (forall st task,
     fixed_part (Demo.agents (fst (Demo.executeTask st task)))
     = fixed_part (Demo.agents st)) /\
  (forall st wd evs,
     fixed_part (Demo.agents (fst (Demo.run_events (Demo.executeWorkflow st wd) evs)))
     = fixed_part (Demo.agents st)) /\
  (forall st wd evs capability,
     List.map Demo.id
       (Demo.suitableAgents (fst (Demo.run_events (Demo.executeWorkflow st wd) evs))
          capability)
     = List.map Demo.id (Demo.suitableAgents st capability)).
Proof.
  split; [reflexivity|].
  split; [apply finish_attempt_agents|].
  split; [intros; cbv zeta; repeat split|].
  split; [apply executeTask_fixed|].
  assert (H : forall st wd evs,
             fixed_part (Demo.agents (fst (Demo.run_events (Demo.executeWorkflow st wd) evs)))
             = fixed_part (Demo.agents st)).
  { intros. now rewrite run_events_fixed, executeWorkflow_fixed. }
  split; [exact H|].
  intros. apply same_ranking, H.
Qed.

(** C8: when no registered agent advertises the capability of a task, the
    dispatcher of the demo returns the failure "No suitable agent found"
    and leaves the whole state as it is (no agent is called, nothing is
    logged or drawn); the dispatcher of the server returns a promise that is
    already resolved with the failure "No suitable agent available", and
    the server state is as it was: no message is sent, no uuid drawn, no
    agent changed, no timer or listener left behind. *)
Theorem C8_no_capable_agent
    (st : Demo.State) (sv : Server.ServerState) (r : Server.Run)
    (i : nat) (task : WfTask) :
  (forall a, In a (JS.map_values (Demo.agents st)) ->
             JS.includes (Demo.capabilities a) (wt_capability task) = false) ->
  (forall a, In a (JS.map_values (Server.agents sv)) ->
             JS.includes (Server.capabilities a) (wt_capability task) = false) ->
  (Demo.executeTask st task = (st, Demo.noAgentResult task) /\
   Demo.r_success (Demo.noAgentResult task) = false /\
   Demo.r_error (Demo.noAgentResult task) = Some "No suitable agent found" /\
   Demo.start_task st (i, task)
   = (st, {| Demo.th_index := i; Demo.th_task := task;
             Demo.th_progress := Demo.Finished (Demo.noAgentResult task) |},
      [Dispatched i; Settled i])) /\
  (let '(sv', r', p) := Server.executeWorkflowTask sv r (i, task) in
   sv' = sv /\
   Server.p_value p = Some (Server.noAgentResult (wt_name task)) /\
   Server.r_success (Server.noAgentResult (wt_name task)) = Some false /\
   Server.r_error (Server.noAgentResult (wt_name task))
   = Some "No suitable agent available" /\
   Server.p_attempt p = None /\
   Server.promises r' = Server.promises r ++ [p]).
Proof.
  intros Hd Hs. split.
  - unfold Demo.executeTask, Demo.start_task.
    rewrite (Demo_suitableAgents_none _ _ Hd). repeat split.
  - unfold Server.executeWorkflowTask.
    rewrite (Server_advertised_by_none _ _ Hs). repeat split.
Qed.

Lemma C8_no_capable_agent_witness :
  Demo.executeTask Examples.demoState Examples.taskY
  = (Examples.demoState, Demo.noAgentResult Examples.taskY) /\
  fst (fst (Server.executeWorkflowTask Examples.serverState Examples.emptyRun
              (0%nat, Examples.taskY)))
  = Examples.serverState.
Proof.
  assert (Hd : forall a, In a (JS.map_values (Demo.agents Examples.demoState)) ->
                 JS.includes (Demo.capabilities a) (wt_capability Examples.taskY) = false)
    by (intros a [<-|[<-|[]]]; reflexivity).
  assert (Hs : forall a, In a (JS.map_values (Server.agents Examples.serverState)) ->
                 JS.includes (Server.capabilities a) (wt_capability Examples.taskY) = false)
    by (intros a [<-|[<-|[]]]; reflexivity).
  pose proof (@C8_no_capable_agent Examples.demoState Examples.serverState
                Examples.emptyRun 0%nat Examples.taskY Hd Hs) as [[H1 _] H2].
  split; [exact H1|].
  destruct (Server.executeWorkflowTask Examples.serverState Examples.emptyRun
              (0%nat, Examples.taskY)) as [[sv' r'] p].
  apply H2.
Defined.

(* ================================================================== *)
(** * A dispatch of the demo, alone or within a run *)

(** The loop of [executeTask] and the steps of a call in a run are the
    same computation: started and then taken to its return by its timers,
    a call ends in the state and with the result of [Demo.executeTask]. *)
Lemma run_thread_step fuel st th agent pt rest :
  Demo.th_progress th = Demo.Attempting agent pt rest ->
  Demo.run_thread (S fuel) st th
  = Demo.run_thread fuel (fst (fst (Demo.timer_fires st th)))
      (snd (fst (Demo.timer_fires st th))).
Proof.
  intro H. cbn [Demo.run_thread]. rewrite H.
  now destruct (Demo.timer_fires st th) as [[st1 th1] evs].
Qed.

Lemma run_thread_finished fuel st th res :
  Demo.th_progress th = Demo.Finished res -> Demo.run_thread fuel st th = (st, th).
Proof. intro H. destruct fuel; cbn [Demo.run_thread]; [|rewrite H]; reflexivity. Qed.

Lemma run_thread_tryAgents rest : forall st i task agent pt,
  let st2 := fst (Demo.finish_attempt st agent (wt_type task) pt) in
  let result := snd (Demo.finish_attempt st agent (wt_type task) pt) in
  let expected :=
    if Demo.ar_success result then (st2, Demo.attributed task agent result)
    else Demo.tryAgents (Demo.log st2 (Demo.LogFailedTryingBackup (Demo.id agent)))
           task rest (Some result) in
  Demo.run_thread (S (List.length rest)) st
    {| Demo.th_index := i; Demo.th_task := task;
       Demo.th_progress := Demo.Attempting agent pt rest |}
  = (fst expected,
     {| Demo.th_index := i; Demo.th_task := task;
        Demo.th_progress := Demo.Finished (snd expected) |}).
Proof.
  induction rest as [|next rest IH]; intros st i task agent pt; cbv zeta;
    (erewrite run_thread_step by (cbn [Demo.th_progress]; reflexivity));
    unfold Demo.timer_fires; cbn [Demo.th_progress Demo.th_task Demo.th_index];
    destruct (Demo.finish_attempt st agent (wt_type task) pt) as [st2 result];
    cbn [fst snd]; destruct (Demo.ar_success result); cbn [fst snd];
    try (erewrite run_thread_finished; reflexivity).
  cbn [Demo.tryAgents].
  destruct (Demo.begin_attempt _ next _ _) as [st3 pt'].
  cbn [fst snd]. rewrite IH. cbv zeta.
  destruct (Demo.finish_attempt st3 next (wt_type task) pt') as [st4 result'].
  cbn [fst snd]. now destruct (Demo.ar_success result').
Qed.

Lemma executeTask_as_thread st i task :
  let st0 := fst (fst (Demo.start_task st (i, task))) in
  let th := snd (fst (Demo.start_task st (i, task))) in
  Demo.run_thread (List.length (Demo.suitableAgents st (wt_capability task))) st0 th
  = (fst (Demo.executeTask st task),
     {| Demo.th_index := i; Demo.th_task := task;
        Demo.th_progress := Demo.Finished (snd (Demo.executeTask st task)) |}).
Proof.
  cbv zeta. unfold Demo.start_task, Demo.executeTask.
  destruct (Demo.suitableAgents st (wt_capability task)) as [|agent rest];
    [reflexivity|].
  cbn [Demo.tryAgents].
  destruct (Demo.begin_attempt st agent (wt_type task) (wt_complexity task))
    as [st1 pt].
  cbn [fst snd List.length]. rewrite run_thread_tryAgents. cbv zeta.
  destruct (Demo.finish_attempt st1 agent (wt_type task) pt) as [st2 result].
  cbn [fst snd]. now destruct (Demo.ar_success result).
Qed.

(* ================================================================== *)
(** * Dispatch *)

Lemma isSequentialTask_negb t : isSequentialTask t = negb (isParallelTask t).
Proof.
  unfold isSequentialTask, isParallelTask.
  now destruct (wt_parallel t), (wt_dependencies t).
Qed.

(** A workflow of one task on the server, from the request to the end:
    one message goes out, to the best agent, and whatever comes back, a
    completion (successful or not) or the timeout, is the only result. *)
Lemma Server_single_task_workflow sv sock name task best :
  Server.findBestAgent (Server.agents sv) (wt_capability task) = Some best ->
  let wd := {| Server.wd_name := name; Server.wd_tasks := [task] |} in
  let taskId := S (Server.uuids sv) in
  let s1 := Server.on_workflow_execute sv sock wd in
  Server.outbox (fst s1)
  = Server.outbox sv ++ [Server.EmitWorkflowTask (Server.socketId best) taskId task sock] /\
  Server.agents (fst s1) = Server.agents sv /\
  (forall pl,
     let s2 := Server.step s1 (Server.TaskCompleteSignal taskId pl) in
     Server.cont (snd s2) = Server.Returned /\
     Server.wf_results (Server.workflow (snd s2))
     = [Server.completionResult (wt_name task) (Server.id best) 0 pl] /\
     Server.outbox (fst s2)
     = Server.outbox (fst s1)
       ++ [Server.EmitWorkflowCompleted sock (Server.workflow (snd s2))]) /\
  (let s2 := Server.step s1 (Server.TimerFires taskId) in
   Server.cont (snd s2) = Server.Returned /\
   Server.wf_results (Server.workflow (snd s2))
   = [Server.timeoutResult (wt_name task) (Server.id best) 0] /\
   Server.outbox (fst s2)
   = Server.outbox (fst s1)
     ++ [Server.EmitWorkflowCompleted sock (Server.workflow (snd s2))]).
Proof.
  intros Hbest wd taskId s1. subst s1 wd taskId.
  unfold Server.on_workflow_execute. cbn [Server.uuidv4 Server.wd_tasks Server.wd_name].
  unfold parallelTasks, sequentialTasks, indexed.
  cbn [List.length seq combine filter snd].
  rewrite isSequentialTask_negb.
  assert (Heq : forall n, Nat.eqb n n = true) by apply Nat.eqb_refl.
  destruct (isParallelTask task); cbn [negb].
  - cbn [Server.dispatch_all Server.executeWorkflowTask Server.agents].
    rewrite Hbest. cbn [Server.uuidv4 Server.agents].
    unfold Server.step, Server.resume, Server.deliver, Server.settled,
      Server.promise_value, Server.values, Server.listener_callback,
      Server.timer_callback, Server.set_attempt, Server.resolve.
    cbn. rewrite ?Heq. cbn. rewrite ?Heq. cbn. rewrite ?Z.sub_diag.
    repeat split.
  - cbn [Server.sequential_loop Server.executeWorkflowTask Server.agents].
    rewrite Hbest.
    unfold Server.step, Server.resume, Server.deliver, Server.settled,
      Server.promise_value, Server.values, Server.listener_callback,
      Server.timer_callback, Server.set_attempt, Server.resolve.
    cbn. rewrite ?Heq. cbn. rewrite ?Heq. cbn. rewrite ?Z.sub_diag.
    repeat split.
Qed.

(** C2, as the code has it.  The dispatcher of the demo tries the ranked
    candidates one at a time, from the first on and each at most once: it
    returns the result of the first successful attempt, attributed to that
    agent, without calling any later candidate, or, after an attempt on
    every candidate has failed, the failure "All suitable agents failed".
    The dispatcher of the server makes one attempt, on the best candidate:
    in a workflow of one task, one message goes out, to that agent, and the
    completion that comes back (successful or not) or the timeout is the
    result of the task. *)
Theorem C2_fallback_in_demo_single_attempt_on_server
    (st : Demo.State) (task : WfTask)
    (sv : Server.ServerState) (sock name : string) (stask : WfTask)
    (best : Server.OrchestrationAgent) :
  Demo.suitableAgents st (wt_capability task) <> [] ->
  Server.findBestAgent (Server.agents sv) (wt_capability stask) = Some best ->
  (let candidates := Demo.suitableAgents st (wt_capability task) in
   let st' := fst (Demo.executeTask st task) in
   let res := snd (Demo.executeTask st task) in
   (exists failed winner later,
       candidates = failed ++ winner :: later /\
       Demo.console st'
       = Demo.console st ++ failed_attempts (wt_type task) failed
         ++ [Demo.LogProcessing (Demo.id winner) (wt_type task)] /\
       Demo.r_success res = true /\
       Demo.r_agent res = Some (Demo.id winner) /\
       Demo.r_task res = wt_name task) \/
   (Demo.console st'
    = Demo.console st ++ failed_attempts (wt_type task) candidates /\
    Demo.r_success res = false /\
    Demo.r_agent res = None /\
    Demo.r_error res = Some "All suitable agents failed" /\
    Demo.r_task res = wt_name task)) /\
  (let wd := {| Server.wd_name := name; Server.wd_tasks := [stask] |} in
   let taskId := S (Server.uuids sv) in
   let s1 := Server.on_workflow_execute sv sock wd in
   Server.outbox (fst s1)
   = Server.outbox sv
     ++ [Server.EmitWorkflowTask (Server.socketId best) taskId stask sock] /\
   (forall pl,
      let s2 := Server.step s1 (Server.TaskCompleteSignal taskId pl) in
      Server.cont (snd s2) = Server.Returned /\
      Server.wf_results (Server.workflow (snd s2))
      = [Server.completionResult (wt_name stask) (Server.id best) 0 pl] /\
      Server.outbox (fst s2)
      = Server.outbox (fst s1)
        ++ [Server.EmitWorkflowCompleted sock (Server.workflow (snd s2))]) /\
   (let s2 := Server.step s1 (Server.TimerFires taskId) in
    Server.cont (snd s2) = Server.Returned /\
    Server.wf_results (Server.workflow (snd s2))
    = [Server.timeoutResult (wt_name stask) (Server.id best) 0] /\
    Server.outbox (fst s2)
    = Server.outbox (fst s1)
      ++ [Server.EmitWorkflowCompleted sock (Server.workflow (snd s2))])).
Proof.
  intros Hne Hbest. split.
  - cbv zeta. unfold Demo.executeTask.
    destruct (Demo.suitableAgents st (wt_capability task)) as [|c rest] eqn:E;
      [congruence|].
    apply (tryAgents_fallback (c :: rest) st task None).
  - pose proof (Server_single_task_workflow sv sock name stask Hbest) as H.
    cbv zeta in *. destruct H as (H1 & _ & H2 & H3). repeat split; trivial;
      try apply H2; apply H3.
Qed.

Lemma C2_fallback_in_demo_single_attempt_on_server_witness :
  Demo.r_success (snd (Demo.executeTask Examples.demoState Examples.taskX)) = true /\
  Demo.r_agent (snd (Demo.executeTask Examples.demoState Examples.taskX)) = Some "A" /\
  Server.outbox (fst (Server.on_workflow_execute Examples.serverState "client"
                        Examples.oneTask))
  = [Server.EmitWorkflowTask "socket-f" 1 Examples.taskX "client"].
Proof.
  assert (Hne : Demo.suitableAgents Examples.demoState (wt_capability Examples.taskX) <> [])
    by (vm_compute; congruence).
  assert (Hbest : Server.findBestAgent (Server.agents Examples.serverState)
                    (wt_capability Examples.taskX) = Some Examples.fresh)
    by reflexivity.
  destruct (@C2_fallback_in_demo_single_attempt_on_server
              Examples.demoState Examples.taskX Examples.serverState
              "client" "w" Examples.taskX Examples.fresh Hne Hbest) as [_ [H _]].
  split; [reflexivity|]. split; [reflexivity|]. exact H.
Defined.

(** C2, against the wording: on the server the candidates for ["x"] are
    [fresh], then [veteran].  The attempt of [fresh] fails; the task ends
    with that failure, and [veteran] was never sent the task. *)
Lemma C2_counterexample_server_has_no_fallback :
  List.map Server.id
    (Server.suitableAgents (Server.agents Examples.serverState) "x")
  = ["fresh"; "veteran"] /\
  Server.cont
    (snd (Server.run_events
            (Server.on_workflow_execute Examples.serverState "client" Examples.oneTask)
            [Server.TaskCompleteSignal 1 Examples.failure]))
  = Server.Returned /\
  List.map (fun r => (Server.r_agent r, Server.r_success r, Server.r_error r))
    (Server.wf_results
       (Server.workflow
          (snd (Server.run_events
                  (Server.on_workflow_execute Examples.serverState "client"
                     Examples.oneTask)
                  [Server.TaskCompleteSignal 1 Examples.failure]))))
  = [(Some "fresh", Some false, Some "boom")] /\
  List.map (fun e => match e with
                     | Server.EmitWorkflowTask toSocket _ _ _ => Some toSocket
                     | _ => None
                     end)
    (Server.outbox
       (fst (Server.run_events
               (Server.on_workflow_execute Examples.serverState "client"
                  Examples.oneTask)
               [Server.TaskCompleteSignal 1 Examples.failure])))
  = [Some "socket-f"; None].
Proof. repeat split. Qed.

(* ================================================================== *)
(** * The race between completion and timeout *)

(** When the completion wins, its listener is gone (it was registered with
    [once]) and it has cleared the timer. *)
Lemma listener_callback_retires_both clock pl p a :
  Server.p_attempt p = Some a -> Server.at_listener a = true ->
  let p' := fst (Server.listener_callback clock (Server.at_taskId a) pl p) in
  Server.p_listener p' = false /\ Server.p_timer p' = false.
Proof.
  intros Ha Hl. cbv zeta.
  unfold Server.listener_callback, Server.resolve, Server.p_listener, Server.p_timer.
  rewrite Ha, Nat.eqb_refl, Hl. cbn. now destruct (Server.p_value p).
Qed.

(** When the timeout wins, the timer is gone but nothing removes the
    listener. *)
Lemma timer_callback_keeps_listener clock taskId p :
  Server.p_listener (fst (Server.timer_callback clock taskId p))
  = Server.p_listener p.
Proof.
  unfold Server.timer_callback, Server.resolve, Server.p_listener.
  destruct (Server.p_attempt p) as [a|] eqn:Ea; [|cbn; now rewrite Ea].
  destruct (Nat.eqb (Server.at_taskId a) taskId && Server.at_timer a);
    [|cbn; now rewrite Ea].
  cbn. now destruct (Server.p_value p).
Qed.

(** [resolve] on a settled promise does nothing: a promise settles once. *)
Lemma resolve_settled p v w :
  Server.p_value p = Some v -> Server.resolve p w = (p, []).
Proof. intro H. unfold Server.resolve. now rewrite H. Qed.

Lemma listener_callback_value clock taskId pl p v :
  Server.p_value p = Some v ->
  Server.p_value (fst (Server.listener_callback clock taskId pl p)) = Some v /\
  snd (Server.listener_callback clock taskId pl p) = [].
Proof.
  intro H. unfold Server.listener_callback.
  destruct (Server.p_attempt p) as [a|]; [|now split].
  destruct (Nat.eqb (Server.at_taskId a) taskId && Server.at_listener a);
    [|now split].
  rewrite (@resolve_settled _ v); [now split | exact H].
Qed.

Lemma timer_callback_value clock taskId p v :
  Server.p_value p = Some v ->
  Server.p_value (fst (Server.timer_callback clock taskId p)) = Some v /\
  snd (Server.timer_callback clock taskId p) = [].
Proof.
  intro H. unfold Server.timer_callback.
  destruct (Server.p_attempt p) as [a|]; [|now split].
  destruct (Nat.eqb (Server.at_taskId a) taskId && Server.at_timer a);
    [|now split].
  rewrite (@resolve_settled _ v); [now split | exact H].
Qed.

(** No step of a workflow run touches the registry: the promises, timers
    and listeners of [executeWorkflowTask] never call [updatePerformance]. *)
Lemma executeWorkflowTask_agents sv r it :
  Server.agents (fst (fst (Server.executeWorkflowTask sv r it))) = Server.agents sv.
Proof.
  destruct it as [i task]. unfold Server.executeWorkflowTask.
  now destruct (Server.findBestAgent (Server.agents sv) (wt_capability task)).
Qed.

Lemma sequential_loop_agents todo : forall sv r,
  Server.agents (fst (Server.sequential_loop sv r todo)) = Server.agents sv.
Proof.
  induction todo as [|it rest IH]; intros sv r; [reflexivity|].
  cbn [Server.sequential_loop].
  pose proof (executeWorkflowTask_agents sv r it) as H.
  destruct (Server.executeWorkflowTask sv r it) as [[sv1 r1] p]. cbn [fst] in H.
  destruct (Server.p_value p); [now rewrite IH | exact H].
Qed.

Lemma resume_agents sv r :
  Server.agents (fst (Server.resume sv r)) = Server.agents sv.
Proof.
  unfold Server.resume. destruct (Server.cont r) as [pids sequential|pid rest|].
  - destruct (forallb _ _); [apply sequential_loop_agents | reflexivity].
  - destruct (Server.promise_value r pid);
      [apply sequential_loop_agents | reflexivity].
  - reflexivity.
Qed.

Lemma attempt_events_keep_agents sv r taskId pl :
  Server.agents (fst (Server.step (sv, r) (Server.TimerFires taskId)))
  = Server.agents sv /\
  Server.agents (fst (Server.step (sv, r) (Server.TaskCompleteSignal taskId pl)))
  = Server.agents sv.
Proof. split; apply resume_agents. Qed.

(** C3, on the code: the attempt 1 of the one-task workflow times out.
    The promise is resolved with "Task timeout" and the timer is gone, but
    the listener of the completion is still registered.  A completion
    that arrives afterwards runs that listener, which then goes away: the
    result of the task stays the timeout, no agent is touched and nothing
    is sent. *)
Lemma C3_listener_outlives_timeout :
  let s1 := Server.on_workflow_execute Examples.serverState "client" Examples.oneTask in
  let s2 := Server.step s1 (Server.TimerFires 1) in
  let s3 := Server.step s2 (Server.TaskCompleteSignal 1 Examples.failure) in
  List.map (fun p => (Server.p_timer p, Server.p_listener p))
    (Server.promises (snd s1)) = [(true, true)] /\
  List.map (fun p => (Server.p_timer p, Server.p_listener p,
                      option_map Server.r_error (Server.p_value p)))
    (Server.promises (snd s2)) = [(false, true, Some (Some "Task timeout"))] /\
  List.map (fun p => (Server.p_timer p, Server.p_listener p,
                      option_map Server.r_error (Server.p_value p)))
    (Server.promises (snd s3)) = [(false, false, Some (Some "Task timeout"))] /\
  Server.workflow (snd s3) = Server.workflow (snd s2) /\
  Server.trace (snd s3) = Server.trace (snd s2) /\
  fst s3 = fst s2.
Proof. repeat split. Qed.

(* ================================================================== *)
(** * The workflow run of the server *)

Section ServerRun.

Import Server ServerInv.

Lemma timer_callback_ok clock taskId : callback_ok (timer_callback clock taskId).
Proof.
  intro p. unfold timer_callback, resolve, valued.
  destruct (p_attempt p) as [a|];
    [destruct (Nat.eqb (at_taskId a) taskId && at_timer a);
       [cbn [p_value set_attempt]; destruct (p_value p) eqn:E|]|];
    cbn [fst snd p_value p_index set_attempt];
    (split; [reflexivity|]); (split; [intro; try congruence; now split|]);
    intro; try congruence;
    first [left; split; congruence | right; split; [discriminate | reflexivity]].
Qed.

Lemma listener_callback_ok clock taskId pl :
  callback_ok (listener_callback clock taskId pl).
Proof.
  intro p. unfold listener_callback, resolve, valued.
  destruct (p_attempt p) as [a|];
    [destruct (Nat.eqb (at_taskId a) taskId && at_listener a);
       [cbn [p_value set_attempt]; destruct (p_value p) eqn:E|]|];
    cbn [fst snd p_value p_index set_attempt];
    (split; [reflexivity|]); (split; [intro; try congruence; now split|]);
    intro; try congruence;
    first [left; split; congruence | right; split; [discriminate | reflexivity]].
Qed.

Section Delivery.
Variable f : Promise -> Promise * list TraceEvent.
Hypothesis Hf : callback_ok f.

Lemma delivered_index ps :
  List.map p_index (List.map (fun p => fst (f p)) ps) = List.map p_index ps.
Proof.
  rewrite List.map_map. apply map_ext. intro p. apply Hf.
Qed.

Lemma delivered_valued ps :
  Forall valued ps ->
  List.map (fun p => fst (f p)) ps = List.map (fun p => fst (f p)) ps /\
  Forall valued (List.map (fun p => fst (f p)) ps) /\
  values_of (List.map (fun p => fst (f p)) ps) = values_of ps /\
  flat_map (fun p => snd (f p)) ps = [].
Proof.
  induction 1 as [|p ps Hp Hps (_ & IH1 & IH2 & IH3)]; [repeat split; constructor|].
  destruct (Hf p) as (_ & Hv & _). destruct (Hv Hp) as [Hval Hev].
  split; [reflexivity|]. split; [|split].
  - cbn. constructor; [|exact IH1]. unfold valued in *. now rewrite Hval.
  - unfold values_of in *. cbn. now rewrite Hval, IH2.
  - cbn. now rewrite Hev, IH3.
Qed.

Lemma delivered_events ps :
  Forall (fun e => is_dispatch e = false /\ In (event_index e) (List.map p_index ps))
         (flat_map (fun p => snd (f p)) ps).
Proof.
  induction ps as [|p ps IH]; [constructor|]. cbn [flat_map].
  apply Forall_app. split.
  - destruct (Hf p) as (_ & Hv & Hn).
    destruct (p_value p) eqn:E.
    + destruct Hv as [_ ->]; [unfold valued; congruence | constructor].
    + destruct (Hn eq_refl) as [[_ ->]|[_ ->]]; [constructor|].
      constructor; [|constructor]. split; [reflexivity | now left].
  - eapply Forall_impl; [|exact IH]. intros e [H1 H2]. split; [exact H1 | now right].
Qed.

Lemma delivered_settled ps tr :
  (forall p, In p ps -> valued p -> In (Settled (p_index p)) tr) ->
  forall p', In p' (List.map (fun p => fst (f p)) ps) -> valued p' ->
             In (Settled (p_index p')) (tr ++ flat_map (fun p => snd (f p)) ps).
Proof.
  intros Hold p' Hin Hval. apply in_map_iff in Hin as (p & <- & Hp).
  destruct (Hf p) as (Hi & Hv & Hn). rewrite Hi. apply in_or_app.
  destruct (p_value p) eqn:E.
  - left. apply Hold; [exact Hp | unfold valued; congruence].
  - destruct (Hn eq_refl) as [[Hnone _]|[_ Hev]].
    + unfold valued in Hval. congruence.
    + right. apply in_flat_map. exists p. split; [exact Hp|]. rewrite Hev. now left.
Qed.
End Delivery.


Lemma nth_error_seq (A : Type) (ps : list A) : forall pre,
  List.map (nth_error (pre ++ ps)) (seq (List.length pre) (List.length ps))
  = List.map Some ps.
Proof.
  induction ps as [|p ps IH]; intro pre; [reflexivity|].
  cbn [List.length seq List.map]. f_equal.
  - rewrite nth_error_app2, Nat.sub_diag; [reflexivity | apply Nat.le_refl].
  - specialize (IH (pre ++ [p])). rewrite <- app_assoc in IH. cbn in IH.
    rewrite <- IH. rewrite length_app, Nat.add_comm. reflexivity.
Qed.

Lemma values_all r :
  values r (seq 0 (List.length (promises r))) = values_of (promises r).
Proof.
  unfold values, values_of, promise_value.
  rewrite !flat_map_concat_map. f_equal.
  pose proof (nth_error_seq (promises r) []) as H. cbn in H.
  rewrite <- (List.map_map (nth_error (promises r))
                (fun o => match match o with Some p => p_value p | None => None end with
                          | Some v => [v] | None => [] end)).
  rewrite H, List.map_map. reflexivity.
Qed.

Lemma settled_all r :
  forallb (settled r) (seq 0 (List.length (promises r))) = true ->
  Forall valued (promises r).
Proof.
  intro H. rewrite forallb_forall in H. apply Forall_forall. intros p Hp.
  apply In_nth_error in Hp as [n Hn].
  assert (Hlt : (n < List.length (promises r))%nat)
    by (apply nth_error_Some; congruence).
  specialize (H n). unfold settled, promise_value in H. rewrite Hn in H.
  unfold valued. destruct (p_value p); [discriminate|].
  assert (false = true); [|discriminate]. apply H. apply in_seq. lia.
Qed.

Lemma values_of_app ps qs : values_of (ps ++ qs) = values_of ps ++ values_of qs.
Proof. unfold values_of. now rewrite flat_map_app. Qed.

Lemma seq_trace_app l1 l2 : seq_trace (l1 ++ l2) = seq_trace l1 ++ seq_trace l2.
Proof. unfold seq_trace. now rewrite flat_map_app. Qed.

(** The call of [executeWorkflowTask]: one more promise, for that task. *)
Lemma executeWorkflowTask_run sv r it :
  let r' := snd (fst (executeWorkflowTask sv r it)) in
  let p := snd (executeWorkflowTask sv r it) in
  promises r' = promises r ++ [p] /\
  p_index p = fst it /\
  cont r' = cont r /\ workflow r' = workflow r /\
  ((p_value p = None /\ trace r' = trace r ++ [Dispatched (fst it)]) \/
   (valued p /\ trace r' = trace r ++ [Dispatched (fst it); Settled (fst it)])).
Proof.
  destruct it as [i task]. cbv zeta. unfold executeWorkflowTask.
  destruct (findBestAgent (agents sv) (wt_capability task)); cbn.
  - repeat split. left. now split.
  - repeat split. right. split; [discriminate | reflexivity].
Qed.

Variable T : list WfTask.

Local Abbreviation P := (List.map fst (parallelTasks T)).

Lemma sequential_loop_inv todo : forall sv r done tp,
  sequentialTasks T = done ++ todo ->
  Forall valued (promises r) ->
  List.map p_index (promises r) = P ++ List.map fst done ->
  wf_results (workflow r) = values_of (promises r) ->
  parallel_done P tp ->
  trace r = tp ++ seq_trace (List.map fst done) ->
  run_inv T (snd (sequential_loop sv r todo)).
Proof.
  induction todo as [|it rest IH]; intros sv r done tp HS Hval Hidx Hres Hpd Htr.
  - rewrite app_nil_r in HS. subst done. cbn [sequential_loop].
    unfold run_inv, complete. cbn. exists tp. repeat split; trivial;
      apply Hpd.
  - cbn [sequential_loop].
    destruct (executeWorkflowTask_run sv r it) as (Hps & Hi & Hc & Hw & Hcase).
    destruct (executeWorkflowTask sv r it) as [[sv1 r1] p]. cbn [fst snd] in *.
    destruct Hcase as [[Hnone Htr1]|[Hsome Htr1]].
    + rewrite Hnone. unfold run_inv. cbn.
      exists done, it, (promises r), p, tp. rewrite Hps, Hw.
      repeat split; trivial; try apply Hpd.
      left. split; [exact Hnone|]. rewrite Htr1, Htr. now rewrite <- app_assoc.
    + destruct (p_value p) as [v|] eqn:Ev; [|now elim Hsome].
      apply IH with (done := done ++ [it]) (tp := tp).
      * now rewrite <- app_assoc.
      * cbn. rewrite Hps. apply Forall_app. split; [exact Hval|].
        constructor; [unfold valued; congruence | constructor].
      * cbn. rewrite Hps, !List.map_app, Hidx. cbn. rewrite Hi.
        now rewrite <- app_assoc.
      * cbn. rewrite Hps, Hw, Hres, values_of_app. f_equal.
        unfold values_of. cbn. now rewrite Ev.
      * exact Hpd.
      * cbn. rewrite Htr1, Htr, List.map_app, seq_trace_app. cbn.
        now rewrite <- ?app_assoc.
Qed.

Lemma resume_inv sv r : run_inv T r -> run_inv T (snd (resume sv r)).
Proof.
  intro H. unfold resume. unfold run_inv in H.
  destruct (cont r) as [pids sequential|pid rest|] eqn:Ec.
  - destruct H as (-> & -> & Hidx & Hres & Hpp & Hset).
    destruct (forallb _ _) eqn:Eall.
    + apply settled_all in Eall.
      apply sequential_loop_inv with (done := []) (tp := trace r); cbn.
      * reflexivity.
      * exact Eall.
      * now rewrite app_nil_r.
      * now rewrite Hres, values_all.
      * split; [exact Hpp|]. intros i Hi. rewrite <- Hidx in Hi.
        apply in_map_iff in Hi as (p & <- & Hp). apply Hset; [exact Hp|].
        rewrite Forall_forall in Eall. now apply Eall.
      * now rewrite app_nil_r.
    + cbn. unfold run_inv. rewrite Ec. repeat split; trivial; apply Hpp.
  - destruct H as (done & cur & others & pc & tp & HS & Hps & -> & Hval & Hidx
                   & Hi & Hres & Hpd & Hcase).
    unfold promise_value. rewrite Hps.
    rewrite nth_error_app2, Nat.sub_diag by apply Nat.le_refl. cbn [nth_error].
    destruct (p_value pc) as [v|] eqn:Ev.
    + destruct Hcase as [[Hnone _]|[_ Htr]]; [discriminate|].
      apply sequential_loop_inv with (done := done ++ [cur]) (tp := tp); cbn.
      * now rewrite <- app_assoc.
      * rewrite Hps. apply Forall_app. split; [exact Hval|].
        constructor; [unfold valued; congruence | constructor].
      * rewrite Hps, !List.map_app, Hidx. cbn. rewrite Hi.
        now rewrite <- app_assoc.
      * rewrite Hps, Hres, values_of_app. f_equal.
        unfold values_of. cbn. now rewrite Ev.
      * exact Hpd.
      * rewrite Htr, List.map_app, seq_trace_app. cbn. now rewrite <- ?app_assoc.
    + cbn. unfold run_inv. rewrite Ec.
      exists done, cur, others, pc, tp. repeat split; trivial; try apply Hpd.
      rewrite Ev. exact Hcase.
  - cbn. unfold run_inv. rewrite Ec. exact H.
Qed.


Lemma deliver_inv f r : callback_ok f -> run_inv T r -> run_inv T (deliver f r).
Proof.
  intros Hf H. unfold run_inv in H |- *.
  cbn [deliver set_promises cont].
  destruct (cont r) as [pids sequential|pid rest|] eqn:Ec.
  - destruct H as (-> & -> & Hidx & Hres & [Hall Hdis] & Hset).
    pose proof (delivered_events Hf (promises r)) as Hev.
    cbn. rewrite length_map, (delivered_index Hf), Hidx.
    repeat split; trivial.
    + apply Forall_app. split; [exact Hall|].
      eapply Forall_impl; [|exact Hev]. intros e [_ He]. now rewrite Hidx in He.
    + rewrite filter_app, Hdis.
      replace (filter is_dispatch (flat_map (fun p => snd (f p)) (promises r)))
        with (@nil TraceEvent); [apply app_nil_r|].
      symmetry. apply filter_none. intros e He.
      rewrite Forall_forall in Hev. now apply Hev.
    + now apply delivered_settled.
  - destruct H as (done & cur & others & pc & tp & HS & Hps & -> & Hval & Hidx
                   & Hi & Hres & Hpd & Hcase).
    destruct (delivered_valued Hf Hval) as (_ & Hval' & Hvals & Hnil).
    destruct (Hf pc) as (Hipc & Hv & Hn).
    exists done, cur, (List.map (fun p => fst (f p)) others), (fst (f pc)), tp.
    cbn. rewrite Hps, List.map_app, flat_map_app, Hnil, length_map,
      (delivered_index Hf), Hvals, Hipc.
    cbn. rewrite app_nil_r.
    repeat split; trivial; try apply Hpd.
    destruct Hcase as [[Hnone Htr]|[Hsome Htr]].
    + destruct (Hn Hnone) as [[Hnone' ->]|[Hsome' ->]].
      * left. rewrite app_nil_r. now split.
      * right. split; [exact Hsome'|]. rewrite Htr, Hi.
        now rewrite <- !app_assoc.
    + destruct (Hv Hsome) as [Hsame ->]. right. rewrite app_nil_r.
      split; [unfold valued in *; now rewrite Hsame | exact Htr].
  - destruct H as (tp & Hval & Hidx & Hres & Hst & Hpd & Htr).
    destruct (delivered_valued Hf Hval) as (_ & Hval' & Hvals & Hnil).
    exists tp. unfold deliver, set_promises. cbn [promises trace workflow].
    rewrite Hnil, app_nil_r, (delivered_index Hf), Hvals.
    repeat split; trivial; apply Hpd.
Qed.

(** The parallel phase starts every task before anything else runs. *)
Lemma dispatch_all_run todo : forall sv r,
  let r' := snd (fst (dispatch_all sv r todo)) in
  let pids := snd (dispatch_all sv r todo) in
  exists new tnew,
    promises r' = promises r ++ new /\
    List.map p_index new = List.map fst todo /\
    pids = seq (List.length (promises r)) (List.length todo) /\
    cont r' = cont r /\ workflow r' = workflow r /\
    trace r' = trace r ++ tnew /\
    Forall (fun e => In (event_index e) (List.map fst todo)) tnew /\
    filter is_dispatch tnew = List.map Dispatched (List.map fst todo) /\
    (forall p, In p new -> valued p -> In (Settled (p_index p)) tnew).
Proof.
  induction todo as [|it rest IH]; intros sv r; cbv zeta.
  - exists [], []. cbn. rewrite !app_nil_r. repeat split; trivial; now intros.
  - cbn [dispatch_all].
    destruct (executeWorkflowTask_run sv r it) as (Hps & Hi & Hc & Hw & Hcase).
    destruct (executeWorkflowTask sv r it) as [[sv1 r1] p]. cbn [fst snd] in *.
    specialize (IH sv1 r1). cbv zeta in IH.
    destruct (dispatch_all sv1 r1 rest) as [[sv2 r2] pids]. cbn [fst snd] in *.
    destruct IH as (new & tnew & Hps2 & Hidx & Hpids & Hc2 & Hw2 & Htr2 & Hall
                    & Hdis & Hset).
    assert (Hev : exists t1, trace r1 = trace r ++ t1 /\
                    Forall (fun e => event_index e = fst it) t1 /\
                    filter is_dispatch t1 = [Dispatched (fst it)] /\
                    (valued p -> In (Settled (fst it)) t1)).
    { destruct Hcase as [[Hnone ->]|[Hsome ->]].
      - exists [Dispatched (fst it)]. repeat split; trivial.
        + now repeat constructor.
        + unfold valued. congruence.
      - exists [Dispatched (fst it); Settled (fst it)]. repeat split; trivial.
        + now repeat constructor.
        + intros _. right. now left. }
    destruct Hev as (t1 & Htr1 & Hall1 & Hdis1 & Hset1).
    exists (p :: new), (t1 ++ tnew).
    rewrite Hps2, Hps, Htr2, Htr1, Hc2, Hw2, <- !app_assoc. cbn [app].
    repeat split; trivial.
    + cbn. now rewrite Hi, Hidx.
    + rewrite Hpids, Hps, length_app, Nat.add_comm. reflexivity.
    + apply Forall_app. split.
      * eapply Forall_impl; [|exact Hall1]. intros e ->. now left.
      * eapply Forall_impl; [|exact Hall]. intros e He. now right.
    + rewrite filter_app, Hdis1, Hdis. reflexivity.
    + intros q [<-|Hq] Hv; apply in_or_app.
      * left. rewrite Hi. now apply Hset1.
      * right. now apply Hset.
Qed.

Lemma on_workflow_execute_inv sv sock wd :
  wd_tasks wd = T -> run_inv T (snd (on_workflow_execute sv sock wd)).
Proof.
  intro HT. unfold on_workflow_execute. cbn [uuidv4]. rewrite HT.
  destruct (parallelTasks T) as [|it par] eqn:EP.
  - apply sequential_loop_inv with (done := []) (tp := []); cbn; trivial;
      rewrite ?EP; trivial.
    repeat split; [constructor | now intros].
  - match goal with |- context [dispatch_all ?s ?r0 ?l] =>
      destruct (dispatch_all_run l s r0)
        as (new & tnew & Hps & Hidx & Hpids & Hc & Hw & Htr & Hall & Hdis & Hset);
      destruct (dispatch_all s r0 l) as [[sv2 r2] pids] end.
    cbn [fst snd promises trace workflow app] in *.
    apply resume_inv. unfold run_inv. cbn [set_cont cont promises trace workflow].
    rewrite EP, Hps, Htr, Hw. cbn [wf_results].
    repeat split; trivial.
    rewrite Hpids. f_equal. rewrite <- (length_map p_index new), Hidx.
    now rewrite length_map.
Qed.

Lemma step_inv st e : run_inv T (snd st) -> run_inv T (snd (step st e)).
Proof.
  destruct st as [sv r]. intro H. destruct e; cbn [step snd]; trivial.
  - apply resume_inv, deliver_inv; [apply timer_callback_ok | exact H].
  - apply resume_inv, deliver_inv; [apply listener_callback_ok | exact H].
Qed.

Lemma run_events_inv evs : forall st,
  run_inv T (snd st) -> run_inv T (snd (run_events st evs)).
Proof.
  induction evs as [|e evs IH]; intros st H; [exact H|].
  cbn [run_events fold_left]. apply IH, step_inv, H.
Qed.

End ServerRun.

(* ================================================================== *)
(** * The workflow run of the demo *)

Section DemoRun.

Import Demo DemoInv.

Lemma start_task_run st it :
  let th := snd (fst (start_task st it)) in
  let evs := snd (start_task st it) in
  key th = it /\ named th /\
  ((~ fin th /\ evs = [Dispatched (fst it)]) \/
   (fin th /\ evs = [Dispatched (fst it); Settled (fst it)])).
Proof.
  destruct it as [i task]. cbv zeta. unfold start_task.
  destruct (suitableAgents st (wt_capability task)) as [|agent rest].
  - cbn. repeat split. right. now split.
  - destruct (begin_attempt st agent (wt_type task) (wt_complexity task)).
    cbn. repeat split. left. split; [tauto | reflexivity].
Qed.

Lemma timer_fires_thread st th :
  let th' := snd (fst (timer_fires st th)) in
  let evs := snd (timer_fires st th) in
  key th' = key th /\ (named th -> named th') /\
  (fin th -> th' = th /\ evs = []) /\
  (~ fin th -> (~ fin th' /\ evs = []) \/ (fin th' /\ evs = [Settled (th_index th)])).
Proof.
  cbv zeta. unfold timer_fires, fin, named, key.
  destruct (th_progress th) as [agent pt rest|res] eqn:E.
  - destruct (finish_attempt st agent (wt_type (th_task th)) pt) as [st1 result].
    destruct (ar_success result).
    + cbn. repeat split; try tauto; try (intros _; right; now split).
    + destruct rest as [|next rest'].
      * cbn. repeat split; try tauto; try (intros _; right; now split).
      * destruct (begin_attempt _ next _ _) as [st3 pt'].
        cbn. repeat split; try tauto;
          try (intros _; left; split; [tauto | reflexivity]).
  - cbn. rewrite E. repeat split; tauto.
Qed.

Lemma fire_at_key ths : forall st pid,
  List.map key (snd (fst (fire_at st ths pid))) = List.map key ths.
Proof.
  induction ths as [|th ths IH]; intros st [|pid]; try reflexivity.
  - cbn [fire_at]. destruct (timer_fires_thread st th) as (Hk & _).
    destruct (timer_fires st th) as [[st1 th1] evs]. cbn in *. now rewrite Hk.
  - cbn [fire_at]. specialize (IH st pid).
    destruct (fire_at st ths pid) as [[st1 ths1] evs]. cbn in *. now rewrite IH.
Qed.

Lemma fire_at_named ths : forall st pid,
  Forall named ths -> Forall named (snd (fst (fire_at st ths pid))).
Proof.
  induction ths as [|th ths IH]; intros st [|pid] H; try exact H;
    inversion H; subst.
  - cbn [fire_at]. destruct (timer_fires_thread st th) as (_ & Hn & _).
    destruct (timer_fires st th) as [[st1 th1] evs]. cbn in *.
    constructor; auto.
  - cbn [fire_at]. specialize (IH st pid).
    destruct (fire_at st ths pid) as [[st1 ths1] evs]. cbn in *.
    constructor; auto.
Qed.

Lemma fire_at_finished ths : forall st pid,
  Forall fin ths ->
  snd (fst (fire_at st ths pid)) = ths /\ snd (fire_at st ths pid) = [].
Proof.
  induction ths as [|th ths IH]; intros st [|pid] H; try (now split);
    inversion H; subst.
  - cbn [fire_at]. destruct (timer_fires_thread st th) as (_ & _ & Hf & _).
    destruct (timer_fires st th) as [[st1 th1] evs]. cbn in *.
    destruct (Hf H2) as [-> ->]. now split.
  - cbn [fire_at]. specialize (IH st pid H3).
    destruct (fire_at st ths pid) as [[st1 ths1] evs]. cbn in *.
    destruct IH as [-> ->]. now split.
Qed.

Lemma fire_at_events ths : forall st pid,
  Forall (fun e => is_dispatch e = false
                   /\ In (event_index e) (List.map fst (List.map key ths)))
         (snd (fire_at st ths pid)).
Proof.
  induction ths as [|th ths IH]; intros st [|pid]; try constructor.
  - cbn [fire_at]. destruct (timer_fires_thread st th) as (_ & _ & Hf & Hn).
    destruct (timer_fires st th) as [[st1 th1] evs]. cbn [fst snd] in *.
    destruct (th_progress th) eqn:E.
    + assert (Hnf : ~ fin th) by (unfold fin; now rewrite E).
      destruct (Hn Hnf) as [[_ ->]|[_ ->]]; [constructor|].
      constructor; [|constructor]. split; [reflexivity | now left].
    + assert (Hfi : fin th) by (unfold fin; now rewrite E).
      destruct (Hf Hfi) as [_ ->]. constructor.
  - cbn [fire_at]. specialize (IH st pid).
    destruct (fire_at st ths pid) as [[st1 ths1] evs]. cbn [fst snd] in *.
    eapply Forall_impl; [|exact IH]. intros e [H1 H2]. split; [exact H1 | now right].
Qed.

Lemma fire_at_settled ths tr : forall st pid,
  (forall th, In th ths -> fin th -> In (Settled (th_index th)) tr) ->
  forall th', In th' (snd (fst (fire_at st ths pid))) -> fin th' ->
              In (Settled (th_index th')) (tr ++ snd (fire_at st ths pid)).
Proof.
  induction ths as [|th ths IH]; intros st [|pid] Hold th' Hin Hfin;
    try (apply in_or_app; left; now apply Hold).
  - cbn [fire_at] in *. destruct (timer_fires_thread st th) as (Hk & _ & Hf & Hn).
    destruct (timer_fires st th) as [[st1 th1] evs]. cbn [fst snd] in *.
    destruct Hin as [<-|Hin]; [|apply in_or_app; left; apply Hold; [now right | exact Hfin]].
    assert (Hi : th_index th1 = th_index th) by (unfold key in Hk; congruence).
    rewrite Hi. apply in_or_app.
    destruct (th_progress th) eqn:E.
    + assert (Hnf : ~ fin th) by (unfold fin; now rewrite E).
      destruct (Hn Hnf) as [[Hnf' _]|[_ ->]]; [tauto|].
      right. now left.
    + left. apply Hold; [now left | unfold fin; now rewrite E].
  - cbn [fire_at] in *.
    specialize (IH st pid (fun t Ht => Hold t (or_intror Ht))).
    destruct (fire_at st ths pid) as [[st1 ths1] evs]. cbn [fst snd] in *.
    destruct Hin as [<-|Hin]; [apply in_or_app; left; apply Hold; [now left | exact Hfin]|].
    now apply IH.
Qed.

Lemma fire_at_last others tc : forall st pid,
  Forall fin others ->
  exists tc',
    snd (fst (fire_at st (others ++ [tc]) pid)) = others ++ [tc'] /\
    key tc' = key tc /\
    (fin tc -> fin tc' /\ snd (fire_at st (others ++ [tc]) pid) = []) /\
    (~ fin tc ->
     (~ fin tc' /\ snd (fire_at st (others ++ [tc]) pid) = []) \/
     (fin tc' /\ snd (fire_at st (others ++ [tc]) pid) = [Settled (th_index tc)])).
Proof.
  assert (Hsame : forall t : Thread,
            key t = key t /\
            (fin t -> fin t /\ @nil TraceEvent = []) /\
            (~ fin t -> (~ fin t /\ @nil TraceEvent = [])
                        \/ (fin t /\ [] = [Settled (th_index t)])))
    by (intro t; split; [reflexivity|]; split; intro; [|left]; now split).
  induction others as [|th others IH]; intros st pid H.
  - destruct pid as [|pid]; cbn [app fire_at].
    + destruct (timer_fires_thread st tc) as (Hk & _ & Hf & Hn).
      destruct (timer_fires st tc) as [[st1 th1] evs]. cbn [fst snd] in *.
      exists th1. split; [reflexivity|]. split; [exact Hk|]. split; [|exact Hn].
      intro Hfin. destruct (Hf Hfin) as [-> ->]. now split.
    + exists tc. cbn. split; [reflexivity | apply Hsame].
  - inversion H as [|? ? Hth Hothers]; subst.
    destruct pid as [|pid]; cbn [app fire_at].
    + destruct (timer_fires_thread st th) as (_ & _ & Hf & _).
      destruct (timer_fires st th) as [[st1 th1] evs]. cbn [fst snd] in *.
      destruct (Hf Hth) as [-> ->]. exists tc. split; [reflexivity | apply Hsame].
    + destruct (IH st pid Hothers) as (tc' & Hths & Hk & Hf & Hn).
      destruct (fire_at st (others ++ [tc]) pid) as [[st1 ths1] evs].
      cbn [fst snd] in *. exists tc'. rewrite Hths.
      split; [reflexivity|]. split; [exact Hk|]. split; assumption.
Qed.

Lemma demo_nth_error_seq r :
  List.map (nth_error (threads r)) (seq 0 (List.length (threads r)))
  = List.map Some (threads r).
Proof. apply (nth_error_seq (threads r) []). Qed.

Lemma thread_results_all r :
  thread_results r (seq 0 (List.length (threads r))) = results_of (threads r).
Proof.
  unfold thread_results, results_of, thread_result.
  rewrite !flat_map_concat_map. f_equal.
  rewrite <- (List.map_map (nth_error (threads r))
                (fun o => match match o with
                                | Some {| th_progress := Finished res |} => Some res
                                | _ => None end with
                          | Some v => [v] | None => [] end)).
  rewrite demo_nth_error_seq, List.map_map. apply map_ext.
  intro th. destruct th as [i t pr]. now destruct pr.
Qed.

Lemma finished_all r :
  forallb (finished r) (seq 0 (List.length (threads r))) = true ->
  Forall fin (threads r).
Proof.
  intro H. rewrite forallb_forall in H. apply Forall_forall. intros th Hth.
  apply In_nth_error in Hth as [n Hn].
  assert (Hlt : (n < List.length (threads r))%nat)
    by (apply nth_error_Some; congruence).
  specialize (H n). unfold finished, thread_result in H. rewrite Hn in H.
  unfold fin. destruct th as [i t pr]. destruct pr; cbn; [|exact I].
  assert (false = true); [|discriminate]. apply H. apply in_seq. lia.
Qed.

Lemma results_of_app ths1 ths2 :
  results_of (ths1 ++ ths2) = results_of ths1 ++ results_of ths2.
Proof. unfold results_of. now rewrite flat_map_app. Qed.


Variable T : list WfTask.

Local Abbreviation P := (List.map fst (parallelTasks T)).

Lemma demo_sequential_loop_inv todo : forall st r done tp,
  wf_tasks r = T ->
  Forall named (threads r) ->
  sequentialTasks T = done ++ todo ->
  Forall fin (threads r) ->
  List.map key (threads r) = parallelTasks T ++ done ->
  results r = results_of (threads r) ->
  parallel_done P tp ->
  trace r = tp ++ seq_trace (List.map fst done) ->
  run_inv T (snd (sequential_loop st r todo)).
Proof.
  induction todo as [|it rest IH];
    intros st r done tp HT Hnamed HS Hfin Hkey Hres Hpd Htr.
  - rewrite app_nil_r in HS. subst done. cbn [sequential_loop].
    unfold run_inv, complete. cbn. split; [exact HT|]. split; [exact Hnamed|].
    exists tp. repeat split; trivial; apply Hpd.
  - cbn [sequential_loop].
    match goal with |- context [start_task ?s it] =>
      destruct (start_task_run s it) as (Hk & Hn & Hcase);
      destruct (start_task s it) as [[st1 th] evs] end.
    cbn [fst snd] in *.
    destruct (th_progress th) as [agent pt cands|res] eqn:Epr.
    + destruct Hcase as [[_ ->]|[Hf _]]; [|unfold fin in Hf; now rewrite Epr in Hf].
      unfold run_inv. cbn. split; [exact HT|].
      split; [apply Forall_app; split; [exact Hnamed | now constructor]|].
      exists done, it, (threads r), th, tp.
      repeat split; trivial; try apply Hpd.
      left. split; [unfold fin; now rewrite Epr|].
      rewrite Htr. now rewrite <- ?app_assoc.
    + destruct Hcase as [[Hnf _]|[_ ->]]; [unfold fin in Hnf; rewrite Epr in Hnf; tauto|].
      apply IH with (done := done ++ [it]) (tp := tp); cbn; trivial.
      * apply Forall_app; split; [exact Hnamed | now constructor].
      * now rewrite <- app_assoc.
      * apply Forall_app; split; [exact Hfin|].
        constructor; [unfold fin; now rewrite Epr | constructor].
      * rewrite List.map_app, Hkey. cbn. rewrite Hk. now rewrite <- app_assoc.
      * rewrite Hres, results_of_app. f_equal. unfold results_of. cbn.
        now rewrite Epr.
      * rewrite Htr, List.map_app, seq_trace_app. cbn. now rewrite <- ?app_assoc.
Qed.

Lemma demo_sequential_phase_inv st r tp :
  wf_tasks r = T ->
  Forall named (threads r) ->
  Forall fin (threads r) ->
  List.map key (threads r) = parallelTasks T ->
  results r = results_of (threads r) ->
  parallel_done P tp ->
  trace r = tp ->
  run_inv T (snd (sequential_phase st r)).
Proof.
  intros HT Hn Hf Hk Hres Hpd Htr. unfold sequential_phase. rewrite HT.
  destruct (sequentialTasks T) as [|it rest] eqn:ES.
  - change (complete st r) with (sequential_loop st r []).
    apply demo_sequential_loop_inv with (done := []) (tp := tp); cbn; trivial;
      now rewrite ?app_nil_r.
  - apply demo_sequential_loop_inv with (done := []) (tp := tp); cbn; trivial;
      now rewrite ?app_nil_r.
Qed.

Lemma demo_resume_inv st r : run_inv T r -> run_inv T (snd (resume st r)).
Proof.
  intros (HT & Hnamed & H). unfold resume.
  destruct (cont r) as [pids|pid rest|wr] eqn:Ec.
  - destruct H as (-> & Hkey & Hres & Hpp & Hset).
    destruct (forallb _ _) eqn:Eall.
    + apply finished_all in Eall.
      apply demo_sequential_phase_inv with (tp := trace r); cbn; trivial.
      * now rewrite Hres, thread_results_all.
      * split; [exact Hpp|]. intros i Hi.
        assert (Hi' : In i (List.map th_index (threads r))).
        { replace (List.map th_index (threads r))
            with (List.map fst (List.map key (threads r)))
            by (rewrite List.map_map; reflexivity).
          now rewrite Hkey. }
        apply in_map_iff in Hi' as (th & <- & Hth). apply Hset; [exact Hth|].
        rewrite Forall_forall in Eall. now apply Eall.
    + cbn. unfold run_inv. rewrite Ec. repeat split; trivial; apply Hpp.
  - destruct H as (done & cur & others & tc & tp & HS & Hths & -> & Hfin & Hkey
                   & Hk & Hres & Hpd & Hcase).
    unfold thread_result. rewrite Hths.
    rewrite nth_error_app2, Nat.sub_diag by apply Nat.le_refl. cbn [nth_error].
    destruct tc as [i t pr]. destruct pr as [agent pt cands|res].
    + cbn. unfold run_inv. rewrite Ec. split; [exact HT|]. split; [exact Hnamed|].
      exists done, cur, others, (mkThread i t (Attempting agent pt cands)), tp.
      repeat split; trivial; apply Hpd.
    + destruct Hcase as [[Hnf _]|[_ Htr]]; [unfold fin in Hnf; cbn in Hnf; tauto|].
      apply demo_sequential_loop_inv with (done := done ++ [cur]) (tp := tp);
        cbn; trivial.
      * now rewrite <- app_assoc.
      * rewrite Hths. apply Forall_app. split; [exact Hfin|].
        constructor; [exact I | constructor].
      * rewrite Hths, List.map_app, Hkey. cbn. rewrite Hk. now rewrite <- app_assoc.
      * rewrite Hths, Hres, results_of_app. reflexivity.
      * rewrite Htr, List.map_app, seq_trace_app. cbn. now rewrite <- ?app_assoc.
  - cbn. unfold run_inv. rewrite Ec. now repeat split.
Qed.

Lemma demo_fire_inv st r pid :
  run_inv T r ->
  run_inv T (set_threads r (snd (fst (fire_at st (threads r) pid)))
                           (snd (fire_at st (threads r) pid))).
Proof.
  intros (HT & Hnamed & H). unfold run_inv.
  cbn [set_threads wf_tasks threads cont trace results].
  split; [exact HT|]. split; [now apply fire_at_named|].
  destruct (cont r) as [pids|pid' rest|wr] eqn:Ec.
  - destruct H as (-> & Hkey & Hres & [Hall Hdis] & Hset).
    pose proof (fire_at_events (threads r) st pid) as Hev.
    pose proof (fire_at_key (threads r) st pid) as Hk.
    rewrite Hk, Hkey. repeat split; trivial.
    + f_equal.
      rewrite <- (length_map key (snd (fst (fire_at st (threads r) pid)))), Hk.
      now rewrite length_map.
    + apply Forall_app. split; [exact Hall|].
      eapply Forall_impl; [|exact Hev]. intros e [_ He]. now rewrite Hkey in He.
    + rewrite filter_app, Hdis.
      replace (filter is_dispatch (snd (fire_at st (threads r) pid)))
        with (@nil TraceEvent); [apply app_nil_r|].
      symmetry. apply filter_none. intros e He.
      rewrite Forall_forall in Hev. now apply Hev.
    + now apply fire_at_settled.
  - destruct H as (done & cur & others & tc & tp & HS & Hths & -> & Hfin & Hkey
                   & Hk & Hres & Hpd & Hcase).
    rewrite Hths.
    destruct (fire_at_last tc st pid Hfin) as (tc' & Hths' & Hk' & Hf & Hn).
    exists done, cur, others, tc', tp. rewrite Hths'.
    repeat split; trivial; try apply Hpd; try congruence.
    destruct Hcase as [[Hnf Htr]|[Hfi Htr]].
    + destruct (Hn Hnf) as [[Hnf' ->]|[Hfin' ->]].
      * left. rewrite app_nil_r. now split.
      * right. split; [exact Hfin'|]. rewrite Htr.
        replace (th_index tc) with (fst cur) by (rewrite <- Hk; reflexivity).
        now rewrite <- !app_assoc.
    + destruct (Hf Hfi) as [Hfin' ->]. right. rewrite app_nil_r. now split.
  - destruct H as (tp & Hfin & Hkey & Hres & Hwr & Hsucc & Hname & Hpd & Htr).
    destruct (fire_at_finished st pid Hfin) as [-> ->].
    exists tp. rewrite app_nil_r. repeat split; trivial; apply Hpd.
Qed.

Lemma demo_dispatch_all_run todo : forall st r,
  let r' := snd (fst (dispatch_all st r todo)) in
  let pids := snd (dispatch_all st r todo) in
  exists new tnew,
    threads r' = threads r ++ new /\
    List.map key new = todo /\
    Forall named new /\
    pids = seq (List.length (threads r)) (List.length todo) /\
    cont r' = cont r /\ wf_tasks r' = wf_tasks r /\ results r' = results r /\
    trace r' = trace r ++ tnew /\
    Forall (fun e => In (event_index e) (List.map fst todo)) tnew /\
    filter is_dispatch tnew = List.map Dispatched (List.map fst todo) /\
    (forall th, In th new -> fin th -> In (Settled (th_index th)) tnew).
Proof.
  induction todo as [|it rest IH]; intros st r; cbv zeta.
  - exists [], []. cbn. rewrite !app_nil_r. repeat split; trivial; now intros.
  - cbn [dispatch_all].
    destruct (start_task_run st it) as (Hk & Hn & Hcase).
    destruct (start_task st it) as [[st1 th] evs]. cbn [fst snd] in *.
    specialize (IH st1 (set_threads r (threads r ++ [th]) evs)). cbv zeta in IH.
    destruct (dispatch_all st1 _ rest) as [[st2 r2] pids]. cbn [fst snd] in *.
    destruct IH as (new & tnew & Hths & Hkey & Hnamed & Hpids & Hc & Hw & Hr & Htr
                    & Hall & Hdis & Hset).
    cbn [set_threads threads trace cont wf_tasks results] in *.
    assert (Hev : Forall (fun e => event_index e = fst it) evs /\
                  filter is_dispatch evs = [Dispatched (fst it)] /\
                  (fin th -> In (Settled (fst it)) evs)).
    { destruct Hcase as [[Hnf ->]|[Hfi ->]].
      - repeat split; [now repeat constructor | tauto].
      - repeat split; [now repeat constructor|]. intros _. right. now left. }
    destruct Hev as (Hall1 & Hdis1 & Hset1).
    exists (th :: new), (evs ++ tnew).
    rewrite Hths, Htr, Hc, Hw, Hr, <- !app_assoc. cbn [app].
    repeat split; trivial.
    + cbn. now rewrite Hk, Hkey.
    + now constructor.
    + rewrite Hpids, length_app, Nat.add_comm. reflexivity.
    + apply Forall_app. split.
      * eapply Forall_impl; [|exact Hall1]. intros e ->. now left.
      * eapply Forall_impl; [|exact Hall]. intros e He. now right.
    + rewrite filter_app, Hdis1, Hdis. reflexivity.
    + intros q [<-|Hq] Hv; apply in_or_app.
      * left. replace (th_index th) with (fst it) by (rewrite <- Hk; reflexivity).
        now apply Hset1.
      * right. now apply Hset.
Qed.

Lemma executeWorkflow_inv st wd :
  wd_tasks wd = T -> run_inv T (snd (executeWorkflow st wd)).
Proof.
  intro HT. unfold executeWorkflow. rewrite HT.
  destruct (parallelTasks T) as [|it par] eqn:EP.
  - apply demo_sequential_phase_inv with (tp := []); cbn; trivial;
      rewrite ?EP; trivial.
    repeat split; [constructor | now intros].
  - match goal with |- context [dispatch_all ?s ?r0 ?l] =>
      destruct (demo_dispatch_all_run l s r0)
        as (new & tnew & Hths & Hkey & Hnamed & Hpids & Hc & Hw & Hr & Htr
            & Hall & Hdis & Hset);
      destruct (dispatch_all s r0 l) as [[st2 r2] pids] end.
    cbn [fst snd threads trace wf_tasks results app] in *.
    apply demo_resume_inv. unfold run_inv.
    cbn [set_cont cont threads trace wf_tasks results].
    rewrite ?EP, Hths, Htr, Hw, Hr, ?HT.
    repeat split; trivial.
    rewrite Hpids. f_equal. rewrite <- (length_map key new), Hkey. reflexivity.
Qed.

Lemma demo_step_inv sr e : run_inv T (snd sr) -> run_inv T (snd (step sr e)).
Proof.
  destruct sr as [st r]. intro H. destruct e as [t|pid]; cbn [step snd]; trivial.
  pose proof (demo_fire_inv st pid H) as H'. cbn [snd] in H'.
  destruct (fire_at st (threads r) pid) as [[st1 ths] evs] eqn:Ef.
  cbn [fst snd] in H'. now apply demo_resume_inv.
Qed.

Lemma demo_run_events_inv evs : forall sr,
  run_inv T (snd sr) -> run_inv T (snd (run_events sr evs)).
Proof.
  induction evs as [|e evs IH]; intros sr H; [exact H|].
  cbn [run_events fold_left]. apply IH, demo_step_inv, H.
Qed.

End DemoRun.

(* ================================================================== *)
(** * The two phases of a workflow *)

Lemma in_indexed_from (A : Type) (l : list A) : forall k i (x : A),
  In (i, x) (combine (seq k (List.length l)) l)
  <-> (k <= i)%nat /\ nth_error l (i - k) = Some x.
Proof.
  induction l as [|y l IH]; intros k i x; cbn [List.length seq combine].
  - split; [intros [] | intros [_ H]]. now destruct (i - k)%nat.
  - cbn [In]. rewrite IH. split.
    + intros [E|[Hle Hn]].
      * injection E as <- <-. rewrite Nat.sub_diag. now split.
      * split; [lia|]. replace (i - k)%nat with (S (i - S k)) by lia. exact Hn.
    + intros [Hle Hn]. destruct (Nat.eq_dec i k) as [->|Hne].
      * left. rewrite Nat.sub_diag in Hn. cbn in Hn. congruence.
      * right. split; [lia|].
        replace (i - k)%nat with (S (i - S k)) in Hn by lia. exact Hn.
Qed.

Lemma in_indexed (A : Type) (l : list A) i (x : A) :
  In (i, x) (indexed l) <-> nth_error l i = Some x.
Proof.
  unfold indexed. rewrite in_indexed_from, Nat.sub_0_r.
  split; [tauto | intro; split; [lia | assumption]].
Qed.

Lemma filter_indexed_increasing (A : Type) (f : nat * A -> bool) (l : list A) :
  forall k,
    StronglySorted lt (List.map fst (filter f (combine (seq k (List.length l)) l))).
Proof.
  induction l as [|y l IH]; intro k; cbn [List.length seq combine filter].
  - constructor.
  - destruct (f (k, y)); [|apply IH]. cbn [List.map fst].
    constructor; [apply IH|].
    apply Forall_forall. intros i Hi. apply in_map_iff in Hi as ([i' x] & <- & Hx).
    apply filter_In in Hx as [Hx _]. apply in_indexed_from in Hx. cbn. lia.
Qed.

Lemma filter_split_perm (A : Type) (f : A -> bool) (l : list A) :
  Permutation (filter f l ++ filter (fun x => negb (f x)) l) l.
Proof.
  induction l as [|x l IH]; [constructor|]. cbn [filter].
  destruct (f x); cbn [negb app].
  - now constructor.
  - rewrite <- Permutation_middle. now constructor.
Qed.

(** The two filters of [executeWorkflow] split the tasks in two. *)
Lemma phases_partition T :
  Permutation (parallelTasks T ++ sequentialTasks T) (indexed T).
Proof.
  unfold parallelTasks, sequentialTasks.
  rewrite (filter_ext (fun it => isSequentialTask (snd it))
             (fun it => negb (isParallelTask (snd it))))
    by (intros; apply isSequentialTask_negb).
  apply filter_split_perm.
Qed.

Lemma phases_length T :
  (List.length (parallelTasks T) + List.length (sequentialTasks T))%nat
  = List.length T.
Proof.
  rewrite <- length_app, (Permutation_length (phases_partition T)).
  unfold indexed. rewrite length_combine, length_seq. apply Nat.min_id.
Qed.

Lemma in_parallelTasks T i t :
  In (i, t) (parallelTasks T)
  <-> nth_error T i = Some t /\ wt_parallel t = true /\ wt_dependencies t = None.
Proof.
  unfold parallelTasks. rewrite filter_In, in_indexed. cbn [snd].
  unfold isParallelTask. destruct (wt_parallel t), (wt_dependencies t); cbn;
    intuition congruence.
Qed.

Lemma in_sequentialTasks T i t :
  In (i, t) (sequentialTasks T)
  <-> nth_error T i = Some t
      /\ ~ (wt_parallel t = true /\ wt_dependencies t = None).
Proof.
  unfold sequentialTasks. rewrite filter_In, in_indexed. cbn [snd].
  unfold isSequentialTask. destruct (wt_parallel t), (wt_dependencies t); cbn;
    intuition congruence.
Qed.

Lemma sequential_part_of_done S done rest :
  S = done ++ rest -> sequential_part S (seq_trace done).
Proof. intro H. exists done, rest. split; [exact H | now left]. Qed.

Lemma Server_phased_trace T r :
  ServerInv.run_inv T r ->
  phased_trace (List.map fst (parallelTasks T)) (List.map fst (sequentialTasks T))
    (Server.trace r).
Proof.
  unfold ServerInv.run_inv. intro H.
  destruct (Server.cont r) as [pids sequential|pid rest|].
  - destruct H as (_ & _ & _ & _ & Hpp & _).
    exists (Server.trace r), []. rewrite app_nil_r.
    repeat split; trivial; try apply Hpp; [|congruence].
    now apply sequential_part_of_done with (done := []) (rest := List.map fst (sequentialTasks T)).
  - destruct H as (done & cur & others & pc & tp & HS & _ & _ & _ & _ & _ & _
                   & [Hpp Hset] & Hcase).
    rewrite HS, List.map_app. cbn [List.map].
    destruct Hcase as [[_ ->]|[_ ->]].
    + exists tp, (seq_trace (List.map fst done) ++ [Dispatched (fst cur)]).
      repeat split; trivial; try apply Hpp.
      exists (List.map fst done), (fst cur :: List.map fst rest).
      split; [reflexivity|]. right. now exists (fst cur), (List.map fst rest).
    + exists tp, (seq_trace (List.map fst done ++ [fst cur])).
      rewrite seq_trace_app. cbn.
      repeat split; trivial; try apply Hpp.
      exists (List.map fst done ++ [fst cur]), (List.map fst rest).
      rewrite <- app_assoc. split; [reflexivity|]. left.
      now rewrite seq_trace_app.
  - destruct H as (tp & _ & _ & _ & _ & [Hpp Hset] & ->).
    exists tp, (seq_trace (List.map fst (sequentialTasks T))).
    repeat split; trivial; try apply Hpp.
    apply sequential_part_of_done with (rest := []). now rewrite app_nil_r.
Qed.

Lemma Demo_phased_trace T r :
  DemoInv.run_inv T r ->
  phased_trace (List.map fst (parallelTasks T)) (List.map fst (sequentialTasks T))
    (Demo.trace r).
Proof.
  unfold DemoInv.run_inv. intros (_ & _ & H).
  destruct (Demo.cont r) as [pids|pid rest|wr].
  - destruct H as (_ & _ & _ & Hpp & _).
    exists (Demo.trace r), []. rewrite app_nil_r.
    repeat split; trivial; try apply Hpp; [|congruence].
    now apply sequential_part_of_done with (done := []) (rest := List.map fst (sequentialTasks T)).
  - destruct H as (done & cur & others & pc & tp & HS & _ & _ & _ & _ & _ & _
                   & [Hpp Hset] & Hcase).
    rewrite HS, List.map_app. cbn [List.map].
    destruct Hcase as [[_ ->]|[_ ->]].
    + exists tp, (seq_trace (List.map fst done) ++ [Dispatched (fst cur)]).
      repeat split; trivial; try apply Hpp.
      exists (List.map fst done), (fst cur :: List.map fst rest).
      split; [reflexivity|]. right. now exists (fst cur), (List.map fst rest).
    + exists tp, (seq_trace (List.map fst done ++ [fst cur])).
      rewrite seq_trace_app. cbn.
      repeat split; trivial; try apply Hpp.
      exists (List.map fst done ++ [fst cur]), (List.map fst rest).
      rewrite <- app_assoc. split; [reflexivity|]. left.
      now rewrite seq_trace_app.
  - destruct H as (tp & _ & _ & _ & _ & _ & _ & [Hpp Hset] & ->).
    exists tp, (seq_trace (List.map fst (sequentialTasks T))).
    repeat split; trivial; try apply Hpp.
    apply sequential_part_of_done with (rest := []). now rewrite app_nil_r.
Qed.

(** The example of the specification: [A], [B] and [C] are dispatched at
    once; [D] is dispatched when the last of them has settled, here [A]. *)
Example four_tasks_on_the_server :
  Server.trace
    (snd (Server.on_workflow_execute Examples.serverState "client"
            Examples.serverWorkflow))
  = [Dispatched 0; Dispatched 2; Dispatched 3; Settled 3] /\
  Server.trace
    (snd (Server.run_events
            (Server.on_workflow_execute Examples.serverState "client"
               Examples.serverWorkflow)
            [Server.TimerFires 2; Server.TaskCompleteSignal 1 Examples.success]))
  = [Dispatched 0; Dispatched 2; Dispatched 3; Settled 3; Settled 2; Settled 0;
     Dispatched 1].
Proof. split; reflexivity. Qed.

Example four_tasks_in_the_demo :
  Demo.trace
    (snd (Demo.run_events
            (Demo.executeWorkflow Examples.demoState Examples.demoWorkflow)
            [Demo.TimerFires 1; Demo.TimerFires 0; Demo.TimerFires 3]))
  = [Dispatched 0; Dispatched 2; Dispatched 3; Settled 3; Settled 2; Settled 0;
     Dispatched 1; Settled 1].
Proof. vm_compute. reflexivity. Qed.

(* ================================================================== *)
(** * The result of a workflow *)

Lemma Demo_results_named ths :
  Forall DemoInv.fin ths -> Forall DemoInv.named ths ->
  List.map Demo.r_task (DemoInv.results_of ths)
  = List.map (fun it => wt_name (snd it)) (List.map DemoInv.key ths).
Proof.
  induction ths as [|th ths IH]; intros Hf Hn; [reflexivity|].
  inversion Hf as [|? ? Hf1 Hf2]; inversion Hn as [|? ? Hn1 Hn2]; subst.
  unfold DemoInv.results_of in *. cbn [flat_map List.map].
  unfold DemoInv.fin, DemoInv.named in Hf1, Hn1.
  destruct (Demo.th_progress th); [contradiction|].
  cbn. now rewrite Hn1, IH.
Qed.

Lemma Server_values_of_valued ps :
  Forall ServerInv.valued ps ->
  Forall2 (fun p res => Server.p_value p = Some res) ps (ServerInv.values_of ps).
Proof.
  induction 1 as [|p ps Hp Hps IH]; [constructor|].
  unfold ServerInv.values_of in *. cbn [flat_map].
  unfold ServerInv.valued in Hp. destruct (Server.p_value p) eqn:E; [|congruence].
  cbn. now constructor.
Qed.

(** C5, against the wording: on the server the workflow of one task whose
    only attempt fails ends with the status ['completed']. *)
Lemma C5_counterexample_server_completed_with_failed_task :
  Server.wf_status
    (Server.workflow
       (snd (Server.run_events
               (Server.on_workflow_execute Examples.serverState "client"
                  Examples.oneTask)
               [Server.TaskCompleteSignal 1 Examples.failure])))
  = "completed" /\
  List.map Server.r_success
    (Server.wf_results
       (Server.workflow
          (snd (Server.run_events
                  (Server.on_workflow_execute Examples.serverState "client"
                     Examples.oneTask)
                  [Server.TaskCompleteSignal 1 Examples.failure]))))
  = [Some false].
Proof. split; reflexivity. Qed.

(* ================================================================== *)
(** * No workflow is stuck: the server *)

Section ServerLiveness.

Import Server ServerInv Liveness.

Lemma timer_callback_timed clock taskId p :
  timed p -> timed (fst (timer_callback clock taskId p)).
Proof.
  intros Ht. unfold timer_callback, resolve.
  destruct (p_attempt p) as [a|] eqn:Ea; [|exact Ht].
  destruct (Nat.eqb (at_taskId a) taskId && at_timer a); [|exact Ht].
  cbn [p_value set_attempt]. destruct (p_value p) eqn:Ev; cbn [fst];
    intro H; cbn in H; congruence.
Qed.

Lemma listener_callback_timed clock taskId pl p :
  timed p -> timed (fst (listener_callback clock taskId pl p)).
Proof.
  intros Ht. unfold listener_callback, resolve.
  destruct (p_attempt p) as [a|] eqn:Ea; [|exact Ht].
  destruct (Nat.eqb (at_taskId a) taskId && at_listener a); [|exact Ht].
  cbn [p_value set_attempt]. destruct (p_value p) eqn:Ev; cbn [fst];
    intro H; cbn in H; congruence.
Qed.

(** The timer of an unsettled promise settles it. *)
Lemma timer_callback_settles clock p a :
  p_attempt p = Some a -> at_timer a = true ->
  valued (fst (timer_callback clock (at_taskId a) p)).
Proof.
  intros Ha Ht. unfold timer_callback, resolve, valued.
  rewrite Ha, Nat.eqb_refl, Ht. cbn [andb p_value set_attempt].
  destruct (p_value p) eqn:Ev; cbn; congruence.
Qed.

Lemma executeWorkflowTask_timed sv r it :
  timed (snd (executeWorkflowTask sv r it)).
Proof.
  destruct it as [i task]. unfold executeWorkflowTask.
  destruct (findBestAgent (agents sv) (wt_capability task)); cbn; intro H.
  - eexists. split; reflexivity.
  - discriminate.
Qed.

Lemma unsettled_zero ps : unsettled ps = 0%nat <-> Forall valued ps.
Proof.
  unfold unsettled, valued. induction ps as [|p ps IH]; cbn.
  - split; [constructor | reflexivity].
  - destruct (p_value p) eqn:E; cbn.
    + rewrite IH. split; intro H; [constructor; [congruence | exact H]
                                  | now inversion H].
    + split; [discriminate | intro H; inversion H; congruence].
Qed.

Lemma unsettled_deliver f ps :
  callback_ok f ->
  (unsettled (List.map (fun p => fst (f p)) ps) <= unsettled ps)%nat.
Proof.
  intro Hf. unfold unsettled. induction ps as [|p ps IH]; cbn; [lia|].
  destruct (Hf p) as (_ & Hv & _).
  destruct (p_value p) eqn:E.
  - destruct Hv as [-> _]; [unfold valued; congruence|]. exact IH.
  - destruct (p_value (fst (f p))); cbn; lia.
Qed.

Lemma unsettled_fire clock ps : forall p a,
  In p ps -> p_value p = None -> p_attempt p = Some a -> at_timer a = true ->
  (unsettled (List.map (fun q => fst (timer_callback clock (at_taskId a) q)) ps)
   < unsettled ps)%nat.
Proof.
  induction ps as [|q ps IH]; intros p a Hin Hv Ha Ht; [destruct Hin|].
  pose proof (unsettled_deliver ps (timer_callback_ok clock (at_taskId a))) as Hle.
  unfold unsettled in *. cbn [List.map filter].
  destruct Hin as [->|Hin].
  - pose proof (timer_callback_settles clock p Ha Ht) as Hs. unfold valued in Hs.
    rewrite Hv. destruct (p_value (fst (timer_callback clock (at_taskId a) p)));
      [cbn; lia | congruence].
  - specialize (IH p a Hin Hv Ha Ht).
    destruct (timer_callback_ok clock (at_taskId a) q) as (_ & Hq & _).
    destruct (p_value q) eqn:E.
    + destruct Hq as [-> _]; [unfold valued; congruence|]. exact IH.
    + destruct (p_value (fst (timer_callback clock (at_taskId a) q))); cbn; lia.
Qed.

Lemma unsettled_exists ps :
  unsettled ps <> 0%nat -> exists p, In p ps /\ p_value p = None.
Proof.
  unfold unsettled. induction ps as [|p ps IH]; cbn; [congruence|].
  destruct (p_value p) eqn:E.
  - intro H. destruct (IH H) as (q & Hq & Hv). exists q. split; [now right | exact Hv].
  - intros _. exists p. split; [now left | exact E].
Qed.

(** The sequential phase ends when the timers of its attempts fire. *)
Lemma sequential_loop_ends todo : forall sv r,
  Forall valued (promises r) ->
  exists evs, cont (snd (run_events (sequential_loop sv r todo) evs)) = Returned.
Proof.
  induction todo as [|it rest IH]; intros sv r Hval.
  - exists []. reflexivity.
  - cbn [sequential_loop].
    destruct (executeWorkflowTask_run sv r it) as (Hps & _ & _ & _ & _).
    pose proof (executeWorkflowTask_timed sv r it) as Ht.
    destruct (executeWorkflowTask sv r it) as [[sv1 r1] p]. cbn [fst snd] in *.
    destruct (p_value p) as [v|] eqn:Ev.
    + apply IH. cbn. rewrite Hps. apply Forall_app. split; [exact Hval|].
      constructor; [unfold valued; congruence | constructor].
    + destruct (Ht Ev) as (a & Ha & Htimer).
      set (r2 := deliver (timer_callback (now sv1) (at_taskId a))
                   (set_cont r1 (AwaitTask (List.length (promises r)) rest))).
      assert (Hps2 : promises r2
                     = List.map (fun q => fst (timer_callback (now sv1) (at_taskId a) q))
                         (promises r)
                       ++ [fst (timer_callback (now sv1) (at_taskId a) p)]).
      { subst r2. cbn. now rewrite Hps, List.map_app. }
      pose proof (timer_callback_settles (now sv1) p Ha Htimer) as Hs.
      destruct (delivered_valued (timer_callback_ok (now sv1) (at_taskId a)) Hval)
        as (_ & Hval' & _).
      destruct (p_value (fst (timer_callback (now sv1) (at_taskId a) p)))
        as [v|] eqn:Ev'; [|now elim Hs].
      destruct (IH sv1 (push_results r2 [v])) as [evs Hevs].
      { cbn [push_results set_workflow promises]. rewrite Hps2.
        apply Forall_app. split; [exact Hval'|]. constructor; [exact Hs | constructor]. }
      assert (Hstep : step (sv1, set_cont r1 (AwaitTask (List.length (promises r)) rest))
                           (TimerFires (at_taskId a))
                      = sequential_loop sv1 (push_results r2 [v]) rest).
      { change (resume sv1 r2 = sequential_loop sv1 (push_results r2 [v]) rest).
        unfold resume.
        replace (cont r2) with (AwaitTask (List.length (promises r)) rest)
          by reflexivity.
        unfold promise_value. rewrite Hps2.
        rewrite nth_error_app2 by (rewrite length_map; apply Nat.le_refl).
        rewrite length_map, Nat.sub_diag. cbn [nth_error]. now rewrite Ev'. }
      exists (TimerFires (at_taskId a) :: evs).
      cbn [run_events fold_left]. rewrite Hstep. exact Hevs.
Qed.

(** The parallel phase ends when the timers of its attempts fire. *)
Lemma parallel_phase_ends n : forall sv r sequential,
  cont r = AwaitAllSettled (seq 0 (List.length (promises r))) sequential ->
  Forall timed (promises r) ->
  (unsettled (promises r) <= n)%nat ->
  exists evs, cont (snd (run_events (sv, r) evs)) = Returned.
Proof.
  assert (Hstep : forall sv r sequential f,
            callback_ok f ->
            cont r = AwaitAllSettled (seq 0 (List.length (promises r))) sequential ->
            Forall valued (List.map (fun p => fst (f p)) (promises r)) ->
            exists evs, cont (snd (run_events (resume sv (deliver f r)) evs)) = Returned).
  { intros sv r sequential f Hf Hc Hval.
    unfold resume. cbn [deliver set_promises cont]. rewrite Hc.
    replace (seq 0 (List.length (promises r)))
      with (seq 0 (List.length (promises (deliver f r))))
      by (cbn; now rewrite length_map).
    destruct (forallb _ _) eqn:Eall.
    - apply sequential_loop_ends. exact Hval.
    - exfalso. apply Bool.not_true_iff_false in Eall. apply Eall.
      apply forallb_forall. intros pid Hpid. apply in_seq in Hpid.
      unfold settled, promise_value.
      destruct (nth_error (promises (deliver f r)) pid) as [q|] eqn:Eq.
      + apply nth_error_In in Eq. cbn in Eq.
        rewrite Forall_forall in Hval. specialize (Hval q Eq). unfold valued in Hval.
        now destruct (p_value q).
      + apply nth_error_None in Eq. lia. }
  induction n as [|n IH]; intros sv r sequential Hc Ht Hn.
  - destruct (Hstep sv r sequential (timer_callback (now sv) 0)
                (timer_callback_ok _ _) Hc) as [evs Hevs].
    { assert (Hz : unsettled (promises r) = 0%nat) by lia.
      apply unsettled_zero in Hz.
      now destruct (delivered_valued (timer_callback_ok (now sv) 0) Hz) as (_ & H & _). }
    exists (TimerFires 0 :: evs). exact Hevs.
  - destruct (Nat.eq_dec (unsettled (promises r)) 0) as [Hz|Hnz].
    + apply IH with (sequential := sequential); trivial. lia.
    + destruct (unsettled_exists _ Hnz) as (p & Hin & Hv).
      rewrite Forall_forall in Ht. destruct (Ht p Hin Hv) as (a & Ha & Htimer).
      pose proof (unsettled_fire (now sv) _ p Hin Hv Ha Htimer) as Hlt.
      set (r1 := deliver (timer_callback (now sv) (at_taskId a)) r).
      assert (Hr1 : exists evs, cont (snd (run_events (resume sv r1) evs)) = Returned).
      { unfold resume. subst r1. cbn [deliver set_promises cont]. rewrite Hc.
        replace (seq 0 (List.length (promises r)))
          with (seq 0 (List.length
                         (promises (deliver (timer_callback (now sv) (at_taskId a)) r))))
          by (cbn; now rewrite length_map).
        destruct (forallb _ _) eqn:Eall.
        - apply sequential_loop_ends. apply settled_all in Eall. exact Eall.
        - apply IH with (sequential := sequential).
          + cbn. now rewrite length_map.
          + cbn. apply Forall_forall. intros q Hq.
            apply in_map_iff in Hq as (q0 & <- & Hq0).
            apply timer_callback_timed. now apply Ht.
          + change (unsettled
                      (List.map (fun q => fst (timer_callback (now sv) (at_taskId a) q))
                         (promises r)) <= n)%nat.
            lia. }
      destruct Hr1 as [evs Hevs].
      exists (TimerFires (at_taskId a) :: evs). exact Hevs.
Qed.


Lemma sequential_loop_timed todo : forall sv r,
  Forall timed (promises r) ->
  Forall timed (promises (snd (sequential_loop sv r todo))).
Proof.
  induction todo as [|it rest IH]; intros sv r H; [exact H|].
  cbn [sequential_loop].
  destruct (executeWorkflowTask_run sv r it) as (Hps & _).
  pose proof (executeWorkflowTask_timed sv r it) as Ht.
  destruct (executeWorkflowTask sv r it) as [[sv1 r1] p]. cbn [fst snd] in *.
  assert (H1 : Forall timed (promises r1)).
  { rewrite Hps. apply Forall_app. split; [exact H | now constructor]. }
  destruct (p_value p); [apply IH|]; exact H1.
Qed.

Lemma dispatch_all_timed todo : forall sv r,
  Forall timed (promises r) ->
  Forall timed (promises (snd (fst (dispatch_all sv r todo)))).
Proof.
  induction todo as [|it rest IH]; intros sv r H; [exact H|].
  cbn [dispatch_all].
  destruct (executeWorkflowTask_run sv r it) as (Hps & _).
  pose proof (executeWorkflowTask_timed sv r it) as Ht.
  destruct (executeWorkflowTask sv r it) as [[sv1 r1] p]. cbn [fst snd] in *.
  assert (H1 : Forall timed (promises r1)).
  { rewrite Hps. apply Forall_app. split; [exact H | now constructor]. }
  specialize (IH sv1 r1 H1).
  destruct (dispatch_all sv1 r1 rest) as [[sv2 r2] pids]. exact IH.
Qed.

Lemma resume_timed sv r :
  Forall timed (promises r) -> Forall timed (promises (snd (resume sv r))).
Proof.
  intro H. unfold resume. destruct (cont r) as [pids sequential|pid rest|].
  - destruct (forallb _ _); [|exact H]. now apply sequential_loop_timed.
  - destruct (promise_value r pid); [|exact H]. now apply sequential_loop_timed.
  - exact H.
Qed.

Lemma step_timed st e :
  Forall timed (promises (snd st)) -> Forall timed (promises (snd (step st e))).
Proof.
  destruct st as [sv r]. intro H. destruct e; cbn [step snd]; trivial;
    apply resume_timed; cbn; apply Forall_forall; intros q Hq;
    apply in_map_iff in Hq as (q0 & <- & Hq0);
    rewrite Forall_forall in H;
    [apply timer_callback_timed | apply listener_callback_timed]; now apply H.
Qed.

Lemma run_events_timed evs : forall st,
  Forall timed (promises (snd st)) ->
  Forall timed (promises (snd (run_events st evs))).
Proof.
  induction evs as [|e evs IH]; intros st H; [exact H|].
  cbn [run_events fold_left]. apply IH, step_timed, H.
Qed.

Lemma on_workflow_execute_timed sv sock wd :
  Forall timed (promises (snd (on_workflow_execute sv sock wd))).
Proof.
  unfold on_workflow_execute. cbn [uuidv4].
  destruct (parallelTasks (wd_tasks wd)) as [|it par].
  - apply sequential_loop_timed. constructor.
  - match goal with |- context [dispatch_all ?s ?r0 ?l] =>
      pose proof (dispatch_all_timed l s r0 (Forall_nil _)) as H;
      destruct (dispatch_all s r0 l) as [[sv2 r2] pids] end.
    apply resume_timed. exact H.
Qed.

(** From wherever a run is, there are events that take it to its end. *)
Lemma run_can_complete T sv r :
  run_inv T r -> Forall timed (promises r) ->
  exists evs, cont (snd (run_events (sv, r) evs)) = Returned.
Proof.
  intros Hinv Ht. unfold run_inv in Hinv.
  destruct (cont r) as [pids sequential|pid rest|] eqn:Ec.
  - destruct Hinv as (_ & -> & _).
    now apply parallel_phase_ends
      with (n := unsettled (promises r)) (sequential := sequential).
  - destruct Hinv as (done & cur & others & pc & tp & _ & Hps & -> & Hval & _).
    assert (Hpc : timed pc).
    { rewrite Forall_forall in Ht. apply Ht. rewrite Hps. apply in_or_app.
      right. now left. }
    assert (He : exists taskId,
              valued (fst (timer_callback (now sv) taskId pc))).
    { destruct (p_value pc) eqn:Ev.
      - exists 0%nat.
        destruct (timer_callback_ok (now sv) 0 pc) as (_ & Hv & _).
        destruct Hv as [Hsame _]; unfold valued in *; congruence.
      - destruct (Hpc Ev) as (a & Ha & Htimer). exists (at_taskId a).
        now apply timer_callback_settles. }
    destruct He as [taskId Hs].
    set (r2 := deliver (timer_callback (now sv) taskId) r).
    assert (Hps2 : promises r2
                   = List.map (fun q => fst (timer_callback (now sv) taskId q)) others
                     ++ [fst (timer_callback (now sv) taskId pc)]).
    { subst r2. cbn. now rewrite Hps, List.map_app. }
    destruct (delivered_valued (timer_callback_ok (now sv) taskId) Hval)
      as (_ & Hval' & _).
    destruct (p_value (fst (timer_callback (now sv) taskId pc))) as [v|] eqn:Ev';
      [|now elim Hs].
    destruct (sequential_loop_ends rest sv (push_results r2 [v])) as [evs Hevs].
    { cbn [push_results set_workflow promises]. rewrite Hps2.
      apply Forall_app. split; [exact Hval'|]. constructor; [exact Hs | constructor]. }
    assert (Hstep : step (sv, r) (TimerFires taskId)
                    = sequential_loop sv (push_results r2 [v]) rest).
    { change (resume sv r2 = sequential_loop sv (push_results r2 [v]) rest).
      unfold resume.
      replace (cont r2) with (cont r) by reflexivity. rewrite Ec.
      unfold promise_value. rewrite Hps2.
      rewrite nth_error_app2 by (rewrite length_map; apply Nat.le_refl).
      rewrite length_map, Nat.sub_diag. cbn [nth_error]. now rewrite Ev'. }
    exists (TimerFires taskId :: evs).
    cbn [run_events fold_left]. rewrite Hstep. exact Hevs.
  - exists []. exact Ec.
Qed.

End ServerLiveness.

(* ================================================================== *)
(** * No workflow is stuck: the demo *)

Section DemoLiveness.

Import Demo DemoInv Liveness.

Lemma attempts_left_zero th : attempts_left th = 0%nat <-> fin th.
Proof.
  unfold attempts_left, fin. destruct (th_progress th); split; intro H;
    try discriminate; try contradiction; trivial.
Qed.

Lemma total_attempts_left_zero ths :
  total_attempts_left ths = 0%nat <-> Forall fin ths.
Proof.
  unfold total_attempts_left, list_sum.
  induction ths as [|th ths IH]; cbn [List.map fold_right].
  - split; [constructor | reflexivity].
  - split.
    + intro H. assert (H1 : attempts_left th = 0%nat) by lia.
      assert (H2 : fold_right Nat.add 0%nat (List.map attempts_left ths) = 0%nat)
        by lia.
      constructor; [now apply attempts_left_zero | now apply IH].
    + intro H. inversion H as [|? ? H1 H2]; subst.
      apply attempts_left_zero in H1. apply IH in H2. lia.
Qed.

Lemma timer_fires_decreases st th :
  attempts_left th <> 0%nat ->
  (attempts_left (snd (fst (timer_fires st th))) < attempts_left th)%nat.
Proof.
  unfold timer_fires, attempts_left.
  destruct (th_progress th) as [agent pt rest|res]; [intros _ | congruence].
  destruct (finish_attempt st agent (wt_type (th_task th)) pt) as [st1 result].
  destruct (ar_success result); [cbn; lia|].
  destruct rest as [|next rest']; [cbn; lia|].
  destruct (begin_attempt _ next _ _) as [st3 pt']. cbn. lia.
Qed.

Lemma fire_at_decreases ths : forall st,
  total_attempts_left ths <> 0%nat ->
  (total_attempts_left (snd (fst (fire_at st ths (first_unfinished ths))))
   < total_attempts_left ths)%nat.
Proof.
  unfold total_attempts_left, list_sum.
  induction ths as [|th ths IH]; intros st H; [now elim H|].
  cbn [first_unfinished]. destruct (attempts_left th) eqn:E.
  - cbn [fire_at]. specialize (IH st).
    destruct (fire_at st ths (first_unfinished ths)) as [[st1 ths1] evs].
    cbn [fst snd List.map fold_right] in *. rewrite E in *. cbn in H. lia.
  - cbn [fire_at]. pose proof (timer_fires_decreases st th) as Hd.
    destruct (timer_fires st th) as [[st1 th1] evs].
    cbn [fst snd List.map fold_right] in *. lia.
Qed.

Lemma fire_at_position others tc st :
  fire_at st (others ++ [tc]) (List.length others)
  = (fst (fst (timer_fires st tc)), others ++ [snd (fst (timer_fires st tc))],
     snd (timer_fires st tc)).
Proof.
  induction others as [|th others IH]; cbn [app List.length fire_at].
  - now destruct (timer_fires st tc) as [[st1 tc1] evs].
  - now rewrite IH.
Qed.

Lemma thread_result_last r others tc :
  threads r = others ++ [tc] ->
  thread_result r (List.length others)
  = match th_progress tc with Finished res => Some res | _ => None end.
Proof.
  intro H. unfold thread_result. rewrite H.
  rewrite nth_error_app2, Nat.sub_diag by apply Nat.le_refl. cbn [nth_error].
  destruct tc as [i t pr]. now destruct pr.
Qed.

Section SequentialPhase.
Variable rest : list (nat * WfTask).
Hypothesis rest_ends : forall st r,
  Forall fin (threads r) ->
  exists evs wr, cont (snd (run_events (sequential_loop st r rest) evs)) = Returned wr.

(** The task the loop waits for ends when the timers of its attempts
    fire, and the loop goes on. *)
Lemma awaited_task_ends cands : forall st r others i task agent pt,
  threads r = others ++ [mkThread i task (Attempting agent pt cands)] ->
  Forall fin others ->
  cont r = AwaitTask (List.length others) rest ->
  exists evs wr, cont (snd (run_events (st, r) evs)) = Returned wr.
Proof.
  induction cands as [|next cands IH]; intros st r others i task agent pt Hths Hfin Hc.
  - set (tc := mkThread i task (Attempting agent pt [])) in *.
    pose proof (fire_at_position others tc st) as Hfire.
    assert (Hfin1 : fin (snd (fst (timer_fires st tc)))).
    { unfold timer_fires, fin, tc. cbn [th_progress th_task th_index].
      destruct (finish_attempt st agent (wt_type task) pt) as [st1 result].
      now destruct (ar_success result). }
    destruct (timer_fires st tc) as [[st1 tc1] evs1] eqn:Etf. cbn [fst snd] in *.
    set (r1 := set_threads r (others ++ [tc1]) evs1).
    unfold fin in Hfin1. destruct (th_progress tc1) as [|res] eqn:Epr; [contradiction|].
    destruct (rest_ends st1 (push_results r1 [res])) as (evs & wr & Hevs).
    { cbn. apply Forall_app. split; [exact Hfin|].
      constructor; [unfold fin; now rewrite Epr | constructor]. }
    exists (TimerFires (List.length others) :: evs), wr.
    cbn [run_events fold_left step]. rewrite Hths, Hfire. fold r1.
    unfold resume. replace (cont r1) with (cont r) by reflexivity. rewrite Hc.
    rewrite (@thread_result_last r1 others tc1 eq_refl), Epr. exact Hevs.
  - set (tc := mkThread i task (Attempting agent pt (next :: cands))) in *.
    pose proof (fire_at_position others tc st) as Hfire.
    assert (Hcase : fin (snd (fst (timer_fires st tc))) \/
                    exists pt', th_progress (snd (fst (timer_fires st tc)))
                                = Attempting next pt' cands /\
                                th_index (snd (fst (timer_fires st tc))) = i /\
                                th_task (snd (fst (timer_fires st tc))) = task).
    { unfold timer_fires, fin, tc. cbn [th_progress th_task th_index].
      destruct (finish_attempt st agent (wt_type task) pt) as [st1 result].
      destruct (ar_success result); [now left|].
      destruct (begin_attempt _ next _ _) as [st3 pt']. right. now exists pt'. }
    destruct (timer_fires st tc) as [[st1 tc1] evs1] eqn:Etf. cbn [fst snd] in *.
    set (r1 := set_threads r (others ++ [tc1]) evs1).
    assert (Hstep : step (st, r) (TimerFires (List.length others)) = resume st1 r1).
    { cbn [step]. now rewrite Hths, Hfire. }
    destruct Hcase as [Hfin1|(pt' & Epr & Hi & Htask)].
    + unfold fin in Hfin1.
      destruct (th_progress tc1) as [|res] eqn:Epr; [contradiction|].
      destruct (rest_ends st1 (push_results r1 [res])) as (evs & wr & Hevs).
      { cbn. apply Forall_app. split; [exact Hfin|].
        constructor; [unfold fin; now rewrite Epr | constructor]. }
      exists (TimerFires (List.length others) :: evs), wr.
      cbn [run_events fold_left]. rewrite Hstep.
      unfold resume. replace (cont r1) with (cont r) by reflexivity. rewrite Hc.
      rewrite (@thread_result_last r1 others tc1 eq_refl), Epr. exact Hevs.
    + destruct (IH st1 r1 others i task next pt') as (evs & wr & Hevs); trivial.
      { cbn. destruct tc1 as [i1 t1 pr1]. cbn in *. now subst. }
      exists (TimerFires (List.length others) :: evs), wr.
      cbn [run_events fold_left]. rewrite Hstep.
      unfold resume. replace (cont r1) with (cont r) by reflexivity. rewrite Hc.
      rewrite (@thread_result_last r1 others tc1 eq_refl), Epr. exact Hevs.
Qed.
End SequentialPhase.

Lemma demo_sequential_loop_ends todo : forall st r,
  Forall fin (threads r) ->
  exists evs wr, cont (snd (run_events (sequential_loop st r todo) evs)) = Returned wr.
Proof.
  induction todo as [|it rest IH]; intros st r Hfin.
  - exists []. eexists. reflexivity.
  - cbn [sequential_loop].
    match goal with |- context [start_task ?s it] =>
      destruct (start_task s it) as [[st1 th] evs1] end.
    destruct th as [i task pr]. cbn [th_progress].
    destruct pr as [agent pt cands|res].
    + apply (awaited_task_ends IH) with (others := threads r) (i := i)
        (task := task) (agent := agent) (pt := pt) (cands := cands);
        trivial.
    + apply IH. cbn. apply Forall_app. split; [exact Hfin|].
      constructor; [exact I | constructor].
Qed.

Lemma demo_sequential_phase_ends st r :
  Forall fin (threads r) ->
  exists evs wr, cont (snd (run_events (sequential_phase st r) evs)) = Returned wr.
Proof.
  intro H. unfold sequential_phase.
  destruct (sequentialTasks (wf_tasks r)) as [|it rest].
  - exists []. eexists. reflexivity.
  - now apply demo_sequential_loop_ends.
Qed.

Lemma demo_parallel_phase_ends n : forall st r,
  cont r = AwaitAll (seq 0 (List.length (threads r))) ->
  (total_attempts_left (threads r) <= n)%nat ->
  exists evs wr, cont (snd (run_events (st, r) evs)) = Returned wr.
Proof.
  assert (Hresume : forall st r pid,
            cont r = AwaitAll (seq 0 (List.length (threads r))) ->
            let f := fire_at st (threads r) pid in
            let r1 := set_threads r (snd (fst f)) (snd f) in
            step (st, r) (TimerFires pid) = resume (fst (fst f)) r1 /\
            cont r1 = AwaitAll (seq 0 (List.length (threads r1))) /\
            threads r1 = snd (fst f)).
  { intros st r pid Hc. cbv zeta. cbn [step].
    pose proof (fire_at_key (threads r) st pid) as Hk.
    destruct (fire_at st (threads r) pid) as [[st1 ths] evs1]. cbn [fst snd] in *.
    repeat split. cbn. rewrite Hc. do 2 f_equal.
    rewrite <- (length_map key ths), Hk. now rewrite length_map. }
  assert (Hall : forall st r,
            cont r = AwaitAll (seq 0 (List.length (threads r))) ->
            Forall fin (threads r) ->
            exists evs wr, cont (snd (run_events (resume st r) evs)) = Returned wr).
  { intros st r Hc Hfin. unfold resume. rewrite Hc.
    destruct (forallb _ _) eqn:Eall.
    - now apply demo_sequential_phase_ends.
    - exfalso. apply Bool.not_true_iff_false in Eall. apply Eall.
      apply forallb_forall. intros pid Hpid. apply in_seq in Hpid.
      unfold finished, thread_result.
      destruct (nth_error (threads r) pid) as [th|] eqn:Eth.
      + apply nth_error_In in Eth. rewrite Forall_forall in Hfin.
        specialize (Hfin th Eth). unfold fin in Hfin.
        destruct th as [i t pr]. now destruct pr.
      + apply nth_error_None in Eth. lia. }
  induction n as [|n IH]; intros st r Hc Hn.
  - destruct (Hresume st r 0%nat Hc) as (Hstep & Hc1 & Hths).
    assert (Hfin : Forall fin (threads r))
      by (apply total_attempts_left_zero; lia).
    destruct (fire_at_finished st 0 Hfin) as [Hsame _].
    destruct (Hall (fst (fst (fire_at st (threads r) 0))) _ Hc1)
      as (evs & wr & Hevs).
    { rewrite Hths, Hsame. exact Hfin. }
    exists (TimerFires 0 :: evs), wr. cbn [run_events fold_left].
    rewrite Hstep. exact Hevs.
  - destruct (Nat.eq_dec (total_attempts_left (threads r)) 0) as [Hz|Hnz].
    + apply IH; [exact Hc | lia].
    + pose proof (fire_at_decreases (threads r) st Hnz) as Hlt.
      destruct (Hresume st r (first_unfinished (threads r)) Hc)
        as (Hstep & Hc1 & Hths).
      set (f := fire_at st (threads r) (first_unfinished (threads r))) in *.
      set (r1 := set_threads r (snd (fst f)) (snd f)) in *.
      assert (Hr1 : exists evs wr,
                cont (snd (run_events (resume (fst (fst f)) r1) evs)) = Returned wr).
      { unfold resume at 1. rewrite Hc1.
        destruct (forallb _ _) eqn:Eall.
        - apply demo_sequential_phase_ends. cbn. apply finished_all in Eall.
          exact Eall.
        - apply IH; [exact Hc1 | rewrite Hths; lia]. }
      destruct Hr1 as (evs & wr & Hevs).
      exists (TimerFires (first_unfinished (threads r)) :: evs), wr.
      cbn [run_events fold_left]. rewrite Hstep. exact Hevs.
Qed.

(** From wherever a run is, there are events that take it to its end. *)
Lemma demo_run_can_complete T st r :
  run_inv T r ->
  exists evs wr, cont (snd (run_events (st, r) evs)) = Returned wr.
Proof.
  intros (_ & _ & Hinv).
  destruct (cont r) as [pids|pid rest|wr] eqn:Ec.
  - destruct Hinv as (-> & _).
    now apply demo_parallel_phase_ends with (n := total_attempts_left (threads r)).
  - destruct Hinv as (done & cur & others & tc & tp & _ & Hths & -> & Hfin & _).
    destruct tc as [i task pr]. destruct pr as [agent pt cands|res].
    + apply (awaited_task_ends (demo_sequential_loop_ends rest))
        with (others := others) (i := i) (task := task) (agent := agent)
             (pt := pt) (cands := cands); trivial.
    + set (tc := mkThread i task (Finished res)) in *.
      assert (Hstep : step (st, r) (TimerFires (List.length others))
                      = sequential_loop st (push_results (set_threads r (others ++ [tc]) []) [res]) rest).
      { cbn [step]. rewrite Hths, fire_at_position.
        unfold timer_fires, tc. cbn [th_progress fst snd]. fold tc.
        unfold resume. cbn [set_threads cont]. rewrite Ec.
        now rewrite (@thread_result_last (set_threads r (others ++ [tc]) [])
                       others tc eq_refl). }
      destruct (demo_sequential_loop_ends rest st
                  (push_results (set_threads r (others ++ [tc]) []) [res]))
        as (evs & wr & Hevs).
      { cbn. apply Forall_app. split; [exact Hfin|].
        constructor; [exact I | constructor]. }
      exists (TimerFires (List.length others) :: evs), wr.
      cbn [run_events fold_left]. rewrite Hstep. exact Hevs.
  - exists [], wr. exact Ec.
Qed.

End DemoLiveness.

(* ================================================================== *)
(** * The result of a workflow, for every run *)

Lemma Demo_run_events_app sr evs more :
  Demo.run_events sr (evs ++ more) = Demo.run_events (Demo.run_events sr evs) more.
Proof. apply fold_left_app. Qed.

Lemma Server_run_events_app st evs more :
  Server.run_events st (evs ++ more)
  = Server.run_events (Server.run_events st evs) more.
Proof. apply fold_left_app. Qed.

(** C5, as the code has it.  A run of [executeWorkflow] can always be
    taken to its end by events of the event loop, and when it has returned
    there is one result per task of the workflow: those of Phase P in list
    order, then those of Phase S in list order, a failed task having its
    result like any other.  In the demo the [success] of the workflow
    result is true exactly when every task result is successful.  On the
    server the workflow has no such flag: its [status] is ['completed'],
    whatever the task results. *)
Theorem C5_one_result_per_task_and_success_in_demo (T : list WfTask) :
  (forall (st : Demo.State) (name : string) (evs : list Demo.Event),
     let start :=
       Demo.executeWorkflow st {| Demo.wd_name := name; Demo.wd_tasks := T |} in
     (exists more wr,
        Demo.cont (snd (Demo.run_events start (evs ++ more))) = Demo.Returned wr) /\
     (forall wr,
        Demo.cont (snd (Demo.run_events start evs)) = Demo.Returned wr ->
        List.map Demo.r_task (Demo.wr_results wr)
        = List.map (fun it => wt_name (snd it))
            (parallelTasks T ++ sequentialTasks T) /\
        List.length (Demo.wr_results wr) = List.length T /\
        (Demo.wr_success wr = true
         <-> forall res, In res (Demo.wr_results wr) -> Demo.r_success res = true))) /\
  (forall (sv : Server.ServerState) (sock name : string) (evs : list Server.Event),
     let start :=
       Server.on_workflow_execute sv sock
         {| Server.wd_name := name; Server.wd_tasks := T |} in
     (exists more,
        Server.cont (snd (Server.run_events start (evs ++ more))) = Server.Returned) /\
     (let r := snd (Server.run_events start evs) in
      Server.cont r = Server.Returned ->
      List.map Server.p_index (Server.promises r)
      = List.map fst (parallelTasks T ++ sequentialTasks T) /\
      Forall2 (fun p res => Server.p_value p = Some res)
        (Server.promises r) (Server.wf_results (Server.workflow r)) /\
      List.length (Server.wf_results (Server.workflow r)) = List.length T /\
      Server.wf_status (Server.workflow r) = "completed")).
Proof.
  split.
  - intros st name evs start.
    pose proof (@demo_run_events_inv T evs _
                  (@executeWorkflow_inv T st
                     {| Demo.wd_name := name; Demo.wd_tasks := T |} eq_refl)) as H.
    fold start in H. split.
    + destruct (Demo.run_events start evs) as [st' r'] eqn:E.
      destruct (@demo_run_can_complete T st' r' H) as (more & wr & Hm).
      exists more, wr. now rewrite Demo_run_events_app, E.
    + intros wr Hd. destruct H as (_ & Hnamed & H). rewrite Hd in H.
      destruct H as (tp & Hfin & Hkey & Hres & Hwr & Hsucc & _).
      assert (Hnames : List.map Demo.r_task (Demo.wr_results wr)
                       = List.map (fun it => wt_name (snd it))
                           (parallelTasks T ++ sequentialTasks T)).
      { rewrite Hwr, Hres, (Demo_results_named Hfin Hnamed), Hkey. reflexivity. }
      split; [exact Hnames|]. split.
      * rewrite <- (length_map Demo.r_task), Hnames, length_map, length_app.
        apply phases_length.
      * rewrite Hsucc, <- Hwr. apply forallb_forall.
  - intros sv sock name evs start.
    pose proof (@run_events_inv T evs _
                  (@on_workflow_execute_inv T sv sock
                     {| Server.wd_name := name; Server.wd_tasks := T |} eq_refl)) as H.
    pose proof (@run_events_timed evs _
                  (on_workflow_execute_timed sv sock
                     {| Server.wd_name := name; Server.wd_tasks := T |})) as Ht.
    fold start in H, Ht. split.
    + destruct (Server.run_events start evs) as [sv' r'] eqn:E.
      destruct (@run_can_complete T sv' r' H Ht) as (more & Hm).
      exists more. now rewrite Server_run_events_app, E.
    + cbv zeta. intro Hs. unfold ServerInv.run_inv in H. rewrite Hs in H.
      destruct H as (tp & Hval & Hidx & Hres & Hst & _).
      split; [now rewrite Hidx, List.map_app|].
      split; [rewrite Hres; now apply Server_values_of_valued|].
      split; [|exact Hst].
      rewrite Hres, <- (Forall2_length (Server_values_of_valued Hval)).
      rewrite <- (length_map Server.p_index), Hidx, length_app, !length_map.
      apply phases_length.
Qed.

(** The four tasks of the example, of which [C] finds no agent: the run of
    the demo ends with four results and [success] false. *)
Lemma C5_one_result_per_task_and_success_in_demo_witness :
  exists wr,
    Demo.cont
      (snd (Demo.run_events
              (Demo.executeWorkflow Examples.demoState
                 {| Demo.wd_name := "w"; Demo.wd_tasks := Examples.fourTasks |})
              [Demo.TimerFires 1; Demo.TimerFires 0; Demo.TimerFires 3]))
    = Demo.Returned wr /\
    List.map Demo.r_task (Demo.wr_results wr) = ["A"; "B"; "C"; "D"] /\
    List.map Demo.r_success (Demo.wr_results wr) = [true; true; false; true] /\
    Demo.wr_success wr = false /\
    List.length (Demo.wr_results wr) = List.length Examples.fourTasks.
Proof.
  eexists. split; [vm_compute; reflexivity|].
  split; [reflexivity|]. split; [reflexivity|]. split; [reflexivity|].
  refine (proj1 (proj2 (proj2 (proj1
    (C5_one_result_per_task_and_success_in_demo Examples.fourTasks)
    Examples.demoState "w"
    [Demo.TimerFires 1; Demo.TimerFires 0; Demo.TimerFires 3]) _ _))).
  vm_compute. reflexivity.
Defined.

(* ================================================================== *)
(** * More facts about the containers *)

Lemma NoDup_snoc (A : Type) (l : list A) (x : A) :
  NoDup l -> ~ In x l -> NoDup (l ++ [x]).
Proof.
  intros H Hx. apply NoDup_rev in H.
  rewrite <- (rev_involutive (l ++ [x])), rev_app_distr.
  apply NoDup_rev. cbn. constructor; [|exact H]. now rewrite <- in_rev.
Qed.

Section MapLaws.
Variables (K V : Type) (keq : K -> K -> bool).
Hypothesis keq_spec : forall a b, keq a b = true <-> a = b.

Lemma keq_same k : keq k k = true.
Proof. now apply keq_spec. Qed.

Lemma keq_other a b : a <> b -> keq a b = false.
Proof.
  intro H. destruct (keq a b) eqn:E; [|reflexivity].
  now apply keq_spec in E.
Qed.

Lemma map_get_set_other k k' (v : V) m :
  k' <> k -> JS.map_get keq k' (JS.map_set keq k v m) = JS.map_get keq k' m.
Proof.
  intro Hne. induction m as [|[k0 v0] m IH]; simpl.
  - now rewrite keq_other.
  - destruct (keq k k0) eqn:E; simpl.
    + apply keq_spec in E. subst k0. now rewrite !keq_other.
    + now rewrite IH.
Qed.

Lemma map_get_in k (v : V) m : JS.map_get keq k m = Some v -> In (k, v) m.
Proof.
  induction m as [|[k0 v0] m IH]; simpl; [discriminate|].
  destruct (keq k k0) eqn:E.
  - apply keq_spec in E. subst k0. intros [= ->]. now left.
  - intro H. right. now apply IH.
Qed.

Lemma map_get_none k m :
  JS.map_get keq k m = @None V <-> ~ In k (JS.map_keys m).
Proof.
  induction m as [|[k0 v0] m IH]; simpl; [tauto|].
  destruct (keq k k0) eqn:E.
  - apply keq_spec in E. subst k0. split; [discriminate | tauto].
  - rewrite IH. split; [|tauto].
    intros H [H1|H1]; [|tauto]. subst k0. now rewrite keq_same in E.
Qed.

Lemma in_map_get k (v : V) m :
  NoDup (JS.map_keys m) -> In (k, v) m -> JS.map_get keq k m = Some v.
Proof.
  induction m as [|[k0 v0] m IH]; simpl; [tauto|].
  intros Hnd [H|H].
  - injection H as -> ->. now rewrite keq_same.
  - inversion Hnd as [|? ? Hnotin Hnd']; subst.
    destruct (keq k k0) eqn:E; [|now apply IH].
    apply keq_spec in E. subst k0. exfalso. apply Hnotin.
    change k with (fst (k, v)). now apply in_map.
Qed.

Lemma map_keys_set k (v : V) m :
  JS.map_keys (JS.map_set keq k v m)
  = match JS.map_get keq k m with
    | Some _ => JS.map_keys m
    | None => JS.map_keys m ++ [k]
    end.
Proof.
  induction m as [|[k0 v0] m IH]; simpl; [reflexivity|].
  destruct (keq k k0) eqn:E; simpl.
  - apply keq_spec in E. now subst k0.
  - rewrite IH. now destruct (JS.map_get keq k m).
Qed.

Lemma map_set_length k (v : V) m :
  List.length (JS.map_set keq k v m)
  = match JS.map_get keq k m with
    | Some _ => List.length m
    | None => S (List.length m)
    end.
Proof.
  rewrite <- (length_map fst (JS.map_set keq k v m)).
  change (List.map fst (JS.map_set keq k v m)) with (JS.map_keys (JS.map_set keq k v m)).
  rewrite map_keys_set. unfold JS.map_keys.
  destruct (JS.map_get keq k m);
    [| rewrite length_app, Nat.add_comm]; now rewrite length_map.
Qed.

Lemma map_set_nodup k (v : V) m :
  NoDup (JS.map_keys m) -> NoDup (JS.map_keys (JS.map_set keq k v m)).
Proof.
  intro H. rewrite map_keys_set.
  destruct (JS.map_get keq k m) eqn:E; [exact H|].
  apply map_get_none in E. now apply NoDup_snoc.
Qed.

Lemma map_set_forall (P : K * V -> Prop) k (v : V) m :
  P (k, v) -> Forall P m -> Forall P (JS.map_set keq k v m).
Proof.
  intros Hkv. induction m as [|[k0 v0] m IH]; simpl; intro H.
  - now constructor.
  - inversion H; subst. destruct (keq k k0); constructor; auto.
Qed.

End MapLaws.

(* ================================================================== *)
(** * The registry of the server *)

Lemma Server_findBestAgent_some agents capability best :
  Server.findBestAgent agents capability = Some best ->
  In best (JS.map_values agents) /\
  Server.canHandle best capability = true /\
  Server.status best = "active" /\
  forall a, In a (JS.map_values agents) ->
            Server.canHandle a capability = true ->
            Server.status a = "active" ->
            (Server.successRate (Server.performance a)
             <= Server.successRate (Server.performance best))%Q.
Proof.
  unfold Server.findBestAgent.
  destruct (Server.suitableAgents agents capability) as [|b rest] eqn:E;
    [discriminate|]. intros [= ->].
  pose proof (array_sort_perm (fun a => Server.successRate (Server.performance a))
                (filter (fun agent => Server.canHandle agent capability
                                      && String.eqb (Server.status agent) "active")
                        (JS.map_values agents))) as Hp.
  pose proof (array_sort_descending (fun a => Server.successRate (Server.performance a))
                (filter (fun agent => Server.canHandle agent capability
                                      && String.eqb (Server.status agent) "active")
                        (JS.map_values agents))) as Hd.
  change (JS.array_sort _ _) with (Server.suitableAgents agents capability) in Hp, Hd.
  rewrite E in Hp, Hd.
  assert (Hb : In best (filter (fun agent => Server.canHandle agent capability
                                      && String.eqb (Server.status agent) "active")
                        (JS.map_values agents))).
  { apply (Permutation_in _ Hp). now left. }
  apply filter_In in Hb. destruct Hb as [Hin Hc].
  apply andb_true_iff in Hc. destruct Hc as [Hc Hs]. apply String.eqb_eq in Hs.
  repeat split; trivial.
  intros a Ha Hca Hsa.
  apply (@descending_head_max _ _ best rest a Hd).
  apply (Permutation_in _ (Permutation_sym Hp)).
  apply filter_In. split; [exact Ha|].
  rewrite Hca, Hsa. reflexivity.
Qed.

Lemma Server_findBestAgent_capable agents capability a :
  In a (JS.map_values agents) ->
  Server.canHandle a capability = true ->
  Server.status a = "active" ->
  exists best, Server.findBestAgent agents capability = Some best.
Proof.
  intros Ha Hc Hs. unfold Server.findBestAgent.
  destruct (Server.suitableAgents agents capability) as [|b rest] eqn:E;
    [|now exists b].
  exfalso. unfold Server.suitableAgents in E.
  apply array_sort_nil_iff in E.
  assert (Hin : In a (filter (fun agent => Server.canHandle agent capability
                                      && String.eqb (Server.status agent) "active")
                        (JS.map_values agents))).
  { apply filter_In. split; [exact Ha|]. rewrite Hc, Hs. reflexivity. }
  now rewrite E in Hin.
Qed.

Lemma same_store_refl sv : same_store sv sv.
Proof. unfold same_store. repeat split; trivial. Qed.

Lemma same_store_trans sv1 sv2 sv3 :
  same_store sv1 sv2 -> same_store sv2 sv3 -> same_store sv1 sv3.
Proof.
  unfold same_store. intros (A1 & T1 & M1 & N1 & U1) (A2 & T2 & M2 & N2 & U2).
  repeat split; try congruence. lia.
Qed.

Lemma executeWorkflowTask_store sv r it :
  same_store sv (fst (fst (Server.executeWorkflowTask sv r it))).
Proof.
  destruct it as [i task]. unfold Server.executeWorkflowTask.
  destruct (Server.findBestAgent (Server.agents sv) (wt_capability task)).
  - unfold same_store. cbn. repeat split. lia.
  - apply same_store_refl.
Qed.

Lemma complete_store sv r : same_store sv (fst (Server.complete sv r)).
Proof. unfold same_store. cbn. repeat split. lia. Qed.

Lemma sequential_loop_store todo : forall sv r,
  same_store sv (fst (Server.sequential_loop sv r todo)).
Proof.
  induction todo as [|it rest IH]; intros sv r; [apply complete_store|].
  cbn [Server.sequential_loop].
  pose proof (executeWorkflowTask_store sv r it) as H.
  destruct (Server.executeWorkflowTask sv r it) as [[sv1 r1] p]. cbn [fst] in H.
  destruct (Server.p_value p); [|exact H].
  eapply same_store_trans; [exact H | apply IH].
Qed.

Lemma dispatch_all_store todo : forall sv r,
  same_store sv (fst (fst (Server.dispatch_all sv r todo))).
Proof.
  induction todo as [|it rest IH]; intros sv r; [apply same_store_refl|].
  cbn [Server.dispatch_all].
  pose proof (executeWorkflowTask_store sv r it) as H.
  destruct (Server.executeWorkflowTask sv r it) as [[sv1 r1] p]. cbn [fst] in H.
  specialize (IH sv1 r1).
  destruct (Server.dispatch_all sv1 r1 rest) as [[sv2 r2] pids]. cbn [fst] in *.
  eapply same_store_trans; eassumption.
Qed.

Lemma resume_store sv r : same_store sv (fst (Server.resume sv r)).
Proof.
  unfold Server.resume. destruct (Server.cont r) as [pids sequential|pid rest|].
  - destruct (forallb _ _); [apply sequential_loop_store | apply same_store_refl].
  - destruct (Server.promise_value r pid);
      [apply sequential_loop_store | apply same_store_refl].
  - apply same_store_refl.
Qed.

Lemma on_workflow_execute_store sv sock wd :
  same_store sv (fst (Server.on_workflow_execute sv sock wd)).
Proof.
  unfold Server.on_workflow_execute. cbn [Server.uuidv4].
  set (sv1 := Server.mkServer _ _ _ _ _ _).
  set (r := Server.mkRun _ _ _ _ _).
  assert (H1 : same_store sv sv1).
  { unfold same_store, sv1. cbn. repeat split. lia. }
  destruct (parallelTasks (Server.wd_tasks wd)) as [|it par].
  - eapply same_store_trans; [exact H1 | apply sequential_loop_store].
  - pose proof (dispatch_all_store (it :: par) sv1 r) as H2.
    destruct (Server.dispatch_all sv1 r (it :: par)) as [[sv2 r2] pids].
    cbn [fst] in H2.
    eapply same_store_trans; [exact H1|].
    eapply same_store_trans; [exact H2 | apply resume_store].
Qed.

Lemma attempt_step_store st taskId :
  same_store (fst st) (fst (Server.step st (Server.TimerFires taskId))).
Proof. destruct st as [sv r]. apply resume_store. Qed.

Lemma hear_store sock taskId pl st :
  same_store (fst st) (fst (Sockets.hear sock taskId pl st)).
Proof.
  unfold Sockets.hear. destruct (String.eqb sock _); [|apply same_store_refl].
  destruct st as [sv r]. apply resume_store.
Qed.

Lemma each_run_store f :
  (forall st, same_store (fst st) (fst (f st))) ->
  forall rs sv, same_store sv (fst (Sockets.each_run f sv rs)).
Proof.
  intros Hf. induction rs as [|r rs IH]; intro sv; [apply same_store_refl|].
  cbn [Sockets.each_run].
  pose proof (Hf (sv, r)) as H. destruct (f (sv, r)) as [sv1 r1]. cbn [fst] in H.
  specialize (IH sv1). destruct (Sockets.each_run f sv1 rs) as [sv2 rs2].
  cbn [fst] in *. eapply same_store_trans; eassumption.
Qed.

Lemma same_store_registry_ok sv sv' :
  same_store sv sv' -> registry_ok sv -> registry_ok sv'.
Proof.
  unfold same_store, registry_ok. intros (A & _ & M & _) H. now rewrite A, M.
Qed.

Lemma on_agent_register_registry_ok sv sock agentId caps :
  keyed_by_id (Server.agents sv) ->
  registry_ok (Server.on_agent_register sv sock agentId caps).
Proof.
  intros [Hnd Hid]. unfold registry_ok, keyed_by_id, Server.on_agent_register.
  cbn. repeat split.
  - apply map_set_nodup; [apply String.eqb_eq | exact Hnd].
  - apply map_set_forall; [reflexivity | exact Hid].
Qed.

Lemma keyed_by_id_get ags k a :
  keyed_by_id ags -> JS.map_get String.eqb k ags = Some a -> Server.id a = k.
Proof.
  intros [_ Hid] H. apply (@map_get_in _ _ _ String.eqb_eq) in H.
  rewrite Forall_forall in Hid. apply (Hid (k, a) H).
Qed.

Lemma on_agent_task_complete_registry_ok sv data :
  registry_ok sv -> registry_ok (Server.on_agent_task_complete sv data).
Proof.
  intros [Hk Hn]. unfold Server.on_agent_task_complete.
  destruct (JS.map_get Nat.eqb _ _) as [task|]; [|now split].
  destruct (Server.task_assignedAgent task) as [assigned|]; [|now split].
  destruct (String.eqb assigned ""); [now split|].
  destruct (JS.map_get String.eqb assigned (Server.agents sv)) as [agent|] eqn:E;
    [|now split].
  assert (Hagents : forall success,
    registry_ok
      (Server.set_agents sv
         (JS.map_set String.eqb assigned
            (Server.updatePerformance agent (Server.cd_responseTime data) success)
            (Server.agents sv)))).
  { intro success. destruct Hk as [Hnd Hid]. unfold registry_ok, keyed_by_id. cbn.
    repeat split.
    - apply map_set_nodup; [apply String.eqb_eq | exact Hnd].
    - apply map_set_forall; [|exact Hid]. cbn.
      apply (@keyed_by_id_get (Server.agents sv)); [now split | exact E].
    - rewrite (@map_set_length _ _ _ String.eqb_eq), E. exact Hn. }
  destruct (match Server.cd_success data with Some b => b | None => true end);
    apply (Hagents _).
Qed.

Lemma filter_negb_all (A : Type) (f : A -> bool) (l : list A) :
  filter f l = [] -> filter (fun x => negb (f x)) l = l.
Proof.
  induction l as [|x l IH]; [reflexivity|]. cbn.
  destruct (f x); [discriminate|]. intro H. cbn. now rewrite IH.
Qed.

Lemma filter_nodup_keys (K V : Type) (f : K * V -> bool) (m : list (K * V)) :
  NoDup (JS.map_keys m) -> NoDup (JS.map_keys (filter f m)).
Proof.
  unfold JS.map_keys. induction m as [|kv m IH]; cbn; intro H; [constructor|].
  inversion H as [|? ? Hnotin Hnd]; subst.
  destruct (f kv); [|now apply IH]. cbn. constructor; [|now apply IH].
  intro Hin. apply Hnotin. apply in_map_iff in Hin.
  destruct Hin as (kv' & Hk & Hin'). apply filter_In in Hin'.
  apply in_map_iff. exists kv'. tauto.
Qed.

Lemma fold_emit_left_store (A : Type) (g : A -> Server.Emit) (l : list A) : forall sv,
  Server.agents (fold_left (fun s x => Server.emit s (g x)) l sv) = Server.agents sv /\
  Server.metrics (fold_left (fun s x => Server.emit s (g x)) l sv) = Server.metrics sv /\
  Server.tasks (fold_left (fun s x => Server.emit s (g x)) l sv) = Server.tasks sv /\
  Server.uuids (fold_left (fun s x => Server.emit s (g x)) l sv) = Server.uuids sv.
Proof.
  induction l as [|x l IH]; intro sv; [now repeat split|].
  cbn [fold_left]. destruct (IH (Server.emit sv (g x))) as (A1 & A2 & A3 & A4).
  rewrite A1, A2, A3, A4. now repeat split.
Qed.

Lemma on_disconnect_registry_ok sv sock :
  registry_ok sv -> registry_ok (Server.on_disconnect sv sock).
Proof.
  intros [[Hnd Hid] Hn]. unfold registry_ok, Server.on_disconnect.
  destruct (fold_emit_left_store
              (fun kv : string * Server.OrchestrationAgent =>
                 Server.EmitAgentLeft sock (fst kv))
              (filter (fun kv => String.eqb (Server.socketId (snd kv)) sock)
                      (Server.agents sv))
              (Server.set_metrics
                 (Server.set_agents sv
                    (filter (fun kv => negb (String.eqb (Server.socketId (snd kv)) sock))
                            (Server.agents sv)))
                 {| Server.connections := Server.connections (Server.metrics sv) - 1;
                    Server.messagesProcessed := Server.messagesProcessed (Server.metrics sv);
                    Server.activeAgents :=
                      match filter (fun kv => String.eqb (Server.socketId (snd kv)) sock)
                                   (Server.agents sv) with
                      | [] => Server.activeAgents (Server.metrics sv)
                      | _ :: _ =>
                          Z.of_nat (List.length
                            (filter (fun kv => negb (String.eqb (Server.socketId (snd kv)) sock))
                                    (Server.agents sv)))
                      end;
                    Server.completedTasks := Server.completedTasks (Server.metrics sv) |}))
    as (A1 & A2 & _).
  rewrite A1, A2. cbn. unfold keyed_by_id. repeat split.
  - now apply filter_nodup_keys.
  - apply Forall_forall. intros kv Hkv. apply filter_In in Hkv.
    rewrite Forall_forall in Hid. now apply Hid.
  - destruct (filter (fun kv => String.eqb (Server.socketId (snd kv)) sock)
                     (Server.agents sv)) eqn:E; [|reflexivity].
    rewrite (filter_negb_all _ _ E). exact Hn.
Qed.

Lemma post_tasks_registry sv body :
  Server.agents (fst (Server.post_tasks sv body)) = Server.agents sv /\
  Server.metrics (fst (Server.post_tasks sv body)) = Server.metrics sv.
Proof.
  unfold Server.post_tasks. cbn [Server.uuidv4].
  destruct (Server.findBestAgent _ _); now split.
Qed.

Lemma step_registry_ok w e :
  registry_ok (Sockets.server w) -> registry_ok (Sockets.server (Sockets.step w e)).
Proof.
  intro H. destruct e; cbn [Sockets.step].
  - destruct H as [Hk Hn]. now split.
  - exact H.
  - apply on_agent_register_registry_ok, H.
  - now apply on_agent_task_complete_registry_ok.
  - unfold Sockets.on_agent_message.
    destruct (Sockets.am_targetAgent data) as [t|]; [|destruct H; now split].
    destruct (String.eqb t ""); [destruct H; now split|].
    cbn [Server.agents Server.set_metrics].
    destruct (JS.map_get String.eqb t (Server.agents (Sockets.server w)));
      destruct H; now split.
  - pose proof (on_workflow_execute_store (Sockets.server w) sock wd) as Hs.
    destruct (Server.on_workflow_execute (Sockets.server w) sock wd) as [sv1 r].
    cbn [fst Sockets.server] in *. eapply same_store_registry_ok; eassumption.
  - pose proof (each_run_store (Sockets.hear sock taskId pl)
                  (hear_store sock taskId pl) (Sockets.runs w) (Sockets.server w)) as Hs.
    destruct (Sockets.each_run _ _ _) as [sv1 rs].
    cbn [fst Sockets.server] in *. eapply same_store_registry_ok; eassumption.
  - now apply on_disconnect_registry_ok.
  - destruct (post_tasks_registry (Sockets.server w) body) as [A M].
    destruct H as [Hk Hn]. unfold registry_ok. cbn [Sockets.server].
    now rewrite A, M.
  - pose proof (each_run_store (fun st => Server.step st (Server.TimerFires taskId))
                  (fun st => attempt_step_store st taskId)
                  (Sockets.runs w) (Sockets.server w)) as Hs.
    destruct (Sockets.each_run _ _ _) as [sv1 rs].
    cbn [fst Sockets.server] in *. eapply same_store_registry_ok; eassumption.
  - destruct H as [Hk Hn]. now split.
Qed.

Lemma Server_activeAgents_registry (evs : list Sockets.Event) :
  registry_ok (Sockets.server (Sockets.run_events Sockets.initial evs)).
Proof.
  unfold Sockets.run_events.
  assert (H0 : registry_ok (Sockets.server Sockets.initial)).
  { unfold registry_ok, keyed_by_id. cbn. repeat constructor. }
  revert H0. generalize Sockets.initial.
  induction evs as [|e evs IH]; intros w Hw; [exact Hw|].
  cbn [fold_left]. apply IH. now apply step_registry_ok.
Qed.

(** X1 In every state the server can reach, whatever its clients send,
    [metrics.activeAgents] is the size of the registry (the [total] of
    [GET /agents]), and the registry holds every agent under its own [id],
    each [id] once. *)
Theorem Server_activeAgents_is_the_registry_size (evs : list Sockets.Event) :
  let sv := Sockets.server (Sockets.run_events Sockets.initial evs) in
  Server.activeAgents (Server.metrics sv) = Z.of_nat (List.length (Server.agents sv)) /\
  snd (Sockets.get_agents sv) = Server.activeAgents (Server.metrics sv) /\
  NoDup (JS.map_keys (Server.agents sv)) /\
  (forall k a, JS.map_get String.eqb k (Server.agents sv) = Some a -> Server.id a = k).
Proof.
  cbv zeta.
  destruct (Server_activeAgents_registry evs) as [Hk Hn]. repeat split.
  - exact Hn.
  - unfold Sockets.get_agents. cbn [snd]. now rewrite Hn.
  - apply Hk.
  - intros k a Hka. eapply keyed_by_id_get; eassumption.
Qed.

Section SortAndFilter.
Variable A : Type.
Variable key : A -> Q.
Variable f : A -> bool.

Lemma filter_descending l : descending key l -> descending key (filter f l).
Proof.
  unfold descending. induction 1 as [|x l Hs IH Hall]; cbn; [constructor|].
  destruct (f x); [|exact IH]. constructor; [exact IH|].
  rewrite Forall_forall in *. intros y Hy. apply filter_In in Hy. now apply Hall.
Qed.

Lemma filter_swap (g : A -> bool) l : filter f (filter g l) = filter g (filter f l).
Proof.
  induction l as [|x l IH]; [reflexivity|]. cbn.
  destruct (g x) eqn:Eg, (f x) eqn:Ef; cbn; rewrite ?Eg, ?Ef, IH; reflexivity.
Qed.

(** Sorting and filtering commute, the sort being stable. *)
Lemma array_sort_filter l :
  JS.array_sort (fun a b => (key b - key a)%Q) (filter f l)
  = filter f (JS.array_sort (fun a b => (key b - key a)%Q) l).
Proof.
  symmetry. apply stable_sort_is_array_sort. split.
  - apply filter_descending, array_sort_descending.
  - intro k. unfold with_key. rewrite <- filter_swap.
    fold (with_key key k (JS.array_sort (fun a b => (key b - key a)%Q) l)).
    rewrite array_sort_with_key. unfold with_key. apply filter_swap.
Qed.
End SortAndFilter.

(** X2 [agent:register]: the agent is in the registry as a new agent, under
    its id, with the statistics of the constructor even when the id was
    registered before; the entries of the other ids are as they were, and
    the registry grows by one only for a new id.  For every capability the
    agent advertises, [findBestAgent] then returns an agent, whose success
    rate is at least the 0.95 of a new agent. *)
Theorem register_makes_the_agent_a_candidate
    (sv : Server.ServerState) (sock agentId : string) (caps : list string)
    (capability : string) :
  JS.includes caps capability = true ->
  let sv' := Server.on_agent_register sv sock agentId caps in
  JS.map_get String.eqb agentId (Server.agents sv')
  = Some (Server.newAgent agentId caps sock) /\
  (forall other, other <> agentId ->
     JS.map_get String.eqb other (Server.agents sv')
     = JS.map_get String.eqb other (Server.agents sv)) /\
  List.length (Server.agents sv')
  = match JS.map_get String.eqb agentId (Server.agents sv) with
    | Some _ => List.length (Server.agents sv)
    | None => S (List.length (Server.agents sv))
    end /\
  exists best,
    Server.findBestAgent (Server.agents sv') capability = Some best /\
    (95 # 100 <= Server.successRate (Server.performance best))%Q.
Proof.
  intro Hc. cbv zeta. unfold Server.on_agent_register.
  cbn [Server.agents Server.emit Server.set_metrics Server.set_agents].
  assert (Hget : JS.map_get String.eqb agentId
                   (JS.map_set String.eqb agentId (Server.newAgent agentId caps sock)
                      (Server.agents sv))
                 = Some (Server.newAgent agentId caps sock))
    by (apply map_get_set_same, String.eqb_refl).
  split; [exact Hget|].
  split; [intros other Hne; now apply (@map_get_set_other _ _ _ String.eqb_eq)|].
  split; [apply (@map_set_length _ _ _ String.eqb_eq)|].
  assert (Hin : In (Server.newAgent agentId caps sock)
                   (JS.map_values
                      (JS.map_set String.eqb agentId (Server.newAgent agentId caps sock)
                         (Server.agents sv)))).
  { apply (@map_get_in _ _ _ String.eqb_eq) in Hget.
    change (Server.newAgent agentId caps sock)
      with (snd (agentId, Server.newAgent agentId caps sock)).
    now apply in_map. }
  destruct (@Server_findBestAgent_capable _ capability _ Hin Hc eq_refl) as [best Hb].
  exists best. split; [exact Hb|].
  destruct (Server_findBestAgent_some _ _ Hb) as (_ & _ & _ & Hmax).
  apply (Hmax _ Hin Hc eq_refl).
Qed.

Lemma register_makes_the_agent_a_candidate_witness :
  exists best,
    Server.findBestAgent
      (Server.agents (Server.on_agent_register Examples.serverState "socket-n"
                        "veteran" ["x"; "y"])) "y" = Some best /\
    (95 # 100 <= Server.successRate (Server.performance best))%Q.
Proof.
  apply (@register_makes_the_agent_a_candidate Examples.serverState "socket-n"
           "veteran" ["x"; "y"] "y" eq_refl).
Defined.

Lemma map_values_filter (K V : Type) (g : V -> bool) (m : list (K * V)) :
  JS.map_values (filter (fun kv => g (snd kv)) m) = filter g (JS.map_values m).
Proof.
  unfold JS.map_values. induction m as [|kv m IH]; [reflexivity|]. cbn.
  destruct (g (snd kv)); cbn; now rewrite IH.
Qed.

Lemma on_disconnect_agents sv sock :
  Server.agents (Server.on_disconnect sv sock)
  = filter (fun kv => negb (String.eqb (Server.socketId (snd kv)) sock))
           (Server.agents sv) /\
  Server.metrics (Server.on_disconnect sv sock)
  = {| Server.connections := Server.connections (Server.metrics sv) - 1;
       Server.messagesProcessed := Server.messagesProcessed (Server.metrics sv);
       Server.activeAgents :=
         match filter (fun kv => String.eqb (Server.socketId (snd kv)) sock)
                      (Server.agents sv) with
         | [] => Server.activeAgents (Server.metrics sv)
         | _ :: _ =>
             Z.of_nat (List.length
               (filter (fun kv => negb (String.eqb (Server.socketId (snd kv)) sock))
                       (Server.agents sv)))
         end;
       Server.completedTasks := Server.completedTasks (Server.metrics sv) |} /\
  Server.tasks (Server.on_disconnect sv sock) = Server.tasks sv /\
  Server.uuids (Server.on_disconnect sv sock) = Server.uuids sv.
Proof.
  unfold Server.on_disconnect.
  match goal with
  | |- context [fold_left ?F ?L ?S] =>
      destruct (fold_emit_left_store
                  (fun kv : string * Server.OrchestrationAgent =>
                     Server.EmitAgentLeft sock (fst kv)) L S) as (A1 & A2 & A3 & A4)
  end.
  rewrite A1, A2, A3, A4. repeat split.
Qed.

(** X3 [disconnect]: the registry keeps the agents that were registered
    through other sockets and only them; for every capability, the
    candidates are the former candidates without the agents of the socket,
    in the same order, so [findBestAgent] never returns an agent of the
    socket that has gone; the count of connections goes down by one. *)
Theorem disconnect_drops_the_agents_of_the_socket
    (sv : Server.ServerState) (sock capability : string) :
  let sv' := Server.on_disconnect sv sock in
  (forall k a, In (k, a) (Server.agents sv')
               <-> In (k, a) (Server.agents sv) /\ Server.socketId a <> sock) /\
  Server.suitableAgents (Server.agents sv') capability
  = filter (fun a => negb (String.eqb (Server.socketId a) sock))
           (Server.suitableAgents (Server.agents sv) capability) /\
  (forall best, Server.findBestAgent (Server.agents sv') capability = Some best ->
                Server.socketId best <> sock) /\
  Server.connections (Server.metrics sv')
  = Server.connections (Server.metrics sv) - 1.
Proof.
  cbv zeta. destruct (on_disconnect_agents sv sock) as (HA & HM & _).
  rewrite HA, HM. split; [|split; [|split]].
  - intros k a. rewrite filter_In. cbn [snd].
    rewrite negb_true_iff, <- not_true_iff_false, String.eqb_eq. reflexivity.
  - unfold Server.suitableAgents.
    rewrite (map_values_filter
               (fun a => negb (String.eqb (Server.socketId a) sock))).
    rewrite filter_swap.
    apply (array_sort_filter (fun a => Server.successRate (Server.performance a))).
  - intros best Hb. apply Server_findBestAgent_some in Hb.
    destruct Hb as (Hin & _). unfold JS.map_values in Hin.
    apply in_map_iff in Hin. destruct Hin as ([k a] & <- & Hin).
    apply filter_In in Hin. destruct Hin as [_ Hs]. cbn [snd] in *.
    now rewrite negb_true_iff, <- not_true_iff_false, String.eqb_eq in Hs.
  - reflexivity.
Qed.

(* ================================================================== *)
(** * Ad-hoc tasks and their completion reports *)

Lemma in_map_set_inv (K V : Type) (keq : K -> K -> bool) k (v : V) m kv :
  In kv (JS.map_set keq k v m) -> kv = (k, v) \/ In kv m.
Proof.
  induction m as [|[k0 v0] m IH]; cbn.
  - intros [<-|[]]. now left.
  - destruct (keq k k0); cbn.
    + intros [<-|H]; [now left | right; now right].
    + intros [<-|H]; [right; now left|].
      destruct (IH H) as [->|H']; [now left | right; now right].
Qed.

Lemma tasks_ok_get sv k t :
  tasks_ok sv -> JS.map_get Nat.eqb k (Server.tasks sv) = Some t ->
  Server.task_id t = k /\ (k < Server.uuids sv)%nat.
Proof.
  intros [_ H] Hg. apply (@map_get_in _ _ _ Nat.eqb_eq) in Hg.
  rewrite Forall_forall in H. apply (H (k, t) Hg).
Qed.

Lemma same_store_tasks_ok sv sv' : same_store sv sv' -> tasks_ok sv -> tasks_ok sv'.
Proof.
  unfold same_store, tasks_ok. intros (_ & T & _ & _ & U) [Hnd H]. rewrite T.
  split; [exact Hnd|]. eapply Forall_impl; [|exact H].
  cbn. intros kt [H1 H2]. split; [exact H1 | lia].
Qed.

Lemma tasks_ok_set sv k t :
  tasks_ok sv -> Server.task_id t = k -> (k < Server.uuids sv)%nat ->
  tasks_ok (Server.set_tasks sv (JS.map_set Nat.eqb k t (Server.tasks sv))).
Proof.
  intros [Hnd H] Hid Hlt. split; cbn.
  - apply map_set_nodup; [apply Nat.eqb_eq | exact Hnd].
  - apply map_set_forall; [now split | exact H].
Qed.

Lemma post_tasks_tasks sv body :
  Server.tasks (fst (Server.post_tasks sv body))
  = JS.map_set Nat.eqb (Server.uuids sv) (snd (snd (Server.post_tasks sv body)))
      (Server.tasks sv) /\
  Server.task_id (snd (snd (Server.post_tasks sv body))) = Server.uuids sv /\
  Server.uuids (fst (Server.post_tasks sv body)) = S (Server.uuids sv).
Proof.
  unfold Server.post_tasks. cbn [Server.uuidv4].
  destruct (Server.findBestAgent _ _) as [best|]; cbn; [|now repeat split].
  repeat split.
  generalize (Server.tasks sv). intro m.
  induction m as [|[k0 t0] m IH]; cbn.
  - now rewrite Nat.eqb_refl.
  - destruct (Nat.eqb (Server.uuids sv) k0) eqn:E; cbn.
    + now rewrite Nat.eqb_refl.
    + now rewrite E, IH.
Qed.

Lemma post_tasks_tasks_ok sv body :
  tasks_ok sv -> tasks_ok (fst (Server.post_tasks sv body)).
Proof.
  intros [Hnd H]. destruct (post_tasks_tasks sv body) as (HT & Hid & HU).
  unfold tasks_ok. rewrite HT, HU. split.
  - apply map_set_nodup; [apply Nat.eqb_eq | exact Hnd].
  - apply map_set_forall; [cbn; split; [exact Hid | lia]|].
    eapply Forall_impl; [|exact H]. cbn. intros kt [H1 H2]. split; [exact H1 | lia].
Qed.

Lemma on_agent_task_complete_tasks sv data :
  Server.uuids (Server.on_agent_task_complete sv data) = Server.uuids sv /\
  (Server.tasks (Server.on_agent_task_complete sv data) = Server.tasks sv \/
   exists task,
     JS.map_get Nat.eqb (Server.cd_taskId data) (Server.tasks sv) = Some task /\
     Server.task_assignedAgent task <> None /\
     Server.tasks (Server.on_agent_task_complete sv data)
     = JS.map_set Nat.eqb (Server.cd_taskId data)
         (Server.set_task_outcome task (reported_success data) (Server.cd_result data))
         (Server.tasks sv)).
Proof.
  unfold Server.on_agent_task_complete.
  destruct (JS.map_get Nat.eqb _ _) as [task|] eqn:Et; [|split; [reflexivity | now left]].
  destruct (Server.task_assignedAgent task) as [assigned|] eqn:Ea;
    [|split; [reflexivity | now left]].
  destruct (String.eqb assigned ""); [split; [reflexivity | now left]|].
  destruct (JS.map_get String.eqb assigned (Server.agents sv)) as [agent|];
    [|split; [reflexivity | now left]].
  fold (reported_success data).
  split; [now destruct (reported_success data)|].
  right. exists task. split; [reflexivity|]. split; [congruence|].
  now destruct (reported_success data).
Qed.

Lemma on_agent_task_complete_tasks_ok sv data :
  tasks_ok sv -> tasks_ok (Server.on_agent_task_complete sv data).
Proof.
  intro H. destruct (on_agent_task_complete_tasks sv data) as [HU [HT|(task & Hg & _ & HT)]];
    unfold tasks_ok; rewrite HT, HU; [exact H|].
  destruct (@tasks_ok_get _ _ _ H Hg) as [Hid Hlt]. destruct H as [Hnd H].
  split.
  - apply map_set_nodup; [apply Nat.eqb_eq | exact Hnd].
  - apply map_set_forall; [now split | exact H].
Qed.

Lemma step_tasks_ok w e :
  tasks_ok (Sockets.server w) -> tasks_ok (Sockets.server (Sockets.step w e)).
Proof.
  intro H. destruct e; cbn [Sockets.step].
  - exact H.
  - exact H.
  - destruct H as [Hnd H]. split; [exact Hnd|]. exact H.
  - now apply on_agent_task_complete_tasks_ok.
  - unfold Sockets.on_agent_message.
    destruct (Sockets.am_targetAgent data) as [t|]; [|exact H].
    destruct (String.eqb t ""); [exact H|].
    cbn [Server.agents Server.set_metrics].
    destruct (JS.map_get String.eqb t (Server.agents (Sockets.server w))); exact H.
  - pose proof (on_workflow_execute_store (Sockets.server w) sock wd) as Hs.
    destruct (Server.on_workflow_execute (Sockets.server w) sock wd) as [sv1 r].
    cbn [fst Sockets.server] in *. eapply same_store_tasks_ok; eassumption.
  - pose proof (each_run_store (Sockets.hear sock taskId pl)
                  (hear_store sock taskId pl) (Sockets.runs w) (Sockets.server w)) as Hs.
    destruct (Sockets.each_run _ _ _) as [sv1 rs].
    cbn [fst Sockets.server] in *. eapply same_store_tasks_ok; eassumption.
  - destruct (on_disconnect_agents (Sockets.server w) sock) as (_ & _ & HT & HU).
    unfold tasks_ok. cbn [Sockets.server]. now rewrite HT, HU.
  - now apply post_tasks_tasks_ok.
  - pose proof (each_run_store (fun st => Server.step st (Server.TimerFires taskId))
                  (fun st => attempt_step_store st taskId)
                  (Sockets.runs w) (Sockets.server w)) as Hs.
    destruct (Sockets.each_run _ _ _) as [sv1 rs].
    cbn [fst Sockets.server] in *. eapply same_store_tasks_ok; eassumption.
  - exact H.
Qed.

Lemma run_events_tasks_ok evs : forall w,
  tasks_ok (Sockets.server w) ->
  tasks_ok (Sockets.server (Sockets.run_events w evs)).
Proof.
  unfold Sockets.run_events.
  induction evs as [|e evs IH]; intros w H; [exact H|].
  cbn [fold_left]. apply IH. now apply step_tasks_ok.
Qed.

Lemma initial_tasks_ok : tasks_ok (Sockets.server Sockets.initial).
Proof. split; cbn; constructor. Qed.

(** What a step of the server does to the entry of a task other than the
    ones it names. *)
Lemma step_keeps_task w e tid t :
  tasks_ok (Sockets.server w) ->
  JS.map_get Nat.eqb tid (Server.tasks (Sockets.server w)) = Some t ->
  (forall sock data, e = Sockets.AgentTaskComplete sock data ->
                     Server.on_agent_task_complete (Sockets.server w) data
                     = Sockets.server w \/ Server.cd_taskId data <> tid) ->
  JS.map_get Nat.eqb tid (Server.tasks (Sockets.server (Sockets.step w e))) = Some t.
Proof.
  intros Hok Hg He. destruct e; cbn [Sockets.step].
  - exact Hg.
  - exact Hg.
  - exact Hg.
  - cbn [Sockets.server]. destruct (He sock data eq_refl) as [Hsame|Hne]; [now rewrite Hsame|].
    destruct (on_agent_task_complete_tasks (Sockets.server w) data)
      as [_ [HT|(task & _ & _ & HT)]]; rewrite HT; [exact Hg|].
    rewrite (@map_get_set_other _ _ _ Nat.eqb_eq); [exact Hg | congruence].
  - unfold Sockets.on_agent_message.
    destruct (Sockets.am_targetAgent data) as [ta|]; [|exact Hg].
    destruct (String.eqb ta ""); [exact Hg|].
    cbn [Server.agents Server.set_metrics].
    destruct (JS.map_get String.eqb ta (Server.agents (Sockets.server w))); exact Hg.
  - pose proof (on_workflow_execute_store (Sockets.server w) sock wd) as Hs.
    destruct (Server.on_workflow_execute (Sockets.server w) sock wd) as [sv1 r].
    cbn [fst Sockets.server] in *. destruct Hs as (_ & T & _). now rewrite T.
  - pose proof (each_run_store (Sockets.hear sock taskId pl)
                  (hear_store sock taskId pl) (Sockets.runs w) (Sockets.server w)) as Hs.
    destruct (Sockets.each_run _ _ _) as [sv1 rs].
    cbn [fst Sockets.server] in *. destruct Hs as (_ & T & _). now rewrite T.
  - destruct (on_disconnect_agents (Sockets.server w) sock) as (_ & _ & HT & _).
    cbn [Sockets.server]. now rewrite HT.
  - destruct (post_tasks_tasks (Sockets.server w) body) as (HT & _ & _).
    cbn [Sockets.server]. rewrite HT. rewrite (@map_get_set_other _ _ _ Nat.eqb_eq); [exact Hg|].
    destruct (@tasks_ok_get _ _ _ Hok Hg) as [_ Hlt]. lia.
  - pose proof (each_run_store (fun st => Server.step st (Server.TimerFires taskId))
                  (fun st => attempt_step_store st taskId)
                  (Sockets.runs w) (Sockets.server w)) as Hs.
    destruct (Sockets.each_run _ _ _) as [sv1 rs].
    cbn [fst Sockets.server] in *. destruct Hs as (_ & T & _). now rewrite T.
  - exact Hg.
Qed.

Lemma unassigned_report_ignored sv data t :
  JS.map_get Nat.eqb (Server.cd_taskId data) (Server.tasks sv) = Some t ->
  Server.task_assignedAgent t = None ->
  Server.on_agent_task_complete sv data = sv.
Proof.
  intros Hg Ha. unfold Server.on_agent_task_complete. now rewrite Hg, Ha.
Qed.

(** X4 A task that [POST /tasks] could not assign is never assigned: no
    handler looks at the stored tasks when an agent registers, and a
    completion report for a task without agent is ignored.  Whatever the
    clients send afterwards, [GET /tasks] shows the task as it was stored,
    pending and without agent. *)
Theorem pending_task_is_never_assigned
    (before after : list Sockets.Event) (tid : nat) (t : Server.Task) :
  let w := Sockets.run_events Sockets.initial before in
  JS.map_get Nat.eqb tid (Server.tasks (Sockets.server w)) = Some t ->
  Server.task_assignedAgent t = None ->
  let w' := Sockets.run_events w after in
  JS.map_get Nat.eqb tid (Server.tasks (Sockets.server w')) = Some t /\
  In t (fst (Sockets.get_tasks (Sockets.server w'))).
Proof.
  cbv zeta. intros Hg Ha.
  assert (H : JS.map_get Nat.eqb tid
                (Server.tasks (Sockets.server
                   (Sockets.run_events (Sockets.run_events Sockets.initial before) after)))
              = Some t).
  { pose proof (run_events_tasks_ok before _ initial_tasks_ok) as Hok.
    revert Hok Hg. generalize (Sockets.run_events Sockets.initial before).
    unfold Sockets.run_events.
    induction after as [|e evs IH]; intros w Hok Hg; [exact Hg|].
    cbn [fold_left]. apply IH; [now apply step_tasks_ok|].
    apply step_keeps_task; trivial.
    intros sock data _.
    destruct (Nat.eq_dec (Server.cd_taskId data) tid) as [E|E]; [left | now right].
    apply (@unassigned_report_ignored _ _ t); [now rewrite E | exact Ha]. }
  split; [exact H|].
  apply (@map_get_in _ _ _ Nat.eqb_eq) in H. unfold Sockets.get_tasks, JS.map_values.
  cbn [fst]. change t with (snd (tid, t)). now apply in_map.
Qed.

Lemma pending_task_is_never_assigned_witness :
  exists t,
    JS.map_get Nat.eqb 0%nat
      (Server.tasks
         (Sockets.server
            (Sockets.run_events
               (Sockets.run_events Sockets.initial Examples.posted_too_early)
               Examples.then_an_agent_comes)))
    = Some t /\
    Server.task_status t = "pending" /\ Server.task_assignedAgent t = None.
Proof.
  eexists. split; [|split].
  - apply (@pending_task_is_never_assigned Examples.posted_too_early
             Examples.then_an_agent_comes 0%nat);
      [vm_compute; reflexivity | reflexivity].
  - reflexivity.
  - reflexivity.
Defined.

Lemma filter_keys_absent (K V : Type) (g : K * V -> bool) (m : list (K * V)) k :
  ~ In k (JS.map_keys m) -> ~ In k (JS.map_keys (filter g m)).
Proof.
  unfold JS.map_keys. intros H Hin. apply H.
  apply in_map_iff in Hin. destruct Hin as (kv & Hk & Hin).
  apply filter_In in Hin. apply in_map_iff. exists kv. tauto.
Qed.

(** An id that is not registered stays so until an agent registers
    under it. *)
Lemma step_keeps_absent w e a :
  JS.map_get String.eqb a (Server.agents (Sockets.server w)) = None ->
  (forall sock caps, e <> Sockets.AgentRegister sock a caps) ->
  JS.map_get String.eqb a (Server.agents (Sockets.server (Sockets.step w e))) = None.
Proof.
  intros Hg He. destruct e; cbn [Sockets.step].
  - exact Hg.
  - exact Hg.
  - cbn [Sockets.server]. unfold Server.on_agent_register.
    cbn [Server.agents Server.emit Server.set_metrics Server.set_agents].
    rewrite (@map_get_set_other _ _ _ String.eqb_eq); [exact Hg|].
    intros ->. now apply (He sock caps).
  - cbn [Sockets.server]. unfold Server.on_agent_task_complete.
    destruct (JS.map_get Nat.eqb _ _) as [task|]; [|exact Hg].
    destruct (Server.task_assignedAgent task) as [assigned|]; [|exact Hg].
    destruct (String.eqb assigned ""); [exact Hg|].
    destruct (JS.map_get String.eqb assigned (Server.agents (Sockets.server w)))
      as [agent|] eqn:E; [|exact Hg].
    assert (Hne : a <> assigned) by congruence.
    destruct (match Server.cd_success data with Some b => b | None => true end);
      cbn [Server.agents Server.emit Server.set_metrics Server.set_agents Server.set_tasks];
      now rewrite (@map_get_set_other _ _ _ String.eqb_eq).
  - unfold Sockets.on_agent_message.
    destruct (Sockets.am_targetAgent data) as [ta|]; [|exact Hg].
    destruct (String.eqb ta ""); [exact Hg|].
    cbn [Server.agents Server.set_metrics].
    destruct (JS.map_get String.eqb ta (Server.agents (Sockets.server w))); exact Hg.
  - pose proof (on_workflow_execute_store (Sockets.server w) sock wd) as Hs.
    destruct (Server.on_workflow_execute (Sockets.server w) sock wd) as [sv1 r].
    cbn [fst Sockets.server] in *. destruct Hs as (A & _). now rewrite A.
  - pose proof (each_run_store (Sockets.hear sock taskId pl)
                  (hear_store sock taskId pl) (Sockets.runs w) (Sockets.server w)) as Hs.
    destruct (Sockets.each_run _ _ _) as [sv1 rs].
    cbn [fst Sockets.server] in *. destruct Hs as (A & _). now rewrite A.
  - destruct (on_disconnect_agents (Sockets.server w) sock) as (HA & _).
    cbn [Sockets.server]. rewrite HA.
    apply (@map_get_none _ _ _ String.eqb_eq), filter_keys_absent.
    now apply (@map_get_none _ _ _ String.eqb_eq).
  - destruct (post_tasks_registry (Sockets.server w) body) as [A _].
    cbn [Sockets.server]. now rewrite A.
  - pose proof (each_run_store (fun st => Server.step st (Server.TimerFires taskId))
                  (fun st => attempt_step_store st taskId)
                  (Sockets.runs w) (Sockets.server w)) as Hs.
    destruct (Sockets.each_run _ _ _) as [sv1 rs].
    cbn [fst Sockets.server] in *. destruct Hs as (A & _). now rewrite A.
  - exact Hg.
Qed.

Lemma departed_report_ignored sv data t a :
  JS.map_get Nat.eqb (Server.cd_taskId data) (Server.tasks sv) = Some t ->
  Server.task_assignedAgent t = Some a ->
  JS.map_get String.eqb a (Server.agents sv) = None ->
  Server.on_agent_task_complete sv data = sv.
Proof.
  intros Hg Ha Hn. unfold Server.on_agent_task_complete. rewrite Hg, Ha, Hn.
  now destruct (String.eqb a "").
Qed.

(** X5 A completion report for a task whose agent is no longer in the
    registry (its socket has disconnected) is ignored: as long as no agent
    registers under that id again, whatever the clients send, the task
    stays as it is, 'assigned' if it was. *)
Theorem task_of_a_departed_agent_stays_as_it_is
    (before after : list Sockets.Event) (tid : nat) (t : Server.Task) (a : string) :
  let w := Sockets.run_events Sockets.initial before in
  JS.map_get Nat.eqb tid (Server.tasks (Sockets.server w)) = Some t ->
  Server.task_assignedAgent t = Some a ->
  JS.map_get String.eqb a (Server.agents (Sockets.server w)) = None ->
  (forall sock caps, ~ In (Sockets.AgentRegister sock a caps) after) ->
  let w' := Sockets.run_events w after in
  JS.map_get Nat.eqb tid (Server.tasks (Sockets.server w')) = Some t /\
  JS.map_get String.eqb a (Server.agents (Sockets.server w')) = None.
Proof.
  cbv zeta. intros Hg Ha Hn Hreg.
  pose proof (run_events_tasks_ok before _ initial_tasks_ok) as Hok.
  revert Hok Hg Hn. generalize (Sockets.run_events Sockets.initial before).
  unfold Sockets.run_events.
  induction after as [|e evs IH]; intros w Hok Hg Hn; [now split|].
  cbn [fold_left]. apply IH.
  - intros sock caps Hin. apply (Hreg sock caps). now right.
  - now apply step_tasks_ok.
  - apply step_keeps_task; trivial.
    intros sock data _.
    destruct (Nat.eq_dec (Server.cd_taskId data) tid) as [E|E]; [left | now right].
    apply (@departed_report_ignored _ _ t a); [now rewrite E | exact Ha | exact Hn].
  - apply step_keeps_absent; [exact Hn|].
    intros sock caps ->. apply (Hreg sock caps). now left.
Qed.

Lemma report_counted sv data task a agent :
  JS.map_get Nat.eqb (Server.cd_taskId data) (Server.tasks sv) = Some task ->
  Server.task_assignedAgent task = Some a -> a <> "" ->
  JS.map_get String.eqb a (Server.agents sv) = Some agent ->
  let sv' := Server.on_agent_task_complete sv data in
  JS.map_get String.eqb a (Server.agents sv')
  = Some (Server.updatePerformance agent (Server.cd_responseTime data)
            (reported_success data)) /\
  JS.map_get Nat.eqb (Server.cd_taskId data) (Server.tasks sv')
  = Some (Server.set_task_outcome task (reported_success data) (Server.cd_result data)) /\
  Server.completedTasks (Server.metrics sv')
  = Server.completedTasks (Server.metrics sv)
    + (if reported_success data then 1 else 0) /\
  Server.outbox sv'
  = Server.outbox sv
    ++ [Server.EmitTaskCompleted (Server.cd_taskId data) (Server.id agent)
          (reported_success data)].
Proof.
  intros Hg Ha Hne Hag. cbv zeta. unfold Server.on_agent_task_complete.
  rewrite Hg, Ha, Hag.
  destruct (String.eqb a "") eqn:E; [apply String.eqb_eq in E; contradiction|].
  fold (reported_success data).
  destruct (reported_success data); cbn; repeat split;
    try (apply map_get_set_same; first [apply String.eqb_refl | apply Nat.eqb_refl]);
    lia.
Qed.

(** X6 The handler of [agent:task-complete] does not look at the status of
    the task: every report for a task that is assigned to a registered
    agent is counted, the first as any later one.  After [n] reports for
    the same task, the agent has [n] more attempts and as many more
    completed tasks as the reports say, [metrics.completedTasks] has grown
    as much, and [task:completed] was broadcast [n] times. *)
Theorem every_completion_report_is_counted
    (sv : Server.ServerState) (tid : nat) (task : Server.Task) (a : string)
    (agent : Server.OrchestrationAgent) (reports : list Server.CompletionData) :
  JS.map_get Nat.eqb tid (Server.tasks sv) = Some task ->
  Server.task_assignedAgent task = Some a -> a <> "" ->
  JS.map_get String.eqb a (Server.agents sv) = Some agent ->
  Forall (fun d => Server.cd_taskId d = tid) reports ->
  let sv' := fold_left Server.on_agent_task_complete reports sv in
  let successes := Z.of_nat (List.length (filter reported_success reports)) in
  exists agent' task',
    JS.map_get String.eqb a (Server.agents sv') = Some agent' /\
    Server.totalTasks (Server.performance agent')
    = Server.totalTasks (Server.performance agent) + Z.of_nat (List.length reports) /\
    Server.tasksCompleted agent' = Server.tasksCompleted agent + successes /\
    Server.completedTasks (Server.metrics sv')
    = Server.completedTasks (Server.metrics sv) + successes /\
    JS.map_get Nat.eqb tid (Server.tasks sv') = Some task' /\
    Server.task_assignedAgent task' = Some a /\
    List.length (filter is_task_completed (Server.outbox sv'))
    = (List.length (filter is_task_completed (Server.outbox sv))
       + List.length reports)%nat.
Proof.
  intros Hg Ha Hne Hag Hall. cbv zeta.
  revert sv task agent Hg Ha Hag.
  induction Hall as [|d reports Hd Hall IH]; intros sv task agent Hg Ha Hag.
  - exists agent, task. cbn. repeat split; trivial; lia.
  - cbn [fold_left]. subst tid.
    destruct (report_counted sv d Hg Ha Hne Hag) as (H1 & H2 & H3 & H4).
    destruct (IH _ _ _ H2 Ha H1) as (agent' & task' & I1 & I2 & I3 & I4 & I5 & I6 & I7).
    exists agent', task'.
    split; [exact I1|]. split.
    { rewrite I2. cbn [Server.updatePerformance Server.performance Server.totalTasks].
      cbn [List.length]. lia. }
    split.
    { rewrite I3. cbn [filter].
      destruct (reported_success d);
        cbn [Server.updatePerformance Server.tasksCompleted List.length]; lia. }
    split.
    { rewrite I4, H3. cbn [filter].
      destruct (reported_success d); cbn [List.length]; lia. }
    split; [exact I5|]. split; [exact I6|].
    rewrite I7, H4, filter_app, length_app. cbn. lia.
Qed.

Lemma map_set_fresh (K V : Type) (keq : K -> K -> bool) k (v : V) m :
  JS.map_get keq k m = None -> JS.map_set keq k v m = m ++ [(k, v)].
Proof.
  induction m as [|[k0 v0] m IH]; cbn; [reflexivity|].
  destruct (keq k k0); [discriminate|]. intro H. now rewrite IH.
Qed.

Lemma tasks_ok_fresh sv :
  tasks_ok sv -> JS.map_get Nat.eqb (Server.uuids sv) (Server.tasks sv) = None.
Proof.
  intro H. destruct (JS.map_get Nat.eqb (Server.uuids sv) (Server.tasks sv)) as [t|] eqn:E;
    [|reflexivity].
  destruct (@tasks_ok_get _ _ _ H E). lia.
Qed.

(** X7 [POST /tasks], in any state the server can reach.  The answer is
    201 with the task, which is stored under a new id: [GET /tasks] lists
    the former tasks and then this one.  When [findBestAgent] finds an
    agent, the task is 'assigned' to it and [task:assigned] goes to the
    socket of that agent and to nobody else; the agent is registered,
    active, advertises the capability and no such agent has a higher
    success rate.  Otherwise the task is 'pending' and nothing is sent. *)
Theorem post_tasks_stores_and_assigns
    (evs : list Sockets.Event) (body : Server.TaskRequest) :
  let sv := Sockets.server (Sockets.run_events Sockets.initial evs) in
  let sv' := fst (Server.post_tasks sv body) in
  let task := snd (snd (Server.post_tasks sv body)) in
  fst (snd (Server.post_tasks sv body)) = 201 /\
  Sockets.get_tasks sv'
  = (fst (Sockets.get_tasks sv) ++ [task], snd (Sockets.get_tasks sv) + 1) /\
  JS.map_get Nat.eqb (Server.task_id task) (Server.tasks sv') = Some task /\
  match Server.findBestAgent (Server.agents sv) (Server.req_capability body) with
  | Some best =>
      Server.task_status task = "assigned" /\
      Server.task_assignedAgent task = Some (Server.id best) /\
      Server.outbox sv'
      = Server.outbox sv
        ++ [Server.EmitTaskAssigned (Server.socketId best) (Server.task_id task)
              (Server.req_type body) (Server.req_capability body)
              (Server.req_data body) (Server.task_priority task)] /\
      JS.map_get String.eqb (Server.id best) (Server.agents sv) = Some best /\
      Server.canHandle best (Server.req_capability body) = true /\
      Server.status best = "active" /\
      (forall a, In a (JS.map_values (Server.agents sv)) ->
                 Server.canHandle a (Server.req_capability body) = true ->
                 Server.status a = "active" ->
                 (Server.successRate (Server.performance a)
                  <= Server.successRate (Server.performance best))%Q)
  | None =>
      Server.task_status task = "pending" /\
      Server.task_assignedAgent task = None /\
      Server.outbox sv' = Server.outbox sv
  end.
Proof.
  cbv zeta. set (sv := Sockets.server (Sockets.run_events Sockets.initial evs)).
  assert (Hok : tasks_ok sv) by apply run_events_tasks_ok, initial_tasks_ok.
  destruct (Server_activeAgents_registry evs) as [Hk _]. fold sv in Hk.
  destruct (post_tasks_tasks sv body) as (HT & Hid & _).
  split; [unfold Server.post_tasks; cbn [Server.uuidv4];
          now destruct (Server.findBestAgent _ _)|].
  split.
  { unfold Sockets.get_tasks. rewrite HT, (@map_set_fresh _ _ _ _ _ _ (tasks_ok_fresh Hok)).
    unfold JS.map_values. rewrite List.map_app, length_app. cbn [List.map snd fst List.length].
    f_equal. lia. }
  split.
  { rewrite HT, Hid. apply map_get_set_same, Nat.eqb_refl. }
  unfold Server.post_tasks. cbn [Server.uuidv4 Server.set_tasks Server.agents].
  destruct (Server.findBestAgent (Server.agents sv) (Server.req_capability body))
    as [best|] eqn:Eb; [|cbn; now repeat split].
  destruct (Server_findBestAgent_some _ _ Eb) as (Hin & Hc & Hs & Hmax).
  cbn. repeat split; trivial.
  unfold JS.map_values in Hin. apply in_map_iff in Hin.
  destruct Hin as ([k a] & Ha & Hin). cbn [snd] in Ha. subst a.
  destruct Hk as [Hnd Hid'].
  assert (Hkey : Server.id best = k).
  { rewrite Forall_forall in Hid'. apply (Hid' (k, best) Hin). }
  rewrite Hkey. now apply (@in_map_get _ _ _ String.eqb_eq).
Qed.

(* ================================================================== *)
(** * Messages between agents *)

(** X8 [agent:message] with a [targetAgent]: once an agent has registered
    under that id, the message goes to the socket of that registration, as
    one [agent:message], and to nobody else; once that socket has
    disconnected, the message is dropped and nobody is told.  In both cases
    the message is counted in [metrics.messagesProcessed]. *)
Theorem agent_message_goes_to_the_registered_socket
    (sv : Server.ServerState) (sock sender agentId : string) (caps : list string)
    (data : Sockets.MessageData) :
  Sockets.am_targetAgent data = Some agentId -> agentId <> "" ->
  NoDup (JS.map_keys (Server.agents sv)) ->
  let registered := Server.on_agent_register sv sock agentId caps in
  let gone := Server.on_disconnect registered sock in
  snd (Sockets.on_agent_message registered sender data)
  = [Sockets.SendAgentMessage sock data] /\
  snd (Sockets.on_agent_message gone sender data) = [] /\
  Server.messagesProcessed
    (Server.metrics (fst (Sockets.on_agent_message registered sender data)))
  = Server.messagesProcessed (Server.metrics sv) + 1 /\
  Server.messagesProcessed
    (Server.metrics (fst (Sockets.on_agent_message gone sender data)))
  = Server.messagesProcessed (Server.metrics sv) + 1.
Proof.
  intros Ht Hne Hnd. cbv zeta.
  assert (Hempty : String.eqb agentId "" = false).
  { destruct (String.eqb agentId "") eqn:E; [|reflexivity].
    apply String.eqb_eq in E. contradiction. }
  assert (Hget : JS.map_get String.eqb agentId
                   (Server.agents (Server.on_agent_register sv sock agentId caps))
                 = Some (Server.newAgent agentId caps sock)).
  { unfold Server.on_agent_register.
    cbn [Server.agents Server.emit Server.set_metrics Server.set_agents].
    apply map_get_set_same, String.eqb_refl. }
  assert (Hnd' : NoDup (JS.map_keys
                   (Server.agents (Server.on_agent_register sv sock agentId caps)))).
  { unfold Server.on_agent_register.
    cbn [Server.agents Server.emit Server.set_metrics Server.set_agents].
    apply map_set_nodup; [apply String.eqb_eq | exact Hnd]. }
  destruct (on_disconnect_agents (Server.on_agent_register sv sock agentId caps) sock)
    as (HA & HM & _).
  assert (Hgone : JS.map_get String.eqb agentId
                    (Server.agents
                       (Server.on_disconnect
                          (Server.on_agent_register sv sock agentId caps) sock))
                  = None).
  { rewrite HA. apply (@map_get_none _ _ _ String.eqb_eq). intro Hin.
    unfold JS.map_keys in Hin. apply in_map_iff in Hin.
    destruct Hin as ([k a] & Hk & Hin). cbn [fst] in Hk. subst k.
    apply filter_In in Hin. destruct Hin as [Hin Hs]. cbn [snd] in Hs.
    apply (@in_map_get _ _ _ String.eqb_eq _ _ _ Hnd') in Hin.
    rewrite Hget in Hin. injection Hin as <-.
    cbn in Hs. now rewrite String.eqb_refl in Hs. }
  unfold Sockets.on_agent_message. rewrite Ht, Hempty.
  cbn [Server.agents Server.set_metrics]. rewrite Hget, Hgone.
  cbn [snd fst Server.metrics Server.set_metrics Server.messagesProcessed].
  rewrite HM. repeat split.
Qed.

(* ================================================================== *)
(** * The attempts of the workflows in progress *)

Section PromiseInvariant.
Variable Q : Server.Promise -> Prop.
Hypothesis Hnew : forall sv r it, Q (snd (Server.executeWorkflowTask sv r it)).

Lemma executeWorkflowTask_promises sv r it :
  Forall Q (Server.promises r) ->
  Forall Q (Server.promises (snd (fst (Server.executeWorkflowTask sv r it)))).
Proof.
  intro H. destruct (executeWorkflowTask_run sv r it) as (Hp & _).
  rewrite Hp. apply Forall_app. split; [exact H|]. constructor; [apply Hnew | constructor].
Qed.

Lemma sequential_loop_promises todo : forall sv r,
  Forall Q (Server.promises r) ->
  Forall Q (Server.promises (snd (Server.sequential_loop sv r todo))).
Proof.
  induction todo as [|it rest IH]; intros sv r H; [exact H|].
  cbn [Server.sequential_loop].
  pose proof (@executeWorkflowTask_promises sv r it H) as H1.
  destruct (Server.executeWorkflowTask sv r it) as [[sv1 r1] p]. cbn [fst snd] in H1.
  destruct (Server.p_value p); [now apply IH | exact H1].
Qed.

Lemma dispatch_all_promises todo : forall sv r,
  Forall Q (Server.promises r) ->
  Forall Q (Server.promises (snd (fst (Server.dispatch_all sv r todo)))).
Proof.
  induction todo as [|it rest IH]; intros sv r H; [exact H|].
  cbn [Server.dispatch_all].
  pose proof (@executeWorkflowTask_promises sv r it H) as H1.
  destruct (Server.executeWorkflowTask sv r it) as [[sv1 r1] p]. cbn [fst snd] in H1.
  specialize (IH sv1 r1 H1).
  destruct (Server.dispatch_all sv1 r1 rest) as [[sv2 r2] pids]. exact IH.
Qed.

Lemma resume_promises sv r :
  Forall Q (Server.promises r) ->
  Forall Q (Server.promises (snd (Server.resume sv r))).
Proof.
  intro H. unfold Server.resume.
  destruct (Server.cont r) as [pids sequential|pid rest|]; [| |exact H].
  - destruct (forallb _ _); [now apply sequential_loop_promises | exact H].
  - destruct (Server.promise_value r pid);
      [now apply sequential_loop_promises | exact H].
Qed.

Lemma on_workflow_execute_promises sv sock wd :
  Forall Q (Server.promises (snd (Server.on_workflow_execute sv sock wd))).
Proof.
  unfold Server.on_workflow_execute. cbn [Server.uuidv4].
  set (sv1 := Server.mkServer _ _ _ _ _ _).
  set (r := Server.mkRun _ _ _ _ _).
  assert (H0 : Forall Q (Server.promises r)) by constructor.
  destruct (parallelTasks (Server.wd_tasks wd)) as [|it par].
  - now apply sequential_loop_promises.
  - pose proof (@dispatch_all_promises (it :: par) sv1 r H0) as H2.
    destruct (Server.dispatch_all sv1 r (it :: par)) as [[sv2 r2] pids].
    cbn [fst snd] in H2. now apply resume_promises.
Qed.

Lemma deliver_promises f r :
  (forall p, Q p -> Q (fst (f p))) ->
  Forall Q (Server.promises r) -> Forall Q (Server.promises (Server.deliver f r)).
Proof.
  intros Hf H. unfold Server.deliver. cbn [Server.promises Server.set_promises].
  apply Forall_forall. intros p' Hin. apply in_map_iff in Hin.
  destruct Hin as (p & <- & Hp). rewrite Forall_forall in H. apply Hf, H, Hp.
Qed.

Hypothesis Htimer : forall clock taskId p,
  Q p -> Q (fst (Server.timer_callback clock taskId p)).

Lemma timer_step_promises st taskId :
  Forall Q (Server.promises (snd st)) ->
  Forall Q (Server.promises (snd (Server.step st (Server.TimerFires taskId)))).
Proof.
  destruct st as [sv r]. intro H. cbn [Server.step snd].
  apply resume_promises, deliver_promises; [apply Htimer | exact H].
Qed.

Lemma signal_step_promises st taskId pl :
  (forall p, Q p -> Q (fst (Server.listener_callback (Server.now (fst st)) taskId pl p))) ->
  Forall Q (Server.promises (snd st)) ->
  Forall Q (Server.promises (snd (Server.step st (Server.TaskCompleteSignal taskId pl)))).
Proof.
  destruct st as [sv r]. intros Hl H. cbn [Server.step snd].
  apply resume_promises, deliver_promises; [exact Hl | exact H].
Qed.

Lemma each_run_promises f :
  (forall st, Forall Q (Server.promises (snd st)) ->
              Forall Q (Server.promises (snd (f st)))) ->
  forall rs sv,
    Forall (fun r => Forall Q (Server.promises r)) rs ->
    Forall (fun r => Forall Q (Server.promises r)) (snd (Sockets.each_run f sv rs)).
Proof.
  intros Hf. induction rs as [|r rs IH]; intros sv H; [constructor|].
  cbn [Sockets.each_run]. inversion H as [|? ? Hr Hrs]; subst.
  pose proof (Hf (sv, r) Hr) as H1. destruct (f (sv, r)) as [sv1 r1]. cbn [snd] in H1.
  specialize (IH sv1 Hrs). destruct (Sockets.each_run f sv1 rs) as [sv2 rs2].
  cbn [snd] in *. now constructor.
Qed.

(** The steps of the server that run no listener of a completion. *)
Lemma step_promises w e :
  (forall sock taskId pl, e = Sockets.TaskComplete sock taskId pl ->
     forall sv r, In r (Sockets.runs w) ->
       Forall Q (Server.promises r) ->
       Forall Q (Server.promises (snd (Sockets.hear sock taskId pl (sv, r))))) ->
  Forall (fun r => Forall Q (Server.promises r)) (Sockets.runs w) ->
  Forall (fun r => Forall Q (Server.promises r)) (Sockets.runs (Sockets.step w e)).
Proof.
  intros He H. destruct e; cbn [Sockets.step]; try exact H.
  - destruct (Sockets.on_agent_message (Sockets.server w) sock data). exact H.
  - pose proof (on_workflow_execute_promises (Sockets.server w) sock wd) as H1.
    destruct (Server.on_workflow_execute (Sockets.server w) sock wd) as [sv1 r].
    cbn [Sockets.runs snd] in *. apply Forall_app. split; [exact H|].
    now constructor.
  - specialize (He sock taskId pl eq_refl).
    assert (Hgen : forall rs sv,
               (forall r, In r rs -> In r (Sockets.runs w)) ->
               Forall (fun r => Forall Q (Server.promises r)) rs ->
               Forall (fun r => Forall Q (Server.promises r))
                      (snd (Sockets.each_run (Sockets.hear sock taskId pl) sv rs))).
    { induction rs as [|r rs IH]; intros sv Hsub Hall; [constructor|].
      cbn [Sockets.each_run]. inversion Hall as [|? ? Hr Hrs]; subst.
      pose proof (He sv r (Hsub r (or_introl eq_refl)) Hr) as H1.
      destruct (Sockets.hear sock taskId pl (sv, r)) as [sv1 r1]. cbn [snd] in H1.
      assert (Hsub' : forall r', In r' rs -> In r' (Sockets.runs w))
        by (intros r' Hr'; apply Hsub; now right).
      specialize (IH sv1 Hsub' Hrs).
      destruct (Sockets.each_run (Sockets.hear sock taskId pl) sv1 rs) as [sv2 rs2].
      cbn [snd] in *. now constructor. }
    specialize (Hgen (Sockets.runs w) (Sockets.server w) (fun r Hr => Hr) H).
    destruct (Sockets.each_run _ _ _) as [sv1 rs]. exact Hgen.
  - pose proof (@each_run_promises _ (fun st => @timer_step_promises st taskId)
                  (Sockets.runs w) (Sockets.server w) H) as H1.
    destruct (Sockets.each_run _ _ _) as [sv1 rs]. exact H1.
Qed.

End PromiseInvariant.

Lemma executeWorkflowTask_lifecycle sv r it :
  lifecycle (snd (Server.executeWorkflowTask sv r it)).
Proof.
  destruct it as [i task]. unfold Server.executeWorkflowTask, lifecycle.
  destruct (Server.findBestAgent (Server.agents sv) (wt_capability task)); cbn;
    [now split | reflexivity].
Qed.

Lemma timer_callback_lifecycle clock taskId p :
  lifecycle p -> lifecycle (fst (Server.timer_callback clock taskId p)).
Proof.
  unfold lifecycle, Server.timer_callback, Server.resolve.
  destruct (Server.p_attempt p) as [a|] eqn:Ea; [|cbn; now rewrite Ea].
  destruct (Nat.eqb (Server.at_taskId a) taskId && Server.at_timer a) eqn:Eg;
    [|cbn; now rewrite Ea].
  cbn [Server.p_value Server.set_attempt].
  destruct (Server.p_value p) as [v|] eqn:Ev; cbn; rewrite ?Ev.
  - intros [Ht H]. split; [reflexivity|]. exact H.
  - intros [Ht Hl]. split; [reflexivity|]. left. eexists. reflexivity.
Qed.

Lemma listener_callback_lifecycle clock taskId pl p :
  lifecycle p -> lifecycle (fst (Server.listener_callback clock taskId pl p)).
Proof.
  unfold lifecycle, Server.listener_callback, Server.resolve.
  destruct (Server.p_attempt p) as [a|] eqn:Ea; [|cbn; now rewrite Ea].
  destruct (Nat.eqb (Server.at_taskId a) taskId && Server.at_listener a) eqn:Eg;
    [|cbn; now rewrite Ea].
  cbn [Server.p_value Server.set_attempt].
  destruct (Server.p_value p) as [v|] eqn:Ev; cbn; rewrite ?Ev.
  - intros [Ht H]. split; [reflexivity|].
    destruct H as [H|[Hl H]]; [now left | right; now split].
  - intros [Ht Hl]. split; [reflexivity|]. right. split; [reflexivity|].
    eexists. eexists. reflexivity.
Qed.

Lemma hear_lifecycle sock taskId pl st :
  Forall lifecycle (Server.promises (snd st)) ->
  Forall lifecycle (Server.promises (snd (Sockets.hear sock taskId pl st))).
Proof.
  intro H. unfold Sockets.hear. destruct (String.eqb sock _); [|exact H].
  apply signal_step_promises; trivial.
  - apply executeWorkflowTask_lifecycle.
  - intros p. apply listener_callback_lifecycle.
Qed.

Lemma run_events_lifecycle evs : forall w,
  Forall (fun r => Forall lifecycle (Server.promises r)) (Sockets.runs w) ->
  Forall (fun r => Forall lifecycle (Server.promises r))
         (Sockets.runs (Sockets.run_events w evs)).
Proof.
  unfold Sockets.run_events.
  induction evs as [|e evs IH]; intros w H; [exact H|].
  cbn [fold_left]. apply IH.
  apply step_promises; trivial.
  - apply executeWorkflowTask_lifecycle.
  - apply timer_callback_lifecycle.
  - intros sock taskId pl _ sv r _. apply (@hear_lifecycle sock taskId pl (sv, r)).
Qed.

(** X9 The attempts of all workflows, in any state the server can reach.
    The timer of an attempt is pending exactly as long as its promise is
    not settled: when a workflow returns, none of its timers is left.  The
    listener of a settled attempt is still registered only if the attempt
    ended as 'Task timeout'; an attempt that a completion has settled has
    left neither timer nor listener.  A promise without attempt is the
    failure 'No suitable agent available'. *)
Theorem attempt_timer_and_listener
    (evs : list Sockets.Event) (r : Server.Run) (p : Server.Promise) :
  In r (Sockets.runs (Sockets.run_events Sockets.initial evs)) ->
  In p (Server.promises r) ->
  match Server.p_attempt p with
  | Some a =>
      (Server.p_timer p = true <-> Server.p_value p = None) /\
      (Server.p_value p = None -> Server.p_listener p = true) /\
      (forall v, Server.p_value p = Some v -> Server.p_listener p = true ->
                 Server.r_error v = Some "Task timeout" /\
                 Server.r_success v = Some false) /\
      (forall v, Server.p_value p = Some v ->
                 Server.r_error v <> Some "Task timeout" ->
                 Server.p_timer p = false /\ Server.p_listener p = false)
  | None =>
      Server.p_value p = Some (Server.noAgentResult (Server.p_name p)) /\
      Server.p_timer p = false /\ Server.p_listener p = false
  end.
Proof.
  intros Hr Hp.
  assert (H : lifecycle p).
  { pose proof (run_events_lifecycle evs Sockets.initial (Forall_nil _)) as H.
    rewrite Forall_forall in H. specialize (H r Hr).
    rewrite Forall_forall in H. exact (H p Hp). }
  unfold lifecycle in H. unfold Server.p_timer, Server.p_listener.
  destruct (Server.p_attempt p) as [a|]; [|now repeat split].
  destruct (Server.p_value p) as [v|].
  - destruct H as [Ht H]. split; [split; congruence|].
    split; [discriminate|]. split.
    + intros v' [= <-] Hl. destruct H as [[d ->]|[Hl' _]]; [now split | congruence].
    + intros v' [= <-] Hne. split; [exact Ht|].
      destruct H as [[d ->]|[Hl' _]]; [now contradiction Hne | exact Hl'].
  - destruct H as [Ht Hl]. split; [split; congruence|].
    split; [trivial|]. split; discriminate.
Qed.

Lemma same_request_refl r : same_request r r.
Proof. unfold same_request. repeat split. Qed.

Lemma same_request_trans r1 r2 r3 :
  same_request r1 r2 -> same_request r2 r3 -> same_request r1 r3.
Proof.
  unfold same_request. intros (A1 & B1 & C1 & D1 & E1) (A2 & B2 & C2 & D2 & E2).
  repeat split; congruence.
Qed.

Lemma executeWorkflowTask_request sv r it :
  same_request r (snd (fst (Server.executeWorkflowTask sv r it))).
Proof.
  destruct it as [i task]. unfold Server.executeWorkflowTask.
  destruct (Server.findBestAgent (Server.agents sv) (wt_capability task));
    unfold same_request; now cbn.
Qed.

Lemma sequential_loop_request todo : forall sv r,
  same_request r (snd (Server.sequential_loop sv r todo)).
Proof.
  induction todo as [|it rest IH]; intros sv r; [unfold same_request; now cbn|].
  cbn [Server.sequential_loop].
  pose proof (executeWorkflowTask_request sv r it) as H.
  destruct (Server.executeWorkflowTask sv r it) as [[sv1 r1] p]. cbn [fst snd] in H.
  destruct (Server.p_value p) as [v|]; [|exact H].
  eapply same_request_trans; [exact H|].
  eapply same_request_trans; [|apply IH]. unfold same_request. now cbn.
Qed.

Lemma dispatch_all_request todo : forall sv r,
  same_request r (snd (fst (Server.dispatch_all sv r todo))).
Proof.
  induction todo as [|it rest IH]; intros sv r; [apply same_request_refl|].
  cbn [Server.dispatch_all].
  pose proof (executeWorkflowTask_request sv r it) as H.
  destruct (Server.executeWorkflowTask sv r it) as [[sv1 r1] p]. cbn [fst snd] in H.
  specialize (IH sv1 r1).
  destruct (Server.dispatch_all sv1 r1 rest) as [[sv2 r2] pids]. cbn [fst snd] in *.
  eapply same_request_trans; eassumption.
Qed.

Lemma resume_request sv r : same_request r (snd (Server.resume sv r)).
Proof.
  unfold Server.resume. destruct (Server.cont r) as [pids sequential|pid rest|].
  - destruct (forallb _ _); [|apply same_request_refl].
    eapply same_request_trans; [|apply sequential_loop_request].
    unfold same_request. now cbn.
  - destruct (Server.promise_value r pid); [|apply same_request_refl].
    eapply same_request_trans; [|apply sequential_loop_request].
    unfold same_request. now cbn.
  - apply same_request_refl.
Qed.

Lemma attempt_step_request st e :
  same_request (snd st) (snd (Server.step st e)).
Proof.
  destruct st as [sv r]. destruct e; cbn [Server.step snd];
    try apply same_request_refl;
    (eapply same_request_trans; [|apply resume_request]);
    unfold same_request; now cbn.
Qed.

Lemma hear_request sock taskId pl st :
  same_request (snd st) (snd (Sockets.hear sock taskId pl st)).
Proof.
  unfold Sockets.hear. destruct (String.eqb sock _);
    [apply attempt_step_request | apply same_request_refl].
Qed.

Lemma on_workflow_execute_request sv sock wd :
  let r := snd (Server.on_workflow_execute sv sock wd) in
  Server.requester r = sock /\
  Server.wf_id (Server.workflow r) = Server.uuids sv /\
  Server.wf_name (Server.workflow r) = Server.wd_name wd /\
  Server.wf_tasks (Server.workflow r) = Server.wd_tasks wd /\
  Server.wf_startTime (Server.workflow r) = Server.now sv.
Proof.
  cbv zeta. unfold Server.on_workflow_execute. cbn [Server.uuidv4].
  set (sv1 := Server.mkServer _ _ _ _ _ _).
  set (r := Server.mkRun _ _ _ _ _).
  assert (H : forall r', same_request r r' ->
    Server.requester r' = sock /\
    Server.wf_id (Server.workflow r') = Server.uuids sv /\
    Server.wf_name (Server.workflow r') = Server.wd_name wd /\
    Server.wf_tasks (Server.workflow r') = Server.wd_tasks wd /\
    Server.wf_startTime (Server.workflow r') = Server.now sv).
  { intros r' (A & B & C & D & E). rewrite A, B, C, D, E. now cbn. }
  destruct (parallelTasks (Server.wd_tasks wd)) as [|it par].
  - apply H, sequential_loop_request.
  - pose proof (dispatch_all_request (it :: par) sv1 r) as H2.
    destruct (Server.dispatch_all sv1 r (it :: par)) as [[sv2 r2] pids].
    cbn [fst snd] in H2. apply H.
    eapply same_request_trans; [exact H2|].
    eapply same_request_trans; [|apply resume_request].
    unfold same_request. now cbn.
Qed.

Lemma each_run_requesters (R : string -> Prop) f :
  (forall st, same_request (snd st) (snd (f st))) ->
  forall rs sv,
    Forall (fun r => R (Server.requester r)) rs ->
    Forall (fun r => R (Server.requester r)) (snd (Sockets.each_run f sv rs)).
Proof.
  intros Hf. induction rs as [|r rs IH]; intros sv H; [constructor|].
  cbn [Sockets.each_run]. inversion H as [|? ? Hr Hrs]; subst.
  pose proof (Hf (sv, r)) as H1. destruct (f (sv, r)) as [sv1 r1]. cbn [snd] in H1.
  specialize (IH sv1 Hrs). destruct (Sockets.each_run f sv1 rs) as [sv2 rs2].
  cbn [snd] in *. constructor; [|exact IH]. destruct H1 as [-> _]. exact Hr.
Qed.

(** The sockets of the workflows in progress are sockets that asked for
    one. *)
Lemma step_requesters (R : string -> Prop) w e :
  (forall sock wd, e = Sockets.WorkflowExecute sock wd -> R sock) ->
  Forall (fun r => R (Server.requester r)) (Sockets.runs w) ->
  Forall (fun r => R (Server.requester r)) (Sockets.runs (Sockets.step w e)).
Proof.
  intros He H. destruct e; cbn [Sockets.step]; try exact H.
  - destruct (Sockets.on_agent_message (Sockets.server w) sock data). exact H.
  - destruct (on_workflow_execute_request (Sockets.server w) sock wd) as [Hr _].
    destruct (Server.on_workflow_execute (Sockets.server w) sock wd) as [sv1 r].
    cbn [Sockets.runs snd] in *. apply Forall_app. split; [exact H|].
    constructor; [|constructor]. rewrite Hr. now apply (He sock wd).
  - pose proof (@each_run_requesters R _ (hear_request sock taskId pl)
                  (Sockets.runs w) (Sockets.server w) H) as H1.
    destruct (Sockets.each_run _ _ _) as [sv1 rs]. exact H1.
  - pose proof (@each_run_requesters R _
                  (fun st => attempt_step_request st (Server.TimerFires taskId))
                  (Sockets.runs w) (Sockets.server w) H) as H1.
    destruct (Sockets.each_run _ _ _) as [sv1 rs]. exact H1.
Qed.

Lemma executeWorkflowTask_not_completed sv r it :
  not_completed (snd (Server.executeWorkflowTask sv r it)).
Proof.
  destruct it as [i task]. unfold Server.executeWorkflowTask, not_completed.
  destruct (Server.findBestAgent (Server.agents sv) (wt_capability task)); cbn;
    [exact I | reflexivity].
Qed.

Lemma timer_callback_not_completed clock taskId p :
  not_completed p -> not_completed (fst (Server.timer_callback clock taskId p)).
Proof.
  unfold not_completed, Server.timer_callback, Server.resolve.
  destruct (Server.p_attempt p) as [a|] eqn:Ea; [|cbn; now rewrite Ea].
  destruct (Nat.eqb (Server.at_taskId a) taskId && Server.at_timer a) eqn:Eg;
    [|cbn; now rewrite Ea].
  cbn [Server.p_value Server.set_attempt].
  destruct (Server.p_value p) as [v|] eqn:Ev; cbn; rewrite ?Ev.
  - trivial.
  - intros _. eexists. reflexivity.
Qed.

Lemma run_events_not_completed (R : string -> Prop) evs : forall w,
  (forall sock wd, In (Sockets.WorkflowExecute sock wd) evs -> R sock) ->
  (forall sock taskId pl, In (Sockets.TaskComplete sock taskId pl) evs -> ~ R sock) ->
  Forall (fun r => R (Server.requester r)) (Sockets.runs w) ->
  Forall (fun r => Forall not_completed (Server.promises r)) (Sockets.runs w) ->
  Forall (fun r => Forall not_completed (Server.promises r))
         (Sockets.runs (Sockets.run_events w evs)).
Proof.
  unfold Sockets.run_events.
  induction evs as [|e evs IH]; intros w Hreq Hcomp HR H; [exact H|].
  cbn [fold_left]. apply IH.
  - intros sock wd Hin. apply (Hreq sock wd). now right.
  - intros sock taskId pl Hin. apply (Hcomp sock taskId pl). now right.
  - apply step_requesters; [|exact HR].
    intros sock wd ->. apply (Hreq sock wd). now left.
  - apply step_promises; trivial.
    + apply executeWorkflowTask_not_completed.
    + apply timer_callback_not_completed.
    + intros sock taskId pl -> sv r Hr Hp. unfold Sockets.hear. cbn [snd].
      destruct (String.eqb sock (Server.requester r)) eqn:E; [|exact Hp].
      apply String.eqb_eq in E. exfalso.
      apply (Hcomp sock taskId pl); [now left|].
      rewrite Forall_forall in HR. rewrite E. now apply HR.
Qed.

(** X10 The listener of an attempt is on the socket of the client that
    requested the workflow, so only a message on that socket can complete
    the attempt.  When no completion comes in on a socket that has
    requested a workflow (the agents of claude-subagent-swarm.js answer on
    their own sockets and request none), no task of any workflow succeeds:
    a task for which an agent was found ends as 'Task timeout', the others
    as 'No suitable agent available'. *)
Theorem only_the_requester_can_complete_a_task
    (evs : list Sockets.Event) (r : Server.Run) (p : Server.Promise)
    (v : Server.TaskResult) :
  (forall sock taskId pl wd,
     In (Sockets.TaskComplete sock taskId pl) evs ->
     ~ In (Sockets.WorkflowExecute sock wd) evs) ->
  In r (Sockets.runs (Sockets.run_events Sockets.initial evs)) ->
  In p (Server.promises r) ->
  Server.p_value p = Some v ->
  Server.r_success v = Some false /\
  Server.r_task v = Server.p_name p /\
  match Server.p_attempt p with
  | Some a => Server.r_error v = Some "Task timeout" /\
              Server.r_agent v = Some (Server.at_agent a)
  | None => Server.r_error v = Some "No suitable agent available"
  end.
Proof.
  intros Hsep Hr Hp Hv.
  assert (H : not_completed p).
  { pose proof (@run_events_not_completed
                  (fun s => exists wd, In (Sockets.WorkflowExecute s wd) evs)
                  evs Sockets.initial) as H.
    assert (H1 : Forall (fun r : Server.Run => Forall not_completed (Server.promises r))
                   (Sockets.runs (Sockets.run_events Sockets.initial evs))).
    { apply H.
      - intros sock wd Hin. now exists wd.
      - intros sock taskId pl Hin [wd Hwd]. exact (Hsep sock taskId pl wd Hin Hwd).
      - constructor.
      - constructor. }
    rewrite Forall_forall in H1. specialize (H1 r Hr).
    rewrite Forall_forall in H1. exact (H1 p Hp). }
  unfold not_completed in H. rewrite Hv in H.
  destruct (Server.p_attempt p) as [a|].
  - destruct H as [d ->]. now repeat split.
  - injection H as ->. now repeat split.
Qed.

(* ================================================================== *)
(** * Several workflows in progress *)

Lemma hear_inv sock taskId pl st :
  ServerInv.run_inv (Server.wf_tasks (Server.workflow (snd st))) (snd st) ->
  ServerInv.run_inv (Server.wf_tasks (Server.workflow (snd (Sockets.hear sock taskId pl st))))
                    (snd (Sockets.hear sock taskId pl st)).
Proof.
  intro H. destruct (hear_request sock taskId pl st) as (_ & _ & _ & HT & _).
  rewrite HT. unfold Sockets.hear. destruct (String.eqb sock _); [|exact H].
  now apply step_inv.
Qed.

Lemma timer_inv taskId st :
  ServerInv.run_inv (Server.wf_tasks (Server.workflow (snd st))) (snd st) ->
  ServerInv.run_inv
    (Server.wf_tasks (Server.workflow (snd (Server.step st (Server.TimerFires taskId)))))
    (snd (Server.step st (Server.TimerFires taskId))).
Proof.
  intro H.
  destruct (attempt_step_request st (Server.TimerFires taskId)) as (_ & _ & _ & HT & _).
  rewrite HT. now apply step_inv.
Qed.

Lemma each_run_forall (Q : Server.Run -> Prop) f :
  (forall st, Q (snd st) -> Q (snd (f st))) ->
  forall rs sv, Forall Q rs -> Forall Q (snd (Sockets.each_run f sv rs)).
Proof.
  intros Hf. induction rs as [|r rs IH]; intros sv H; [constructor|].
  cbn [Sockets.each_run]. inversion H as [|? ? Hr Hrs]; subst.
  pose proof (Hf (sv, r) Hr) as H1. destruct (f (sv, r)) as [sv1 r1]. cbn [snd] in H1.
  specialize (IH sv1 Hrs). destruct (Sockets.each_run f sv1 rs) as [sv2 rs2].
  cbn [snd] in *. now constructor.
Qed.

Lemma step_runs_inv w e :
  Forall (fun r => ServerInv.run_inv (Server.wf_tasks (Server.workflow r)) r)
         (Sockets.runs w) ->
  Forall (fun r => ServerInv.run_inv (Server.wf_tasks (Server.workflow r)) r)
         (Sockets.runs (Sockets.step w e)).
Proof.
  intro H. destruct e; cbn [Sockets.step]; try exact H.
  - destruct (Sockets.on_agent_message (Sockets.server w) sock data). exact H.
  - destruct (on_workflow_execute_request (Sockets.server w) sock wd)
      as (_ & _ & _ & HT & _).
    pose proof (@on_workflow_execute_inv (Server.wd_tasks wd) (Sockets.server w)
                  sock wd eq_refl) as Hi.
    destruct (Server.on_workflow_execute (Sockets.server w) sock wd) as [sv1 r].
    cbn [Sockets.runs snd] in *. apply Forall_app. split; [exact H|].
    constructor; [|constructor]. now rewrite HT.
  - pose proof (@each_run_forall
                  (fun r => ServerInv.run_inv (Server.wf_tasks (Server.workflow r)) r)
                  _ (hear_inv sock taskId pl) (Sockets.runs w) (Sockets.server w) H) as H1.
    destruct (Sockets.each_run _ _ _) as [sv1 rs]. exact H1.
  - pose proof (@each_run_forall
                  (fun r => ServerInv.run_inv (Server.wf_tasks (Server.workflow r)) r)
                  _ (timer_inv taskId) (Sockets.runs w) (Sockets.server w) H) as H1.
    destruct (Sockets.each_run _ _ _) as [sv1 rs]. exact H1.
Qed.

Lemma run_events_runs_inv evs : forall w,
  Forall (fun r => ServerInv.run_inv (Server.wf_tasks (Server.workflow r)) r)
         (Sockets.runs w) ->
  Forall (fun r => ServerInv.run_inv (Server.wf_tasks (Server.workflow r)) r)
         (Sockets.runs (Sockets.run_events w evs)).
Proof.
  unfold Sockets.run_events.
  induction evs as [|e evs IH]; intros w H; [exact H|].
  cbn [fold_left]. apply IH, step_runs_inv, H.
Qed.

Lemma values_of_length ps :
  Forall ServerInv.valued ps ->
  List.length (ServerInv.values_of ps) = List.length ps.
Proof.
  intro H. apply Server_values_of_valued in H.
  symmetry. eapply Forall2_length. exact H.
Qed.

(** X11 With any number of workflows in progress, whatever the order in
    which their timers fire and their messages arrive, every workflow
    keeps the schedule in two phases; one that has returned has the status
    'completed', a settled promise for every task and one result per
    task. *)
Theorem concurrent_workflows_keep_their_phases
    (evs : list Sockets.Event) (r : Server.Run) :
  In r (Sockets.runs (Sockets.run_events Sockets.initial evs)) ->
  let T := Server.wf_tasks (Server.workflow r) in
  phased_trace (List.map fst (parallelTasks T)) (List.map fst (sequentialTasks T))
    (Server.trace r) /\
  (Server.cont r = Server.Returned ->
   Server.wf_status (Server.workflow r) = "completed" /\
   List.length (Server.wf_results (Server.workflow r)) = List.length T /\
   List.length (Server.promises r) = List.length T /\
   Forall2 (fun p res => Server.p_value p = Some res)
     (Server.promises r) (Server.wf_results (Server.workflow r))).
Proof.
  intros Hr. cbv zeta.
  pose proof (run_events_runs_inv evs Sockets.initial (Forall_nil _)) as H.
  rewrite Forall_forall in H. specialize (H r Hr).
  split; [now apply Server_phased_trace|].
  intro Hc. unfold ServerInv.run_inv in H. rewrite Hc in H.
  destruct H as (tp & Hv & Hidx & Hres & Hst & _).
  assert (Hlen : List.length (Server.promises r)
                 = List.length (Server.wf_tasks (Server.workflow r))).
  { rewrite <- (length_map Server.p_index), Hidx, length_app, !length_map.
    apply phases_length. }
  split; [exact Hst|]. split; [|split; [exact Hlen|]].
  - now rewrite Hres, values_of_length.
  - rewrite Hres. now apply Server_values_of_valued.
Qed.

(* ================================================================== *)
(** * One [workflow:completed] for every workflow *)

Lemma quiet_refl sv : quiet sv sv.
Proof. exists []. now rewrite app_nil_r. Qed.

Lemma quiet_trans sv1 sv2 sv3 : quiet sv1 sv2 -> quiet sv2 sv3 -> quiet sv1 sv3.
Proof.
  intros (n1 & H1 & F1) (n2 & H2 & F2). exists (n1 ++ n2).
  rewrite H2, H1, app_assoc. split; [reflexivity | now apply Forall_app].
Qed.

Lemma quiet_filter sv sv' k :
  quiet sv sv' ->
  filter (completed_for k) (Server.outbox sv')
  = filter (completed_for k) (Server.outbox sv).
Proof.
  intros (new & -> & Hq). rewrite filter_app.
  rewrite (@filter_none _ (completed_for k) new), app_nil_r; [reflexivity|].
  intros e He. rewrite Forall_forall in Hq. specialize (Hq e He).
  now destruct e.
Qed.

Lemma filter_quiet k new :
  Forall (fun e => is_workflow_completed e = false) new ->
  filter (completed_for k) new = [].
Proof.
  intro Hq. apply filter_none. intros e He.
  rewrite Forall_forall in Hq. specialize (Hq e He). now destruct e.
Qed.

Lemma executeWorkflowTask_quiet sv r it :
  quiet sv (fst (fst (Server.executeWorkflowTask sv r it))) /\
  Server.cont (snd (fst (Server.executeWorkflowTask sv r it))) = Server.cont r.
Proof.
  destruct it as [i task]. unfold Server.executeWorkflowTask.
  destruct (Server.findBestAgent (Server.agents sv) (wt_capability task)); cbn.
  - split; [|reflexivity]. eexists. split; [reflexivity|]. now repeat constructor.
  - split; [apply quiet_refl | reflexivity].
Qed.

Lemma dispatch_all_quiet todo : forall sv r,
  quiet sv (fst (fst (Server.dispatch_all sv r todo))).
Proof.
  induction todo as [|it rest IH]; intros sv r; [apply quiet_refl|].
  cbn [Server.dispatch_all].
  destruct (executeWorkflowTask_quiet sv r it) as [H _].
  destruct (Server.executeWorkflowTask sv r it) as [[sv1 r1] p]. cbn [fst] in H.
  specialize (IH sv1 r1).
  destruct (Server.dispatch_all sv1 r1 rest) as [[sv2 r2] pids]. cbn [fst] in *.
  eapply quiet_trans; eassumption.
Qed.

(** The loop sends [workflow:completed] when it comes to its end, and
    only then. *)
Lemma sequential_loop_announces todo : forall sv r,
  exists new,
    Server.outbox (fst (Server.sequential_loop sv r todo)) = Server.outbox sv ++ new /\
    forall k, filter (completed_for k) new
              = filter (completed_for k)
                  (announcement (snd (Server.sequential_loop sv r todo))).
Proof.
  induction todo as [|it rest IH]; intros sv r.
  - cbn. eexists. split; [reflexivity|]. reflexivity.
  - cbn [Server.sequential_loop].
    destruct (executeWorkflowTask_quiet sv r it) as [(n1 & H1 & Hq) Hc].
    destruct (Server.executeWorkflowTask sv r it) as [[sv1 r1] p]. cbn [fst snd] in *.
    destruct (Server.p_value p) as [v|].
    + destruct (IH sv1 (Server.push_results r1 [v])) as (n2 & H2 & Hk).
      exists (n1 ++ n2). rewrite H2, H1, app_assoc. split; [reflexivity|].
      intro k. rewrite filter_app, (filter_quiet k Hq). apply Hk.
    + exists n1. split; [exact H1|]. intro k. rewrite (filter_quiet k Hq).
      reflexivity.
Qed.

Lemma resume_announces sv r : announces (sv, r) (Server.resume sv r).
Proof.
  unfold announces, Server.resume. cbn [fst snd].
  destruct (Server.cont r) as [pids sequential|pid rest|] eqn:Ec.
  - assert (Hr : returned r = false) by (unfold returned; now rewrite Ec).
    rewrite Hr. destruct (forallb _ _).
    + destruct (sequential_loop_announces sequential sv
                  (Server.push_results r (Server.values r pids))) as (new & H & Hk).
      exists new. split; [exact H|]. split; [exact Hk | discriminate].
    + exists []. rewrite app_nil_r. cbn [fst snd]. split; [reflexivity|].
      split; [|discriminate]. intro k. unfold announcement. now rewrite Hr.
  - assert (Hr : returned r = false) by (unfold returned; now rewrite Ec).
    rewrite Hr. destruct (Server.promise_value r pid) as [v|].
    + destruct (sequential_loop_announces rest sv (Server.push_results r [v]))
        as (new & H & Hk).
      exists new. split; [exact H|]. split; [exact Hk | discriminate].
    + exists []. rewrite app_nil_r. cbn [fst snd]. split; [reflexivity|].
      split; [|discriminate]. intro k. unfold announcement. now rewrite Hr.
  - assert (Hr : returned r = true) by (unfold returned; now rewrite Ec).
    rewrite Hr. exists []. rewrite app_nil_r. cbn [fst snd]. now repeat split.
Qed.

Lemma attempt_step_announces st e :
  (exists taskId, e = Server.TimerFires taskId) \/
  (exists taskId pl, e = Server.TaskCompleteSignal taskId pl) ->
  announces st (Server.step st e).
Proof.
  destruct st as [sv r].
  assert (H : forall f, announces (sv, r) (Server.resume sv (Server.deliver f r))).
  { intro f. destruct (resume_announces sv (Server.deliver f r)) as (new & H1 & H2 & H3).
    exists new. cbn [fst snd] in *. split; [exact H1|]. split; [exact H2|].
    intro Hr. rewrite (H3 Hr). reflexivity. }
  intros [[taskId ->]|[taskId [pl ->]]]; apply H.
Qed.

Lemma hear_announces sock taskId pl st :
  announces st (Sockets.hear sock taskId pl st).
Proof.
  unfold Sockets.hear. destruct (String.eqb sock _).
  - apply attempt_step_announces. right. now exists taskId, pl.
  - exists []. rewrite app_nil_r. split; [reflexivity|]. split; [|reflexivity].
    intro k. unfold announcement. now destruct (returned (snd st)).
Qed.

Lemma announcement_filter r k :
  filter (completed_for k) (announcement r)
  = if Nat.eqb (Server.wf_id (Server.workflow r)) k then announcement r else [].
Proof.
  unfold announcement. destruct (returned r); cbn;
    now destruct (Nat.eqb (Server.wf_id (Server.workflow r)) k).
Qed.

(** One workflow takes a step; the others stay as they are. *)
Lemma announced_step sv sv1 pre r r1 post :
  announced sv (pre ++ r :: post) ->
  announces (sv, r) (sv1, r1) ->
  same_store sv sv1 -> same_request r r1 ->
  announced sv1 (pre ++ r1 :: post).
Proof.
  intros (Hnd & Hlt & Hhigh & Hall) (new & Hout & Hk & Hret) Hs (_ & Hid & _).
  cbn [fst snd] in *. destruct Hs as (_ & _ & _ & _ & Hu).
  assert (Hids : List.map (fun r => Server.wf_id (Server.workflow r)) (pre ++ r1 :: post)
                 = List.map (fun r => Server.wf_id (Server.workflow r)) (pre ++ r :: post)).
  { rewrite !List.map_app. cbn [List.map]. now rewrite Hid. }
  assert (Hrlt : (Server.wf_id (Server.workflow r) < Server.uuids sv)%nat).
  { rewrite Forall_forall in Hlt. apply Hlt, in_elt. }
  assert (Hnew : forall k, k <> Server.wf_id (Server.workflow r) ->
                           filter (completed_for k) new = []).
  { intros k Hne. rewrite Hk. destruct (returned r); [reflexivity|].
    rewrite announcement_filter, Hid.
    destruct (Nat.eqb (Server.wf_id (Server.workflow r)) k) eqn:E; [|reflexivity].
    apply Nat.eqb_eq in E. congruence. }
  unfold announced. rewrite Hids. split; [exact Hnd|]. split; [|split].
  - apply Forall_app in Hlt. destruct Hlt as [Hl1 Hl2].
    inversion Hl2 as [|? ? Hl3 Hl4]; subst.
    apply Forall_app. split.
    + eapply Forall_impl; [|exact Hl1]. cbn. intros; lia.
    + constructor; [rewrite Hid; lia|].
      eapply Forall_impl; [|exact Hl4]. cbn. intros; lia.
  - intros k Hk'. rewrite Hout, filter_app, Hhigh by lia.
    rewrite Hnew by lia. reflexivity.
  - apply Forall_app in Hall. destruct Hall as [Ha1 Ha2].
    inversion Ha2 as [|? ? Ha3 Ha4]; subst.
    rewrite List.map_app in Hnd. cbn [List.map] in Hnd.
    pose proof (NoDup_remove_2 _ _ _ Hnd) as Hnotin.
    assert (Hother : forall r', In r' (pre ++ post) ->
              filter (completed_for (Server.wf_id (Server.workflow r')))
                     (Server.outbox sv)
              = announcement r' ->
              filter (completed_for (Server.wf_id (Server.workflow r')))
                     (Server.outbox sv1)
              = announcement r').
    { intros r' Hin Hr'. rewrite Hout, filter_app, Hr', Hnew, app_nil_r; [reflexivity|].
      intro E. apply Hnotin. rewrite <- E, <- List.map_app.
      now apply (in_map (fun r => Server.wf_id (Server.workflow r))). }
    apply Forall_app. split.
    + apply Forall_forall. intros r' Hin. apply Hother; [apply in_or_app; now left|].
      rewrite Forall_forall in Ha1. now apply Ha1.
    + constructor.
      * rewrite Hid, Hout, filter_app, Ha3, Hk.
        destruct (returned r) eqn:Er.
        -- rewrite app_nil_r. symmetry. now apply Hret.
        -- unfold announcement at 1. rewrite Er. cbn [app].
           rewrite announcement_filter, Hid, Nat.eqb_refl. reflexivity.
      * apply Forall_forall. intros r' Hin. apply Hother; [apply in_or_app; now right|].
        rewrite Forall_forall in Ha4. now apply Ha4.
Qed.

Lemma each_run_announced f :
  (forall st, announces st (f st) /\ same_store (fst st) (fst (f st))
              /\ same_request (snd st) (snd (f st))) ->
  forall rs pre sv,
    announced sv (pre ++ rs) ->
    announced (fst (Sockets.each_run f sv rs)) (pre ++ snd (Sockets.each_run f sv rs)).
Proof.
  intros Hf. induction rs as [|r rs IH]; intros pre sv H; [exact H|].
  cbn [Sockets.each_run].
  destruct (Hf (sv, r)) as (Ha & Hs & Hq).
  destruct (f (sv, r)) as [sv1 r1] eqn:E. cbn [fst snd] in *.
  pose proof (@announced_step _ _ _ _ _ _ H Ha Hs Hq) as H1.
  specialize (IH (pre ++ [r1]) sv1). rewrite <- app_assoc in IH. cbn [app] in IH.
  specialize (IH H1).
  destruct (Sockets.each_run f sv1 rs) as [sv2 rs2]. cbn [fst snd] in *.
  rewrite <- app_assoc in IH. exact IH.
Qed.

(** The handlers that belong to no workflow. *)
Lemma announced_quiet sv sv' rs :
  announced sv rs -> quiet sv sv' -> (Server.uuids sv <= Server.uuids sv')%nat ->
  announced sv' rs.
Proof.
  intros (Hnd & Hlt & Hhigh & Hall) Hq Hu. split; [exact Hnd|]. split; [|split].
  - eapply Forall_impl; [|exact Hlt]. cbn. intros; lia.
  - intros k Hk. rewrite (quiet_filter k Hq). apply Hhigh. lia.
  - eapply Forall_impl; [|exact Hall]. cbn. intros r Hr.
    now rewrite (quiet_filter _ Hq).
Qed.

Lemma emit_quiet sv e : is_workflow_completed e = false -> quiet sv (Server.emit sv e).
Proof. intro H. exists [e]. split; [reflexivity|]. now constructor. Qed.

Lemma on_agent_task_complete_quiet sv data :
  quiet sv (Server.on_agent_task_complete sv data).
Proof.
  unfold Server.on_agent_task_complete.
  destruct (JS.map_get Nat.eqb _ _) as [task|]; [|apply quiet_refl].
  destruct (Server.task_assignedAgent task) as [assigned|]; [|apply quiet_refl].
  destruct (String.eqb assigned ""); [apply quiet_refl|].
  destruct (JS.map_get String.eqb assigned (Server.agents sv)) as [agent|];
    [|apply quiet_refl].
  destruct (match Server.cd_success data with Some b => b | None => true end);
    (eexists; split; [reflexivity|]; now repeat constructor).
Qed.

Lemma on_disconnect_quiet sv sock : quiet sv (Server.on_disconnect sv sock).
Proof.
  unfold Server.on_disconnect.
  match goal with |- quiet _ (fold_left _ ?L ?S) =>
    assert (H : quiet sv S) by (exists []; now rewrite app_nil_r);
    revert H; generalize S; induction L as [|kv l IH]; intros s Hs; [exact Hs|]
  end.
  cbn [fold_left]. apply IH. eapply quiet_trans; [exact Hs|]. now apply emit_quiet.
Qed.

Lemma post_tasks_quiet sv body :
  quiet sv (fst (Server.post_tasks sv body)) /\
  (Server.uuids sv <= Server.uuids (fst (Server.post_tasks sv body)))%nat.
Proof.
  unfold Server.post_tasks. cbn [Server.uuidv4].
  destruct (Server.findBestAgent _ _); cbn.
  - split; [|lia]. eexists. split; [reflexivity|]. now repeat constructor.
  - split; [|lia]. exists []. now rewrite app_nil_r.
Qed.

Lemma on_workflow_execute_announced sv sock wd rs :
  announced sv rs ->
  announced (fst (Server.on_workflow_execute sv sock wd))
            (rs ++ [snd (Server.on_workflow_execute sv sock wd)]).
Proof.
  intros (Hnd & Hlt & Hhigh & Hall).
  destruct (on_workflow_execute_request sv sock wd) as (_ & Hid & _).
  pose proof (on_workflow_execute_store sv sock wd) as (_ & _ & _ & _ & Hu).
  assert (Hout : exists new,
             Server.outbox (fst (Server.on_workflow_execute sv sock wd))
             = Server.outbox sv ++ new /\
             (forall k, filter (completed_for k) new
                        = filter (completed_for k)
                            (announcement (snd (Server.on_workflow_execute sv sock wd)))) /\
             (Server.uuids sv < Server.uuids (fst (Server.on_workflow_execute sv sock wd)))%nat).
  { clear. unfold Server.on_workflow_execute. cbn [Server.uuidv4].
    set (sv1 := Server.mkServer _ _ _ _ _ _).
    set (r := Server.mkRun _ _ _ _ _).
    assert (Hu1 : (Server.uuids sv < Server.uuids sv1)%nat) by (cbn; lia).
    destruct (parallelTasks (Server.wd_tasks wd)) as [|it par].
    - destruct (sequential_loop_announces (sequentialTasks (Server.wd_tasks wd)) sv1 r)
        as (new & H & Hk).
      pose proof (sequential_loop_store (sequentialTasks (Server.wd_tasks wd)) sv1 r)
        as (_ & _ & _ & _ & Hu2).
      exists new. split; [exact H|]. split; [exact Hk | lia].
    - pose proof (dispatch_all_quiet (it :: par) sv1 r) as (n1 & H1 & Hq).
      pose proof (dispatch_all_store (it :: par) sv1 r) as (_ & _ & _ & _ & Hu2).
      destruct (Server.dispatch_all sv1 r (it :: par)) as [[sv2 r2] pids].
      cbn [fst snd] in *.
      match goal with |- context [Server.resume sv2 ?R] =>
        destruct (resume_announces sv2 R) as (n2 & H2 & Hk & _);
        pose proof (resume_store sv2 R) as (_ & _ & _ & _ & Hu3)
      end.
      cbn [fst snd] in *. exists (n1 ++ n2). rewrite H2, H1, app_assoc.
      split; [reflexivity|]. split; [|lia].
      intro k. rewrite filter_app, (filter_quiet k Hq). apply Hk. }
  destruct Hout as (new & Hout & Hk & Hu').
  destruct (Server.on_workflow_execute sv sock wd) as [sv1 r]. cbn [fst snd] in *.
  assert (Hnew : forall k, k <> Server.uuids sv -> filter (completed_for k) new = []).
  { intros k Hne. rewrite Hk, announcement_filter, Hid.
    destruct (Nat.eqb (Server.uuids sv) k) eqn:E; [|reflexivity].
    apply Nat.eqb_eq in E. congruence. }
  split; [|split; [|split]].
  - rewrite List.map_app. cbn [List.map]. rewrite Hid.
    apply NoDup_snoc; [exact Hnd|].
    intro Hin. apply in_map_iff in Hin.
    destruct Hin as (r' & Hr' & Hin). rewrite Forall_forall in Hlt.
    specialize (Hlt r' Hin). lia.
  - apply Forall_app. split.
    + eapply Forall_impl; [|exact Hlt]. cbn. intros; lia.
    + constructor; [rewrite Hid; lia | constructor].
  - intros k Hk'. rewrite Hout, filter_app, Hhigh, Hnew by lia. reflexivity.
  - apply Forall_app. split.
    + apply Forall_forall. intros r' Hin. rewrite Forall_forall in Hall, Hlt.
      rewrite Hout, filter_app, (Hall r' Hin), Hnew, app_nil_r; [reflexivity|].
      specialize (Hlt r' Hin). lia.
    + constructor; [|constructor].
      rewrite Hid, Hout, filter_app, Hhigh, Hk, announcement_filter, Hid, Nat.eqb_refl
        by lia.
      reflexivity.
Qed.

Lemma step_announced w e :
  announced (Sockets.server w) (Sockets.runs w) ->
  announced (Sockets.server (Sockets.step w e)) (Sockets.runs (Sockets.step w e)).
Proof.
  intro H. destruct e; cbn [Sockets.step].
  - exact H.
  - exact H.
  - cbn [Sockets.server Sockets.runs]. eapply announced_quiet; [exact H| |cbn; lia].
    unfold Server.on_agent_register.
    eapply quiet_trans; [|now apply emit_quiet].
    eapply quiet_trans; [|now apply emit_quiet].
    exists []. now rewrite app_nil_r.
  - cbn [Sockets.server Sockets.runs]. eapply announced_quiet; [exact H| |].
    + apply on_agent_task_complete_quiet.
    + destruct (on_agent_task_complete_tasks (Sockets.server w) data) as [-> _]. lia.
  - unfold Sockets.on_agent_message.
    destruct (Sockets.am_targetAgent data) as [t|]; [|exact H].
    destruct (String.eqb t ""); [exact H|].
    cbn [Server.agents Server.set_metrics].
    destruct (JS.map_get String.eqb t (Server.agents (Sockets.server w))); exact H.
  - pose proof (@on_workflow_execute_announced _ sock wd _ H) as H1.
    destruct (Server.on_workflow_execute (Sockets.server w) sock wd) as [sv1 r].
    exact H1.
  - pose proof (@each_run_announced (Sockets.hear sock taskId pl)
                  (fun st => conj (hear_announces sock taskId pl st)
                               (conj (hear_store sock taskId pl st)
                                     (hear_request sock taskId pl st)))
                  (Sockets.runs w) [] (Sockets.server w) H) as H1.
    destruct (Sockets.each_run _ _ _) as [sv1 rs]. exact H1.
  - cbn [Sockets.server Sockets.runs]. eapply announced_quiet; [exact H| |].
    + apply on_disconnect_quiet.
    + destruct (on_disconnect_agents (Sockets.server w) sock) as (_ & _ & _ & ->). lia.
  - cbn [Sockets.server Sockets.runs].
    destruct (post_tasks_quiet (Sockets.server w) body) as [Hq Hu].
    eapply announced_quiet; eassumption.
  - pose proof (@each_run_announced
                  (fun st => Server.step st (Server.TimerFires taskId))
                  (fun st => conj (attempt_step_announces st
                                     (or_introl (ex_intro _ taskId eq_refl)))
                               (conj (attempt_step_store st taskId)
                                     (attempt_step_request st (Server.TimerFires taskId))))
                  (Sockets.runs w) [] (Sockets.server w) H) as H1.
    destruct (Sockets.each_run _ _ _) as [sv1 rs]. exact H1.
  - exact H.
Qed.

Lemma run_events_announced evs : forall w,
  announced (Sockets.server w) (Sockets.runs w) ->
  announced (Sockets.server (Sockets.run_events w evs))
            (Sockets.runs (Sockets.run_events w evs)).
Proof.
  unfold Sockets.run_events.
  induction evs as [|e evs IH]; intros w H; [exact H|].
  cbn [fold_left]. apply IH, step_announced, H.
Qed.

(** X12 In any state the server can reach, the workflows have ids of their
    own, and for every workflow the server has sent [workflow:completed]
    once if [executeWorkflow] has returned, to the client that asked and
    with the workflow as it is since, and not at all if it has not: late
    timers and completions send no second one. *)
Theorem workflow_completed_is_sent_once
    (evs : list Sockets.Event) (r : Server.Run) :
  let w := Sockets.run_events Sockets.initial evs in
  In r (Sockets.runs w) ->
  filter (completed_for (Server.wf_id (Server.workflow r)))
         (Server.outbox (Sockets.server w))
  = match Server.cont r with
    | Server.Returned =>
        [Server.EmitWorkflowCompleted (Server.requester r) (Server.workflow r)]
    | _ => []
    end /\
  (forall r', In r' (Sockets.runs w) ->
              Server.wf_id (Server.workflow r') = Server.wf_id (Server.workflow r) ->
              r' = r).
Proof.
  cbv zeta. intro Hr.
  assert (H0 : announced (Sockets.server Sockets.initial) (Sockets.runs Sockets.initial)).
  { repeat split; cbn; constructor. }
  destruct (run_events_announced evs _ H0) as (Hnd & _ & _ & Hall).
  split.
  - rewrite Forall_forall in Hall. rewrite (Hall r Hr).
    unfold announcement, returned. now destruct (Server.cont r).
  - intros r' Hr' Hid.
    revert Hnd Hr Hr' Hid.
    generalize (Sockets.runs (Sockets.run_events Sockets.initial evs)).
    induction l as [|x l IH]; cbn; intros Hnd Hr Hr' Hid; [contradiction|].
    inversion Hnd as [|? ? Hnotin Hnd']; subst.
    destruct Hr as [->|Hr], Hr' as [->|Hr']; trivial.
    + exfalso. apply Hnotin. rewrite <- Hid.
      now apply (in_map (fun r => Server.wf_id (Server.workflow r))).
    + exfalso. apply Hnotin. rewrite Hid.
      now apply (in_map (fun r => Server.wf_id (Server.workflow r))).
    + now apply IH.
Qed.

(* ================================================================== *)
(** * No workflow waits in vain *)

Lemma sequential_loop_quiescent todo : forall sv r,
  quiescent (snd (Server.sequential_loop sv r todo)).
Proof.
  induction todo as [|it rest IH]; intros sv r; [exact I|].
  cbn [Server.sequential_loop].
  destruct (executeWorkflowTask_run sv r it) as (Hp & _).
  destruct (Server.executeWorkflowTask sv r it) as [[sv1 r1] p]. cbn [fst snd] in *.
  destruct (Server.p_value p) as [v|] eqn:Ev; [apply IH|].
  unfold quiescent, Server.promise_value.
  cbn [snd Server.cont Server.set_cont Server.promises].
  rewrite Hp, nth_error_app2, Nat.sub_diag by lia. exact Ev.
Qed.

Lemma resume_quiescent sv r : quiescent (snd (Server.resume sv r)).
Proof.
  unfold Server.resume.
  destruct (Server.cont r) as [pids sequential|pid rest|] eqn:Ec.
  - destruct (forallb (Server.settled r) pids) eqn:E;
      [apply sequential_loop_quiescent|].
    unfold quiescent. cbn [snd]. now rewrite Ec.
  - destruct (Server.promise_value r pid) as [v|] eqn:E;
      [apply sequential_loop_quiescent|].
    unfold quiescent. cbn [snd]. now rewrite Ec.
  - unfold quiescent. cbn [snd]. now rewrite Ec.
Qed.

Lemma on_workflow_execute_quiescent sv sock wd :
  quiescent (snd (Server.on_workflow_execute sv sock wd)).
Proof.
  unfold Server.on_workflow_execute. cbn [Server.uuidv4].
  destruct (parallelTasks (Server.wd_tasks wd)) as [|it par];
    [apply sequential_loop_quiescent|].
  destruct (Server.dispatch_all _ _ _) as [[sv2 r2] pids].
  apply resume_quiescent.
Qed.

Lemma step_quiescent w e :
  Forall quiescent (Sockets.runs w) ->
  Forall quiescent (Sockets.runs (Sockets.step w e)).
Proof.
  intro H. destruct e; cbn [Sockets.step]; try exact H.
  - destruct (Sockets.on_agent_message (Sockets.server w) sock data). exact H.
  - pose proof (on_workflow_execute_quiescent (Sockets.server w) sock wd) as H1.
    destruct (Server.on_workflow_execute (Sockets.server w) sock wd) as [sv1 r].
    cbn [Sockets.runs snd] in *. apply Forall_app. split; [exact H | now constructor].
  - assert (Hf : forall st, quiescent (snd st) ->
                            quiescent (snd (Sockets.hear sock taskId pl st))).
    { intros [sv r] Hq. unfold Sockets.hear.
      destruct (String.eqb sock _); [apply resume_quiescent | exact Hq]. }
    pose proof (@each_run_forall quiescent _ Hf (Sockets.runs w) (Sockets.server w) H)
      as H1.
    destruct (Sockets.each_run _ _ _) as [sv1 rs]. exact H1.
  - assert (Hf : forall st, quiescent (snd st) ->
                   quiescent (snd (Server.step st (Server.TimerFires taskId)))).
    { intros [sv r] _. apply resume_quiescent. }
    pose proof (@each_run_forall quiescent _ Hf (Sockets.runs w) (Sockets.server w) H)
      as H1.
    destruct (Sockets.each_run _ _ _) as [sv1 rs]. exact H1.
Qed.

Lemma run_events_quiescent evs : forall w,
  Forall quiescent (Sockets.runs w) ->
  Forall quiescent (Sockets.runs (Sockets.run_events w evs)).
Proof.
  unfold Sockets.run_events.
  induction evs as [|e evs IH]; intros w H; [exact H|].
  cbn [fold_left]. apply IH, step_quiescent, H.
Qed.

Lemma forallb_false_exists (A : Type) (f : A -> bool) (l : list A) :
  forallb f l = false -> exists x, In x l /\ f x = false.
Proof.
  induction l as [|x l IH]; cbn; [discriminate|].
  destruct (f x) eqn:E; cbn.
  - intro H. destruct (IH H) as (y & Hy & Hf). exists y. split; [now right | exact Hf].
  - intros _. exists x. split; [now left | exact E].
Qed.

(** X13 In any state the server can reach, a workflow that has not
    returned waits for an attempt that is not settled, and the timer of
    that attempt is pending: the workflow moves on after 30 s at the
    latest, whatever the agents do. *)
Theorem workflow_in_progress_waits_for_a_pending_timer
    (evs : list Sockets.Event) (r : Server.Run) :
  In r (Sockets.runs (Sockets.run_events Sockets.initial evs)) ->
  Server.cont r <> Server.Returned ->
  exists pid p a,
    nth_error (Server.promises r) pid = Some p /\
    match Server.cont r with
    | Server.AwaitAllSettled pids _ => In pid pids
    | Server.AwaitTask awaited _ => pid = awaited
    | Server.Returned => False
    end /\
    Server.p_value p = None /\
    Server.p_attempt p = Some a /\
    Server.at_timer a = true.
Proof.
  intros Hr Hc.
  pose proof (run_events_quiescent evs Sockets.initial (Forall_nil _)) as Hq.
  pose proof (run_events_runs_inv evs Sockets.initial (Forall_nil _)) as Hi.
  pose proof (run_events_lifecycle evs Sockets.initial (Forall_nil _)) as Hl.
  rewrite Forall_forall in Hq, Hi, Hl.
  specialize (Hq r Hr). specialize (Hi r Hr). specialize (Hl r Hr).
  assert (Hfound : forall pid p,
            nth_error (Server.promises r) pid = Some p ->
            Server.p_value p = None ->
            exists a, Server.p_attempt p = Some a /\ Server.at_timer a = true).
  { intros pid p Hn Hv. apply nth_error_In in Hn.
    rewrite Forall_forall in Hl. specialize (Hl p Hn).
    unfold lifecycle in Hl. rewrite Hv in Hl.
    destruct (Server.p_attempt p) as [a|]; [|discriminate].
    exists a. split; [reflexivity | apply Hl]. }
  unfold quiescent in Hq. unfold ServerInv.run_inv in Hi.
  destruct (Server.cont r) as [pids sequential|pid rest|]; [| |contradiction].
  - destruct Hi as (_ & Hpids & _).
    apply forallb_false_exists in Hq. destruct Hq as (pid & Hin & Hs).
    rewrite Hpids in Hin. apply in_seq in Hin.
    destruct (nth_error (Server.promises r) pid) as [p|] eqn:En;
      [|apply nth_error_None in En; lia].
    unfold Server.settled, Server.promise_value in Hs. rewrite En in Hs.
    destruct (Server.p_value p) eqn:Ev; [discriminate|].
    destruct (Hfound pid p En Ev) as (a & Ha & Ht).
    exists pid, p, a. repeat split; trivial. rewrite Hpids. apply in_seq. lia.
  - destruct Hi as (done & cur & others & pc & tp & _ & Hps & Hpid & _).
    assert (En : nth_error (Server.promises r) pid = Some pc).
    { rewrite Hps, Hpid, nth_error_app2, Nat.sub_diag by lia. reflexivity. }
    unfold Server.promise_value in Hq. rewrite En in Hq.
    destruct (Hfound pid pc En Hq) as (a & Ha & Ht).
    exists pid, pc, a. now repeat split.
Qed.

(* ================================================================== *)
(** * The scenarios *)

Lemma task_of_a_departed_agent_stays_as_it_is_witness :
  exists t,
    JS.map_get Nat.eqb 0%nat
      (Server.tasks
         (Sockets.server
            (Sockets.run_events
               (Sockets.run_events Sockets.initial Examples.assigned_then_gone)
               Examples.then_a_late_report)))
    = Some t /\
    Server.task_status t = "assigned" /\ Server.task_assignedAgent t = Some "a".
Proof.
  eexists. split; [|split].
  - apply (@task_of_a_departed_agent_stays_as_it_is Examples.assigned_then_gone
             Examples.then_a_late_report 0%nat _ "a").
    + vm_compute. reflexivity.
    + reflexivity.
    + reflexivity.
    + intros sock caps [H|[H|[H|[]]]]; discriminate.
  - reflexivity.
  - reflexivity.
Defined.

Lemma every_completion_report_is_counted_witness :
  exists agent',
    JS.map_get String.eqb "a"
      (Server.agents
         (fold_left Server.on_agent_task_complete [Examples.report; Examples.report]
            Examples.assigned))
    = Some agent' /\
    Server.totalTasks (Server.performance agent') = 2 /\
    Server.tasksCompleted agent' = 2 /\
    Server.completedTasks
      (Server.metrics
         (fold_left Server.on_agent_task_complete [Examples.report; Examples.report]
            Examples.assigned))
    = 2.
Proof.
  destruct (@every_completion_report_is_counted Examples.assigned 0%nat
              {| Server.task_id := 0; Server.task_type := "analysis";
                 Server.task_capability := "y"; Server.task_data := "payload";
                 Server.task_priority := "medium"; Server.task_status := "assigned";
                 Server.task_assignedAgent := Some "a"; Server.task_result := None |}
              "a" (Server.newAgent "a" ["y"] "socket-a")
              [Examples.report; Examples.report])
    as (agent' & task' & H1 & H2 & H3 & H4 & _).
  - reflexivity.
  - reflexivity.
  - discriminate.
  - reflexivity.
  - repeat constructor.
  - exists agent'. split; [exact H1|]. split; [exact H2|]. split; [exact H3 | exact H4].
Defined.

Lemma agent_message_goes_to_the_registered_socket_witness :
  snd (Sockets.on_agent_message
         (Server.on_agent_register Examples.serverState "socket-a" "a" ["x"])
         "socket-b" Examples.toA)
  = [Sockets.SendAgentMessage "socket-a" Examples.toA] /\
  snd (Sockets.on_agent_message
         (Server.on_disconnect
            (Server.on_agent_register Examples.serverState "socket-a" "a" ["x"])
            "socket-a")
         "socket-b" Examples.toA)
  = [].
Proof.
  destruct (@agent_message_goes_to_the_registered_socket Examples.serverState
              "socket-a" "socket-b" "a" ["x"] Examples.toA) as (H1 & H2 & _).
  - reflexivity.
  - discriminate.
  - cbn. repeat constructor; cbn; intuition discriminate.
  - split; [exact H1 | exact H2].
Defined.

Lemma timed_out_run_in :
  In Examples.timed_out_run
     (Sockets.runs (Sockets.run_events Sockets.initial
                      Examples.answered_on_the_wrong_socket)).
Proof. vm_compute. left. reflexivity. Qed.

Lemma timed_out_promise_in :
  In Examples.timed_out_promise (Server.promises Examples.timed_out_run).
Proof. vm_compute. left. reflexivity. Qed.

Lemma attempt_timer_and_listener_witness :
  exists v,
    Server.p_value Examples.timed_out_promise = Some v /\
    Server.p_listener Examples.timed_out_promise = true /\
    Server.r_error v = Some "Task timeout" /\
    Server.r_success v = Some false.
Proof.
  pose proof (@attempt_timer_and_listener Examples.answered_on_the_wrong_socket
                Examples.timed_out_run Examples.timed_out_promise
                timed_out_run_in timed_out_promise_in) as H.
  destruct (Server.p_attempt Examples.timed_out_promise) as [a|] eqn:E;
    [|vm_compute in E; discriminate E].
  destruct H as (_ & _ & H & _).
  eexists. split; [vm_compute; reflexivity|]. split; [reflexivity|].
  apply H; reflexivity.
Defined.

Lemma only_the_requester_can_complete_a_task_witness :
  exists v,
    Server.p_value Examples.timed_out_promise = Some v /\
    Server.r_success v = Some false /\
    Server.r_task v = "T".
Proof.
  eexists. split; [vm_compute; reflexivity|].
  destruct (@only_the_requester_can_complete_a_task
              Examples.answered_on_the_wrong_socket
              Examples.timed_out_run Examples.timed_out_promise
              (Server.timeoutResult "T" "a" 0)) as (H1 & H2 & _).
  - intros sock taskId pl wd [H|[H|[H|[H|[]]]]]; try discriminate H.
    injection H as <- _ _. intros [H|[H|[H|[H|[]]]]]; discriminate H.
  - exact timed_out_run_in.
  - exact timed_out_promise_in.
  - reflexivity.
  - split; [exact H1 | exact H2].
Defined.

Lemma waiting_run_in :
  In Examples.waiting_run
     (Sockets.runs (Sockets.run_events Sockets.initial Examples.two_workflows)).
Proof. vm_compute. right. left. reflexivity. Qed.

Lemma two_workflows_first_in :
  In (nth 0 (Sockets.runs (Sockets.run_events Sockets.initial Examples.two_workflows))
          Examples.noRun)
     (Sockets.runs (Sockets.run_events Sockets.initial Examples.two_workflows)).
Proof. vm_compute. left. reflexivity. Qed.

Lemma concurrent_workflows_keep_their_phases_witness :
  phased_trace [0%nat; 2%nat; 3%nat] [1%nat] (Server.trace Examples.waiting_run) /\
  Server.trace Examples.waiting_run
  = [Dispatched 0; Dispatched 2; Dispatched 3; Settled 3].
Proof.
  split; [|reflexivity].
  apply (@concurrent_workflows_keep_their_phases Examples.two_workflows
           Examples.waiting_run waiting_run_in).
Defined.

Lemma workflow_completed_is_sent_once_witness :
  List.length
    (filter is_workflow_completed
       (Server.outbox
          (Sockets.server (Sockets.run_events Sockets.initial Examples.two_workflows))))
  = 1%nat /\
  filter (completed_for 2)
     (Server.outbox
        (Sockets.server (Sockets.run_events Sockets.initial Examples.two_workflows)))
  = [].
Proof.
  split; [reflexivity|].
  apply (@workflow_completed_is_sent_once Examples.two_workflows
           Examples.waiting_run waiting_run_in).
Defined.

Lemma workflow_in_progress_waits_for_a_pending_timer_witness :
  exists pid p a,
    nth_error (Server.promises Examples.waiting_run) pid = Some p /\
    Server.p_value p = None /\
    Server.p_attempt p = Some a /\
    Server.at_timer a = true.
Proof.
  destruct (@workflow_in_progress_waits_for_a_pending_timer Examples.two_workflows
              Examples.waiting_run waiting_run_in)
    as (pid & p & a & H1 & _ & H2 & H3 & H4).
  - vm_compute. discriminate.
  - exists pid, p, a. now repeat split.
Defined.

(* ================================================================== *)
(** * collaboration-demo.js: what a run keeps true of the calls it makes *)

Section DemoThreads.
Variable J : Demo.State -> list Demo.Thread -> Prop.
Hypothesis J_agents : forall st st' ths,
  Demo.agents st' = Demo.agents st -> J st ths -> J st' ths.
Hypothesis J_start : forall st it ths,
  J st ths ->
  J (fst (fst (Demo.start_task st it))) (ths ++ [snd (fst (Demo.start_task st it))]).
Hypothesis J_fire : forall st th pre post,
  J st (pre ++ th :: post) ->
  J (fst (fst (Demo.timer_fires st th)))
    (pre ++ snd (fst (Demo.timer_fires st th)) :: post).

Lemma sequential_loop_calls todo : forall st r,
  J st (Demo.threads r) ->
  J (fst (Demo.sequential_loop st r todo))
    (Demo.threads (snd (Demo.sequential_loop st r todo))).
Proof.
  induction todo as [|it rest IH]; intros st r H.
  - cbn. eapply J_agents; [|exact H]. reflexivity.
  - cbn [Demo.sequential_loop].
    set (st0 := match wt_dependencies (snd it) with
                | Some deps => Demo.log st (Demo.LogDependencies deps)
                | None => st end).
    assert (H0 : J st0 (Demo.threads r)).
    { eapply J_agents; [|exact H]. subst st0. now destruct (wt_dependencies (snd it)). }
    pose proof (J_start it H0) as Hs.
    destruct (Demo.start_task st0 it) as [[st1 th] evs]. cbn [fst snd] in Hs.
    destruct (Demo.th_progress th); [exact Hs|].
    apply IH. exact Hs.
Qed.

Lemma sequential_phase_calls st r :
  J st (Demo.threads r) ->
  J (fst (Demo.sequential_phase st r)) (Demo.threads (snd (Demo.sequential_phase st r))).
Proof.
  intro H. unfold Demo.sequential_phase.
  destruct (sequentialTasks (Demo.wf_tasks r)) as [|it todo].
  - cbn. eapply J_agents; [|exact H]. reflexivity.
  - apply sequential_loop_calls. eapply J_agents; [|exact H]. reflexivity.
Qed.

Lemma dispatch_all_calls todo : forall st r,
  J st (Demo.threads r) ->
  J (fst (fst (Demo.dispatch_all st r todo)))
    (Demo.threads (snd (fst (Demo.dispatch_all st r todo)))).
Proof.
  induction todo as [|it rest IH]; intros st r H; [exact H|].
  cbn [Demo.dispatch_all].
  pose proof (J_start it H) as Hs.
  destruct (Demo.start_task st it) as [[st1 th] evs]. cbn [fst snd] in Hs.
  specialize (IH st1 (Demo.set_threads r (Demo.threads r ++ [th]) evs) Hs).
  destruct (Demo.dispatch_all st1 _ rest) as [[st2 r2] pids]. exact IH.
Qed.

Lemma resume_calls st r :
  J st (Demo.threads r) ->
  J (fst (Demo.resume st r)) (Demo.threads (snd (Demo.resume st r))).
Proof.
  intro H. unfold Demo.resume. destruct (Demo.cont r) as [pids|pid rest|wr].
  - destruct (forallb (Demo.finished r) pids); [|exact H].
    now apply sequential_phase_calls.
  - destruct (Demo.thread_result r pid); [|exact H].
    now apply sequential_loop_calls.
  - exact H.
Qed.

Lemma fire_at_calls ths : forall st pid pre,
  J st (pre ++ ths) ->
  J (fst (fst (Demo.fire_at st ths pid))) (pre ++ snd (fst (Demo.fire_at st ths pid))).
Proof.
  induction ths as [|th ths IH]; intros st [|pid] pre H; try exact H.
  - cbn [Demo.fire_at]. pose proof (@J_fire st th pre ths H) as Hf.
    destruct (Demo.timer_fires st th) as [[st1 th1] evs]. exact Hf.
  - cbn [Demo.fire_at]. specialize (IH st pid (pre ++ [th])).
    rewrite <- app_assoc in IH. specialize (IH H).
    destruct (Demo.fire_at st ths pid) as [[st1 ths1] evs]. cbn [fst snd] in *.
    now rewrite <- app_assoc in IH.
Qed.

Lemma step_calls sr e :
  J (fst sr) (Demo.threads (snd sr)) ->
  J (fst (Demo.step sr e)) (Demo.threads (snd (Demo.step sr e))).
Proof.
  destruct sr as [st r]. destruct e as [t|pid]; cbn [Demo.step fst snd]; intro H.
  - eapply J_agents; [|exact H]. reflexivity.
  - pose proof (@fire_at_calls (Demo.threads r) st pid [] H) as Hf.
    destruct (Demo.fire_at st (Demo.threads r) pid) as [[st1 ths] evs].
    cbn [fst snd app] in Hf. now apply resume_calls.
Qed.

Lemma run_events_calls evs : forall sr,
  J (fst sr) (Demo.threads (snd sr)) ->
  J (fst (Demo.run_events sr evs)) (Demo.threads (snd (Demo.run_events sr evs))).
Proof.
  unfold Demo.run_events.
  induction evs as [|e evs IH]; intros sr H; [exact H|].
  cbn [fold_left]. apply IH, step_calls, H.
Qed.

Lemma executeWorkflow_calls st wd :
  J st [] ->
  J (fst (Demo.executeWorkflow st wd)) (Demo.threads (snd (Demo.executeWorkflow st wd))).
Proof.
  intro H. unfold Demo.executeWorkflow.
  destruct (parallelTasks (Demo.wd_tasks wd)) as [|it par].
  - apply sequential_phase_calls. eapply J_agents; [|exact H]. reflexivity.
  - match goal with |- context [Demo.dispatch_all ?s ?r ?l] =>
      assert (H1 : J s (Demo.threads r)) by (eapply J_agents; [|exact H]; reflexivity);
      pose proof (@dispatch_all_calls l s r H1) as H2;
      destruct (Demo.dispatch_all s r l) as [[st2 r2] pids] end.
    cbn [fst snd] in H2. now apply resume_calls.
Qed.

End DemoThreads.

Lemma mutate_get k k' (f : Demo.OrionAgent -> Demo.OrionAgent) m :
  JS.map_get String.eqb k'
    (List.map (fun kv : string * Demo.OrionAgent =>
                 if String.eqb k (fst kv) then (fst kv, f (snd kv)) else kv) m)
  = if String.eqb k k' then option_map f (JS.map_get String.eqb k' m)
    else JS.map_get String.eqb k' m.
Proof.
  induction m as [|[k0 a0] m IH]; cbn [List.map JS.map_get fst snd].
  - now destruct (String.eqb k k').
  - destruct (String.eqb k k0) eqn:E0; cbn [JS.map_get];
      destruct (String.eqb k' k0) eqn:E1.
    + apply String.eqb_eq in E0, E1. subst. now rewrite String.eqb_refl.
    + exact IH.
    + apply String.eqb_eq in E1. subst k0. now rewrite E0.
    + exact IH.
Qed.

Lemma mutate_keys k (f : Demo.OrionAgent -> Demo.OrionAgent) m :
  JS.map_keys (List.map (fun kv : string * Demo.OrionAgent =>
                           if String.eqb k (fst kv) then (fst kv, f (snd kv)) else kv) m)
  = JS.map_keys m.
Proof.
  unfold JS.map_keys. rewrite List.map_map. apply map_ext.
  intros [k0 a0]. cbn [fst snd]. now destruct (String.eqb k k0).
Qed.

Lemma wins_app k ths1 ths2 : wins k (ths1 ++ ths2) = wins k ths1 + wins k ths2.
Proof.
  unfold wins. rewrite results_of_app, filter_app, length_app. lia.
Qed.

Lemma suitable_in_registry st capability a :
  In a (Demo.suitableAgents st capability) -> In a (JS.map_values (Demo.agents st)).
Proof.
  intro H. unfold Demo.suitableAgents in H.
  apply (Permutation_in _ (array_sort_perm Demo.successRate _)) in H.
  now apply filter_In in H.
Qed.

Lemma keyed_value_key m a :
  demo_keyed m -> In a (JS.map_values m) -> In (Demo.id a) (JS.map_keys m).
Proof.
  intros Hk Hin. unfold JS.map_values in Hin. apply in_map_iff in Hin.
  destruct Hin as ([k a'] & Ha & Hin). cbn [snd] in Ha. subst a'.
  unfold demo_keyed in Hk. rewrite Forall_forall in Hk.
  pose proof (Hk _ Hin) as Hid. cbn [fst snd] in Hid. rewrite Hid.
  unfold JS.map_keys. change k with (fst (k, a)). now apply in_map.
Qed.

Lemma ledger_agents m0 st st' ths :
  Demo.agents st' = Demo.agents st -> ledger m0 st ths -> ledger m0 st' ths.
Proof. unfold ledger. intros ->. trivial. Qed.

Lemma ledger_start m0 st it ths :
  ledger m0 st ths ->
  ledger m0 (fst (fst (Demo.start_task st it)))
         (ths ++ [snd (fst (Demo.start_task st it))]).
Proof.
  intros (Hkeys & Hkeyed & Hcand & Hcount). destruct it as [i task].
  unfold Demo.start_task.
  destruct (Demo.suitableAgents st (wt_capability task)) as [|agent rest] eqn:E;
    cbn [fst snd].
  - split; [exact Hkeys|]. split; [exact Hkeyed|]. split.
    + apply Forall_app. split; [exact Hcand|]. repeat constructor.
    + intro k. rewrite wins_app, Hcount. unfold wins at 3. cbn. lia.
  - split; [exact Hkeys|]. split; [exact Hkeyed|]. split.
    + apply Forall_app. split; [exact Hcand|]. constructor; [|constructor].
      cbn [candidates_left Demo.th_progress]. apply Forall_forall. intros a Ha.
      rewrite <- Hkeys. apply keyed_value_key; [exact Hkeyed|].
      apply (@suitable_in_registry st (wt_capability task)). now rewrite E.
    + intro k. rewrite wins_app, Hcount. unfold wins at 3. cbn. lia.
Qed.

Lemma wins_middle k pre th post :
  wins k (pre ++ th :: post) = wins k pre + wins k [th] + wins k post.
Proof.
  change (th :: post) with ([th] ++ post). rewrite !wins_app. lia.
Qed.

Lemma wins_unfinished k th agent pt rest :
  Demo.th_progress th = Demo.Attempting agent pt rest -> wins k [th] = 0.
Proof. intro H. unfold wins, DemoInv.results_of. cbn. now rewrite H. Qed.

Lemma completed_by_mutate k k' pt m :
  In k (JS.map_keys m) ->
  completed_by k'
    (List.map (fun kv : string * Demo.OrionAgent =>
                 if String.eqb k (fst kv)
                 then (fst kv, Demo.record_success pt (snd kv)) else kv) m)
  = completed_by k' m + (if String.eqb k k' then 1 else 0).
Proof.
  intro Hin. unfold completed_by. rewrite mutate_get.
  destruct (String.eqb k k') eqn:E; [|lia].
  apply String.eqb_eq in E. subst k'.
  destruct (JS.map_get String.eqb k m) as [a|] eqn:Eg; [reflexivity|].
  apply (@map_get_none _ _ _ String.eqb_eq) in Eg. contradiction.
Qed.

Lemma ledger_fire m0 st th pre post :
  ledger m0 st (pre ++ th :: post) ->
  ledger m0 (fst (fst (Demo.timer_fires st th)))
         (pre ++ snd (fst (Demo.timer_fires st th)) :: post).
Proof.
  intros (Hkeys & Hkeyed & Hcand & Hcount). unfold Demo.timer_fires.
  destruct (Demo.th_progress th) as [agent pt rest|res] eqn:Ep;
    [|cbn [fst snd]; now repeat split].
  assert (Hth : Forall (fun a => In (Demo.id a) (JS.map_keys m0)) (agent :: rest)).
  { rewrite Forall_forall in Hcand. specialize (Hcand th (in_elt th pre post)).
    unfold candidates_left in Hcand. now rewrite Ep in Hcand. }
  assert (Hothers : forall th',
             Forall (fun a => In (Demo.id a) (JS.map_keys m0)) (candidates_left th') ->
             Forall (fun th => Forall (fun a => In (Demo.id a) (JS.map_keys m0))
                                      (candidates_left th))
                    (pre ++ th' :: post)).
  { intros th' H'. apply Forall_app in Hcand. destruct Hcand as [H1 H2].
    inversion H2; subst. apply Forall_app. split; [exact H1 | now constructor]. }
  assert (Hw : forall k, wins k [th] = 0)
    by (intro k; eapply wins_unfinished; exact Ep).
  destruct (finish_attempt_agents st agent (wt_type (Demo.th_task th)) pt)
    as [[Hs Ha]|[Hs Ha]];
    destruct (Demo.finish_attempt st agent (wt_type (Demo.th_task th)) pt)
      as [st1 result]; cbn [fst snd] in Hs, Ha; rewrite Hs.
  - (* the attempt has failed *)
    assert (Hsame : forall th',
              Forall (fun a => In (Demo.id a) (JS.map_keys m0)) (candidates_left th') ->
              (forall k, wins k [th'] = 0) ->
              forall st', Demo.agents st' = Demo.agents st1 ->
              ledger m0 st' (pre ++ th' :: post)).
    { intros th' Hc' Hw' st' Hst'. unfold ledger. rewrite Hst', Ha.
      split; [exact Hkeys|]. split; [exact Hkeyed|]. split; [now apply Hothers|].
      intro k. rewrite Hcount, !wins_middle, Hw, Hw'. lia. }
    destruct rest as [|next rest']; cbn [fst snd].
    + apply Hsame; [constructor | | reflexivity].
      intro k. unfold wins, DemoInv.results_of. now cbn.
    + apply Hsame; [now inversion Hth | | reflexivity].
      intro k. unfold wins, DemoInv.results_of. now cbn.
  - (* the attempt has succeeded *)
    cbn [fst snd]. unfold ledger. rewrite Ha.
    unfold Demo.mutate. cbn [Demo.agents Demo.set_agents].
    rewrite mutate_keys. split; [exact Hkeys|]. split; [|split].
    + unfold demo_keyed in *. apply Forall_forall. intros kv Hkv.
      apply in_map_iff in Hkv. destruct Hkv as ([k0 a0] & <- & Hin).
      rewrite Forall_forall in Hkeyed. specialize (Hkeyed _ Hin).
      cbn [fst snd] in *. now destruct (String.eqb (Demo.id agent) k0).
    + apply Hothers. constructor.
    + intro k. rewrite completed_by_mutate;
        [|rewrite Hkeys; now inversion Hth].
      rewrite Hcount, !wins_middle, Hw.
      assert (Hwin : wins k
                [{| Demo.th_index := Demo.th_index th; Demo.th_task := Demo.th_task th;
                    Demo.th_progress :=
                      Demo.Finished (Demo.attributed (Demo.th_task th) agent result) |}]
              = if String.eqb (Demo.id agent) k then 1 else 0).
      { unfold wins, DemoInv.results_of, success_of. cbn. rewrite Hs. cbn.
        now destruct (String.eqb (Demo.id agent) k). }
      rewrite Hwin. lia.
Qed.

(** X14 In the demo the counter [tasksCompleted] of an agent counts the
    successes attributed to it: when a workflow has returned, every agent
    has as many more completed tasks as the workflow has successful results
    with its id, whatever the order in which the attempts ended. *)
Theorem tasksCompleted_counts_the_successes
    (st : Demo.State) (wd : Demo.WorkflowData) (evs : list Demo.Event)
    (wr : Demo.WorkflowResult) (k : string) :
  demo_keyed (Demo.agents st) ->
  Demo.cont (snd (Demo.run_events (Demo.executeWorkflow st wd) evs)) = Demo.Returned wr ->
  completed_by k (Demo.agents (fst (Demo.run_events (Demo.executeWorkflow st wd) evs)))
  = completed_by k (Demo.agents st)
    + Z.of_nat (List.length (filter (success_of k) (Demo.wr_results wr))).
Proof.
  intros Hk Hc.
  assert (H0 : ledger (Demo.agents st) st []).
  { unfold ledger. repeat split; trivial. intro k'. unfold wins. cbn. lia. }
  pose proof (@run_events_calls (ledger (Demo.agents st))
                (@ledger_agents (Demo.agents st))
                (@ledger_start (Demo.agents st))
                (@ledger_fire (Demo.agents st)) evs _
                (@executeWorkflow_calls (ledger (Demo.agents st))
                   (@ledger_agents (Demo.agents st))
                   (@ledger_start (Demo.agents st)) st wd H0))
    as (_ & _ & _ & Hcount).
  rewrite Hcount. f_equal. unfold wins.
  pose proof (@demo_run_events_inv (Demo.wd_tasks wd) evs _
                (@executeWorkflow_inv (Demo.wd_tasks wd) st wd eq_refl)) as Hi.
  destruct Hi as (_ & _ & Hi). rewrite Hc in Hi.
  destruct Hi as (tp & _ & _ & Hres & Hwr & _). now rewrite Hwr, Hres.
Qed.

(* ================================================================== *)
(** * collaboration-demo.js: processing times *)



Lemma complexityMultiplier_plain complexity :
  names_inherited complexity = false ->
  exists m, Demo.complexityMultiplier complexity = JS.Num m.
Proof.
  destruct complexity as [c|]; [|now exists 1%Q]. cbn [names_inherited]. intro H.
  unfold Demo.complexityMultiplier. rewrite H.
  destruct (String.eqb c "simple"); [now eexists|].
  destruct (String.eqb c "medium"); [now eexists|].
  destruct (String.eqb c "complex"); now eexists.
Qed.


Lemma begin_attempt_at_least_100 st agent taskType complexity :
  names_inherited complexity = false ->
  at_least 100 (snd (Demo.begin_attempt st agent taskType complexity)).
Proof.
  intro H. unfold Demo.begin_attempt. cbn [Demo.math_random snd].
  destruct (complexityMultiplier_plain complexity H) as [m ->].
  cbn. apply Q.le_max_l.
Qed.


Lemma timed_calls_agents st st' ths :
  Demo.agents st' = Demo.agents st -> timed_calls st ths -> timed_calls st' ths.
Proof. unfold timed_calls. intros ->. trivial. Qed.

Lemma timed_calls_start st it ths :
  timed_calls st ths ->
  timed_calls (fst (fst (Demo.start_task st it)))
              (ths ++ [snd (fst (Demo.start_task st it))]).
Proof.
  intros H Hplain. apply Forall_app in Hplain. destruct Hplain as [Hp Hnew].
  destruct (H Hp) as [Ht Hc]. clear H.
  inversion Hnew as [|? ? Hplain _]; subst. clear Hnew.
  destruct it as [i task]. unfold Demo.start_task in *.
  destruct (Demo.suitableAgents st (wt_capability task)) as [|agent rest];
    cbn [fst snd] in *.
  - split; [|exact Hc]. apply Forall_app. split; [exact Ht|].
    constructor; [|constructor]. right. now split.
  - pose proof (begin_attempt_at_least_100 st agent (wt_type task) (wt_complexity task))
      as Hpt.
    pose proof (begin_attempt_agents st agent (wt_type task) (wt_complexity task))
      as Ha.
    destruct (Demo.begin_attempt st agent (wt_type task) (wt_complexity task))
      as [st1 pt]. cbn [fst snd Demo.th_task] in *.
    split; [|now rewrite Ha]. apply Forall_app. split; [exact Ht|].
    constructor; [now apply Hpt | constructor].
Qed.

Lemma record_success_counters pt a :
  at_least 100 pt -> counters_ok a -> counters_ok (Demo.record_success pt a).
Proof.
  intros Hpt [H0 H1]. unfold counters_ok, at_least in *. cbn.
  destruct pt as [p|]; [|contradiction].
  destruct (Demo.totalResponseTime a) as [t|]; [|contradiction].
  split; [lia|]. cbn.
  rewrite inject_Z_plus. change (inject_Z 1) with 1%Q. lra.
Qed.

Lemma timer_fires_task st th :
  Demo.th_task (snd (fst (Demo.timer_fires st th))) = Demo.th_task th.
Proof.
  unfold Demo.timer_fires.
  destruct (Demo.th_progress th) as [agent pt rest|res]; [|reflexivity].
  destruct (Demo.finish_attempt st agent (wt_type (Demo.th_task th)) pt)
    as [st1 result].
  destruct (Demo.ar_success result); [reflexivity|].
  destruct rest as [|next rest']; [reflexivity|].
  now destruct (Demo.begin_attempt _ next _ _).
Qed.

Lemma or_else_at_least_100 x :
  at_least 100 x -> JS.or_else x (JS.Num 0) = x.
Proof.
  destruct x as [q|]; [|contradiction]. cbn. intro H.
  destruct (Qeq_bool q 0) eqn:E; [|reflexivity].
  apply Qeq_bool_eq in E. rewrite E in H. exfalso. revert H. apply Qlt_not_le.
  reflexivity.
Qed.

Lemma timed_calls_fire st th pre post :
  timed_calls st (pre ++ th :: post) ->
  timed_calls (fst (fst (Demo.timer_fires st th)))
              (pre ++ snd (fst (Demo.timer_fires st th)) :: post).
Proof.
  intros H Hplain.
  assert (Hplain0 : Forall (fun th0 => names_inherited (wt_complexity (Demo.th_task th0))
                                       = false) (pre ++ th :: post)).
  { apply Forall_app in Hplain. destruct Hplain as [H1 H2].
    inversion H2; subst. apply Forall_app. split; [exact H1|].
    constructor; [now rewrite <- (timer_fires_task st th) | assumption]. }
  destruct (H Hplain0) as [Ht Hc]. clear H Hplain.
  assert (Hth : names_inherited (wt_complexity (Demo.th_task th)) = false).
  { rewrite Forall_forall in Hplain0. apply (Hplain0 th (in_elt th pre post)). }
  unfold Demo.timer_fires.
  destruct (Demo.th_progress th) as [agent pt rest|res] eqn:Ep;
    [|cbn [fst snd]; now split].
  assert (Hpt : at_least 100 pt).
  { rewrite Forall_forall in Ht. specialize (Ht th (in_elt th pre post)).
    unfold timed_call in Ht. now rewrite Ep in Ht. }
  assert (Hothers : forall th', timed_call th' -> Forall timed_call (pre ++ th' :: post)).
  { intros th' H'. apply Forall_app in Ht. destruct Ht as [H1 H2].
    inversion H2; subst. apply Forall_app. split; [exact H1 | now constructor]. }
  pose proof (finish_attempt_duration st agent (wt_type (Demo.th_task th)) pt) as Hd.
  destruct (finish_attempt_agents st agent (wt_type (Demo.th_task th)) pt)
    as [[Hs Ha]|[Hs Ha]];
    destruct (Demo.finish_attempt st agent (wt_type (Demo.th_task th)) pt)
      as [st1 result]; cbn [fst snd] in Hs, Ha, Hd; rewrite Hs.
  - destruct rest as [|next rest']; cbn [fst snd].
    + split; [|cbn [Demo.log Demo.agents]; now rewrite Ha].
      apply Hothers. left. cbn. rewrite Hd. now rewrite or_else_at_least_100.
    + pose proof (begin_attempt_at_least_100
                    (Demo.log st1 (Demo.LogFailedTryingBackup (Demo.id agent)))
                    next (wt_type (Demo.th_task th)) (wt_complexity (Demo.th_task th))
                    Hth)
        as Hpt'.
      destruct (Demo.begin_attempt _ next _ _) as [st3 pt'] eqn:Eb.
      assert (Ha3 : Demo.agents st3 = Demo.agents st1).
      { unfold Demo.begin_attempt in Eb. cbn in Eb. injection Eb as <- _. reflexivity. }
      cbn [fst snd] in *. split; [|now rewrite Ha3, Ha].
      apply Hothers. exact Hpt'.
  - cbn [fst snd]. split.
    + apply Hothers. left. cbn. now rewrite Hd.
    + rewrite Ha. unfold Demo.mutate. cbn [Demo.agents Demo.set_agents].
      apply Forall_forall. intros kv Hkv. apply in_map_iff in Hkv.
      destruct Hkv as ([k0 a0] & <- & Hin).
      rewrite Forall_forall in Hc. specialize (Hc _ Hin). cbn [snd fst] in *.
      destruct (String.eqb (Demo.id agent) k0); cbn [snd]; [|exact Hc].
      now apply record_success_counters.
Qed.

Lemma results_of_timed ths :
  Forall timed_call ths -> Forall timed_result (DemoInv.results_of ths).
Proof.
  induction 1 as [|th ths Hth Hths IH]; [constructor|].
  unfold DemoInv.results_of in *. cbn [flat_map]. unfold timed_call in Hth.
  destruct (Demo.th_progress th); [exact IH|]. cbn. now constructor.
Qed.

Lemma keys_in_tasks T (ks : list (nat * WfTask)) :
  (forall it, In it ks -> In it (parallelTasks T) \/ In it (sequentialTasks T)) ->
  Forall (fun it => In (snd it) T) ks.
Proof.
  intro H. apply Forall_forall. intros [i t] Hin. cbn [snd].
  destruct (H _ Hin) as [Hp|Hs].
  - apply in_parallelTasks in Hp. destruct Hp as [Hn _].
    eapply nth_error_In; exact Hn.
  - apply in_sequentialTasks in Hs. destruct Hs as [Hn _].
    eapply nth_error_In; exact Hn.
Qed.

(** The calls of a run are calls for tasks of the workflow. *)
Lemma run_inv_tasks T r :
  DemoInv.run_inv T r ->
  Forall (fun th => In (Demo.th_task th) T) (Demo.threads r).
Proof.
  intros (_ & _ & H).
  assert (Hk : Forall (fun it => In (snd it) T) (List.map DemoInv.key (Demo.threads r))).
  { apply keys_in_tasks. intros it Hin.
    destruct (Demo.cont r) as [pids|pid rest|wr].
    - destruct H as (_ & Hkeys & _). rewrite Hkeys in Hin. now left.
    - destruct H as (done & cur & others & tc & tp & HS & Hths & _ & _ & Hkeys & Hcur & _).
      rewrite Hths, List.map_app, Hkeys in Hin. cbn [List.map] in Hin.
      rewrite Hcur in Hin. rewrite HS.
      apply in_app_or in Hin. destruct Hin as [Hin|[<-|[]]].
      + apply in_app_or in Hin. destruct Hin as [Hin|Hin]; [now left|].
        right. apply in_or_app. now left.
      + right. apply in_or_app. right. now left.
    - destruct H as (tp & _ & Hkeys & _). rewrite Hkeys in Hin.
      apply in_app_or in Hin. tauto. }
  rewrite Forall_map in Hk. exact Hk.
Qed.

(** X16 The times of the demo, for a workflow none of whose tasks names
    an inherited property as its complexity.  From a registry whose
    counters are those of agents whose tasks took at least 100 ms each
    (new agents, for one), at any point of a run: the
    [totalResponseTime] of every agent is a number, at least 100 ms for
    each task it has completed, and an agent that has completed tasks
    reports an average response time of at least 100 ms; and when the
    workflow has returned, every result has a duration of at least 100 ms,
    but for the failures 'No suitable agent found', whose duration is 0. *)
Theorem demo_times_are_at_least_100
    (st : Demo.State) (wd : Demo.WorkflowData) (evs : list Demo.Event) :
  Forall (fun kv => counters_ok (snd kv)) (Demo.agents st) ->
  Forall (fun t => names_inherited (wt_complexity t) = false) (Demo.wd_tasks wd) ->
  let sr := Demo.run_events (Demo.executeWorkflow st wd) evs in
  (forall k a, In (k, a) (Demo.agents (fst sr)) ->
     counters_ok a /\
     (0 < Demo.tasksCompleted a ->
      at_least 100 (Demo.m_avgResponseTime (Demo.getPerformanceMetrics a)))) /\
  (forall wr, Demo.cont (snd sr) = Demo.Returned wr ->
     Forall timed_result (Demo.wr_results wr)).
Proof.
  intros H0 Hplain. cbv zeta.
  assert (Hinit : timed_calls st []) by (intros _; split; [constructor | exact H0]).
  pose proof (@run_events_calls timed_calls timed_calls_agents timed_calls_start
                timed_calls_fire evs _
                (@executeWorkflow_calls timed_calls timed_calls_agents
                   timed_calls_start st wd Hinit)) as Hcalls.
  pose proof (@demo_run_events_inv (Demo.wd_tasks wd) evs _
                (@executeWorkflow_inv (Demo.wd_tasks wd) st wd eq_refl)) as Hi.
  destruct Hcalls as [Ht Hc].
  { pose proof (run_inv_tasks Hi) as Hin. rewrite Forall_forall in Hin, Hplain.
    apply Forall_forall. intros th Hth. apply Hplain, Hin, Hth. }
  split.
  - intros k a Hin. rewrite Forall_forall in Hc. specialize (Hc _ Hin).
    cbn [snd] in Hc. split; [exact Hc|]. intro Hpos. destruct Hc as [_ Hc].
    unfold Demo.getPerformanceMetrics. cbn [Demo.m_avgResponseTime].
    assert (E : (0 <? Demo.tasksCompleted a) = true) by (apply Z.ltb_lt; lia).
    rewrite E.
    assert (Hq : (0 < inject_Z (Demo.tasksCompleted a))%Q).
    { change 0%Q with (inject_Z 0). rewrite <- Zlt_Qlt. exact Hpos. }
    unfold at_least in *. destruct (Demo.totalResponseTime a) as [t|]; [|contradiction].
    cbn. apply Qle_shift_div_l; [exact Hq | exact Hc].
  - intros wr Hcont.
    destruct Hi as (_ & _ & Hi). rewrite Hcont in Hi.
    destruct Hi as (tp & _ & _ & Hres & Hwr & _). rewrite Hwr, Hres.
    now apply results_of_timed.
Qed.

(* ================================================================== *)
(** * collaboration-demo.js: the history and the report *)

Lemma begin_attempt_history st agent taskType complexity :
  Demo.executionHistory (fst (Demo.begin_attempt st agent taskType complexity))
  = Demo.executionHistory st.
Proof. reflexivity. Qed.

Lemma finish_attempt_history st agent taskType pt :
  Demo.executionHistory (fst (Demo.finish_attempt st agent taskType pt))
  = Demo.executionHistory st.
Proof.
  unfold Demo.finish_attempt. cbn [Demo.math_random].
  match goal with |- context [if ?b then _ else _] => destruct b end; reflexivity.
Qed.

Lemma start_task_history st it :
  Demo.executionHistory (fst (fst (Demo.start_task st it))) = Demo.executionHistory st.
Proof.
  destruct it as [i task]. unfold Demo.start_task.
  now destruct (Demo.suitableAgents st (wt_capability task)).
Qed.

Lemma timer_fires_history st th :
  Demo.executionHistory (fst (fst (Demo.timer_fires st th))) = Demo.executionHistory st.
Proof.
  unfold Demo.timer_fires.
  destruct (Demo.th_progress th) as [agent pt rest|res]; [|reflexivity].
  pose proof (finish_attempt_history st agent (wt_type (Demo.th_task th)) pt) as H.
  destruct (Demo.finish_attempt st agent (wt_type (Demo.th_task th)) pt)
    as [st1 result].
  cbn [fst] in H.
  destruct (Demo.ar_success result); [exact H|].
  destruct rest; exact H.
Qed.

Lemma fire_at_history ths : forall st pid,
  Demo.executionHistory (fst (fst (Demo.fire_at st ths pid))) = Demo.executionHistory st.
Proof.
  induction ths as [|th ths IH]; intros st [|pid]; try reflexivity.
  - cbn [Demo.fire_at]. pose proof (timer_fires_history st th) as H.
    now destruct (Demo.timer_fires st th) as [[st1 th1] evs].
  - cbn [Demo.fire_at]. specialize (IH st pid).
    now destruct (Demo.fire_at st ths pid) as [[st1 ths1] evs].
Qed.

Lemma sequential_loop_history todo : forall st r,
  Demo.executionHistory (fst (Demo.sequential_loop st r todo))
  = Demo.executionHistory st ++ demo_returned (snd (Demo.sequential_loop st r todo)).
Proof.
  induction todo as [|it rest IH]; intros st r; [reflexivity|].
  cbn [Demo.sequential_loop].
  set (st0 := match wt_dependencies (snd it) with
              | Some deps => Demo.log st (Demo.LogDependencies deps)
              | None => st end).
  assert (H0 : Demo.executionHistory st0 = Demo.executionHistory st)
    by (subst st0; now destruct (wt_dependencies (snd it))).
  pose proof (start_task_history st0 it) as Hs.
  destruct (Demo.start_task st0 it) as [[st1 th] evs]. cbn [fst] in Hs.
  destruct (Demo.th_progress th).
  - cbn [fst snd]. unfold demo_returned. cbn. now rewrite app_nil_r, Hs, H0.
  - now rewrite IH, Hs, H0.
Qed.

Lemma sequential_phase_history st r :
  Demo.executionHistory (fst (Demo.sequential_phase st r))
  = Demo.executionHistory st ++ demo_returned (snd (Demo.sequential_phase st r)).
Proof.
  unfold Demo.sequential_phase.
  destruct (sequentialTasks (Demo.wf_tasks r)); [reflexivity|].
  now rewrite sequential_loop_history.
Qed.

Lemma dispatch_all_history todo : forall st r,
  Demo.executionHistory (fst (fst (Demo.dispatch_all st r todo)))
  = Demo.executionHistory st.
Proof.
  induction todo as [|it rest IH]; intros st r; [reflexivity|].
  cbn [Demo.dispatch_all].
  pose proof (start_task_history st it) as Hs.
  destruct (Demo.start_task st it) as [[st1 th] evs]. cbn [fst] in Hs.
  specialize (IH st1 (Demo.set_threads r (Demo.threads r ++ [th]) evs)).
  destruct (Demo.dispatch_all st1 _ rest) as [[st2 r2] pids].
  cbn [fst] in *. now rewrite IH.
Qed.

Lemma resume_history st r :
  Demo.executionHistory (fst (Demo.resume st r)) ++ demo_returned r
  = Demo.executionHistory st ++ demo_returned (snd (Demo.resume st r)).
Proof.
  unfold Demo.resume, demo_returned at 1.
  destruct (Demo.cont r) as [pids|pid rest|wr] eqn:Ec.
  - rewrite app_nil_r. destruct (forallb (Demo.finished r) pids).
    + apply sequential_phase_history.
    + cbn [fst snd]. unfold demo_returned. now rewrite Ec, app_nil_r.
  - rewrite app_nil_r. destruct (Demo.thread_result r pid).
    + apply sequential_loop_history.
    + cbn [fst snd]. unfold demo_returned. now rewrite Ec, app_nil_r.
  - cbn [fst snd]. unfold demo_returned. now rewrite Ec.
Qed.

Lemma step_history h0 sr e :
  Demo.executionHistory (fst sr) = h0 ++ demo_returned (snd sr) ->
  Demo.executionHistory (fst (Demo.step sr e))
  = h0 ++ demo_returned (snd (Demo.step sr e)).
Proof.
  destruct sr as [st r]. destruct e as [t|pid]; cbn [Demo.step fst snd]; intro H;
    [exact H|].
  pose proof (fire_at_history (Demo.threads r) st pid) as Hf.
  destruct (Demo.fire_at st (Demo.threads r) pid) as [[st1 ths] evs]. cbn [fst] in Hf.
  pose proof (resume_history st1 (Demo.set_threads r ths evs)) as Hr.
  change (demo_returned (Demo.set_threads r ths evs)) with (demo_returned r) in Hr.
  rewrite Hf, H, <- app_assoc in Hr.
  destruct (demo_returned r) as [|wr l] eqn:Er.
  - rewrite !app_nil_r in Hr. rewrite Hr. now rewrite app_nil_r in H.
  - (* the workflow had returned: nothing happens *)
    unfold demo_returned in Er. unfold Demo.resume.
    cbn [Demo.cont Demo.set_threads].
    destruct (Demo.cont r) eqn:Ec; try discriminate Er.
    cbn [fst snd]. unfold demo_returned. cbn [Demo.cont Demo.set_threads].
    rewrite Ec. injection Er as <- <-. now rewrite Hf.
Qed.

Lemma executeWorkflow_history st wd :
  Demo.executionHistory (fst (Demo.executeWorkflow st wd))
  = Demo.executionHistory st ++ demo_returned (snd (Demo.executeWorkflow st wd)).
Proof.
  unfold Demo.executeWorkflow.
  destruct (parallelTasks (Demo.wd_tasks wd)) as [|it par].
  - now rewrite sequential_phase_history.
  - match goal with |- context [Demo.dispatch_all ?s ?r ?l] =>
      pose proof (dispatch_all_history l s r) as H;
      destruct (Demo.dispatch_all s r l) as [[st2 r2] pids] end.
    cbn [fst] in H.
    pose proof (resume_history st2 (Demo.set_cont r2 (Demo.AwaitAll pids))) as Hr.
    unfold demo_returned at 1 in Hr. cbn [Demo.cont Demo.set_cont] in Hr.
    rewrite app_nil_r in Hr. now rewrite Hr, H.
Qed.

Lemma run_events_history h0 evs : forall sr,
  Demo.executionHistory (fst sr) = h0 ++ demo_returned (snd sr) ->
  Demo.executionHistory (fst (Demo.run_events sr evs))
  = h0 ++ demo_returned (snd (Demo.run_events sr evs)).
Proof.
  unfold Demo.run_events.
  induction evs as [|e evs IH]; intros sr H; [exact H|].
  cbn [fold_left]. apply IH, step_history, H.
Qed.

Lemma fold_left_sum (A : Type) (g : A -> Z) (l : list A) : forall a,
  fold_left (fun sum w => sum + g w) l a
  = a + fold_left (fun sum w => sum + g w) l 0.
Proof.
  induction l as [|x l IH]; intro a; cbn; [lia|].
  rewrite (IH (a + g x)), (IH (g x)). lia.
Qed.

Lemma countTasks_snoc h wr :
  Report.countTasks (h ++ [wr])
  = Report.countTasks h + Z.of_nat (List.length (Demo.wr_results wr)).
Proof. unfold Report.countTasks. now rewrite fold_left_app. Qed.

Lemma results_of_length ths :
  Forall DemoInv.fin ths -> List.length (DemoInv.results_of ths) = List.length ths.
Proof.
  induction 1 as [|th ths Hth Hths IH]; [reflexivity|].
  unfold DemoInv.results_of in *. cbn [flat_map]. unfold DemoInv.fin in Hth.
  destruct (Demo.th_progress th); [contradiction|]. cbn. now rewrite IH.
Qed.

Lemma fixed_part_length m m' :
  fixed_part m' = fixed_part m -> List.length m' = List.length m.
Proof.
  intro H. apply (f_equal (@List.length _)) in H. unfold fixed_part in H.
  now rewrite !length_map in H.
Qed.

(** X17 [executeWorkflow] pushes its result on [executionHistory] once,
    when it returns, and nothing else touches the history.  For the report
    of [generateSystemReport] a returned workflow counts as one more
    workflow and as many more tasks as it had, and the number of agents is
    as before. *)
Theorem executeWorkflow_is_recorded_once
    (st : Demo.State) (wd : Demo.WorkflowData) (evs : list Demo.Event) :
  let sr := Demo.run_events (Demo.executeWorkflow st wd) evs in
  Demo.executionHistory (fst sr)
  = Demo.executionHistory st
    ++ match Demo.cont (snd sr) with Demo.Returned wr => [wr] | _ => [] end /\
  Report.totalAgents (Report.generateSystemReport (fst sr))
  = Report.totalAgents (Report.generateSystemReport st) /\
  match Demo.cont (snd sr) with
  | Demo.Returned wr =>
      Report.totalWorkflows (Report.generateSystemReport (fst sr))
      = Report.totalWorkflows (Report.generateSystemReport st) + 1 /\
      Report.totalTasks (Report.generateSystemReport (fst sr))
      = Report.totalTasks (Report.generateSystemReport st)
        + Z.of_nat (List.length (Demo.wd_tasks wd))
  | _ => Report.totalWorkflows (Report.generateSystemReport (fst sr))
         = Report.totalWorkflows (Report.generateSystemReport st) /\
         Report.totalTasks (Report.generateSystemReport (fst sr))
         = Report.totalTasks (Report.generateSystemReport st)
  end.
Proof.
  cbv zeta.
  pose proof (run_events_history (Demo.executionHistory st) evs _
                (executeWorkflow_history st wd)) as Hh.
  unfold demo_returned in Hh.
  split; [exact Hh|]. split.
  - unfold Report.generateSystemReport. cbn [Report.totalAgents]. f_equal.
    apply fixed_part_length. now rewrite run_events_fixed, executeWorkflow_fixed.
  - pose proof (@demo_run_events_inv (Demo.wd_tasks wd) evs _
                  (@executeWorkflow_inv (Demo.wd_tasks wd) st wd eq_refl)) as Hi.
    unfold Report.generateSystemReport.
    cbn [Report.totalWorkflows Report.totalTasks]. rewrite Hh.
    destruct (Demo.cont (snd (Demo.run_events (Demo.executeWorkflow st wd) evs)))
      as [pids|pid rest|wr] eqn:Ec; rewrite ?app_nil_r; [now split | now split|].
    destruct Hi as (_ & _ & Hi). rewrite Ec in Hi.
    destruct Hi as (tp & Hfin & Hkeys & Hres & Hwr & _).
    rewrite length_app, countTasks_snoc, Hwr, Hres, results_of_length by exact Hfin.
    rewrite <- (length_map DemoInv.key), Hkeys, length_app, phases_length.
    cbn [List.length]. split; lia.
Qed.

Lemma countTasks_flat h :
  Report.countTasks h = Z.of_nat (List.length (flat_map Demo.wr_results h)).
Proof.
  unfold Report.countTasks. induction h as [|w h IH]; [reflexivity|].
  cbn [fold_left flat_map]. rewrite fold_left_sum, IH, length_app. lia.
Qed.

Lemma countSuccessful_flat h :
  Report.countSuccessful h
  = Z.of_nat (List.length (filter Demo.r_success (flat_map Demo.wr_results h))).
Proof.
  unfold Report.countSuccessful. induction h as [|w h IH]; [reflexivity|].
  cbn [fold_left flat_map]. rewrite fold_left_sum, IH, filter_app, length_app. lia.
Qed.

Lemma filter_length_forallb (A : Type) (f : A -> bool) (l : list A) :
  List.length (filter f l) = List.length l <-> forallb f l = true.
Proof.
  induction l as [|x l IH]; cbn; [tauto|].
  pose proof (filter_length_le f l) as Hle.
  destruct (f x); cbn.
  - rewrite <- IH. lia.
  - split; [lia | discriminate].
Qed.

(** X18 The success rate of [generateSystemReport] is the share of
    successful results among all the results of the history, as a
    percentage between 0 and 100; it is 100 exactly when there is a result
    and every result is a success.  Without any result (no workflow yet, or
    only workflows without tasks) it is 0, not a division by zero, even
    though every one of those workflows has [success: true]. *)
Theorem generateSystemReport_successRate (st : Demo.State) :
  let rep := Report.generateSystemReport st in
  let results := flat_map Demo.wr_results (Demo.executionHistory st) in
  Report.totalTasks rep = Z.of_nat (List.length results) /\
  (results = [] -> Report.successRate rep = 0%Q) /\
  (results <> [] ->
   (Report.successRate rep
    == inject_Z (Z.of_nat (List.length (filter Demo.r_success results)))
       / inject_Z (Z.of_nat (List.length results)) * 100)%Q) /\
  (0 <= Report.successRate rep)%Q /\
  (Report.successRate rep <= 100)%Q /\
  ((Report.successRate rep == 100)%Q
   <-> results <> [] /\ forallb Demo.r_success results = true) /\
  (Demo.executionHistory st = [] ->
   Report.totalWorkflows rep = 0 /\ Report.avgWorkflowTime rep = 0).
Proof.
  cbv zeta. unfold Report.generateSystemReport.
  cbn [Report.totalTasks Report.successRate Report.totalWorkflows Report.avgWorkflowTime].
  rewrite countTasks_flat, countSuccessful_flat.
  set (results := flat_map Demo.wr_results (Demo.executionHistory st)).
  pose proof (filter_length_le Demo.r_success results) as Hle.
  pose proof (filter_length_forallb Demo.r_success results) as Hall.
  set (s := List.length (filter Demo.r_success results)) in *.
  set (t := List.length results) in *.
  split; [reflexivity|].
  split; [intro E; unfold t; rewrite E; reflexivity|].
  assert (Hcases : t = 0%nat \/ (0 < t)%nat) by lia.
  destruct Hcases as [E|Hpos].
  - (* no result *)
    rewrite E. cbn [Z.of_nat Z.ltb Z.compare].
    split; [intro Hne; exfalso; apply Hne; now apply length_zero_iff_nil|].
    split; [apply Qle_refl|]. split; [discriminate|]. split.
    + split; [discriminate|]. intros [Hne _]. exfalso. apply Hne.
      now apply length_zero_iff_nil.
    + intros ->. split; reflexivity.
  - assert (Et : (0 <? Z.of_nat t) = true) by (apply Z.ltb_lt; lia).
    rewrite Et.
    assert (HT : (0 < inject_Z (Z.of_nat t))%Q).
    { change 0%Q with (inject_Z 0). rewrite <- Zlt_Qlt. lia. }
    assert (HS0 : (0 <= inject_Z (Z.of_nat s))%Q).
    { change 0%Q with (inject_Z 0). rewrite <- Zle_Qle. lia. }
    assert (HST : (inject_Z (Z.of_nat s) <= inject_Z (Z.of_nat t))%Q).
    { rewrite <- Zle_Qle. lia. }
    set (S := inject_Z (Z.of_nat s)) in *. set (T := inject_Z (Z.of_nat t)) in *.
    assert (Hq : (S / T * T == S)%Q).
    { field. intro Hz. rewrite Hz in HT. now apply Qlt_irrefl in HT. }
    assert (Hq0 : (0 <= S / T)%Q).
    { apply Qle_shift_div_l; [exact HT|]. now rewrite Qmult_0_l. }
    assert (Hq1 : (S / T <= 1)%Q).
    { apply Qle_shift_div_r; [exact HT|]. now rewrite Qmult_1_l. }
    split; [intros _; reflexivity|].
    split; [lra|]. split; [lra|]. split.
    + split.
      * intro H100. split; [intro E; unfold t in Hpos; rewrite E in Hpos; cbn in Hpos; lia|].
        apply Hall.
        assert (Hone : (S / T == 1)%Q) by lra.
        rewrite Hone, Qmult_1_l in Hq. unfold S, T, Qeq in Hq. cbn in Hq.
        change (s = t). lia.
      * intros [_ Hf]. apply Hall in Hf. change (s = t) in Hf.
        assert (HE : (S == T)%Q) by (unfold S, T; now rewrite Hf).
        rewrite HE. field. intro Hz. rewrite Hz in HT. now apply Qlt_irrefl in HT.
    + intros ->. split; reflexivity.
Qed.

Lemma orchestrator_keyed : demo_keyed (Demo.agents Examples.orchestrator).
Proof. unfold demo_keyed. repeat constructor. Qed.

Lemma complexWorkflow_returns :
  Demo.cont (snd (Demo.run_events
                    (Demo.executeWorkflow Examples.orchestrator Examples.complexWorkflow)
                    Examples.fiveTimers))
  = Demo.Returned Examples.complexResult.
Proof. vm_compute. reflexivity. Qed.

Lemma tasksCompleted_counts_the_successes_witness :
  completed_by "code-reviewer"
    (Demo.agents
       (fst (Demo.run_events
               (Demo.executeWorkflow Examples.orchestrator Examples.complexWorkflow)
               Examples.fiveTimers)))
  = 1 /\
  List.map Demo.r_agent (Demo.wr_results Examples.complexResult)
  = [Some "performance-analyzer"; Some "security-specialist"; Some "system-monitor";
     Some "code-reviewer"; Some "knowledge-synthesizer"].
Proof.
  split; [|vm_compute; reflexivity].
  rewrite (@tasksCompleted_counts_the_successes Examples.orchestrator
             Examples.complexWorkflow Examples.fiveTimers Examples.complexResult
             "code-reviewer" orchestrator_keyed complexWorkflow_returns).
  vm_compute. reflexivity.
Defined.

Lemma orchestrator_counters :
  Forall (fun kv => counters_ok (snd kv)) (Demo.agents Examples.orchestrator).
Proof. repeat constructor; cbn; discriminate. Qed.

Lemma complexWorkflow_complexities :
  Forall (fun t => names_inherited (wt_complexity t) = false)
         (Demo.wd_tasks Examples.complexWorkflow).
Proof. repeat constructor. Qed.

Lemma demo_times_are_at_least_100_witness :
  Forall (fun kv => counters_ok (snd kv)) (Demo.agents Examples.orchestrator) /\
  Forall (fun t => names_inherited (wt_complexity t) = false)
         (Demo.wd_tasks Examples.complexWorkflow) /\
  Forall timed_result (Demo.wr_results Examples.complexResult).
Proof.
  split; [exact orchestrator_counters|].
  split; [exact complexWorkflow_complexities|].
  apply (@demo_times_are_at_least_100 Examples.orchestrator Examples.complexWorkflow
           Examples.fiveTimers orchestrator_counters complexWorkflow_complexities).
  exact complexWorkflow_returns.
Defined.

(* ================================================================== *)
(** * The React hook: the message history *)

Lemma slice_last_length (A : Type) n (l : list A) :
  List.length (Hook.slice_last n l) = Nat.min n (List.length l).
Proof. unfold Hook.slice_last. rewrite length_skipn. lia. Qed.

Lemma slice_last_all (A : Type) n (l : list A) :
  (List.length l <= n)%nat -> Hook.slice_last n l = l.
Proof.
  intro H. unfold Hook.slice_last.
  replace (List.length l - n)%nat with 0%nat by lia. reflexivity.
Qed.

Lemma slice_last_suffix (A : Type) n (pre x : list A) :
  (n <= List.length x)%nat -> Hook.slice_last n (pre ++ x) = Hook.slice_last n x.
Proof.
  intro H. unfold Hook.slice_last. rewrite length_app, skipn_app.
  rewrite skipn_all2 by lia. cbn [app]. f_equal. lia.
Qed.

Lemma slice_last_decompose (A : Type) n (l : list A) :
  exists pre, l = pre ++ Hook.slice_last n l /\
              (pre = [] \/ List.length (Hook.slice_last n l) = n).
Proof.
  exists (firstn (List.length l - n) l). unfold Hook.slice_last.
  split; [now rewrite firstn_skipn|].
  destruct (Nat.le_gt_cases (List.length l) n) as [H|H].
  - left. replace (List.length l - n)%nat with 0%nat by lia. reflexivity.
  - right. rewrite length_skipn. lia.
Qed.

(** Keeping the last [n] at each step or only at the end is the
    same. *)
Lemma slice_last_idem (A : Type) n (l more : list A) :
  Hook.slice_last n (Hook.slice_last n l ++ more) = Hook.slice_last n (l ++ more).
Proof.
  destruct (slice_last_decompose n l) as (pre & Hl & [->|Hlen]).
  - cbn [app] in Hl. now rewrite <- Hl.
  - rewrite Hl at 2. rewrite <- app_assoc. symmetry. apply slice_last_suffix.
    rewrite length_app. lia.
Qed.

Lemma push_history_last st message :
  Hook.messageHistory (Hook.push_history st message)
  = Hook.slice_last 100 (Hook.messageHistory st ++ [message]).
Proof.
  unfold Hook.push_history. cbn [Hook.messageHistory Hook.set_history].
  unfold Hook.slice_last. rewrite length_app. cbn [List.length].
  rewrite skipn_app.
  replace (List.length (Hook.messageHistory st) + 1 - 100)%nat
    with (List.length (Hook.messageHistory st) - 99)%nat by lia.
  replace (List.length (Hook.messageHistory st) - 99
           - List.length (Hook.messageHistory st))%nat with 0%nat by lia.
  reflexivity.
Qed.

Lemma step_history_bound st e :
  (List.length (Hook.messageHistory st) <= 100)%nat ->
  (List.length (Hook.messageHistory (Hook.step st e)) <= 100)%nat.
Proof.
  intro H. destruct e; cbn [Hook.step]; trivial.
  - unfold Hook.onAny. cbn [fst Hook.messageHistory Hook.set_metrics].
    rewrite push_history_last, slice_last_length. lia.
  - unfold Hook.sendMessage.
    destruct (negb (Hook.socket st) || negb (Hook.isConnected st)); [exact H|].
    rewrite push_history_last, slice_last_length. lia.
  - unfold Hook.unsubscribe.
    destruct (JS.map_get String.eqb eventType (Hook.eventListeners st)) as [l|];
      [|exact H].
    destruct (Hook.set_delete callback l); exact H.
  - cbn. lia.
Qed.

Lemma run_events_history_bound evs : forall st,
  (List.length (Hook.messageHistory st) <= 100)%nat ->
  (List.length (Hook.messageHistory (Hook.run_events st evs)) <= 100)%nat.
Proof.
  unfold Hook.run_events.
  induction evs as [|e evs IH]; intros st H; [exact H|].
  cbn [fold_left]. apply IH, step_history_bound, H.
Qed.

Lemma incoming_history msgs : forall st,
  Hook.messageHistory
    (Hook.run_events st (List.map (fun m => Hook.Incoming (fst m) (snd m)) msgs))
  = match msgs with
    | [] => Hook.messageHistory st
    | _ => Hook.slice_last 100
             (Hook.messageHistory st
              ++ List.map (fun m => {| Hook.sm_type := fst m;
                                       Hook.sm_payload := Hook.Received (snd m);
                                       Hook.sm_from := None; Hook.sm_to := None |})
                          msgs)
    end /\
  Hook.messagesReceived
    (Hook.metrics
       (Hook.run_events st (List.map (fun m => Hook.Incoming (fst m) (snd m)) msgs)))
  = Hook.messagesReceived (Hook.metrics st) + Z.of_nat (List.length msgs).
Proof.
  unfold Hook.run_events.
  induction msgs as [|m msgs IH]; intro st; [cbn; split; [reflexivity | lia]|].
  cbn [List.map fold_left Hook.step].
  destruct (IH (fst (Hook.onAny st (fst m) (snd m)))) as [IH1 IH2].
  split.
  - rewrite IH1. unfold Hook.onAny at 1 2. cbn [fst Hook.messageHistory Hook.set_metrics].
    rewrite push_history_last.
    destruct msgs as [|m' msgs]; [reflexivity|].
    rewrite slice_last_idem, <- app_assoc. reflexivity.
  - rewrite IH2. unfold Hook.onAny. cbn. lia.
Qed.

(** X19 The hook keeps the last 100 messages.  Whatever happens to it,
    [messageHistory] never holds more than 100 messages; and after any
    number of further events from the server it holds the last 100 of the
    messages it held and the events received, in the order they came,
    each event counted in [metrics.messagesReceived]. *)
Theorem messageHistory_keeps_the_last_100
    (evs : list Hook.Event) (msgs : list (string * string)) :
  let st := Hook.run_events Hook.initial evs in
  let st' := Hook.run_events st
               (List.map (fun m => Hook.Incoming (fst m) (snd m)) msgs) in
  (List.length (Hook.messageHistory st) <= 100)%nat /\
  Hook.messageHistory st'
  = Hook.slice_last 100
      (Hook.messageHistory st
       ++ List.map (fun m => {| Hook.sm_type := fst m;
                                Hook.sm_payload := Hook.Received (snd m);
                                Hook.sm_from := None; Hook.sm_to := None |})
                   msgs) /\
  List.length (Hook.messageHistory st')
  = Nat.min 100 (List.length (Hook.messageHistory st) + List.length msgs) /\
  Hook.messagesReceived (Hook.metrics st')
  = Hook.messagesReceived (Hook.metrics st) + Z.of_nat (List.length msgs).
Proof.
  cbv zeta.
  assert (Hb : (List.length (Hook.messageHistory (Hook.run_events Hook.initial evs))
                <= 100)%nat)
    by (apply run_events_history_bound; cbn; lia).
  destruct (incoming_history msgs (Hook.run_events Hook.initial evs)) as [H1 H2].
  assert (H : Hook.messageHistory
                (Hook.run_events (Hook.run_events Hook.initial evs)
                   (List.map (fun m => Hook.Incoming (fst m) (snd m)) msgs))
              = Hook.slice_last 100
                  (Hook.messageHistory (Hook.run_events Hook.initial evs)
                   ++ List.map (fun m => {| Hook.sm_type := fst m;
                                            Hook.sm_payload := Hook.Received (snd m);
                                            Hook.sm_from := None; Hook.sm_to := None |})
                               msgs)).
  { rewrite H1. destruct msgs; [|reflexivity].
    cbn [List.map]. rewrite app_nil_r. symmetry. now apply slice_last_all. }
  split; [exact Hb|]. split; [exact H|]. split; [|exact H2].
  rewrite H, slice_last_length, length_app, length_map. reflexivity.
Qed.

(* ================================================================== *)
(** * The React hook: subscriptions *)










Section StringMap.
Variable V : Type.





End StringMap.








(* ================================================================== *)
(** * claude-subagent-swarm.js: the tools and the traits of an agent *)

Lemma startsWith_append key : forall s,
  JSString.startsWith s key = true <-> exists rest, s = (key ++ rest)%string.
Proof.
  induction key as [|a key IH]; intro s; cbn.
  - split; [intros _; now exists s | trivial].
    destruct s; reflexivity.
  - destruct s as [|b s]; cbn.
    + split; [discriminate | intros (rest & H); discriminate].
    + rewrite andb_true_iff, Ascii.eqb_eq, IH. split.
      * intros (-> & rest & ->). now exists rest.
      * intros (rest & H). injection H as -> ->. split; [reflexivity | now exists rest].
Qed.

Lemma includes_append key : forall s,
  JSString.includes s key = true
  <-> exists pre rest, s = (pre ++ key ++ rest)%string.
Proof.
  induction s as [|b s IH]; cbn [JSString.includes].
  - rewrite orb_false_r, startsWith_append. split.
    + intros (rest & H). now exists EmptyString, rest.
    + intros (pre & rest & H). destruct pre; [now exists rest | discriminate].
  - rewrite orb_true_iff, startsWith_append, IH. split.
    + intros [(rest & H)|(pre & rest & H)].
      * now exists EmptyString, rest.
      * exists (String b pre), rest. cbn. now rewrite H.
    + intros (pre & rest & H). destruct pre as [|c pre]; cbn in H.
      * left. now exists rest.
      * right. injection H as _ ->. now exists pre, rest.
Qed.

Lemma string_append_assoc (a b c : string) :
  ((a ++ b) ++ c = a ++ (b ++ c))%string.
Proof. induction a as [|x a IH]; cbn; [reflexivity | now rewrite IH]. Qed.

(** A string that includes "blockchain" includes "ai". *)
Lemma blockchain_includes_ai s :
  JSString.includes s "blockchain" = true -> JSString.includes s "ai" = true.
Proof.
  rewrite !includes_append. intros (pre & rest & ->).
  exists (pre ++ "blockch")%string, ("n" ++ rest)%string.
  rewrite string_append_assoc. reflexivity.
Qed.

Lemma find_first (A : Type) (f : A -> bool) (l : list A) x :
  find f l = Some x ->
  exists pre post, l = pre ++ x :: post /\ f x = true /\
                   forall y, In y pre -> f y = false.
Proof.
  induction l as [|a l IH]; cbn; [discriminate|].
  destruct (f a) eqn:E.
  - intros [= ->]. exists [], l. now repeat split.
  - intro H. destruct (IH H) as (pre & post & -> & Hx & Hpre).
    exists (a :: pre), post. repeat split; trivial.
    intros y [<-|Hy]; [exact E | now apply Hpre].
Qed.

(** X21 [getPreferredTools] always returns one of the ten lists of
    [toolMap], of four tools each, the list of 'architecture' when no key
    is part of the specialization.  It never returns the tools of
    'blockchain': a specialization that includes 'blockchain' includes
    'ai', which comes first among the keys. *)
Theorem getPreferredTools_never_blockchain (specialization : string) :
  exists key tools,
    Swarm.getPreferredTools specialization = Some tools /\
    In (key, tools) Swarm.toolMap /\
    List.length tools = 4%nat /\
    key <> "blockchain" /\
    ((forall k, In k (JS.map_keys Swarm.toolMap) ->
                JSString.includes (JSString.toLowerCase specialization) k = false) ->
     key = "architecture").
Proof.
  unfold Swarm.getPreferredTools.
  destruct (find _ (JS.map_keys Swarm.toolMap)) as [k|] eqn:E.
  - destruct (find_first _ _ E) as (pre & post & Hl & Hk & Hpre).
    assert (Hin : In k (JS.map_keys Swarm.toolMap)) by (rewrite Hl; apply in_elt).
    assert (Hne : k <> "blockchain").
    { intros ->.
      assert (Hai : In "ai" pre).
      { cbn in Hl.
        repeat (destruct pre as [|? pre]; cbn in Hl;
                [discriminate Hl || (injection Hl as Hl; try discriminate Hl)
                |injection Hl as <- Hl]);
          try (now repeat (try (left; reflexivity); right)).
        all: try (destruct pre; discriminate Hl). }
      specialize (Hpre _ Hai).
      rewrite (blockchain_includes_ai _ Hk) in Hpre. discriminate. }
    cbn in Hin.
    repeat (destruct Hin as [<-|Hin];
            [eexists; eexists; (split; [reflexivity|]);
             (split; [cbn; now repeat (try (left; reflexivity); right)|]);
             (split; [reflexivity|]); (split; [exact Hne || discriminate|]);
             intro Hnone; rewrite Hnone in Hk;
             [discriminate | rewrite Hl; apply in_elt]|]).
    contradiction.
  - exists "architecture", ["PlantUML"; "Miro"; "Lucidchart"; "C4 Model"].
    split; [reflexivity|]. split; [now left|]. split; [reflexivity|].
    split; [discriminate|]. reflexivity.
Qed.

(* ================================================================== *)
(** * claude-subagent-swarm.js: what the constructor draws *)

Lemma Qfloor_scaled (r : Q) (n : Z) :
  (0 <= r)%Q -> (r < 1)%Q -> 0 < n -> 0 <= Qfloor (r * inject_Z n)%Q < n.
Proof.
  intros H0 H1 Hn.
  assert (Hq : (0 < inject_Z n)%Q) by (unfold Qlt; cbn; lia).
  split.
  - change 0 with (Qfloor (inject_Z 0)). apply Qfloor_resp_le.
    change (inject_Z 0) with 0%Q.
    apply Qmult_le_0_compat; [exact H0 | apply Qlt_le_weak, Hq].
  - assert (H : (inject_Z (Qfloor (r * inject_Z n)) < inject_Z n)%Q).
    { eapply Qle_lt_trans; [apply Qfloor_le|].
      apply Qlt_le_trans with (1 * inject_Z n)%Q;
        [apply Qmult_lt_compat_r; assumption | rewrite Qmult_1_l; apply Qle_refl]. }
    now rewrite <- Zlt_Qlt in H.
Qed.

Lemma pick_in_range (A : Type) (array : list A) (r : Q) :
  array <> [] -> (0 <= r)%Q -> (r < 1)%Q -> picked array r.
Proof.
  intros Hne H0 H1. unfold picked, Swarm.pick.
  assert (Hn : 0 < Z.of_nat (List.length array)) by (destruct array; [congruence | cbn; lia]).
  destruct (Qfloor_scaled H0 H1 Hn) as [Hlo Hhi].
  destruct (Z.ltb_spec (Qfloor (r * inject_Z (Z.of_nat (List.length array)))) 0) as [Hneg|_];
    [lia|].
  destruct (nth_error array (Z.to_nat (Qfloor (r * inject_Z (Z.of_nat (List.length array))))))
    as [x|] eqn:E.
  - exists x. split; [reflexivity | eapply nth_error_In; exact E].
  - apply nth_error_None in E. lia.
Qed.

(** X22 With the four values of [Math.random()] in [0, 1), the
    constructor of a swarm agent gives it a defined trait for each of
    [communication], [approach] and [focus], and an [experienceLevel]
    between 5 and 9; the agent starts 'initializing' with no task
    completed. *)
Theorem newAgent_traits_and_experience (i spec prompt : string)
    (caps : list string) (r1 r2 r3 r4 : Q) :
  (0 <= r1)%Q /\ (r1 < 1)%Q -> (0 <= r2)%Q /\ (r2 < 1)%Q ->
  (0 <= r3)%Q /\ (r3 < 1)%Q -> (0 <= r4)%Q /\ (r4 < 1)%Q ->
  let a := Swarm.newAgent i spec prompt caps r1 r2 r3 r4 in
  Swarm.communication (Swarm.personality a) <> None /\
  Swarm.approach (Swarm.personality a) <> None /\
  Swarm.focus (Swarm.personality a) <> None /\
  5 <= Swarm.experienceLevel (Swarm.knowledge a) <= 9 /\
  Swarm.preferredTools (Swarm.knowledge a) <> None /\
  Swarm.status a = "initializing" /\ Swarm.tasksCompleted a = 0.
Proof.
  intros [A1 B1] [A2 B2] [A3 B3] [A4 B4] a. subst a.
  cbn [Swarm.newAgent Swarm.personality Swarm.knowledge Swarm.generatePersonality
       Swarm.generateKnowledgeBase Swarm.communication Swarm.approach Swarm.focus
       Swarm.experienceLevel Swarm.preferredTools Swarm.status Swarm.tasksCompleted].
  assert (Hp : forall (l : list string) r, l <> [] -> (0 <= r)%Q -> (r < 1)%Q ->
                 Swarm.pick l r <> None).
  { intros l r Hl H0 H1. destruct (pick_in_range Hl H0 H1) as (x & -> & _). discriminate. }
  repeat split; try (apply Hp; [discriminate | assumption | assumption]).
  - pose proof (@Qfloor_scaled r4 5 A4 B4 ltac:(lia)) as [H _].
    change (inject_Z 5) with 5%Q in H. lia.
  - pose proof (@Qfloor_scaled r4 5 A4 B4 ltac:(lia)) as [_ H].
    change (inject_Z 5) with 5%Q in H. lia.
  - unfold Swarm.getPreferredTools.
    destruct (find _ _) as [k|] eqn:E; [|discriminate].
    apply find_some in E. destruct E as [Hin _]. cbn in Hin.
    repeat (destruct Hin as [<-|Hin]; [discriminate|]). contradiction.
Qed.

Lemma newAgent_traits_and_experience_witness :
  let a := Swarm.newAgent "arch-001" "System Architecture" "" ["design"; "review"]
             (1 # 2) 0 (99 # 100) (4 # 5) in
  Swarm.communication (Swarm.personality a) <> None /\
  Swarm.approach (Swarm.personality a) <> None /\
  Swarm.focus (Swarm.personality a) <> None /\
  5 <= Swarm.experienceLevel (Swarm.knowledge a) <= 9 /\
  Swarm.preferredTools (Swarm.knowledge a) <> None /\
  Swarm.status a = "initializing" /\ Swarm.tasksCompleted a = 0.
Proof.
  apply (@newAgent_traits_and_experience "arch-001" "System Architecture" ""
           ["design"; "review"] (1 # 2) 0 (99 # 100) (4 # 5));
    split; unfold Qle, Qlt; cbn; lia.
Defined.

(* ================================================================== *)
(** * The socket server: the average response time *)

Lemma reachable_agent_quotient (a : Server.OrchestrationAgent) :
  reachable_agent a ->
  0 <= Server.tasksCompleted a /\
  (Server.tasksCompleted a = 0 ->
   Server.avgResponseTime a = 0%Q /\
   Server.totalResponseTime (Server.performance a) = 0%Q) /\
  (0 < Server.tasksCompleted a ->
   Server.avgResponseTime a
   = (Server.totalResponseTime (Server.performance a)
      / inject_Z (Server.tasksCompleted a))%Q).
Proof.
  induction 1 as [i caps sock | a rt success Hr (Hc & Hz & Hq)].
  - cbn. split; [lia|]. split; [now split | intro; lia].
  - destruct success;
      cbn [Server.updatePerformance Server.tasksCompleted Server.avgResponseTime
           Server.performance Server.totalResponseTime].
    + split; [lia|]. split; [intro; lia | intros _; reflexivity].
    + split; [exact Hc|]. split; [exact Hz | exact Hq].
Qed.

Lemma same_store_agents_reachable sv sv' :
  same_store sv sv' -> agents_reachable sv -> agents_reachable sv'.
Proof. unfold same_store, agents_reachable. intros (A & _) H. now rewrite A. Qed.

Lemma on_agent_task_complete_agents_reachable sv data :
  agents_reachable sv -> agents_reachable (Server.on_agent_task_complete sv data).
Proof.
  intro H. unfold Server.on_agent_task_complete.
  destruct (JS.map_get Nat.eqb _ _) as [task|]; [|exact H].
  destruct (Server.task_assignedAgent task) as [assigned|]; [|exact H].
  destruct (String.eqb assigned ""); [exact H|].
  destruct (JS.map_get String.eqb assigned (Server.agents sv)) as [agent|] eqn:E;
    [|exact H].
  assert (Hagent : reachable_agent agent).
  { apply (@map_get_in _ _ _ String.eqb_eq) in E.
    unfold agents_reachable in H. rewrite Forall_forall in H. apply (H _ E). }
  destruct (match Server.cd_success data with Some b => b | None => true end);
    unfold agents_reachable; cbn;
    (apply map_set_forall; [now constructor | exact H]).
Qed.

Lemma on_disconnect_agents_reachable sv sock :
  agents_reachable sv -> agents_reachable (Server.on_disconnect sv sock).
Proof.
  intro H. unfold agents_reachable.
  destruct (on_disconnect_agents sv sock) as [-> _].
  apply Forall_forall. intros kv Hkv. apply filter_In in Hkv.
  unfold agents_reachable in H. rewrite Forall_forall in H. now apply H.
Qed.

Lemma step_agents_reachable w e :
  agents_reachable (Sockets.server w) ->
  agents_reachable (Sockets.server (Sockets.step w e)).
Proof.
  intro H. destruct e; cbn [Sockets.step].
  - exact H.
  - exact H.
  - unfold agents_reachable, Server.on_agent_register. cbn.
    apply map_set_forall; [constructor | exact H].
  - now apply on_agent_task_complete_agents_reachable.
  - unfold Sockets.on_agent_message.
    destruct (Sockets.am_targetAgent data) as [t|]; [|exact H].
    destruct (String.eqb t ""); [exact H|].
    cbn [Server.agents Server.set_metrics].
    destruct (JS.map_get String.eqb t (Server.agents (Sockets.server w))); exact H.
  - pose proof (on_workflow_execute_store (Sockets.server w) sock wd) as Hs.
    destruct (Server.on_workflow_execute (Sockets.server w) sock wd) as [sv1 r].
    cbn [fst Sockets.server] in *. eapply same_store_agents_reachable; eassumption.
  - pose proof (each_run_store (Sockets.hear sock taskId pl)
                  (hear_store sock taskId pl) (Sockets.runs w) (Sockets.server w)) as Hs.
    destruct (Sockets.each_run _ _ _) as [sv1 rs].
    cbn [fst Sockets.server] in *. eapply same_store_agents_reachable; eassumption.
  - now apply on_disconnect_agents_reachable.
  - destruct (post_tasks_registry (Sockets.server w) body) as [A M].
    unfold agents_reachable. cbn [Sockets.server]. now rewrite A.
  - pose proof (each_run_store (fun st => Server.step st (Server.TimerFires taskId))
                  (fun st => attempt_step_store st taskId)
                  (Sockets.runs w) (Sockets.server w)) as Hs.
    destruct (Sockets.each_run _ _ _) as [sv1 rs].
    cbn [fst Sockets.server] in *. eapply same_store_agents_reachable; eassumption.
  - exact H.
Qed.

Lemma run_events_agents_reachable (evs : list Sockets.Event) : forall w,
  agents_reachable (Sockets.server w) ->
  agents_reachable (Sockets.server (Sockets.run_events w evs)).
Proof.
  induction evs as [|e evs IH]; intros w H; cbn; [exact H|].
  apply IH, step_agents_reachable, H.
Qed.

(** X23 In every state of the server, for every agent of the registry:
    as long as it has completed no task, its [avgResponseTime] and its
    [totalResponseTime] are the 0 of the constructor; from its first
    success on, [avgResponseTime] is the value of the quotient
    [totalResponseTime / tasksCompleted] of its current counters, because
    a failure changes none of the three.  The equality is the one of the
    expression that the code evaluates, not an equation solved for it: it
    does not depend on how the division rounds.  [GET /agents] shows the
    agent with this value. *)
Theorem avgResponseTime_is_total_by_completed
    (evs : list Sockets.Event) (agentId : string) (a : Server.OrchestrationAgent) :
  let sv := Sockets.server (Sockets.run_events Sockets.initial evs) in
  JS.map_get String.eqb agentId (Server.agents sv) = Some a ->
  (Server.tasksCompleted a = 0 ->
   Server.avgResponseTime a = 0%Q /\
   Server.totalResponseTime (Server.performance a) = 0%Q) /\
  (Server.tasksCompleted a <> 0 ->
   0 < Server.tasksCompleted a /\
   Server.avgResponseTime a
   = (Server.totalResponseTime (Server.performance a)
      / inject_Z (Server.tasksCompleted a))%Q) /\
  In (Sockets.getStatus a) (fst (Sockets.get_agents sv)) /\
  Sockets.s_avgResponseTime (Sockets.getStatus a) = Server.avgResponseTime a.
Proof.
  intros sv Hg.
  assert (Hr : agents_reachable sv).
  { apply run_events_agents_reachable. constructor. }
  apply (@map_get_in _ _ _ String.eqb_eq) in Hg.
  unfold agents_reachable in Hr. rewrite Forall_forall in Hr.
  destruct (reachable_agent_quotient (Hr _ Hg)) as (Hc & Hz & Hq).
  cbn [snd] in Hc, Hz, Hq.
  split; [exact Hz|]. split.
  { intro Hne. assert (Hpos : 0 < Server.tasksCompleted a) by lia.
    split; [exact Hpos | exact (Hq Hpos)]. }
  split; [|reflexivity].
  unfold Sockets.get_agents, JS.map_values. cbn [fst]. apply in_map.
  apply in_map_iff. exists (agentId, a). now split.
Qed.

Lemma avgResponseTime_is_total_by_completed_witness :
  let sv := Sockets.server
              (Sockets.run_events Sockets.initial Examples.a_success_and_a_failure) in
  let a := Examples.after_a_success_and_a_failure in
  JS.map_get String.eqb "a" (Server.agents sv) = Some a /\
  Server.tasksCompleted a = 1 /\
  Server.totalTasks (Server.performance a) = 2 /\
  Server.avgResponseTime a
  = (Server.totalResponseTime (Server.performance a)
     / inject_Z (Server.tasksCompleted a))%Q /\
  In (Sockets.getStatus a) (fst (Sockets.get_agents sv)).
Proof.
  intros sv a.
  assert (Hg : JS.map_get String.eqb "a" (Server.agents sv) = Some a)
    by (vm_compute; reflexivity).
  destruct (@avgResponseTime_is_total_by_completed
              Examples.a_success_and_a_failure "a" a Hg) as (_ & Hq & Hs & _).
  split; [exact Hg|]. split; [reflexivity|]. split; [reflexivity|].
  split; [apply Hq; discriminate | exact Hs].
Defined.

(* ================================================================== *)
(** * The schedule in two phases, and its progress *)

Lemma Server_step_quiescent st e :
  quiescent (snd st) -> quiescent (snd (Server.step st e)).
Proof.
  destruct st as [sv r]. intro H.
  destruct e; cbn [Server.step snd]; try exact H; apply resume_quiescent.
Qed.

Lemma Server_run_events_quiescent evs : forall st,
  quiescent (snd st) -> quiescent (snd (Server.run_events st evs)).
Proof.
  unfold Server.run_events.
  induction evs as [|e evs IH]; intros st H; [exact H|].
  cbn [fold_left]. apply IH, Server_step_quiescent, H.
Qed.

Lemma Demo_sequential_loop_quiescent todo : forall st r,
  demo_quiescent (snd (Demo.sequential_loop st r todo)).
Proof.
  induction todo as [|it rest IH]; intros st r; [exact I|].
  cbn [Demo.sequential_loop].
  destruct (Demo.start_task _ it) as [[st1 th] evs].
  destruct (Demo.th_progress th) as [agent pt others|res] eqn:Ep; [|apply IH].
  unfold demo_quiescent, Demo.thread_result.
  cbn [snd Demo.cont Demo.set_cont Demo.threads Demo.set_threads].
  rewrite nth_error_app2, Nat.sub_diag by lia. cbn [nth_error].
  destruct th as [i t pr]. cbn in Ep. now rewrite Ep.
Qed.

Lemma Demo_sequential_phase_quiescent st r :
  demo_quiescent (snd (Demo.sequential_phase st r)).
Proof.
  unfold Demo.sequential_phase.
  destruct (sequentialTasks (Demo.wf_tasks r)); [exact I|].
  apply Demo_sequential_loop_quiescent.
Qed.

Lemma Demo_resume_quiescent st r : demo_quiescent (snd (Demo.resume st r)).
Proof.
  unfold Demo.resume.
  destruct (Demo.cont r) as [pids|pid rest|wr] eqn:Ec.
  - destruct (forallb (Demo.finished r) pids) eqn:E;
      [apply Demo_sequential_phase_quiescent|].
    unfold demo_quiescent. cbn [snd]. now rewrite Ec.
  - destruct (Demo.thread_result r pid) as [res|] eqn:E;
      [apply Demo_sequential_loop_quiescent|].
    unfold demo_quiescent. cbn [snd]. now rewrite Ec.
  - unfold demo_quiescent. cbn [snd]. now rewrite Ec.
Qed.

Lemma Demo_executeWorkflow_quiescent st wd :
  demo_quiescent (snd (Demo.executeWorkflow st wd)).
Proof.
  unfold Demo.executeWorkflow.
  destruct (parallelTasks (Demo.wd_tasks wd)) as [|it par];
    [apply Demo_sequential_phase_quiescent|].
  destruct (Demo.dispatch_all _ _ _) as [[st2 r2] pids].
  apply Demo_resume_quiescent.
Qed.

Lemma Demo_step_quiescent sr e :
  demo_quiescent (snd sr) -> demo_quiescent (snd (Demo.step sr e)).
Proof.
  destruct sr as [st r]. intro H. destruct e as [t|pid]; cbn [Demo.step snd].
  - exact H.
  - destruct (Demo.fire_at st (Demo.threads r) pid) as [[st1 ths] evs].
    apply Demo_resume_quiescent.
Qed.

Lemma Demo_run_events_quiescent evs : forall sr,
  demo_quiescent (snd sr) -> demo_quiescent (snd (Demo.run_events sr evs)).
Proof.
  unfold Demo.run_events.
  induction evs as [|e evs IH]; intros sr H; [exact H|].
  cbn [fold_left]. apply IH, Demo_step_quiescent, H.
Qed.

Lemma tasks_sent_app out out' :
  tasks_sent (out ++ out') = tasks_sent out ++ tasks_sent out'.
Proof. apply flat_map_app. Qed.

Lemma attempts_made_app ps ps' :
  attempts_made (ps ++ ps') = attempts_made ps ++ attempts_made ps'.
Proof. apply flat_map_app. Qed.

Lemma executeWorkflowTask_sent base sv r it :
  sent_for base (sv, r) -> sent_for base (fst (Server.executeWorkflowTask sv r it)).
Proof.
  unfold sent_for. cbn [fst snd]. intro H. destruct it as [i task].
  unfold Server.executeWorkflowTask.
  destruct (Server.findBestAgent (Server.agents sv) (wt_capability task));
    cbn [fst snd Server.uuidv4 Server.emit Server.outbox Server.set_promises
         Server.promises].
  - rewrite tasks_sent_app, attempts_made_app, H, <- app_assoc. reflexivity.
  - rewrite attempts_made_app, H. cbn. now rewrite app_nil_r.
Qed.

Lemma complete_sent base sv r :
  sent_for base (sv, r) -> sent_for base (Server.complete sv r).
Proof.
  unfold sent_for, Server.complete. cbn. intro H.
  rewrite tasks_sent_app, H. cbn. now rewrite app_nil_r.
Qed.

Lemma sequential_loop_sent base todo : forall sv r,
  sent_for base (sv, r) -> sent_for base (Server.sequential_loop sv r todo).
Proof.
  induction todo as [|it rest IH]; intros sv r H; [now apply complete_sent|].
  cbn [Server.sequential_loop].
  pose proof (executeWorkflowTask_sent it H) as Hs.
  destruct (Server.executeWorkflowTask sv r it) as [[sv1 r1] p]. cbn [fst] in Hs.
  destruct (Server.p_value p); [apply IH; exact Hs | exact Hs].
Qed.

Lemma dispatch_all_sent base todo : forall sv r,
  sent_for base (sv, r) -> sent_for base (fst (Server.dispatch_all sv r todo)).
Proof.
  induction todo as [|it rest IH]; intros sv r H; [exact H|].
  cbn [Server.dispatch_all].
  pose proof (executeWorkflowTask_sent it H) as Hs.
  destruct (Server.executeWorkflowTask sv r it) as [[sv1 r1] p]. cbn [fst] in Hs.
  specialize (IH sv1 r1 Hs).
  destruct (Server.dispatch_all sv1 r1 rest) as [[sv2 r2] pids]. exact IH.
Qed.

Lemma resume_sent base sv r :
  sent_for base (sv, r) -> sent_for base (Server.resume sv r).
Proof.
  intro H. unfold Server.resume.
  destruct (Server.cont r) as [pids sequential|pid rest|]; [| |exact H].
  - destruct (forallb (Server.settled r) pids); [|exact H].
    apply sequential_loop_sent. exact H.
  - destruct (Server.promise_value r pid); [|exact H].
    apply sequential_loop_sent. exact H.
Qed.

Lemma on_workflow_execute_sent sv sock wd :
  sent_for (tasks_sent (Server.outbox sv)) (Server.on_workflow_execute sv sock wd).
Proof.
  unfold Server.on_workflow_execute. cbn [Server.uuidv4].
  match goal with
  | |- context [Server.sequential_loop ?s ?r0 _] =>
      assert (H0 : sent_for (tasks_sent (Server.outbox sv)) (s, r0))
        by (unfold sent_for; cbn; now rewrite app_nil_r)
  end.
  destruct (parallelTasks (Server.wd_tasks wd)) as [|it par];
    [now apply sequential_loop_sent|].
  pose proof (dispatch_all_sent (it :: par) H0) as Hd.
  destruct (Server.dispatch_all _ _ (it :: par)) as [[sv2 r2] pids]. cbn [fst] in Hd.
  apply resume_sent. exact Hd.
Qed.

Lemma resolve_attempt p v :
  Server.p_attempt (fst (Server.resolve p v)) = Server.p_attempt p.
Proof. unfold Server.resolve. now destruct (Server.p_value p). Qed.

Lemma timer_callback_attempt clock taskId p :
  attempts_made [fst (Server.timer_callback clock taskId p)] = attempts_made [p].
Proof.
  unfold Server.timer_callback.
  destruct (Server.p_attempt p) as [a|] eqn:E; [|reflexivity].
  destruct (Nat.eqb (Server.at_taskId a) taskId && Server.at_timer a); [|reflexivity].
  unfold attempts_made. cbn [flat_map]. rewrite resolve_attempt, E. reflexivity.
Qed.

Lemma listener_callback_attempt clock taskId pl p :
  attempts_made [fst (Server.listener_callback clock taskId pl p)] = attempts_made [p].
Proof.
  unfold Server.listener_callback.
  destruct (Server.p_attempt p) as [a|] eqn:E; [|reflexivity].
  destruct (Nat.eqb (Server.at_taskId a) taskId && Server.at_listener a); [|reflexivity].
  unfold attempts_made. cbn [flat_map]. rewrite resolve_attempt, E. reflexivity.
Qed.

Lemma deliver_sent base f sv r :
  (forall p, attempts_made [fst (f p)] = attempts_made [p]) ->
  sent_for base (sv, r) -> sent_for base (sv, Server.deliver f r).
Proof.
  unfold sent_for. cbn [fst snd Server.deliver Server.set_promises Server.promises].
  intros Hf ->. f_equal.
  induction (Server.promises r) as [|p ps IH]; [reflexivity|].
  cbn [List.map]. change (fst (f p) :: List.map (fun p0 => fst (f p0)) ps)
    with ([fst (f p)] ++ List.map (fun p0 => fst (f p0)) ps).
  change (p :: ps) with ([p] ++ ps).
  now rewrite !attempts_made_app, Hf, IH.
Qed.

Lemma fold_emit_left_sent (A : Type) (g : A -> Server.Emit) (l : list A) :
  (forall x, tasks_sent [g x] = []) ->
  forall sv,
    tasks_sent (Server.outbox (fold_left (fun s x => Server.emit s (g x)) l sv))
    = tasks_sent (Server.outbox sv).
Proof.
  intro Hg. induction l as [|x l IH]; intro sv; [reflexivity|].
  cbn [fold_left]. rewrite IH. cbn [Server.emit Server.outbox].
  now rewrite tasks_sent_app, Hg, app_nil_r.
Qed.

Lemma handlers_sent sv :
  (forall sock agentId caps,
     tasks_sent (Server.outbox (Server.on_agent_register sv sock agentId caps))
     = tasks_sent (Server.outbox sv)) /\
  (forall data,
     tasks_sent (Server.outbox (Server.on_agent_task_complete sv data))
     = tasks_sent (Server.outbox sv)) /\
  (forall sock,
     tasks_sent (Server.outbox (Server.on_disconnect sv sock))
     = tasks_sent (Server.outbox sv)) /\
  (forall body,
     tasks_sent (Server.outbox (fst (Server.post_tasks sv body)))
     = tasks_sent (Server.outbox sv)).
Proof.
  repeat split.
  - intros. unfold Server.on_agent_register. cbn.
    rewrite <- app_assoc, tasks_sent_app. cbn. now rewrite app_nil_r.
  - intro data. unfold Server.on_agent_task_complete.
    destruct (JS.map_get Nat.eqb _ _) as [task|]; [|reflexivity].
    destruct (Server.task_assignedAgent task) as [assigned|]; [|reflexivity].
    destruct (String.eqb assigned ""); [reflexivity|].
    destruct (JS.map_get String.eqb assigned (Server.agents sv)); [|reflexivity].
    destruct (match Server.cd_success data with Some b => b | None => true end);
      cbn; rewrite tasks_sent_app; cbn; now rewrite app_nil_r.
  - intro sock. unfold Server.on_disconnect.
    rewrite fold_emit_left_sent; [reflexivity | reflexivity].
  - intro body. unfold Server.post_tasks. cbn [Server.uuidv4].
    destruct (Server.findBestAgent _ _); cbn; [|reflexivity].
    rewrite tasks_sent_app. cbn. now rewrite app_nil_r.
Qed.

Lemma Server_step_sent base st e :
  sent_for base st -> sent_for base (Server.step st e).
Proof.
  destruct st as [sv r]. intro H.
  destruct (handlers_sent sv) as (H1 & H2 & H3 & H4).
  destruct e; cbn [Server.step].
  - exact H.
  - unfold sent_for in *. cbn [fst snd] in *. now rewrite H1.
  - unfold sent_for in *. cbn [fst snd] in *. now rewrite H2.
  - unfold sent_for in *. cbn [fst snd] in *. now rewrite H3.
  - unfold sent_for in *. cbn [fst snd] in *. now rewrite H4.
  - apply resume_sent, deliver_sent; [apply timer_callback_attempt | exact H].
  - apply resume_sent, deliver_sent; [apply listener_callback_attempt | exact H].
Qed.

Lemma Server_run_events_sent base evs : forall st,
  sent_for base st -> sent_for base (Server.run_events st evs).
Proof.
  unfold Server.run_events.
  induction evs as [|e evs IH]; intros st H; [exact H|].
  cbn [fold_left]. apply IH, Server_step_sent, H.
Qed.

Lemma filter_is_dispatch_seq_trace l :
  filter is_dispatch (seq_trace l) = List.map Dispatched l.
Proof.
  induction l as [|i l IH]; [reflexivity|].
  unfold seq_trace in *. cbn. now rewrite IH.
Qed.

(** Every dispatch of the trace is a call of [executeWorkflowTask], and
    the calls are in the order of the trace. *)
Lemma Server_dispatches T r :
  ServerInv.run_inv T r ->
  filter is_dispatch (Server.trace r)
  = List.map (fun p => Dispatched (Server.p_index p)) (Server.promises r).
Proof.
  unfold ServerInv.run_inv. intro Hi.
  destruct (Server.cont r) as [pids sequential|pid rest|].
  - destruct Hi as (_ & _ & Hidx & _ & [_ Hpp] & _).
    now rewrite Hpp, <- Hidx, List.map_map.
  - destruct Hi as (done & cur & others & pc & tp & _ & Hps & _ & _ & Hidx & Hcur
                    & _ & [[_ Hpp] _] & Hcase).
    rewrite Hps, List.map_app, <- (List.map_map Server.p_index Dispatched), Hidx.
    cbn [List.map]. rewrite Hcur, List.map_app.
    destruct Hcase as [[_ ->]|[_ ->]];
      rewrite !filter_app, Hpp, filter_is_dispatch_seq_trace, <- app_assoc;
      reflexivity.
  - destruct Hi as (tp & _ & Hidx & _ & _ & [[_ Hpp] _] & ->).
    rewrite <- (List.map_map Server.p_index Dispatched), Hidx, List.map_app.
    now rewrite filter_app, Hpp, filter_is_dispatch_seq_trace.
Qed.

(** Every dispatch of the trace is a call of [executeTask], and the calls
    are in the order of the trace. *)
Lemma Demo_dispatches T r :
  DemoInv.run_inv T r ->
  filter is_dispatch (Demo.trace r)
  = List.map (fun th => Dispatched (Demo.th_index th)) (Demo.threads r).
Proof.
  unfold DemoInv.run_inv. intros (_ & _ & Hi).
  assert (Hk : forall ths,
            List.map (fun th => Dispatched (Demo.th_index th)) ths
            = List.map Dispatched (List.map fst (List.map DemoInv.key ths))).
  { intro ths. rewrite !List.map_map. reflexivity. }
  rewrite Hk.
  destruct (Demo.cont r) as [pids|pid rest|wr].
  - destruct Hi as (_ & Hkeys & _ & [_ Hpp] & _). now rewrite Hpp, Hkeys.
  - destruct Hi as (done & cur & others & tc & tp & _ & Hths & _ & _ & Hkeys & Hcur
                    & _ & [[_ Hpp] _] & Hcase).
    rewrite Hths, !List.map_app, Hkeys. cbn [List.map]. rewrite Hcur, !List.map_app.
    destruct Hcase as [[_ ->]|[_ ->]];
      rewrite !filter_app, Hpp, filter_is_dispatch_seq_trace, <- app_assoc;
      reflexivity.
  - destruct Hi as (tp & _ & Hkeys & _ & _ & _ & _ & [[_ Hpp] _] & ->).
    rewrite Hkeys, !List.map_app.
    now rewrite filter_app, Hpp, filter_is_dispatch_seq_trace.
Qed.

Lemma Server_scheduled T r :
  ServerInv.run_inv T r -> quiescent r ->
  exists w,
    Server_waits r w /\
    scheduled (List.map fst (parallelTasks T)) (List.map fst (sequentialTasks T)) w
      (Server.trace r).
Proof.
  unfold ServerInv.run_inv, quiescent, Server_waits. intros Hi Hq.
  destruct (Server.cont r) as [pids sequential|pid rest|].
  - destruct Hi as (_ & Hpids & _ & _ & Hpp & _).
    exists ForPhaseP. split; [|exact Hpp]. split; [reflexivity|].
    apply forallb_false_exists in Hq. destruct Hq as (pid & Hin & Hs).
    assert (Hlt : (pid < List.length (Server.promises r))%nat).
    { rewrite Hpids in Hin. apply in_seq in Hin. lia. }
    destruct (nth_error (Server.promises r) pid) as [p|] eqn:En;
      [|apply nth_error_None in En; lia].
    unfold Server.settled, Server.promise_value in Hs. rewrite En in Hs.
    destruct (Server.p_value p) eqn:Ev; [discriminate|].
    exists pid, p. now repeat split.
  - destruct Hi as (done & cur & others & pc & tp & HS & Hps & Hpid & _ & _ & Hcur
                    & _ & [Hpp Hset] & Hcase).
    assert (En : nth_error (Server.promises r) pid = Some pc).
    { rewrite Hps, Hpid, nth_error_app2, Nat.sub_diag by lia. reflexivity. }
    unfold Server.promise_value in Hq. rewrite En in Hq.
    destruct Hcase as [[_ Htr]|[Hv _]]; [|now elim Hv].
    exists (ForTask (Server.p_index pc)). split; [now exists pc|].
    exists tp, (List.map fst done), (List.map fst rest).
    rewrite HS, List.map_app, Hcur. cbn [List.map].
    split; [reflexivity|]. split; [exact Hpp|]. split; [exact Hset | exact Htr].
  - destruct Hi as (tp & _ & _ & _ & _ & [Hpp Hset] & Htr).
    exists ForNothing. split; [reflexivity|]. now exists tp.
Qed.

Lemma Demo_scheduled T r :
  DemoInv.run_inv T r -> demo_quiescent r ->
  exists w,
    Demo_waits r w /\
    scheduled (List.map fst (parallelTasks T)) (List.map fst (sequentialTasks T)) w
      (Demo.trace r).
Proof.
  unfold DemoInv.run_inv, demo_quiescent, Demo_waits. intros (_ & _ & Hi) Hq.
  assert (Hleft : forall pid th,
            nth_error (Demo.threads r) pid = Some th ->
            Demo.thread_result r pid = None ->
            Liveness.attempts_left th <> 0%nat /\ ~ DemoInv.fin th).
  { intros pid th En Hr. unfold Demo.thread_result in Hr. rewrite En in Hr.
    unfold Liveness.attempts_left, DemoInv.fin.
    destruct th as [i t pr]. cbn in *. destruct pr; [|discriminate].
    split; [discriminate | tauto]. }
  destruct (Demo.cont r) as [pids|pid rest|wr].
  - destruct Hi as (Hpids & _ & _ & Hpp & _).
    exists ForPhaseP. split; [|exact Hpp]. split; [reflexivity|].
    apply forallb_false_exists in Hq. destruct Hq as (pid & Hin & Hs).
    assert (Hlt : (pid < List.length (Demo.threads r))%nat).
    { rewrite Hpids in Hin. apply in_seq in Hin. lia. }
    destruct (nth_error (Demo.threads r) pid) as [th|] eqn:En;
      [|apply nth_error_None in En; lia].
    unfold Demo.finished in Hs.
    destruct (Demo.thread_result r pid) eqn:Er; [discriminate|].
    exists pid, th. split; [exact Hin|]. split; [exact En|].
    apply (Hleft pid th En Er).
  - destruct Hi as (done & cur & others & tc & tp & HS & Hths & Hpid & _ & _ & Hcur
                    & _ & [Hpp Hset] & Hcase).
    assert (En : nth_error (Demo.threads r) pid = Some tc).
    { rewrite Hths, Hpid, nth_error_app2, Nat.sub_diag by lia. reflexivity. }
    destruct (Hleft pid tc En Hq) as [Hl Hnf].
    destruct Hcase as [[_ Htr]|[Hf _]]; [|now elim Hnf].
    exists (ForTask (Demo.th_index tc)). split; [now exists tc|].
    exists tp, (List.map fst done), (List.map fst rest).
    rewrite HS, List.map_app, <- Hcur. cbn [List.map DemoInv.key fst].
    split; [reflexivity|]. split; [exact Hpp|]. split; [exact Hset|].
    rewrite Htr, <- Hcur. reflexivity.
  - destruct Hi as (tp & _ & _ & _ & _ & _ & _ & [Hpp Hset] & Htr).
    exists ForNothing. split; [reflexivity|]. now exists tp.
Qed.

(** C4: [executeWorkflow], in both programs.  Phase P is the tasks with
    [parallel] true and no [dependencies] property, Phase S all the others
    (a task with [dependencies: []] among them), both in the order of
    [workflow.tasks].  At every point of a run, whatever the order in which
    timers fire and messages arrive, the trace is a Phase P part followed
    by a Phase S part: in the first every task of P is dispatched, once,
    before the scheduler waits for anything; the second is empty until
    every task of P has settled, and then has the tasks of S in list order,
    each dispatched when the one before it has settled.  The scheduler does
    not wait in vain: while it waits for Phase P, one of its tasks is not
    settled; otherwise it has dispatched the tasks of S up to the one it
    waits for, which is not settled; and it returns only when every task of
    P and of S has been dispatched and has settled.  A dispatch is a call
    of [executeWorkflowTask] or of [executeTask], and on the server the
    [workflow:task] messages sent are those of the attempts of these calls,
    in their order.  Every run can be taken to its end by events of the
    event loop. *)
Theorem C4_two_phase_schedule (T : list WfTask) :
  (forall i t,
     In (i, t) (parallelTasks T)
     <-> nth_error T i = Some t /\ wt_parallel t = true /\ wt_dependencies t = None) /\
  (forall i t,
     In (i, t) (sequentialTasks T)
     <-> nth_error T i = Some t
         /\ ~ (wt_parallel t = true /\ wt_dependencies t = None)) /\
  StronglySorted lt (List.map fst (parallelTasks T)) /\
  StronglySorted lt (List.map fst (sequentialTasks T)) /\
  (forall sv sock name evs,
     let start := Server.on_workflow_execute sv sock
                    {| Server.wd_name := name; Server.wd_tasks := T |} in
     let r := snd (Server.run_events start evs) in
     phased_trace (List.map fst (parallelTasks T)) (List.map fst (sequentialTasks T))
       (Server.trace r) /\
     (exists w,
        Server_waits r w /\
        scheduled (List.map fst (parallelTasks T)) (List.map fst (sequentialTasks T))
          w (Server.trace r)) /\
     filter is_dispatch (Server.trace r)
     = List.map (fun p => Dispatched (Server.p_index p)) (Server.promises r) /\
     tasks_sent (Server.outbox (fst (Server.run_events start evs)))
     = tasks_sent (Server.outbox sv) ++ attempts_made (Server.promises r) /\
     (exists more,
        Server.cont (snd (Server.run_events start (evs ++ more))) = Server.Returned)) /\
  (forall st name evs,
     let start := Demo.executeWorkflow st
                    {| Demo.wd_name := name; Demo.wd_tasks := T |} in
     let r := snd (Demo.run_events start evs) in
     phased_trace (List.map fst (parallelTasks T)) (List.map fst (sequentialTasks T))
       (Demo.trace r) /\
     (exists w,
        Demo_waits r w /\
        scheduled (List.map fst (parallelTasks T)) (List.map fst (sequentialTasks T))
          w (Demo.trace r)) /\
     filter is_dispatch (Demo.trace r)
     = List.map (fun th => Dispatched (Demo.th_index th)) (Demo.threads r) /\
     (exists more wr,
        Demo.cont (snd (Demo.run_events start (evs ++ more))) = Demo.Returned wr)).
Proof.
  split; [apply in_parallelTasks|].
  split; [apply in_sequentialTasks|].
  split; [apply filter_indexed_increasing|].
  split; [apply filter_indexed_increasing|].
  split.
  - intros sv sock name evs start r.
    pose proof (@run_events_inv T evs _
                  (@on_workflow_execute_inv T sv sock
                     {| Server.wd_name := name; Server.wd_tasks := T |} eq_refl)) as Hi.
    pose proof (@run_events_timed evs _
                  (on_workflow_execute_timed sv sock
                     {| Server.wd_name := name; Server.wd_tasks := T |})) as Ht.
    pose proof (Server_run_events_quiescent evs _
                  (on_workflow_execute_quiescent sv sock
                     {| Server.wd_name := name; Server.wd_tasks := T |})) as Hq.
    fold start in Hi, Ht, Hq. fold r in Hi, Ht, Hq.
    split; [now apply Server_phased_trace|].
    split; [now apply Server_scheduled|].
    split; [now apply (@Server_dispatches T)|].
    split.
    { apply (Server_run_events_sent evs (on_workflow_execute_sent sv sock
               {| Server.wd_name := name; Server.wd_tasks := T |})). }
    subst r. destruct (Server.run_events start evs) as [sv' r'] eqn:E.
    destruct (@run_can_complete T sv' r' Hi Ht) as (more & Hm).
    exists more. now rewrite Server_run_events_app, E.
  - intros st name evs start r.
    pose proof (@demo_run_events_inv T evs _
                  (@executeWorkflow_inv T st
                     {| Demo.wd_name := name; Demo.wd_tasks := T |} eq_refl)) as Hi.
    pose proof (Demo_run_events_quiescent evs _
                  (Demo_executeWorkflow_quiescent st
                     {| Demo.wd_name := name; Demo.wd_tasks := T |})) as Hq.
    fold start in Hi, Hq. fold r in Hi, Hq.
    split; [now apply Demo_phased_trace|].
    split; [now apply Demo_scheduled|].
    split; [now apply (@Demo_dispatches T)|].
    subst r. destruct (Demo.run_events start evs) as [st' r'] eqn:E.
    destruct (@demo_run_can_complete T st' r' Hi) as (more & wr & Hm).
    exists more, wr. now rewrite Demo_run_events_app, E.
Qed.

(** C4, against the wording: a task with [parallel: true] and an empty
    array of dependencies declares no dependency, but it is not in Phase
    P, since an array is truthy.  In a workflow of such a task [E] and a
    parallel task [A] without the property, only [A] is dispatched at
    first; [E] is dispatched when [A] has settled (in the demo, with its
    second attempt). *)
Lemma C4_counterexample_empty_dependencies_is_sequential :
  wt_parallel Examples.taskE = true /\
  wt_dependencies Examples.taskE = Some [] /\
  List.map fst (parallelTasks Examples.twoTasks) = [1%nat] /\
  List.map fst (sequentialTasks Examples.twoTasks) = [0%nat] /\
  Server.trace
    (snd (Server.on_workflow_execute Examples.serverState "client"
            {| Server.wd_name := "w"; Server.wd_tasks := Examples.twoTasks |}))
  = [Dispatched 1] /\
  Server.trace
    (snd (Server.run_events
            (Server.on_workflow_execute Examples.serverState "client"
               {| Server.wd_name := "w"; Server.wd_tasks := Examples.twoTasks |})
            [Server.TaskCompleteSignal 1 Examples.success]))
  = [Dispatched 1; Settled 1; Dispatched 0] /\
  Demo.trace
    (snd (Demo.executeWorkflow Examples.demoState
            {| Demo.wd_name := "w"; Demo.wd_tasks := Examples.twoTasks |}))
  = [Dispatched 1] /\
  Demo.trace
    (snd (Demo.run_events
            (Demo.executeWorkflow Examples.demoState
               {| Demo.wd_name := "w"; Demo.wd_tasks := Examples.twoTasks |})
            [Demo.TimerFires 0; Demo.TimerFires 0]))
  = [Dispatched 1; Settled 1; Dispatched 0].
Proof. repeat split; vm_compute; reflexivity. Qed.
